(* ===== verification/_CoqProject ===== *)
-Q . S2P
Prelude.v
Cursor.v
Arch.v
SSA.v
ConstEval.v
BlockStore.v
Gen.v
GenLogic.v
RegUpdate.v
LowerOps.v
LowerControl.v
Lowering.v
Fixtures.v
LoweringInv.v
ControlBlocks.v
ScratchTable.v
LoweringTotal.v
LoweringFuel.v
LoweringScenarios.v
InstrRange.v
Resolver.v
ResolverSpec.v
ResolverSim.v
Simplifier.v
SimplifierTotal.v
Pipeline.v
