(* ===== verification/Prelude.v ===== *)
(** * A verification library for the holodec SSA middle-end

    The repository's middle-end lowers decoded machine instructions into a
    control-flow graph of SSA nodes (src/main/SSAGen.cpp), links raw branch
    addresses to basic blocks (src/main/SSAAddressToBlockTransformer.cpp)
    and cleans the graph up with a fixpoint pass
    (src/main/SSAAssignmentSimplifier.cpp).  Per function, [SSAGen::setup]
    runs once, then [SSAGen::parseInstruction] once per instruction in
    address order: it asks [matchIr] for the instruction's template (whose
    guard is folded by [parseConstExpression]), then [parseExpression]
    interprets the template, emitting nodes into the active block, opening
    blocks for [if] and repeat-loops, and calling
    [addUpdateRegExpressions] after every register write.  The
    architecture catalog, the template parser (src/main/IRGen.h, of which
    only the cursor has bodies in the sources) and the SSA container
    classes are collaborators the sources only call.

    ** Files, in dependency order

    - [Prelude] (this file): the fatal-error type, a state-and-error monad
      [M] with its notation in [holodec_scope] ([x <- c ;; k], [c ;;; k]),
      [mapM]/[forM_], 64-bit wrap-around [u64], the [holodec] hint
      database and shared tactics.
    - [Cursor]: the cursor of [IRParser] (src/main/IRGen.h): a [size_t]
      index into the template text with [peek], [pop], [consume],
      [pushback], inside [Module Cursor].
    - [Arch]: the read-only catalog (registers with parent links, stacks,
      memories, the template table [irExprs] as a [gmap], instruction
      definitions) and the template AST ([IRArgument], [IRExpression]).
    - [SSA]: SSA arguments, nodes, blocks and the per-function store
      [SSARepresentation] (node and block lists with id generators); the
      arena operations ([addAtEnd], block push) are modelled from the spec
      since SSA.h is not part of the sources.  Edge symmetry
      ([edges_symmetric]) and id well-formedness are stated here.
    - [ConstEval]: [SSAGen::parseConstExpression] (constant guard folding)
      and [SSAGen::matchIr] (first matching candidate).
    - [BlockStore]: [getBlock], [createNewBlock], edge and fallthrough
      updates, and [SSAGen::splitBasicBlock].
    - [Gen]: the session record [SSAGen] (store, call list, active block,
      current instruction, bound operands, scratch table, last operator,
      block flags), its monad [Gen], and the primitives [addExpression],
      [insertLabel], [createNewBlockG], [activateBlock], [getActiveBlock],
      [replaceArg],
      [parseIRArg2SSAArg], [parseMemArgToExpr]; frame lemmas of
      [addExpression].
    - [GenLogic]: a partial-correctness logic for the state-and-error
      monad ([triple], [inv]), its rules and the tactic [htac] that
      follows a handler's structure; used for the lowering session and
      for the resolver's store.  Beside it, [safe P c]: from a state
      satisfying [P], [c] does not end in [OutOfFuel], with rules that
      combine it with the invariant triples.
    - [RegUpdate]: [SSAGen::addUpdateRegExpressions], the parent walk.
    - [LowerOps], [LowerControl]: the handlers of [parseExpression], one
      definition per node kind (assignment, undefine, jumps, operators,
      calls, returns, widths, memory, stacks, flags; [if], repeat-loop,
      recursive instantiation, sequence), each parametrised by the
      recursion [rec].
    - [Lowering]: [parseExpression] (the dispatch [lowerExpr] tied to a
      fuelled recursion), [parseInstruction], [setupForInstr], [setup],
      and the per-function driver [lowerFunction] of the spec.
    - [Fixtures]: a three-register architecture, a template table and
      instructions on which the witnesses run the model.
    - [LoweringInv]: the invariant of the lowering and its consequences.
    - [ControlBlocks]: the predecessor sets [IR_EXPR_IF] and [IR_EXPR_REP]
      leave on the blocks they create, for every conditional or loop
      lowered from a well-formed session.
    - [ScratchTable]: reads and writes of the scratch table [tmpdefs].
    - [LoweringTotal]: ranked template tables and the termination of
      [parseExpression], [parseInstruction] and [lowerFunction].
    - [LoweringFuel]: runs with different fuel agree ([agree] of
      [GenLogic]) wherever the smaller one did not run out.
    - [LoweringScenarios]: concrete runs of the structured-control
      handlers, and the unmatched recursive instantiation in general.
    - [InstrRange]: the address range [parseInstruction] gives the active
      block ([widenBlockStart], [extendBlockEnd]).
    - [Resolver]: [SSAAddressToBlockTransformer::parseExpression] and
      [parseBlock] over the SSA store, and the per-function driver of the
      spec (blocks in order, their nodes, then the block).
    - [ResolverSpec]: the spec's description of the resolver as a function
      [resolved_edges] of the store before the pass, over the out-edge
      relation [edge_set] (a [gset] of pairs), with the views of a block
      the pass reads.
    - [ResolverSim]: the simulation invariant [rs] along the driver's
      loops and the theorems it gives.
    - [Simplifier]: [SSAAssignmentSimplifier::doTransformation]: the scan
      collecting replacements ([collect]), the return-operand walk, the
      spec-modelled [replaceNodes]/[compress], and the fixpoint loop;
      [EXPR_IS_TRANSIENT] of SSA.h is a parameter.
    - [SimplifierTotal]: ranks on transient producers ([chain_ranked])
      and the termination of the return-operand walk.
    - [Pipeline]: the per-function driver of the spec (lower, resolve
      once, simplify), as a composition of phases [SSARepresentation ->
      Result SSARepresentation].

    ** What is proved

    - Guards and matching ([ConstEval]): the matcher is the reference
      [find]; guard evaluation terminates on an acyclic table (fuel one
      above the expression's rank suffices); a guard that is a logical AND
      can never hold (the code folds AND from 0).
    - Blocks ([BlockStore]): the functional behaviour of
      [splitBasicBlock] at each outcome; it keeps address ranges disjoint
      but breaks edge symmetry whenever the split block has a successor
      (successors are not told about the new block).
    - Register writes ([RegUpdate]): one node per ancestor, nearest first,
      only the node store changes, the walk terminates on a ranked parent
      relation (fuel = number of registers suffices); the offset assertion
      is fatal; every ancestor receives the written value itself.
    - Lowering ([LoweringInv]): every primitive, every handler,
      [parseExpression], [parseInstruction] and [lowerFunction] preserve
      [gen_ok]: edges symmetric, edge endpoints and ids within the
      generator, ids distinct, only lowered arguments (no [IR_ARGTYPE_ID],
      no [IR_ARGTYPE_ARG]) in the scratch table and distinct scratch ids
      ([tmp_ok]), the blocks older than the run still present with their
      predecessor sets unchanged ([frozen_blocks]), and the bound
      operands in a chosen class.  Consequences: a whole function lowers to a
      well-formed graph; [parseExpression] never returns an unlowered
      argument, so the retargeting branch of the assignment handler is
      dead; an instruction never adds predecessors to existing blocks.
    - Scratch table ([ScratchTable]): a read returns the value last
      written; a read after [IR_EXPR_UNDEF] is fatal (distinct ids leave
      no older entry behind).
    - Termination ([LoweringTotal]): on a template table ranked so that
      nested nodes and the bodies of recursive instantiations lie lower,
      with ranked register parents and lowered operands, [lowerFunction]
      with fuel above the ranks of its instructions' candidates never
      returns [OutOfFuel]: the template recursion, the placeholder walk,
      the parent walk and every guard evaluation terminate.
    - Fuel ([LoweringFuel]): on any catalog, more fuel never changes a
      lowering result that did not run out of fuel, so every result of
      the model is the result of the unbounded C++ recursion; on a ranked
      catalog any two fuels above the ranks give the same result.
    - Conditionals ([ControlBlocks]): for every [if] lowered with the real
      recursion, the true block (the conditional jump's target) ends with
      no predecessor, so does the false block, and the end block has
      exactly one predecessor (the block of the conditional jump without
      [else]): the edges the spec describes for the branches are missing.
      A loop ([IR_EXPR_REP]) records all four of its edges: the condition
      block has the entry block and the body's last block as predecessors,
      the body and exit blocks have the condition's last block.
    - Recursive instantiation ([LoweringScenarios]): when no candidate
      body matches, nothing is lowered and the run goes on, where the spec
      asks for a fatal error; concrete runs of [if], the repeat-loop
      diamond and a call.
    - Address ranges ([InstrRange]): after an instruction the active
      block ends at or after [(addr + size) mod 2^64]; an instruction in
      the last bytes of the address space leaves its block with an empty
      range because the [uint64_t] sum wraps; on an architecture without
      top-level registers [setup] writes through a null [activeblock].
    - Cursor ([Cursor]): [pushback n] undoes [consume n] modulo [2^64];
      a pushback past the start wraps the index so the next [peek] reads
      outside the text; [n] pops read the next [n] characters.
    - Resolver ([Resolver]): it keeps the block store well formed; a
      non-literal jump target gets the top-level registers appended; a
      block whose last node is not a return (a jump or a trap included)
      and has no fallthrough is linked to the block starting at its end.
    - Refinement ([ResolverSim]): with distinct block ids and no node
      listed twice, the out-edge relation after [resolveFunction] is
      exactly [resolved_edges] of the store before it, the blocks' ids,
      ranges and node lists are unchanged, and every listed node is the
      spec's per-node rewrite [resolve_node] of its state before the
      pass (every other node unchanged).  Consequences: after one run no
      literal target names a block and every linkable block has its
      fallthrough, so a second run adds no edge; but a jump whose target
      is not a literal gains the register reads again on every run, [n]
      copies after [n] runs: the pass is not idempotent on operands.
    - Simplifier ([Simplifier]): the loop is a run of the state machine
      [pass_step] (a pass with replacements, applied and compressed), and
      from every store it reaches, after finitely many steps, a pass with
      no replacements (its result) or a failing pass (its error); it
      needs at most one pass per live node plus one (each non-empty pass
      removes a live node); the graph's blocks and edges are untouched;
      folding an effective address preserves its value; the phi rule; a
      two-pass scenario.
    - Termination of a pass ([SimplifierTotal]): on a store with distinct
      node ids whose transient producers are ranked (an acyclic chain)
      and where returns are not transient, no pass runs out of fuel; if
      every store the loop reaches is such, neither does
      [doTransformation].
    - Pipeline ([Pipeline]): each phase keeps the block store well
      formed, so the output of the whole pipeline of a function is.

    ** Bounds and fuel

    Addresses are [Z] and reduced with [u64] where the sources add
    64-bit values (the end address of an instruction, the cursor index); node and block ids are [nat] generators (never
    wrapping in the model).  Recursion that is not structural takes fuel
    and returns [Fatal OutOfFuel] when it runs out: the guard evaluator
    (sufficiency proved from a rank of the template table), the parent
    walk (fuel = number of registers, proved sufficient), [replaceArg]
    (one more step than there are bound operands: an acyclic placeholder
    chain through the operands is no longer), [parseExpression] (one
    unit per nesting level of the template; the invariant theorems hold
    for every fuel, [LoweringTotal] proves that fuel above the template
    ranks never runs out, and the witnesses use 10, more than the depth
    of their templates), the simplifier's loop (live nodes plus one, proved
    enough) and its return walk (the number of nodes, proved enough in
    [SimplifierTotal] on a store whose transient chains are ranked below
    the node count).

    ** Not modelled

    The per-function drivers (of the lowering, of the resolver, and the
    pipeline sequencing the three passes) live outside the sources and
    are modelled from the spec; the lowering
    driver does not open blocks on [endOfBlock], which its flags only
    record.  [replaceNodes] and [compress] of SSA.h are modelled from the
    spec (uses of replaced nodes take the replacement, replaced nodes are
    removed).  Printing, the template parser's parsing methods and
    [IRGenerator::parseFunction] (declared in IRGen.h, with no bodies in
    the sources), src/main/HSSAAddressToBlockTransformer.h (a declaration
    of an older interface, with no code) and the catalog lookups'
    internals are outside the model; reads of the template text outside
    the string are [None] ([HString] is declared outside the sources); the cached [activeblock] pointer of [SSAGen] is
    not state, since every use in the sources but one re-resolves the
    active id ([getActiveBlock]); the exception, the last write of
    [setup], fails in the model exactly when the pointer is null there;
    floating-point literals are carried as uninterpreted values. *)

From stdpp Require Export base list gmap sets.
From Stdlib Require Export ZArith Lia.

Declare Scope holodec_scope.
Delimit Scope holodec_scope with hd.
Open Scope holodec_scope.

(** ** Fatal conditions

    The sources stop on [assert (false)] (and on null dereferences of
    lookups that fail); the spec calls these fatal for the function being
    lowered.  [OutOfFuel] is the model's own: it is returned only when the
    fuel given to a recursive definition runs out. *)
Inductive FatalError :=
| NoTemplateMatch
| UnresolvedPlaceholder
| UnresolvedTemporary
| RegBackedStack
| NonConstantWidth
| NotMemoryLocation
| InvalidAssignTarget
| MissingCatalogEntry
| AssertFailed
| OutOfFuel.

#[export] Instance FatalError_eq_dec : EqDecision FatalError.
Proof. solve_decision. Defined.

Inductive Result (A : Type) :=
| Ok (a : A)
| Fatal (e : FatalError).
Arguments Ok {A} a.
Arguments Fatal {A} e.

(** ** A state-and-error monad *)
Definition M (S A : Type) := S -> Result (A * S).

Definition ret {S A} (a : A) : M S A := fun s => Ok (a, s).
Definition bind {S A B} (c : M S A) (f : A -> M S B) : M S B :=
  fun s => match c s with
           | Ok (a, s') => f a s'
           | Fatal e => Fatal e
           end.
Definition get {S} : M S S := fun s => Ok (s, s).
Definition put {S} (s : S) : M S unit := fun _ => Ok (tt, s).
Definition modify {S} (f : S -> S) : M S unit := fun s => Ok (tt, f s).
Definition fail {S A} (e : FatalError) : M S A := fun _ => Fatal e.
Definition gets {S A} (f : S -> A) : M S A := fun s => Ok (f s, s).

Notation "x <- c ;; k" := (bind c (fun x => k))
  (at level 100, c at next level, right associativity) : holodec_scope.
Notation "c ;;; k" := (bind c (fun _ => k))
  (at level 100, right associativity) : holodec_scope.

(** Lift an [option] produced by a catalog lookup: a missing entry is a
    null pointer in the sources. *)
Definition of_option {S A} (e : FatalError) (o : option A) : M S A :=
  match o with Some a => ret a | None => fail e end.

(** [assert] of the sources. *)
Definition assertM {S} (b : bool) (e : FatalError) : M S unit :=
  if b then ret tt else fail e.

(** Sequential traversal of a list inside the monad, in list order. *)
Fixpoint mapM {S A B} (f : A -> M S B) (l : list A) : M S (list B) :=
  match l with
  | [] => ret []
  | x :: l' => y <- f x ;; ys <- mapM f l' ;; ret (y :: ys)
  end.

Fixpoint forM_ {S A} (l : list A) (f : A -> M S unit) : M S unit :=
  match l with
  | [] => ret tt
  | x :: l' => f x ;;; forM_ l' f
  end.

(** ** Machine integers *)
Definition u64 (z : Z) : Z := z mod 2 ^ 64.

(** ** Shared lemmas *)

(** The Standard Library's and stdpp's list lookups agree. *)
Lemma nth_error_lookup {A} (l : list A) k : nth_error l k = l !! k.
Proof. revert k. induction l as [|x l IH]; intros [|k]; simpl; auto. Qed.

(** An error other than [OutOfFuel] stays one at any result type. *)
Lemma fatal_not_fuel {A B} e : @Fatal A e <> Fatal OutOfFuel -> @Fatal B e <> Fatal OutOfFuel.
Proof. intros H H'. apply H. injection H' as ->. done. Qed.

Lemma bind_Ok {S A B} (c : M S A) (f : A -> M S B) s r :
  bind c f s = Ok r <-> exists a s', c s = Ok (a, s') /\ f a s' = Ok r.
Proof.
  unfold bind. split.
  - destruct (c s) as [[a s']|e]; [eauto|discriminate].
  - intros (a & s' & -> & H). exact H.
Qed.

Lemma bind_Fatal {S A B} (c : M S A) (f : A -> M S B) s e :
  c s = Fatal e -> bind c f s = Fatal e.
Proof. unfold bind. by intros ->. Qed.

Lemma bind_step {S A B} (c : M S A) (f : A -> M S B) s a s' :
  c s = Ok (a, s') -> bind c f s = f a s'.
Proof. unfold bind. by intros ->. Qed.

(** Two continuations that agree on every outcome of [c] give the same run. *)
Lemma bind_ext_run {S A B} (c : M S A) (f f' : A -> M S B) s :
  (forall a s', c s = Ok (a, s') -> f a s' = f' a s') -> bind c f s = bind c f' s.
Proof. unfold bind. destruct (c s) as [[a s']|e]; [auto|done]. Qed.

(** The same when [c] does not change the state. *)
Lemma bind_ext_pure {S A B} (c : M S A) (f f' : A -> M S B) s :
  (forall a s', c s = Ok (a, s') -> s' = s) -> (forall a, f a s = f' a s) -> bind c f s = bind c f' s.
Proof. intros Hc Hf. apply bind_ext_run. intros a s' H. rewrite (Hc _ _ H). apply Hf. Qed.

Lemma assertM_Ok {S} b e (s : S) r : assertM b e s = Ok r -> b = true /\ r = (tt, s).
Proof.
  unfold assertM, ret, fail. destruct b; intros H; [|discriminate].
  injection H as <-. auto.
Qed.

Lemma of_option_Ok {S A} e (o : option A) (s : S) r :
  of_option e o s = Ok r -> exists a, o = Some a /\ r = (a, s).
Proof.
  unfold of_option, ret, fail. destruct o as [a|]; intros H; [|discriminate].
  injection H as <-. eauto.
Qed.

Lemma u64_range z : (0 <= u64 z < 2 ^ 64)%Z.
Proof. unfold u64. apply Z.mod_pos_bound. lia. Qed.

Lemma u64_small z : (0 <= z < 2 ^ 64)%Z -> u64 z = z.
Proof. unfold u64. apply Z.mod_small. Qed.

(** A run of [mapM] that succeeds returns one result per element. *)
Lemma mapM_length {S A B} (f : A -> M S B) l s r s' :
  mapM f l s = Ok (r, s') -> length r = length l.
Proof.
  revert s r. induction l as [|x l IH]; simpl; intros s r H.
  - unfold ret in H. by injection H as <- <-.
  - apply bind_Ok in H as (y & s1 & _ & H).
    apply bind_Ok in H as (ys & s2 & H & H').
    unfold ret in H'. injection H' as <- <-. simpl. f_equal. eauto.
Qed.

(** Two elements of a list with the same key are equal when the keys are
    distinct. *)
Lemma NoDup_map_In_inj {A B} (f : A -> B) l x y :
  NoDup (map f l) -> In x l -> In y l -> f x = f y -> x = y.
Proof.
  induction l as [|z l IH]; simpl; [done|].
  intros Hnd Hx Hy Hf. inversion Hnd as [|? ? Hz Hnd']; subst.
  destruct Hx as [<-|Hx], Hy as [<-|Hy]; auto;
    exfalso; apply Hz; apply list_elem_of_In; [rewrite Hf|rewrite <- Hf]; by apply in_map.
Qed.

(** A search through a concatenation. *)
Lemma find_app {A} (f : A -> bool) l l' :
  List.find f (l ++ l') = match List.find f l with Some x => Some x | None => List.find f l' end.
Proof. induction l as [|x l IH]; simpl; [done|]. destruct (f x); [done|exact IH]. Qed.

Create HintDb holodec.
#[export] Hint Resolve u64_range u64_small : holodec.

(** Break a successful monadic run into its steps. *)
Ltac monad_inv H :=
  repeat match type of H with
  | bind _ _ _ = Ok _ =>
      let a := fresh "a" in let s := fresh "s" in let Hc := fresh "Hc" in
      apply bind_Ok in H as (a & s & Hc & H)
  | ret _ _ = Ok _ => unfold ret in H; injection H as <- <-
  | assertM _ _ _ = Ok _ => apply assertM_Ok in H as [? H]; injection H as <- <-
  | of_option _ _ _ = Ok _ =>
      let a := fresh "a" in let Ho := fresh "Ho" in
      apply of_option_Ok in H as (a & Ho & H); injection H as <- <-
  end.

Ltac invc H := inversion H; subst; clear H.
