(* ===== verification/Cursor.v ===== *)
(** * The cursor of the template parser

    [IRParser] (src/main/IRGen.h, lines 19-41) reads the template text
    through a [size_t] index into its string: [peek] reads the character
    at the index, [pop] reads it and advances, [consume] and [pushback]
    move the index by a count.  The parsing methods themselves are only
    declared in the sources; the cursor is their whole state machine.
    The index is a 64-bit unsigned integer: moves wrap around modulo
    [2^64].  A read outside the string (undefined behaviour in C++, the
    [HString] type being declared outside the sources) is [None]. *)

From S2P Require Import Prelude.
From Stdlib Require Import Ascii.

Module Cursor.

Record IRParser := mkIRParser { p_index : Z; p_string : list ascii }.

Definition set_index (p : IRParser) (i : Z) : IRParser := mkIRParser i (p_string p).

(** [return string[index];] *)
Definition peek (p : IRParser) : option ascii :=
  if Z.ltb (p_index p) 0 then None else nth_error (p_string p) (Z.to_nat (p_index p)).

(** [index += count;] on [size_t]. *)
Definition consume (count : Z) (p : IRParser) : IRParser := set_index p (u64 (p_index p + count)).

(** [index -= count;] on [size_t]. *)
Definition pushback (count : Z) (p : IRParser) : IRParser := set_index p (u64 (p_index p - count)).

(** [return string[index++];]: the read happens at the old index, the
    increment in any case. *)
Definition pop (p : IRParser) : option ascii * IRParser := (peek p, consume 1 p).

(** [n] successive [pop]s, the characters in the order read. *)
Fixpoint popN (n : nat) (p : IRParser) : list (option ascii) * IRParser :=
  match n with
  | O => ([], p)
  | S n' => let '(c, p1) := pop p in let '(cs, p2) := popN n' p1 in (c :: cs, p2)
  end.

(** The index is a [size_t]. *)
Definition index_ok (p : IRParser) : Prop := (0 <= p_index p < 2 ^ 64)%Z.

(** ** Lemmas *)

Lemma consume_index_ok n p : index_ok (consume n p).
Proof. apply u64_range. Qed.

Lemma pushback_index_ok n p : index_ok (pushback n p).
Proof. apply u64_range. Qed.

Lemma u64_add_sub a b : u64 (u64 (a + b) - b) = u64 a.
Proof. unfold u64. rewrite Zminus_mod_idemp_l. f_equal. lia. Qed.

Lemma u64_add_add a b c : u64 (u64 (a + b) + c) = u64 (a + (b + c)).
Proof. unfold u64. rewrite Zplus_mod_idemp_l. f_equal. lia. Qed.

(** [k] pops from index [i] are [k] characters read from [i] on. *)
Lemma popN_spec n p :
  index_ok p -> (p_index p + Z.of_nat n < 2 ^ 64)%Z ->
  popN n p = (map (fun j => nth_error (p_string p) (Z.to_nat (p_index p) + j)) (seq 0 n),
              consume (Z.of_nat n) p).
Proof.
  revert p. induction n as [|n IH]; intros [i s] Hi Hn; unfold index_ok in *; simpl in *.
  - unfold consume, set_index. simpl. rewrite Z.add_0_r, u64_small; done.
  - assert (E1 : consume 1 (mkIRParser i s) = mkIRParser (i + 1) s).
    { unfold consume, set_index. simpl. rewrite u64_small; [done|lia]. }
    unfold pop. rewrite E1, IH; simpl; [|lia|lia].
    unfold peek, consume, set_index. simpl. destruct (Z.ltb_spec i 0); [lia|].
    rewrite Nat.add_0_r. f_equal; [f_equal|].
    + rewrite <- seq_shift, map_map. apply map_ext. intros j. f_equal. lia.
    + rewrite !u64_small; [f_equal; lia|lia|lia].
Qed.

(** ** Properties *)

(** C20: [pushback n] undoes [consume n] for every count: the two
    [size_t] moves are inverse modulo [2^64], also when [consume] wraps
    past the top of the index range. *)
Theorem consume_pushback_roundtrip n p : index_ok p -> pushback n (consume n p) = p.
Proof.
  intros Hi. destruct p as [i s]. unfold pushback, consume, set_index. simpl.
  rewrite u64_add_sub, u64_small; [done|exact Hi].
Qed.

Lemma consume_pushback_roundtrip_witness :
  pushback 3 (consume 3 (mkIRParser (2 ^ 64 - 1) [])) = mkIRParser (2 ^ 64 - 1) [].
Proof. apply consume_pushback_roundtrip. unfold index_ok. simpl. lia. Defined.

(** C21: [pushback] past the start of the text does not stop at 0: the
    [size_t] index wraps to [2^64 - (n - i)], so the next [peek] reads
    outside any text shorter than that. *)
Theorem pushback_wraps n p :
  index_ok p -> (p_index p < n < 2 ^ 64)%Z ->
  p_index (pushback n p) = (2 ^ 64 - (n - p_index p))%Z /\
  ((Z.of_nat (length (p_string p)) <= 2 ^ 64 - (n - p_index p))%Z -> peek (pushback n p) = None).
Proof.
  intros Hi Hn. destruct p as [i s]. unfold index_ok in Hi. simpl in *.
  assert (E : p_index (pushback n (mkIRParser i s)) = (2 ^ 64 - (n - i))%Z).
  { unfold pushback, set_index, u64. simpl. symmetry. apply Z.mod_unique_pos with (q := (-1)%Z); lia. }
  split; [exact E|]. intros Hlen. unfold peek. rewrite E.
  destruct (Z.ltb_spec (2 ^ 64 - (n - i)) 0); [done|].
  apply nth_error_None. simpl. lia.
Qed.

Lemma pushback_wraps_witness :
  p_index (pushback 2 (mkIRParser 1 ["a"%char])) = (2 ^ 64 - 1)%Z /\
  ((Z.of_nat (length (p_string (mkIRParser 1 ["a"%char]))) <= 2 ^ 64 - (2 - 1))%Z ->
   peek (pushback 2 (mkIRParser 1 ["a"%char])) = None).
Proof.
  apply (pushback_wraps 2 (mkIRParser 1 ["a"%char])); unfold index_ok; simpl; lia.
Defined.

(** C22: [n] successive [pop]s inside the text read the next [n]
    characters in order and leave the index [n] further on. *)
Theorem popN_reads n p :
  index_ok p -> (p_index p + Z.of_nat n <= Z.of_nat (length (p_string p)))%Z ->
  (Z.of_nat (length (p_string p)) < 2 ^ 64)%Z ->
  popN n p = (map Some (firstn n (skipn (Z.to_nat (p_index p)) (p_string p))),
              consume (Z.of_nat n) p).
Proof.
  intros Hi Hn Hl. rewrite popN_spec; [|done|lia]. f_equal.
  destruct p as [i s]. unfold index_ok in Hi. simpl in *.
  apply list_eq. intros j. rewrite !list_lookup_fmap.
  destruct (decide (j < n)) as [Hj|Hj].
  - rewrite lookup_seq_lt by done. simpl.
    rewrite lookup_take_lt by done. rewrite lookup_drop, nth_error_lookup.
    destruct (lookup_lt_is_Some_2 s (Z.to_nat i + j)) as [c ->]; [lia|done].
  - rewrite lookup_seq_ge by lia. rewrite lookup_take_ge by lia. done.
Qed.

Lemma popN_reads_witness :
  popN 2 (mkIRParser 1 ["a"; "b"; "c"]%char) =
  (map Some (firstn 2 (skipn (Z.to_nat 1) ["a"; "b"; "c"]%char)), consume (Z.of_nat 2) (mkIRParser 1 ["a"; "b"; "c"]%char)).
Proof. apply (popN_reads 2 (mkIRParser 1 ["a"; "b"; "c"]%char)); unfold index_ok; simpl; lia. Defined.

End Cursor.
