(* ===== verification/Arch.v ===== *)
(** * The architecture catalog and the template AST

    Everything the lowering reads but never writes: registers with their
    parent links, stacks, memories, the instruction templates and their
    semantics expressions ([IRArgument], [IRExpression]).  The C++ types
    live in headers that are not part of the sources (Architecture.h,
    IR.h); their fields are the ones src/main/SSAGen.cpp reads, with the
    sources' names. *)

From S2P Require Import Prelude.

(** A [Reference] names a register, stack or memory, with an index (the
    stack slot or sub-location). *)
Record Reference := mkReference { refId : nat; ref_index : nat }.

Record Register := mkRegister {
  reg_id : nat;
  reg_size : nat;
  reg_directParentRef : nat;      (** 0 when the register is top-level *)
  reg_offset : nat;               (** bit offset inside the parent *)
  reg_clearParentOnWrite : bool   (** a write zero-extends into the parent *)
}.

Inductive StackType := eRegBacked | eMemory.
Inductive StackPolicy := eTop | eBottom.

Record Stack := mkStack {
  stack_id : nat;
  stack_type : StackType;
  stack_policy : StackPolicy;
  stack_trackingReg : nat;
  stack_backingMem : nat;
  stack_wordbitsize : nat
}.

Record Memory := mkMemory { mem_id : nat }.

(** [segment::[base + index*scale + disp]]; a register id of 0 means the
    component is absent. *)
Record MemOperand := mkMemOperand {
  mem_segment : nat;
  mem_base : nat;
  mem_index : nat;
  mem_scale : Z;
  mem_disp : Z
}.

(** The kind of an [IRArgument], one constructor per [IR_ARGTYPE_*]. *)
Inductive IRArgType :=
| IR_ARGTYPE_UNKN
| IR_ARGTYPE_SINT (sval : Z)
| IR_ARGTYPE_UINT (uval : Z)
| IR_ARGTYPE_FLOAT (fval : Z)
| IR_ARGTYPE_ARG (argIdx : nat)          (** template placeholder, 1-based *)
| IR_ARGTYPE_ID (exprId : nat)           (** nested semantics expression *)
| IR_ARGTYPE_SSAID (ssaId : nat)         (** an SSA node produced earlier *)
| IR_ARGTYPE_IP
| IR_ARGTYPE_REG (ref : Reference)
| IR_ARGTYPE_STACK (ref : Reference)
| IR_ARGTYPE_MEM (memId : nat)
| IR_ARGTYPE_TMP (tmpId : nat)
| IR_ARGTYPE_MEMOP (mem : MemOperand).

(** Every [IRArgument] carries a bit size. *)
Record IRArgument := mkIRArgument { ir_type : IRArgType; ir_size : nat }.

(** [IRArgument::create ()]: the empty argument; it converts to [false]. *)
Definition IRcreate : IRArgument := mkIRArgument IR_ARGTYPE_UNKN 0.
(** [IRArgument::createVal (uint64_t, size)]: the value wraps at 64 bits. *)
Definition IRcreateVal (v : Z) (size : nat) : IRArgument :=
  mkIRArgument (IR_ARGTYPE_UINT (u64 v)) size.
Definition IRcreateSSAId (id : nat) (size : nat) : IRArgument :=
  mkIRArgument (IR_ARGTYPE_SSAID id) size.
(** [operator bool]: an argument is "set" unless it is [UNKN]. *)
Definition ir_isSet (a : IRArgument) : bool :=
  match ir_type a with IR_ARGTYPE_UNKN => false | _ => true end.

Inductive SSAOpType :=
| eAdd | eSub | eMul | eDiv | eMod
| eAnd | eOr | eXor | eNot
| eEq | eNe | eLower | eLe | eGreater | eGe
| eBAnd | eBOr | eBXor | eBNot | eShr | eShl | eRor | eRol
| eOpOther (code : nat).

(** The value category of an expression ([SSAType]). *)
Inductive SSAType := eUnknownType | eUInt | eInt | eFloatType | ePc | eMemaccess.

Inductive IRExprType :=
| IR_EXPR_INVALID
| IR_EXPR_UNDEF | IR_EXPR_ASSIGN | IR_EXPR_NOP
| IR_EXPR_IF | IR_EXPR_JMP | IR_EXPR_CJMP
| IR_EXPR_OP
| IR_EXPR_CALL | IR_EXPR_RETURN | IR_EXPR_SYSCALL | IR_EXPR_TRAP
| IR_EXPR_BUILTIN
| IR_EXPR_EXTEND | IR_EXPR_SPLIT | IR_EXPR_APPEND | IR_EXPR_CAST
| IR_EXPR_STORE | IR_EXPR_LOAD
| IR_EXPR_PUSH | IR_EXPR_POP
| IR_EXPR_VALUE | IR_EXPR_REC | IR_EXPR_REP
| IR_EXPR_SIZE | IR_EXPR_BSIZE
| IR_EXPR_SEQUENCE | IR_EXPR_FLAG.

(** A semantics-expression node; [mod] of the sources is flattened into
    the three fields it holds. *)
Record IRExpression := mkIRExpression {
  ire_type : IRExprType;
  ire_subExpressions : list IRArgument;
  ire_opType : SSAOpType;
  ire_instrId : nat;
  ire_flagType : nat;
  ire_returntype : SSAType
}.

(** One candidate body of an instruction template. *)
Record IRRepresentation := mkIRRepresentation {
  irr_argcount : nat;
  irr_condExpr : IRArgument;
  irr_rootExpr : IRArgument
}.

Record InstrDefinition := mkInstrDefinition {
  instrdef_id : nat;
  instrdef_irs : list IRRepresentation
}.

(** A decoded instruction. *)
Record Instruction := mkInstruction {
  instr_addr : Z;
  instr_size : Z;
  instr_operands : list IRArgument;
  instr_def : InstrDefinition
}.

Record Architecture := mkArchitecture {
  bitbase : nat;
  wordbase : nat;
  registers : list Register;
  stacks : list Stack;
  memories : list Memory;
  irExprs : gmap nat IRExpression;
  instrdefs : list InstrDefinition;
  defaultMemory : nat
}.

#[export] Instance Reference_eq_dec : EqDecision Reference.
Proof. solve_decision. Defined.
#[export] Instance MemOperand_eq_dec : EqDecision MemOperand.
Proof. solve_decision. Defined.
#[export] Instance IRArgType_eq_dec : EqDecision IRArgType.
Proof. solve_decision. Defined.
#[export] Instance IRArgument_eq_dec : EqDecision IRArgument.
Proof. solve_decision. Defined.
#[export] Instance SSAOpType_eq_dec : EqDecision SSAOpType.
Proof. solve_decision. Defined.
#[export] Instance SSAType_eq_dec : EqDecision SSAType.
Proof. solve_decision. Defined.
#[export] Instance StackType_eq_dec : EqDecision StackType.
Proof. solve_decision. Defined.
#[export] Instance StackPolicy_eq_dec : EqDecision StackPolicy.
Proof. solve_decision. Defined.

Section Catalog.
Context (arch : Architecture).

(** [Architecture::getRegister]: the register with that id, if any. *)
Definition getRegister (id : nat) : option Register :=
  List.find (fun r => reg_id r =? id) (registers arch).

Definition getStack (id : nat) : option Stack :=
  List.find (fun st => stack_id st =? id) (stacks arch).

Definition getMemory (id : nat) : option Memory :=
  List.find (fun m => mem_id m =? id) (memories arch).

Definition getIrExpr (id : nat) : option IRExpression := irExprs arch !! id.

Definition getInstrDef (id : nat) : option InstrDefinition :=
  List.find (fun d => instrdef_id d =? id) (instrdefs arch).

(** The registers the loops [for (Register& reg : arch->registers)] keep
    after [if (!reg.id || reg.directParentRef) continue;]. *)
Definition isTopLevel (r : Register) : bool :=
  negb (reg_id r =? 0) && (reg_directParentRef r =? 0).

Definition topRegisters : list Register := List.filter isTopLevel (registers arch).
End Catalog.

Lemma getRegister_id arch id r : getRegister arch id = Some r -> reg_id r = id.
Proof.
  unfold getRegister. intros H. apply find_some in H as [_ H].
  by apply Nat.eqb_eq.
Qed.

Lemma getRegister_in arch id r : getRegister arch id = Some r -> In r (registers arch).
Proof. unfold getRegister. intros H. by apply find_some in H as [H _]. Qed.

Lemma topRegisters_spec arch r :
  In r (topRegisters arch) <->
  In r (registers arch) /\ reg_id r <> 0 /\ reg_directParentRef r = 0.
Proof.
  unfold topRegisters, isTopLevel. rewrite filter_In, andb_true_iff, negb_true_iff,
    !Nat.eqb_eq, Nat.eqb_neq. tauto.
Qed.

#[export] Hint Resolve getRegister_id getRegister_in : holodec.
