(* ===== verification/SSA.v ===== *)
(** * SSA arguments, expressions, basic blocks and the SSA store

    The data the lowering produces.  [SSAArgument] is the operand of an
    SSA node, [SSAExpression] the node, [SSABB] a basic block and
    [SSARepresentation] the arena of a function (its node store and block
    store, both addressed by id).  The container classes (SSA.h,
    Argument.h) are not part of the sources; their operations used by
    src/main/SSAGen.cpp are modelled from the spec: ids are handed out by a
    counter and never reused, [addAtEnd] appends a node to the end of a
    block, [bbs.push_back] appends a block with the next id. *)

From S2P Require Import Prelude Arch.

Inductive SSAExprLocation := eLocNone | eLocReg | eLocStack | eLocMem.

(** The kind of an operand, one constructor per [SSAArgType]. *)
Inductive SSAArgType :=
| eArgOther
| eArgId (ssaId : nat)
| eArgReg (ref : Reference)
| eArgStack (ref : Reference)
| eArgMem (memId : nat)
| eArgBlock (blockId : nat)
| eArgUInt (uval : Z)
| eArgSInt (sval : Z)
| eArgFloat (fval : Z)
| eArgUndef.

Record SSAArgument := mkSSAArgument {
  sa_type : SSAArgType;
  sa_size : nat;
  sa_location : SSAExprLocation;
  sa_locref : Reference
}.

Inductive SSAExprType :=
| eInvalid | eLabel | eUndef | eNop | eOp | eLoadAddr | eFlag
| eInput | eOutput | eCall | eReturn | eSyscall | eTrap | eBuiltin
| eExtend | eSplit | eUpdatePart | eAppend | eCast
| eStore | eLoad | eAssign | ePhi | eJmp | eCJmp | eMultiBranch.

Record SSAExpression := mkSSAExpression {
  se_id : nat;
  se_type : SSAExprType;
  se_opType : SSAOpType;
  se_flagType : nat;
  se_returntype : SSAType;
  se_size : nat;
  se_location : SSAExprLocation;
  se_locref : Reference;
  se_subExpressions : list SSAArgument;
  se_instrAddr : Z
}.

Record SSABB := mkSSABB {
  bb_id : nat;
  bb_fallthroughId : nat;
  bb_startaddr : Z;
  bb_endaddr : Z;
  bb_exprIds : list nat;
  bb_inBlocks : gset nat;
  bb_outBlocks : gset nat
}.

Record SSARepresentation := mkSSARepresentation {
  expressions : list SSAExpression;   (** in id order *)
  expr_gen : nat;                     (** last id handed out *)
  bbs : list SSABB;                   (** in creation order *)
  bb_gen : nat
}.

#[export] Instance SSAExprLocation_eq_dec : EqDecision SSAExprLocation.
Proof. solve_decision. Defined.
#[export] Instance SSAArgType_eq_dec : EqDecision SSAArgType.
Proof. solve_decision. Defined.
#[export] Instance SSAArgument_eq_dec : EqDecision SSAArgument.
Proof. solve_decision. Defined.
#[export] Instance SSAExprType_eq_dec : EqDecision SSAExprType.
Proof. solve_decision. Defined.

Definition noRef : Reference := mkReference 0 0.

(** ** Argument factories of Argument.h (spec-modelled) *)
Definition SAcreate : SSAArgument := mkSSAArgument eArgOther 0 eLocNone noRef.
Definition SAcreateId (id size : nat) : SSAArgument :=
  mkSSAArgument (eArgId id) size eLocNone noRef.
Definition SAcreateVal (v : Z) (size : nat) : SSAArgument :=
  mkSSAArgument (eArgUInt (u64 v)) size eLocNone noRef.
Definition SAcreateSVal (v : Z) (size : nat) : SSAArgument :=
  mkSSAArgument (eArgSInt v) size eLocNone noRef.
Definition SAcreateFVal (v : Z) (size : nat) : SSAArgument :=
  mkSSAArgument (eArgFloat v) size eLocNone noRef.
Definition SAcreateRegRef (ref : Reference) (size : nat) : SSAArgument :=
  mkSSAArgument (eArgReg ref) size eLocNone noRef.
(** [createReg] of a register pointer: the whole register, index 0. *)
Definition SAcreateReg (r : Register) : SSAArgument :=
  SAcreateRegRef (mkReference (reg_id r) 0) (reg_size r).
Definition SAcreateStck (ref : Reference) (size : nat) : SSAArgument :=
  mkSSAArgument (eArgStack ref) size eLocNone noRef.
Definition SAcreateMem (memId : nat) : SSAArgument :=
  mkSSAArgument (eArgMem memId) 0 eLocMem (mkReference memId 0).
Definition SAcreateBlock (blockId : nat) : SSAArgument :=
  mkSSAArgument (eArgBlock blockId) 0 eLocNone noRef.
Definition SAcreateUndef (loc : SSAExprLocation) (locref : Reference) (size : nat)
  : SSAArgument := mkSSAArgument eArgUndef size loc locref.

(** [SSAArgument::isValue (v)]: an integer literal equal to [v]. *)
Definition isValue (a : SSAArgument) (v : Z) : bool :=
  match sa_type a with
  | eArgUInt x | eArgSInt x => bool_decide (x = v)
  | _ => false
  end.

Definition isConst (a : SSAArgument) : bool :=
  match sa_type a with eArgUInt _ | eArgSInt _ | eArgFloat _ => true | _ => false end.

(** [SSAExpression expression; expression.type = t;]: a fresh node with the
    defaults of the C++ constructor. *)
Definition newExpr (t : SSAExprType) : SSAExpression :=
  mkSSAExpression 0 t (eOpOther 0) 0 eUnknownType 0 eLocNone noRef [] 0.

(** [SSABB block;]: the default block.  Its start address is the largest
    64-bit address, so that the first instruction lowered into it lowers
    it (see [parseInstruction]). *)
Definition newBlock : SSABB :=
  mkSSABB 0 0 (2 ^ 64 - 1) 0 [] ∅ ∅.

(** ** The node store *)
Definition getExpr (rep : SSARepresentation) (id : nat) : option SSAExpression :=
  List.find (fun e => se_id e =? id) (expressions rep).

(** ** The block store *)
Definition getBB (blocks : list SSABB) (id : nat) : option SSABB :=
  List.find (fun b => bb_id b =? id) blocks.

(** Apply [f] to the block with id [id] (no change when there is none). *)
Definition updateBB (id : nat) (f : SSABB -> SSABB) (blocks : list SSABB) : list SSABB :=
  map (fun b => if bb_id b =? id then f b else b) blocks.

Definition setBBs (rep : SSARepresentation) (blocks : list SSABB) : SSARepresentation :=
  mkSSARepresentation (expressions rep) (expr_gen rep) blocks (bb_gen rep).

Definition setExprs (rep : SSARepresentation) (es : list SSAExpression) : SSARepresentation :=
  mkSSARepresentation es (expr_gen rep) (bbs rep) (bb_gen rep).

(** [bbs.push_back (block)]: the block gets the next id. *)
Definition bbs_push_back (rep : SSARepresentation) (b : SSABB) : SSARepresentation * nat :=
  let id := S (bb_gen rep) in
  (mkSSARepresentation (expressions rep) (expr_gen rep)
     (bbs rep ++ [mkSSABB id (bb_fallthroughId b) (bb_startaddr b) (bb_endaddr b)
                    (bb_exprIds b) (bb_inBlocks b) (bb_outBlocks b)]) id, id).

(** [SSARepresentation::addAtEnd (expr, block)]: the node gets the next id
    and is appended to the node store and to the block's node list. *)
Definition addAtEnd (rep : SSARepresentation) (e : SSAExpression) (blockId : nat)
  : SSARepresentation * nat :=
  let id := S (expr_gen rep) in
  (mkSSARepresentation
     (expressions rep ++ [mkSSAExpression id (se_type e) (se_opType e) (se_flagType e)
                            (se_returntype e) (se_size e) (se_location e) (se_locref e)
                            (se_subExpressions e) (se_instrAddr e)])
     id
     (updateBB blockId (fun b => mkSSABB (bb_id b) (bb_fallthroughId b) (bb_startaddr b)
                                    (bb_endaddr b) (bb_exprIds b ++ [id])
                                    (bb_inBlocks b) (bb_outBlocks b)) (bbs rep))
     (bb_gen rep), id).

(** ** Well-formedness of the block store

    [edges_symmetric]: the spec's "CFG edge symmetry",
    [b2 ∈ b1.outBlocks ⇔ b1 ∈ b2.inBlocks] for all blocks of the store. *)
Definition edges_symmetric (blocks : list SSABB) : Prop :=
  forall b1 b2, In b1 blocks -> In b2 blocks ->
    (bb_id b2 ∈ bb_outBlocks b1 <-> bb_id b1 ∈ bb_inBlocks b2).

(** Its executable form, for concrete stores. *)
Definition edges_symmetricb (blocks : list SSABB) : bool :=
  forallb (fun b1 => forallb (fun b2 =>
    Bool.eqb (bool_decide (bb_id b2 ∈ bb_outBlocks b1)) (bool_decide (bb_id b1 ∈ bb_inBlocks b2)))
    blocks) blocks.

(** Ids of the block store are distinct and below the generator. *)
Definition bb_ids_ok (rep : SSARepresentation) : Prop :=
  NoDup (map bb_id (bbs rep)) /\ Forall (fun b => 0 < bb_id b <= bb_gen rep) (bbs rep).

(** ** Lemmas *)

Lemma edges_symmetricb_spec blocks : edges_symmetricb blocks = true <-> edges_symmetric blocks.
Proof.
  unfold edges_symmetricb, edges_symmetric. rewrite forallb_forall. split.
  - intros H b1 b2 H1 H2. specialize (H b1 H1). rewrite forallb_forall in H.
    specialize (H b2 H2). apply Bool.eqb_prop in H.
    revert H. do 2 case_bool_decide; naive_solver.
  - intros H b1 H1. apply forallb_forall. intros b2 H2.
    specialize (H b1 b2 H1 H2). apply Bool.eqb_true_iff.
    by apply bool_decide_ext.
Qed.

Lemma getBB_Some blocks id b : getBB blocks id = Some b -> In b blocks /\ bb_id b = id.
Proof.
  unfold getBB. intros H. apply find_some in H as [H1 H2].
  split; [done|]. by apply Nat.eqb_eq.
Qed.

Lemma getBB_In blocks b :
  NoDup (map bb_id blocks) -> In b blocks -> getBB blocks (bb_id b) = Some b.
Proof.
  induction blocks as [|b' blocks IH]; simpl; [done|].
  intros Hnd Hin. inversion Hnd as [|? ? Hnotin Hnd']; subst.
  destruct (Nat.eqb_spec (bb_id b') (bb_id b)) as [E|E].
  - destruct Hin as [->|Hin]; [done|].
    exfalso. apply Hnotin. rewrite E. apply list_elem_of_In. by apply in_map.
  - destruct Hin as [->|Hin]; [done|]. auto.
Qed.

Lemma In_updateBB id f blocks b :
  In b (updateBB id f blocks) <->
  exists b0, In b0 blocks /\ b = (if bb_id b0 =? id then f b0 else b0).
Proof.
  unfold updateBB. rewrite in_map_iff. split.
  - intros (b0 & <- & H). eauto.
  - intros (b0 & H & ->). eauto.
Qed.

Lemma map_bb_id_updateBB id f blocks :
  (forall b, bb_id (f b) = bb_id b) -> map bb_id (updateBB id f blocks) = map bb_id blocks.
Proof.
  intros Hf. unfold updateBB. rewrite map_map. apply map_ext.
  intros b. destruct (bb_id b =? id); auto.
Qed.

#[export] Hint Resolve getBB_Some getBB_In : holodec.

Lemma getBB_updateBB_exists id f blocks x b :
  (forall b, bb_id (f b) = bb_id b) -> getBB blocks x = Some b ->
  exists b', getBB (updateBB id f blocks) x = Some b'.
Proof.
  intros Hf. induction blocks as [|c blocks IH]; simpl; [done|].
  destruct (Nat.eqb (bb_id c) id) eqn:Ec; simpl; rewrite ?Hf;
    destruct (Nat.eqb (bb_id c) x); eauto.
Qed.

(** A search by key after updating every element with key [id]. *)
Lemma find_map_upd {A} (k : A -> nat) (f : A -> A) (l : list A) id x :
  (forall a, k (f a) = k a) ->
  List.find (fun a => Nat.eqb (k a) x) (map (fun a => if Nat.eqb (k a) id then f a else a) l) =
  if Nat.eqb x id then f <$> List.find (fun a => Nat.eqb (k a) x) l
  else List.find (fun a => Nat.eqb (k a) x) l.
Proof.
  intros Hk. induction l as [|a l IH]; simpl; [by destruct (x =? id)|].
  destruct (Nat.eqb_spec (k a) id) as [Ei|Ei]; simpl; rewrite ?Hk;
    destruct (Nat.eqb_spec (k a) x) as [Ex|Ex]; rewrite ?IH; try done.
  - subst. by rewrite Nat.eqb_refl.
  - subst. apply Nat.eqb_neq in Ei. by rewrite Ei.
Qed.

Lemma getBB_updateBB id f bs x :
  (forall b, bb_id (f b) = bb_id b) ->
  getBB (updateBB id f bs) x = if Nat.eqb x id then f <$> getBB bs x else getBB bs x.
Proof. intros Hf. apply find_map_upd. exact Hf. Qed.

(** The block [updateBB] changed is found with the change. *)
Lemma getBB_updateBB_same id f blocks b :
  (forall b, bb_id (f b) = bb_id b) -> getBB blocks id = Some b ->
  getBB (updateBB id f blocks) id = Some (f b).
Proof.
  intros Hf. unfold getBB, updateBB. induction blocks as [|c blocks IH]; simpl; [done|].
  destruct (Nat.eqb_spec (bb_id c) id) as [E|E]; simpl.
  - rewrite Hf, E, Nat.eqb_refl. intros H. by injection H as <-.
  - apply Nat.eqb_neq in E. rewrite E. auto.
Qed.

(** The fields of a node that the lowering determines (not its id, nor
    the instruction address [addExpression] stamps on it). *)
Definition shape (e : SSAExpression) :=
  (se_type e, se_opType e, se_returntype e, se_size e, se_location e, se_locref e,
   se_subExpressions e).

(** The node [addAtEnd] stores: [e] with id [id]. *)
Definition withId (id : nat) (e : SSAExpression) : SSAExpression :=
  mkSSAExpression id (se_type e) (se_opType e) (se_flagType e) (se_returntype e) (se_size e)
    (se_location e) (se_locref e) (se_subExpressions e) (se_instrAddr e).

(** The node with its operand list replaced. *)
Definition set_subs (e : SSAExpression) (subs : list SSAArgument) : SSAExpression :=
  mkSSAExpression (se_id e) (se_type e) (se_opType e) (se_flagType e) (se_returntype e)
    (se_size e) (se_location e) (se_locref e) subs (se_instrAddr e).

(** Lookup by id only depends on the ids of the list. *)
Lemma getBB_same_ids l l' x b :
  map bb_id l' = map bb_id l -> getBB l x = Some b -> exists b', getBB l' x = Some b'.
Proof.
  revert l'. induction l as [|c l IH]; intros [|c' l'] Hv Hb; simpl in *; try done.
  injection Hv as Hid Hv. rewrite Hid.
  destruct (Nat.eqb (bb_id c) x); eauto.
Qed.
