(* ===== verification/ConstEval.v ===== *)
(** * Constant guard evaluator and template matcher

    [SSAGen::parseConstExpression] (src/main/SSAGen.cpp, lines 72-229) and
    [SSAGen::matchIr] (lines 16-40).  The evaluator walks the template AST
    through the catalog's expression table, so it recurses on fuel; a run
    that needs more fuel returns [Fatal OutOfFuel], which the theorems
    below never hide.  The evaluator reads the generator's current
    instruction for [IP] (a member of [SSAGen], not the instruction being
    matched) and the operand list passed to it. *)

From S2P Require Import Prelude Arch.

Local Open Scope Z_scope.

Section ConstEval.
Context (arch : Architecture).
(** [this->instruction]: the instruction the generator holds now. *)
Context (cur : option Instruction).
(** The operand list the guard is evaluated against. *)
Context (arglist : list IRArgument).

(** C's [val && x], [val || x] and [!!val ^ !!x] on [uint64_t]. *)
Definition c_and (v x : Z) : Z := if bool_decide (v <> 0 /\ x <> 0) then 1 else 0.
Definition c_or (v x : Z) : Z := if bool_decide (v <> 0 \/ x <> 0) then 1 else 0.
Definition c_xor (v x : Z) : Z :=
  if xorb (bool_decide (v <> 0)) (bool_decide (x <> 0)) then 1 else 0.
Definition c_not (x : Z) : Z := if bool_decide (x = 0) then 1 else 0.

(** The loop of the [eAnd], [eOr] and [eXor] cases: fold [step] over the
    operands from [val = 0], and give up with [create ()] on the first
    operand that is not an unsigned literal. *)
Fixpoint constLogic (ev : IRArgument -> Result IRArgument) (step : Z -> Z -> Z)
    (val : Z) (subs : list IRArgument) : Result IRArgument :=
  match subs with
  | [] => Ok (IRcreateVal val (bitbase arch))
  | s :: subs' =>
      match ev s with
      | Fatal e => Fatal e
      | Ok a =>
          match ir_type a with
          | IR_ARGTYPE_UINT u => constLogic ev step (step val u) subs'
          | _ => Ok IRcreate
          end
      end
  end.

(** The [eEq] ... [eGe] cases: both operands are evaluated, the result
    is the comparison when both are unsigned literals; an operand count
    other than two yields 0. *)
Definition constCompare (ev : IRArgument -> Result IRArgument) (cmp : Z -> Z -> bool)
    (subs : list IRArgument) : Result IRArgument :=
  match subs with
  | [s1; s2] =>
      match ev s1 with
      | Fatal e => Fatal e
      | Ok a1 =>
          match ev s2 with
          | Fatal e => Fatal e
          | Ok a2 =>
              match ir_type a1, ir_type a2 with
              | IR_ARGTYPE_UINT u1, IR_ARGTYPE_UINT u2 =>
                  Ok (IRcreateVal (if cmp u1 u2 then 1 else 0) (bitbase arch))
              | _, _ => Ok IRcreate
              end
          end
      end
  | _ => Ok (IRcreateVal 0 (bitbase arch))
  end.

(** The [eNot] case. *)
Definition constNot (ev : IRArgument -> Result IRArgument) (subs : list IRArgument)
    : Result IRArgument :=
  match subs with
  | [] => Ok (IRcreateVal 0 (bitbase arch))
  | s :: _ =>
      match ev s with
      | Fatal e => Fatal e
      | Ok a =>
          match ir_type a with
          | IR_ARGTYPE_UINT u => Ok (IRcreateVal (c_not u) (bitbase arch))
          | _ => Ok IRcreate
          end
      end
  end.

Definition constOp (ev : IRArgument -> Result IRArgument) (op : SSAOpType)
    (subs : list IRArgument) : Result IRArgument :=
  match op with
  | eAnd => constLogic ev c_and 0 subs
  | eOr => constLogic ev c_or 0 subs
  | eXor => constLogic ev c_xor 0 subs
  | eNot => constNot ev subs
  | eEq => constCompare ev Z.eqb subs
  | eNe => constCompare ev (fun a b => negb (Z.eqb a b)) subs
  | eLower => constCompare ev Z.ltb subs
  | eLe => constCompare ev Z.leb subs
  | eGreater => constCompare ev Z.gtb subs
  | eGe => constCompare ev Z.geb subs
  | _ => Ok IRcreate
  end.

(** [SIZE] and [BSIZE]: the static size of the single operand, in words
    or in bits; the result is sized [wordbase]. *)
Definition constSize (ev : IRArgument -> Result IRArgument) (bits : bool)
    (subs : list IRArgument) : Result IRArgument :=
  match subs with
  | [s] =>
      match ev s with
      | Fatal e => Fatal e
      | Ok a =>
          Ok (IRcreateVal (Z.of_nat (if bits then ir_size a else Nat.div (ir_size a) (wordbase arch)))
                (wordbase arch))
      end
  | _ => Fatal AssertFailed
  end.

(** The leaves of the switch (lines 217-228, with the [default] of lines
    75-76): literals stand for themselves, [IP] is the end address of the
    current instruction ([createVal] keeps it in [uint64_t]), registers, stacks and
    scratch variables are not constant ([create ()]), any other kind is
    the literal 1. *)
Definition constLeaf (argExpr : IRArgument) : Result IRArgument :=
  match ir_type argExpr with
  | IR_ARGTYPE_SINT _ | IR_ARGTYPE_UINT _ | IR_ARGTYPE_FLOAT _ => Ok argExpr
  | IR_ARGTYPE_IP =>
      match cur with
      | Some ins => Ok (IRcreateVal (instr_addr ins + instr_size ins) (bitbase arch))
      | None => Fatal AssertFailed
      end
  | IR_ARGTYPE_REG _ | IR_ARGTYPE_STACK _ | IR_ARGTYPE_TMP _ => Ok IRcreate
  | _ => Ok (IRcreateVal 1 (bitbase arch))
  end.

Fixpoint parseConstExpression (fuel : nat) (argExpr : IRArgument) : Result IRArgument :=
  match fuel with
  | O => Fatal OutOfFuel
  | S fuel' =>
      match ir_type argExpr with
      | IR_ARGTYPE_ARG i =>
          (* the list is indexed by [argExpr.ref.refId] itself; out of
             range is undefined behaviour in C++, fatal here *)
          match nth_error arglist i with Some a => Ok a | None => Fatal AssertFailed end
      | IR_ARGTYPE_ID id =>
          match getIrExpr arch id with
          | None => Fatal MissingCatalogEntry
          | Some e =>
              match ire_type e with
              | IR_EXPR_OP =>
                  constOp (parseConstExpression fuel') (ire_opType e) (ire_subExpressions e)
              | IR_EXPR_SIZE => constSize (parseConstExpression fuel') false (ire_subExpressions e)
              | IR_EXPR_BSIZE => constSize (parseConstExpression fuel') true (ire_subExpressions e)
              | _ => Ok IRcreate
              end
          end
      | _ => constLeaf argExpr
      end
  end.

(** [constArg && constArg.type == IR_ARGTYPE_UINT && constArg.uval] *)
Definition guard_true (a : IRArgument) : bool :=
  match ir_type a with IR_ARGTYPE_UINT u => negb (Z.eqb u 0) | _ => false end.
End ConstEval.

(** [SSAGen::matchIr]: the first candidate body whose operand count is the
    instruction's and whose guard is true; [None] is the [nullptr] the
    sources return when nothing matches. *)
Fixpoint matchIrs (arch : Architecture) (cur : option Instruction) (fuel : nat)
    (operands : list IRArgument) (irs : list IRRepresentation)
    : Result (option IRRepresentation) :=
  match irs with
  | [] => Ok None
  | r :: irs' =>
      if Nat.eqb (length operands) (irr_argcount r) then
        match parseConstExpression arch cur operands fuel (irr_condExpr r) with
        | Fatal e => Fatal e
        | Ok c => if guard_true c then Ok (Some r) else matchIrs arch cur fuel operands irs'
        end
      else matchIrs arch cur fuel operands irs'
  end.

Definition matchIr (arch : Architecture) (cur : option Instruction) (fuel : nat)
    (instr : Instruction) : Result (option IRRepresentation) :=
  matchIrs arch cur fuel (instr_operands instr) (instrdef_irs (instr_def instr)).

Local Open Scope nat_scope.

(** ** Well-founded templates

    A [rank] on expression ids such that every nested expression of a node
    has a smaller rank: the catalog's expression table is acyclic.  Such a
    rank exists for every template set the parser builds from text, and the
    fuel [S (arg_rank rank a)] then suffices (theorem
    [parseConstExpression_fueled]). *)
Definition arg_rank (rank : nat -> nat) (a : IRArgument) : nat :=
  match ir_type a with IR_ARGTYPE_ID id => S (rank id) | _ => 0 end.

Definition ranked (arch : Architecture) (rank : nat -> nat) : Prop :=
  forall id e, getIrExpr arch id = Some e ->
    Forall (fun s => arg_rank rank s <= rank id) (ire_subExpressions e).

(** An evaluator result that did not run out of fuel. *)
Definition fueled {A} (r : Result A) : Prop := r <> Fatal OutOfFuel.

(** [ev2] agrees with [ev1] wherever [ev1] had enough fuel. *)
Definition agrees (ev1 ev2 : IRArgument -> Result IRArgument) (subs : list IRArgument) : Prop :=
  forall s, In s subs -> fueled (ev1 s) -> ev2 s = ev1 s.

Ltac agree_on Hag Hf s :=
  let E := fresh "E" in
  let Hs := fresh "Hs" in
  match type of Hag with
  | agrees ?ev1 ?ev2 _ =>
      assert (Hs : ev2 s = ev1 s);
      [apply Hag; [simpl; tauto|];
       intros E; unfold fueled in Hf; rewrite E in Hf; by apply Hf
      | rewrite Hs; clear Hs]
  end.

Section Helpers.
Context (arch : Architecture).

Lemma constLogic_agree ev1 ev2 step val subs :
  agrees ev1 ev2 subs -> fueled (constLogic arch ev1 step val subs) ->
  constLogic arch ev2 step val subs = constLogic arch ev1 step val subs.
Proof.
  revert val. induction subs as [|s subs IH]; simpl; intros val Hag Hf; [done|].
  agree_on Hag Hf s.
  destruct (ev1 s) as [a|e]; [|done]. destruct (ir_type a); try done.
  apply IH; [intros x Hx; apply Hag; by right | done].
Qed.

Lemma constCompare_agree ev1 ev2 cmp subs :
  agrees ev1 ev2 subs -> fueled (constCompare arch ev1 cmp subs) ->
  constCompare arch ev2 cmp subs = constCompare arch ev1 cmp subs.
Proof.
  unfold constCompare. intros Hag Hf.
  destruct subs as [|s1 [|s2 [|? ?]]]; try done.
  agree_on Hag Hf s1. destruct (ev1 s1) as [a1|e]; [|done].
  by agree_on Hag Hf s2.
Qed.

Lemma constNot_agree ev1 ev2 subs :
  agrees ev1 ev2 subs -> fueled (constNot arch ev1 subs) ->
  constNot arch ev2 subs = constNot arch ev1 subs.
Proof.
  unfold constNot. intros Hag Hf. destruct subs as [|s ?]; [done|].
  by agree_on Hag Hf s.
Qed.

Lemma constSize_agree ev1 ev2 bits subs :
  agrees ev1 ev2 subs -> fueled (constSize arch ev1 bits subs) ->
  constSize arch ev2 bits subs = constSize arch ev1 bits subs.
Proof.
  unfold constSize. intros Hag Hf. destruct subs as [|s [|? ?]]; try done.
  by agree_on Hag Hf s.
Qed.

Lemma constOp_agree ev1 ev2 op subs :
  agrees ev1 ev2 subs -> fueled (constOp arch ev1 op subs) ->
  constOp arch ev2 op subs = constOp arch ev1 op subs.
Proof.
  intros Hag Hf. destruct op; simpl in *;
    eauto using constLogic_agree, constCompare_agree, constNot_agree.
Qed.

(** The helpers never invent [OutOfFuel]: they report it only when an
    operand evaluation did. *)
Lemma constLogic_fueled ev step val subs :
  (forall s, In s subs -> fueled (ev s)) -> fueled (constLogic arch ev step val subs).
Proof.
  revert val. induction subs as [|s subs IH]; simpl; intros val H; [done|].
  specialize (H s (or_introl eq_refl)) as Hs.
  destruct (ev s) as [a|e]; [|done]. destruct (ir_type a); try done.
  apply IH. intros x Hx. apply H. by right.
Qed.

Lemma constOp_fueled ev op subs :
  (forall s, In s subs -> fueled (ev s)) -> fueled (constOp arch ev op subs).
Proof.
  intros H. destruct op; simpl; try apply constLogic_fueled; try done;
    unfold constCompare, constNot;
    repeat match goal with
    | |- context [match ?l with _ => _ end] =>
        match type of l with list _ => destruct l as [|? l] end
    end; try done;
    repeat match goal with
    | |- context [ev ?s] =>
        let E := fresh in
        assert (fueled (ev s)) as E by (apply H; simpl; tauto);
        destruct (ev s); [|done]
    end; repeat case_match; done.
Qed.

Lemma constSize_fueled ev bits subs :
  (forall s, In s subs -> fueled (ev s)) -> fueled (constSize arch ev bits subs).
Proof.
  intros H. unfold constSize. destruct subs as [|s [|? ?]]; try done.
  specialize (H s (or_introl eq_refl)). by destruct (ev s).
Qed.
End Helpers.

(** ** Fuel *)

(** More fuel never changes a result that did not run out of fuel. *)
Lemma parseConstExpression_mono arch cur args n m a :
  n <= m -> fueled (parseConstExpression arch cur args n a) ->
  parseConstExpression arch cur args m a = parseConstExpression arch cur args n a.
Proof.
  revert m a. induction n as [|n IH]; intros m a Hle Hf; [done|].
  destruct m as [|m]; [lia|]. simpl in *.
  destruct (ir_type a); try done.
  destruct (getIrExpr arch exprId) as [e|]; [|done].
  destruct (ire_type e); try done;
    first [apply constOp_agree | apply constSize_agree]; try done;
    intros s _ Hs; (apply IH; [lia|done]).
Qed.

Lemma constLeaf_fueled arch cur a : fueled (constLeaf arch cur a).
Proof. unfold constLeaf, fueled. destruct (ir_type a); try done. by destruct cur. Qed.

(** On an acyclic expression table the guard evaluator terminates: fuel
    one above the rank of the expression is enough. *)
Lemma parseConstExpression_fueled arch cur args rank fuel a :
  ranked arch rank -> arg_rank rank a < fuel ->
  fueled (parseConstExpression arch cur args fuel a).
Proof.
  intros Hr. revert a. induction fuel as [|fuel IH]; intros a Ha; [lia|].
  simpl. unfold arg_rank in Ha. unfold fueled.
  destruct (ir_type a) as [| | | |i|id| | | | | | |]; try apply constLeaf_fueled.
  - by destruct (nth_error args i).
  - destruct (getIrExpr arch id) as [e|] eqn:He; [|done].
    pose proof (Hr id e He) as Hsub. rewrite List.Forall_forall in Hsub.
    assert (Hs : forall s, In s (ire_subExpressions e) ->
                   fueled (parseConstExpression arch cur args fuel s)).
    { intros s Hin. apply IH. specialize (Hsub s Hin). lia. }
    destruct (ire_type e); try done;
      first [apply constOp_fueled | apply constSize_fueled]; done.
Qed.

(** ** The matcher *)

(** The reference a template matcher should implement: the first
    candidate whose operand count is the instruction's and whose guard
    evaluates to a non-zero unsigned literal. *)
Definition guard_holds arch cur fuel (ops : list IRArgument) (r : IRRepresentation) : bool :=
  Nat.eqb (length ops) (irr_argcount r) &&
  match parseConstExpression arch cur ops fuel (irr_condExpr r) with
  | Ok c => guard_true c
  | Fatal _ => false
  end.

(** C24: The matcher's loop is the reference [find], whenever no guard of a
    candidate with the right operand count is fatal. *)
Theorem matchIrs_find arch cur fuel ops irs :
  (forall r, In r irs -> length ops = irr_argcount r ->
     exists c, parseConstExpression arch cur ops fuel (irr_condExpr r) = Ok c) ->
  matchIrs arch cur fuel ops irs = Ok (List.find (guard_holds arch cur fuel ops) irs).
Proof.
  induction irs as [|r irs IH]; simpl; intros H; [done|].
  unfold guard_holds at 1.
  destruct (Nat.eqb_spec (length ops) (irr_argcount r)) as [E|E]; simpl.
  - destruct (H r (or_introl eq_refl) E) as [c Hc]. rewrite Hc.
    destruct (guard_true c); [done|]. apply IH. eauto.
  - apply IH. eauto.
Qed.

(** With every guard ranked below the fuel, the matcher never runs out of it. *)
Lemma matchIrs_fueled arch cur rank fuel ops irs :
  ranked arch rank -> Forall (fun r => arg_rank rank (irr_condExpr r) < fuel) irs ->
  fueled (matchIrs arch cur fuel ops irs).
Proof.
  intros Hr Hirs. induction Hirs as [|r irs Hc _ IH]; [done|].
  pose proof (parseConstExpression_fueled arch cur ops rank fuel _ Hr Hc) as Hf.
  unfold fueled in *. simpl. destruct (_ =? _); [|exact IH].
  destruct (parseConstExpression _ _ _ _ _) as [c|e]; [|exact (fatal_not_fuel _ Hf)].
  destruct (guard_true c); [done|exact IH].
Qed.

(** The matcher selects one of the candidates. *)
Lemma matchIrs_In arch cur fuel ops irs r :
  matchIrs arch cur fuel ops irs = Ok (Some r) -> In r irs.
Proof.
  induction irs as [|r' irs IH]; simpl; [done|].
  destruct (_ =? _); [|intros H; right; auto].
  destruct (parseConstExpression _ _ _ _ _) as [c|e]; [|done].
  destruct (guard_true c); [intros H; injection H as ->; by left|intros H; right; auto].
Qed.

(** The [eAnd] loop starts from [val = 0] and computes [val && x]: its
    result is never a true guard. *)
Lemma constLogic_and_false arch ev subs :
  match constLogic arch ev c_and 0 subs with
  | Ok a => guard_true a = false
  | Fatal _ => True
  end.
Proof.
  induction subs as [|s subs IH]; simpl; [done|].
  destruct (ev s) as [a|e]; [|done].
  (* [c_and 0 u] reduces to [0]: the loop stays at [val = 0] *)
  destruct (ir_type a); try done.
Qed.

(** C23: A candidate guarded by a logical AND is never selected: the matcher
    skips it (or stops on a fatal operand), whatever its operands are. *)
Theorem and_guard_skipped arch cur fuel ops r irs id e sz :
  getIrExpr arch id = Some e -> ire_type e = IR_EXPR_OP -> ire_opType e = eAnd ->
  irr_condExpr r = mkIRArgument (IR_ARGTYPE_ID id) sz ->
  matchIrs arch cur fuel ops (r :: irs) = matchIrs arch cur fuel ops irs \/
  exists err, matchIrs arch cur fuel ops (r :: irs) = Fatal err.
Proof.
  intros He Ht Ho Hc. simpl. destruct (length ops =? irr_argcount r); [|by left].
  rewrite Hc. destruct fuel as [|fuel]; [right; eauto|]. simpl.
  rewrite He, Ht, Ho. simpl.
  pose proof (constLogic_and_false arch (parseConstExpression arch cur ops fuel)
                (ire_subExpressions e)) as H.
  destruct (constLogic _ _ _ _ _) as [a|err]; [rewrite H; by left | right; eauto].
Qed.

(** ** Concrete catalog used by the witnesses *)
Definition lit (v : Z) : IRArgument := mkIRArgument (IR_ARGTYPE_UINT v) 64.

Definition exAndExpr : IRExpression := mkIRExpression IR_EXPR_OP [lit 1; lit 1] eAnd 0 0 eUInt.
Definition exOrExpr : IRExpression := mkIRExpression IR_EXPR_OP [lit 0; lit 1] eOr 0 0 eUInt.

Definition exGuardArch : Architecture :=
  mkArchitecture 64 8 [] [] [] (<[1 := exAndExpr]> (<[2 := exOrExpr]> ∅)) [] 0.

Definition candAnd : IRRepresentation := mkIRRepresentation 0 (mkIRArgument (IR_ARGTYPE_ID 1) 0) IRcreate.
Definition candOr : IRRepresentation := mkIRRepresentation 0 (mkIRArgument (IR_ARGTYPE_ID 2) 0) IRcreate.
Definition candAlways : IRRepresentation := mkIRRepresentation 0 IRcreate IRcreate.

(** [and (1, 1)] does not select its candidate; the unguarded one is
    chosen instead, while [or (0, 1)] selects its own. *)
Example matchIrs_and_example :
  matchIrs exGuardArch None 3 [] [candAnd; candAlways] = Ok (Some candAlways) /\
  matchIrs exGuardArch None 3 [] [candOr; candAlways] = Ok (Some candOr).
Proof. split; reflexivity. Qed.

Lemma matchIrs_find_witness :
  matchIrs exGuardArch None 3 [] [candAnd; candOr; candAlways] =
  Ok (List.find (guard_holds exGuardArch None 3 []) [candAnd; candOr; candAlways]).
Proof.
  apply matchIrs_find. intros r Hr _. simpl in Hr.
  destruct Hr as [<-|[<-|[<-|[]]]]; eexists; reflexivity.
Defined.

Lemma and_guard_skipped_witness :
  matchIrs exGuardArch None 3 [] [candAnd; candAlways] = matchIrs exGuardArch None 3 [] [candAlways] \/
  exists err, matchIrs exGuardArch None 3 [] [candAnd; candAlways] = Fatal err.
Proof. apply (and_guard_skipped exGuardArch None 3 [] candAnd [candAlways] 1 exAndExpr 0); reflexivity. Defined.

