(* ===== verification/BlockStore.v ===== *)
(** * The basic-block store

    Block creation ([SSAGen::createNewBlock]), lookup by id
    ([SSAGen::getBlock]), the edge updates the lowering and the resolver
    perform ([outBlocks.insert] on one side, [inBlocks.insert] on the
    other) and [SSAGen::splitBasicBlock] (src/main/SSAGen.cpp, lines
    296-333).  The invariants of the spec are stated here: edge symmetry
    ([SSA.edges_symmetric]), edges that name existing blocks, and disjoint
    address ranges. *)

From S2P Require Import Prelude Arch SSA.

(** ** Field updates of a block *)
Definition set_outBlocks (b : SSABB) (s : gset nat) : SSABB :=
  mkSSABB (bb_id b) (bb_fallthroughId b) (bb_startaddr b) (bb_endaddr b) (bb_exprIds b)
    (bb_inBlocks b) s.
Definition set_inBlocks (b : SSABB) (s : gset nat) : SSABB :=
  mkSSABB (bb_id b) (bb_fallthroughId b) (bb_startaddr b) (bb_endaddr b) (bb_exprIds b)
    s (bb_outBlocks b).
Definition set_fallthrough (b : SSABB) (f : nat) : SSABB :=
  mkSSABB (bb_id b) f (bb_startaddr b) (bb_endaddr b) (bb_exprIds b)
    (bb_inBlocks b) (bb_outBlocks b).
Definition set_startaddr (b : SSABB) (a : Z) : SSABB :=
  mkSSABB (bb_id b) (bb_fallthroughId b) a (bb_endaddr b) (bb_exprIds b)
    (bb_inBlocks b) (bb_outBlocks b).
Definition set_endaddr (b : SSABB) (a : Z) : SSABB :=
  mkSSABB (bb_id b) (bb_fallthroughId b) (bb_startaddr b) a (bb_exprIds b)
    (bb_inBlocks b) (bb_outBlocks b).

(** [SSAGen::getBlock]: the first block with that id. *)
Definition getBlock (rep : SSARepresentation) (id : nat) : option SSABB := getBB (bbs rep) id.

(** [SSAGen::createNewBlock]: push a default block, return its id. *)
Definition createNewBlock (rep : SSARepresentation) : SSARepresentation * nat :=
  bbs_push_back rep newBlock.

(** [a->outBlocks.insert (b); getBlock (b)->inBlocks.insert (a)]. *)
Definition addEdge (src dst : nat) (blocks : list SSABB) : list SSABB :=
  updateBB dst (fun b => set_inBlocks b ({[src]} ∪ bb_inBlocks b))
    (updateBB src (fun b => set_outBlocks b ({[dst]} ∪ bb_outBlocks b)) blocks).

(** [getBlock (id)->fallthroughId = f]. *)
Definition setFallthrough (id f : nat) (blocks : list SSABB) : list SSABB :=
  updateBB id (fun b => set_fallthrough b f) blocks.

(** ** [splitBasicBlock] *)

(** [expr->type == eLabel && expr->subExpressions.size () > 0 &&
    expr->subExpressions[0].type == eUInt && expr->subExpressions[0].uval == addr] *)
Definition isLabelAt (addr : Z) (e : SSAExpression) : bool :=
  match se_type e, se_subExpressions e with
  | eLabel, a :: _ => match sa_type a with eArgUInt v => Z.eqb v addr | _ => false end
  | _, _ => false
  end.

(** The scan of [bb.exprIds] for the label at [addr]: its position, if
    any; a node id without a node fails the [assert (expr)]. *)
Fixpoint labelPos (rep : SSARepresentation) (addr : Z) (ids : list nat) : Result (option nat) :=
  match ids with
  | [] => Ok None
  | i :: ids' =>
      match getExpr rep i with
      | None => Fatal AssertFailed
      | Some e =>
          if isLabelAt addr e then Ok (Some 0%nat)
          else match labelPos rep addr ids' with
               | Ok (Some k) => Ok (Some (S k))
               | r => r
               end
      end
  end.

(** The split itself, once block [bb] and the label position [k] are
    found: the old block keeps the nodes before the label and ends at
    [addr]; the created block holds the rest, inherits the end address,
    the fallthrough and the out-edges, and has the old block as its only
    predecessor; the old block falls through to it. *)
Definition doSplit (rep : SSARepresentation) (bb : SSABB) (addr : Z) (k : nat)
    : SSARepresentation * nat :=
  let oldId := bb_id bb in
  let truncated := mkSSABB oldId (bb_fallthroughId bb) (bb_startaddr bb) addr
                     (take k (bb_exprIds bb)) (bb_inBlocks bb) (bb_outBlocks bb) in
  let created := mkSSABB 0 (bb_fallthroughId bb) addr (bb_endaddr bb)
                   (drop k (bb_exprIds bb)) {[oldId]} (bb_outBlocks bb) in
  let '(rep1, newId) :=
    bbs_push_back (setBBs rep (updateBB oldId (fun _ => truncated) (bbs rep))) created in
  (setBBs rep1 (updateBB oldId (fun b => set_outBlocks (set_fallthrough b newId) {[newId]})
                  (bbs rep1)), newId).

Fixpoint splitScan (rep : SSARepresentation) (addr : Z) (blocks : list SSABB)
    : Result (SSARepresentation * nat) :=
  match blocks with
  | [] => Ok (rep, 0%nat)
  | bb :: rest =>
      if Z.eqb (bb_startaddr bb) addr then Ok (rep, bb_id bb)
      else if Z.ltb (bb_startaddr bb) addr && Z.leb addr (bb_endaddr bb) then
        match labelPos rep addr (bb_exprIds bb) with
        | Fatal e => Fatal e
        | Ok (Some k) => Ok (doSplit rep bb addr k)
        | Ok None => splitScan rep addr rest
        end
      else splitScan rep addr rest
  end.

Definition splitBasicBlock (rep : SSARepresentation) (addr : Z) : Result (SSARepresentation * nat) :=
  splitScan rep addr (bbs rep).

(** ** Invariants of the block store *)

(** Every edge names a block id already handed out. *)
Definition edges_bounded (rep : SSARepresentation) : Prop :=
  forall b, In b (bbs rep) ->
    forall x, x ∈ bb_inBlocks b ∪ bb_outBlocks b -> (0 < x <= bb_gen rep).

(** Address ranges [[start, end)] of distinct blocks do not overlap (an
    empty range, as in a fresh block, overlaps nothing). *)
Definition overlap (b1 b2 : SSABB) : Prop :=
  (Z.max (bb_startaddr b1) (bb_startaddr b2) < Z.min (bb_endaddr b1) (bb_endaddr b2))%Z.

Definition ranges_disjoint (blocks : list SSABB) : Prop :=
  forall i j b1 b2, i <> j -> nth_error blocks i = Some b1 -> nth_error blocks j = Some b2 ->
    ~ overlap b1 b2.

(** [b'] covers a sub-range of [b]. *)
Definition subrange (b' b : SSABB) : Prop :=
  (bb_startaddr b <= bb_startaddr b' /\ bb_endaddr b' <= bb_endaddr b)%Z.

(** ** Lemmas on the edge operations *)

Lemma In_addEdge src dst blocks b' :
  In b' (addEdge src dst blocks) ->
  exists b, In b blocks /\ bb_id b' = bb_id b /\
    bb_outBlocks b' = (if bb_id b =? src then {[dst]} ∪ bb_outBlocks b else bb_outBlocks b) /\
    bb_inBlocks b' = (if bb_id b =? dst then {[src]} ∪ bb_inBlocks b else bb_inBlocks b).
Proof.
  unfold addEdge. intros H. apply In_updateBB in H as (b1 & H1 & ->).
  apply In_updateBB in H1 as (b & Hb & ->). exists b. split; [done|].
  destruct (bb_id b =? src) eqn:E1; simpl;
    destruct (bb_id b =? dst) eqn:E2; simpl; rewrite ?E2; repeat split.
Qed.

Lemma In_setFallthrough id f blocks b' :
  In b' (setFallthrough id f blocks) ->
  exists b, In b blocks /\ bb_id b' = bb_id b /\
    bb_outBlocks b' = bb_outBlocks b /\ bb_inBlocks b' = bb_inBlocks b.
Proof.
  unfold setFallthrough. intros H. apply In_updateBB in H as (b & Hb & ->).
  exists b. split; [done|]. by destruct (bb_id b =? id).
Qed.

(** Adding an edge on both sides keeps the edge sets symmetric. *)
Lemma addEdge_symmetric src dst blocks :
  edges_symmetric blocks -> edges_symmetric (addEdge src dst blocks).
Proof.
  intros Hs b1' b2' H1 H2.
  apply In_addEdge in H1 as (b1 & Hb1 & Hid1 & Ho1 & _).
  apply In_addEdge in H2 as (b2 & Hb2 & Hid2 & _ & Hi2).
  rewrite Hid1, Hid2, Ho1, Hi2. specialize (Hs b1 b2 Hb1 Hb2).
  destruct (Nat.eqb_spec (bb_id b1) src), (Nat.eqb_spec (bb_id b2) dst); set_solver.
Qed.

Lemma setFallthrough_symmetric id f blocks :
  edges_symmetric blocks -> edges_symmetric (setFallthrough id f blocks).
Proof.
  intros Hs b1' b2' H1 H2.
  apply In_setFallthrough in H1 as (b1 & Hb1 & Hid1 & Ho1 & _).
  apply In_setFallthrough in H2 as (b2 & Hb2 & Hid2 & _ & Hi2).
  rewrite Hid1, Hid2, Ho1, Hi2. auto.
Qed.

(** A fresh block has no edges and a fresh id: symmetry and boundedness
    survive its creation. *)
Lemma createNewBlock_wf rep :
  edges_symmetric (bbs rep) -> edges_bounded rep ->
  edges_symmetric (bbs (createNewBlock rep).1) /\ edges_bounded (createNewBlock rep).1.
Proof.
  intros Hs Hb. unfold createNewBlock, bbs_push_back, newBlock; simpl. split.
  - intros b1 b2 H1 H2. apply in_app_or in H1, H2.
    destruct H1 as [H1|[<-|[]]], H2 as [H2|[<-|[]]]; simpl; [by apply Hs| | |set_solver].
    + specialize (Hb b1 H1 (S (bb_gen rep))). set_solver by lia.
    + specialize (Hb b2 H2 (S (bb_gen rep))). set_solver by lia.
  - intros b Hin x Hx. apply in_app_or in Hin as [Hin|[<-|[]]]; [|set_solver].
    specialize (Hb b Hin x Hx). simpl. lia.
Qed.

#[export] Hint Resolve addEdge_symmetric setFallthrough_symmetric : holodec.

(** ** The split *)

(** The two halves of a split block. *)
Definition split_old (rep : SSARepresentation) (bb : SSABB) (addr : Z) (k : nat) : SSABB :=
  mkSSABB (bb_id bb) (S (bb_gen rep)) (bb_startaddr bb) addr (take k (bb_exprIds bb))
    (bb_inBlocks bb) {[S (bb_gen rep)]}.
Definition split_new (rep : SSARepresentation) (bb : SSABB) (addr : Z) (k : nat) : SSABB :=
  mkSSABB (S (bb_gen rep)) (bb_fallthroughId bb) addr (bb_endaddr bb) (drop k (bb_exprIds bb))
    {[bb_id bb]} (bb_outBlocks bb).

Lemma doSplit_eq rep bb addr k :
  bb_ids_ok rep -> In bb (bbs rep) ->
  doSplit rep bb addr k =
  (mkSSARepresentation (expressions rep) (expr_gen rep)
     (map (fun b => if bb_id b =? bb_id bb then split_old rep bb addr k else b) (bbs rep)
        ++ [split_new rep bb addr k])
     (S (bb_gen rep)), S (bb_gen rep)).
Proof.
  intros [_ Hids] Hin. rewrite List.Forall_forall in Hids.
  pose proof (Hids bb Hin) as Hbb.
  assert (Hne : (S (bb_gen rep) =? bb_id bb) = false) by (rewrite Nat.eqb_neq; lia).
  unfold doSplit, bbs_push_back, setBBs, updateBB. cbn -[Nat.eqb].
  rewrite map_app, map_map. cbn -[Nat.eqb]. rewrite Hne.
  do 3 f_equal. apply map_ext. intros b.
  destruct (bb_id b =? bb_id bb) eqn:E; cbn -[Nat.eqb]; rewrite ?Nat.eqb_refl, ?E; reflexivity.
Qed.

Lemma overlap_mono b1' b1 b2' b2 :
  subrange b1' b1 -> subrange b2' b2 -> overlap b1' b2' -> overlap b1 b2.
Proof. unfold subrange, overlap. lia. Qed.

Lemma overlap_sym b1 b2 : overlap b1 b2 -> overlap b2 b1.
Proof. unfold overlap. lia. Qed.

(** The halves of a split never overlap each other. *)
Lemma split_halves_disjoint rep bb addr k :
  ~ overlap (split_old rep bb addr k) (split_new rep bb addr k).
Proof. unfold overlap, split_old, split_new; simpl. lia. Qed.

(** The three outcomes of [splitBasicBlock]: no block covers [addr]
    (result 0, store unchanged); a block starts at [addr] (its id, store
    unchanged); or the first covering block with a label at [addr] is
    split there. *)
Theorem splitBasicBlock_cases rep addr r :
  splitBasicBlock rep addr = Ok r ->
  r = (rep, 0%nat) \/
  (exists bb, In bb (bbs rep) /\ bb_startaddr bb = addr /\ r = (rep, bb_id bb)) \/
  (exists bb k, In bb (bbs rep) /\ (bb_startaddr bb < addr <= bb_endaddr bb)%Z /\
     labelPos rep addr (bb_exprIds bb) = Ok (Some k) /\ r = doSplit rep bb addr k).
Proof.
  unfold splitBasicBlock.
  assert (Hsub : forall b, In b (bbs rep) -> In b (bbs rep)) by done.
  revert Hsub. generalize (bbs rep) at 1 3 as l.
  induction l as [|bb rest IH]; simpl; intros Hsub H.
  - injection H as <-. by left.
  - destruct (Z.eqb_spec (bb_startaddr bb) addr) as [E|E].
    { injection H as <-. right; left. exists bb. auto. }
    destruct (Z.ltb_spec (bb_startaddr bb) addr), (Z.leb_spec addr (bb_endaddr bb));
      simpl in H; try (apply IH; auto; fail).
    destruct (labelPos rep addr (bb_exprIds bb)) as [[k|]|e] eqn:Hl; try discriminate.
    + injection H as <-. right; right. exists bb, k. auto with lia.
    + apply IH; auto.
Qed.

Lemma bb_ids_ok_in rep b : bb_ids_ok rep -> In b (bbs rep) -> (0 < bb_id b <= bb_gen rep).
Proof. intros [_ H] Hin. rewrite List.Forall_forall in H. auto. Qed.

(** The block list after a split, and its ids. *)
Lemma doSplit_ids rep bb addr k :
  bb_ids_ok rep -> In bb (bbs rep) -> bb_ids_ok (fst (doSplit rep bb addr k)).
Proof.
  intros Hok Hin. rewrite doSplit_eq by done.
  pose proof (bb_ids_ok_in rep bb Hok Hin) as Hbb.
  destruct Hok as [Hnd Hids]. rewrite List.Forall_forall in Hids.
  assert (Hg : map bb_id (map (fun b => if bb_id b =? bb_id bb then split_old rep bb addr k else b)
                 (bbs rep)) = map bb_id (bbs rep)).
  { rewrite map_map. apply map_ext. intros b.
    destruct (Nat.eqb_spec (bb_id b) (bb_id bb)); simpl; auto. }
  split; simpl.
  - rewrite map_app, Hg. apply NoDup_app. split; [done|]. split; [|apply NoDup_singleton].
    intros x Hx Hx'. apply list_elem_of_singleton in Hx' as ->.
    apply list_elem_of_In, in_map_iff in Hx as (b & Hb & Hbin). specialize (Hids b Hbin).
    unfold split_new in Hb; simpl in Hb. lia.
  - apply List.Forall_forall. intros b Hb. apply in_app_or in Hb as [Hb|[<-|[]]].
    + apply in_map_iff in Hb as (b0 & <- & Hb0). specialize (Hids b0 Hb0).
      destruct (Nat.eqb_spec (bb_id b0) (bb_id bb)); unfold split_old; simpl; lia.
    + simpl. lia.
Qed.

(** C31: Functional behaviour of the split: the old block keeps its start, ends
    at [addr], keeps the nodes before the label and falls through to the
    created block, which is its only successor; the created block gets the
    next id, the range [[addr, end)], the nodes from the label on, the old
    block as only predecessor and the old block's out-edges and
    fallthrough.  Every other block is unchanged. *)
Theorem doSplit_spec rep bb addr k :
  bb_ids_ok rep -> In bb (bbs rep) ->
  snd (doSplit rep bb addr k) = S (bb_gen rep) /\
  getBlock (fst (doSplit rep bb addr k)) (bb_id bb) = Some (split_old rep bb addr k) /\
  getBlock (fst (doSplit rep bb addr k)) (S (bb_gen rep)) = Some (split_new rep bb addr k) /\
  (forall b, In b (bbs rep) -> bb_id b <> bb_id bb ->
     getBlock (fst (doSplit rep bb addr k)) (bb_id b) = Some b).
Proof.
  intros Hok Hin. pose proof (doSplit_ids rep bb addr k Hok Hin) as [Hnd _].
  revert Hnd. rewrite doSplit_eq by done. simpl. intros Hnd.
  split; [done|]. unfold getBlock; simpl. split; [|split].
  - apply (getBB_In _ (split_old rep bb addr k)); [done|].
    apply in_or_app. left. apply in_map_iff. exists bb. by rewrite Nat.eqb_refl.
  - apply (getBB_In _ (split_new rep bb addr k)); [done|].
    apply in_or_app. right. by left.
  - intros b Hb Hne. apply getBB_In; [done|].
    apply in_or_app. left. apply in_map_iff. exists b.
    destruct (Nat.eqb_spec (bb_id b) (bb_id bb)); done.
Qed.

(** Splitting keeps the address ranges of the store pairwise disjoint:
    both halves lie inside the old range and do not overlap each other. *)
Theorem doSplit_ranges_disjoint rep bb addr k :
  bb_ids_ok rep -> In bb (bbs rep) ->
  (bb_startaddr bb < addr <= bb_endaddr bb)%Z ->
  ranges_disjoint (bbs rep) -> ranges_disjoint (bbs (fst (doSplit rep bb addr k))).
Proof.
  intros Hok Hin Haddr Hdis. pose proof Hok as [Hnd _].
  rewrite doSplit_eq by done. simpl.
  set (g := fun b => if bb_id b =? bb_id bb then split_old rep bb addr k else b).
  assert (Hsub : forall b, In b (bbs rep) -> subrange (g b) b).
  { intros b Hb. unfold g. destruct (Nat.eqb_spec (bb_id b) (bb_id bb)) as [E|E].
    - rewrite (NoDup_map_In_inj bb_id (bbs rep) b bb) by done.
      unfold subrange, split_old; simpl. lia.
    - unfold subrange. lia. }
  assert (Hnew : subrange (split_new rep bb addr k) bb).
  { unfold subrange, split_new; simpl. lia. }
  apply In_nth_error in Hin as [p Hp].
  (* a block of the old list against the created block *)
  assert (Hcross : forall i b, nth_error (bbs rep) i = Some b ->
            ~ overlap (g b) (split_new rep bb addr k)).
  { intros i b Hb Hov. pose proof (nth_error_In _ _ Hb) as HbIn.
    unfold g in Hov. destruct (Nat.eqb_spec (bb_id b) (bb_id bb)) as [E|E].
    - by apply (split_halves_disjoint rep bb addr k).
    - assert (i <> p) by (intros ->; congruence).
      apply (Hdis i p b bb); [done|done|done|].
      apply (overlap_mono b b (split_new rep bb addr k) bb); [unfold subrange; lia|done|done]. }
  intros i j b1 b2 Hij H1 H2.
  assert (Hlen : length (map g (bbs rep)) = length (bbs rep)) by apply length_map.
  destruct (Nat.lt_ge_cases i (length (bbs rep))) as [Hi|Hi],
           (Nat.lt_ge_cases j (length (bbs rep))) as [Hj|Hj].
  - rewrite nth_error_app1 in H1, H2 by lia. rewrite nth_error_map in H1, H2.
    destruct (nth_error (bbs rep) i) as [c1|] eqn:E1; [|done].
    destruct (nth_error (bbs rep) j) as [c2|] eqn:E2; [|done].
    injection H1 as <-. injection H2 as <-. intros Hov.
    apply (Hdis i j c1 c2 Hij E1 E2).
    eapply overlap_mono; [apply Hsub; eapply nth_error_In; eauto
                         | apply Hsub; eapply nth_error_In; eauto | exact Hov].
  - rewrite nth_error_app1 in H1 by lia. rewrite nth_error_app2 in H2 by lia.
    rewrite nth_error_map in H1.
    destruct (nth_error (bbs rep) i) as [c1|] eqn:E1; [|done]. injection H1 as <-.
    destruct (j - length (map g (bbs rep))) as [|?]; simpl in H2; [|by destruct n].
    injection H2 as <-. exact (Hcross i c1 E1).
  - rewrite nth_error_app2 in H1 by lia. rewrite nth_error_app1 in H2 by lia.
    rewrite nth_error_map in H2.
    destruct (nth_error (bbs rep) j) as [c2|] eqn:E2; [|done]. injection H2 as <-.
    destruct (i - length (map g (bbs rep))) as [|?]; simpl in H1; [|by destruct n].
    injection H1 as <-. intros Hov. apply overlap_sym in Hov. exact (Hcross j c2 E2 Hov).
  - rewrite nth_error_app2 in H1, H2 by lia.
    destruct (i - length (map g (bbs rep))) as [|i'] eqn:Ei; simpl in H1; [|by destruct i'].
    destruct (j - length (map g (bbs rep))) as [|j'] eqn:Ej; simpl in H2; [|by destruct j'].
    lia.
Qed.

(** The split moves the out-edges to the created block but leaves the
    successors' in-edge sets untouched: a successor still lists the old
    block, which no longer lists it.  Edge symmetry is lost as soon as the
    split block has a successor other than itself. *)
Lemma doSplit_breaks_symmetry rep bb addr k s :
  bb_ids_ok rep -> In bb (bbs rep) -> In s (bbs rep) ->
  bb_id s ∈ bb_outBlocks bb -> bb_id s <> bb_id bb ->
  edges_symmetric (bbs rep) -> ~ edges_symmetric (bbs (fst (doSplit rep bb addr k))).
Proof.
  intros Hok Hin Hs Hout Hne Hsym Hsym'.
  pose proof (bb_ids_ok_in rep s Hok Hs) as Hsb.
  rewrite doSplit_eq in Hsym' by done. simpl in Hsym'.
  specialize (Hsym' (split_old rep bb addr k) s).
  assert (HinBB : bb_id bb ∈ bb_inBlocks s) by (by apply (Hsym bb s)).
  destruct Hsym' as [_ Hback].
  - apply in_or_app. left. apply in_map_iff. exists bb. by rewrite Nat.eqb_refl.
  - apply in_or_app. left. apply in_map_iff. exists s.
    by destruct (Nat.eqb_spec (bb_id s) (bb_id bb)).
  - unfold split_old in Hback. simpl in Hback.
    specialize (Hback HinBB). apply elem_of_singleton in Hback. lia.
Qed.

(** C14: whenever [splitBasicBlock] really splits (the store changes) and
    every block covering [addr] has a successor other than itself, the
    store it returns violates edge symmetry. *)
Theorem splitBasicBlock_breaks_symmetry rep addr rep' nid :
  bb_ids_ok rep -> edges_symmetric (bbs rep) ->
  (forall bb, In bb (bbs rep) -> (bb_startaddr bb < addr <= bb_endaddr bb)%Z ->
     exists s, In s (bbs rep) /\ bb_id s ∈ bb_outBlocks bb /\ bb_id s <> bb_id bb) ->
  splitBasicBlock rep addr = Ok (rep', nid) -> rep' <> rep ->
  ~ edges_symmetric (bbs rep').
Proof.
  intros Hok Hsym Hsucc Hsplit Hchg.
  destruct (splitBasicBlock_cases rep addr _ Hsplit)
    as [[= -> _]|[(bb & _ & _ & [= -> _])|(bb & k & Hin & Hr & _ & Hd)]]; try done.
  destruct (Hsucc bb Hin Hr) as (s & Hs & Hout & Hne).
  replace rep' with (fst (doSplit rep bb addr k)) by (by rewrite <- Hd).
  by apply (doSplit_breaks_symmetry rep bb addr k s).
Qed.

(** C35: Splitting on a fresh store preserves disjointness at every outcome. *)
Theorem splitBasicBlock_ranges_disjoint rep addr rep' nid :
  bb_ids_ok rep -> ranges_disjoint (bbs rep) ->
  splitBasicBlock rep addr = Ok (rep', nid) -> ranges_disjoint (bbs rep').
Proof.
  intros Hok Hdis Hsplit.
  destruct (splitBasicBlock_cases rep addr _ Hsplit)
    as [[= -> _]|[(bb & _ & _ & [= -> _])|(bb & k & Hin & Hr & _ & Hd)]]; try done.
  replace rep' with (fst (doSplit rep bb addr k)) by (by rewrite <- Hd).
  by apply doSplit_ranges_disjoint.
Qed.

(** ** The spec's split scenario

    One block [[0x10, 0x20)] holding the labels of the instructions at
    0x10 and 0x18 and an edge to a block at 0x20. *)
Definition labelNode (id : nat) (a : Z) : SSAExpression :=
  mkSSAExpression id eLabel (eOpOther 0) 0 ePc 64 eLocNone noRef [SAcreateVal a 64] a.

Definition exSplitRep : SSARepresentation :=
  mkSSARepresentation [labelNode 1 0x10; labelNode 2 0x18; labelNode 3 0x20] 3
    [mkSSABB 1 0 0x10 0x20 [1; 2] ∅ {[2]}; mkSSABB 2 0 0x20 0x30 [3] {[1]} ∅] 2.

Example split_scenario :
  splitBasicBlock exSplitRep 0x18 =
  Ok (mkSSARepresentation [labelNode 1 0x10; labelNode 2 0x18; labelNode 3 0x20] 3
        [mkSSABB 1 3 0x10 0x18 [1] ∅ {[3]}; mkSSABB 2 0 0x20 0x30 [3] {[1]} ∅;
         mkSSABB 3 0 0x18 0x20 [2] {[1]} {[2]}] 3, 3).
Proof. reflexivity. Qed.

Lemma exSplitRep_ok : bb_ids_ok exSplitRep.
Proof.
  split; simpl; [repeat constructor; set_solver | repeat constructor; lia].
Qed.

Lemma splitBasicBlock_breaks_symmetry_witness :
  edges_symmetric (bbs exSplitRep) /\
  ~ edges_symmetric (bbs (fst (doSplit exSplitRep (mkSSABB 1 0 0x10 0x20 [1; 2] ∅ {[2]}) 0x18 1))).
Proof.
  split; [by apply edges_symmetricb_spec; vm_compute|].
  apply (splitBasicBlock_breaks_symmetry exSplitRep 0x18 _ 3).
  - exact exSplitRep_ok.
  - by apply edges_symmetricb_spec; vm_compute.
  - intros bb Hin Hr. simpl in Hin.
    destruct Hin as [<-|[<-|[]]]; simpl in Hr; [|lia].
    exists (mkSSABB 2 0 0x20 0x30 [3] {[1]} ∅). simpl. split; [tauto|]. set_solver.
  - reflexivity.
  - vm_compute. congruence.
Defined.

Definition exSplitBB : SSABB := mkSSABB 1 0 0x10 0x20 [1; 2] ∅ {[2]}.

Lemma doSplit_spec_witness :
  snd (doSplit exSplitRep exSplitBB 0x18 1) = 3%nat /\
  getBlock (fst (doSplit exSplitRep exSplitBB 0x18 1)) 1 = Some (mkSSABB 1 3 0x10 0x18 [1] ∅ {[3]}) /\
  getBlock (fst (doSplit exSplitRep exSplitBB 0x18 1)) 3 = Some (mkSSABB 3 0 0x18 0x20 [2] {[1]} {[2]}).
Proof.
  destruct (doSplit_spec exSplitRep exSplitBB 0x18 1 exSplitRep_ok) as (H1 & H2 & H3 & _).
  - simpl. tauto.
  - split; [exact H1|]. split; [exact H2|exact H3].
Defined.

Lemma splitBasicBlock_cases_witness :
  exists bb k, In bb (bbs exSplitRep) /\ (bb_startaddr bb < 0x18 <= bb_endaddr bb)%Z /\
    labelPos exSplitRep 0x18 (bb_exprIds bb) = Ok (Some k) /\
    (fst (doSplit exSplitRep exSplitBB 0x18 1), 3%nat) = doSplit exSplitRep bb 0x18 k.
Proof.
  destruct (splitBasicBlock_cases exSplitRep 0x18 (fst (doSplit exSplitRep exSplitBB 0x18 1), 3%nat))
    as [H|[(bb & Hin & Hs & H)|H]].
  - reflexivity.
  - discriminate.
  - simpl in Hin. destruct Hin as [<-|[<-|[]]]; discriminate.
  - exact H.
Defined.

Lemma splitBasicBlock_ranges_disjoint_witness :
  ranges_disjoint (bbs (fst (doSplit exSplitRep exSplitBB 0x18 1))).
Proof.
  apply (splitBasicBlock_ranges_disjoint exSplitRep 0x18 _ 3 exSplitRep_ok).
  - intros i j b1 b2 Hij H1 H2.
    destruct i as [|[|i]]; simpl in H1; [| |by destruct i];
      destruct j as [|[|j]]; simpl in H2; try (by destruct j); try lia;
      injection H1 as <-; injection H2 as <-; unfold overlap; simpl; lia.
  - reflexivity.
Defined.
