(* ===== verification/Gen.v ===== *)
(** * The lowering session: state of [SSAGen] and its primitive steps

    The members of [SSAGen] that the lowering reads and writes, threaded
    through the state-and-error monad of the prelude ([Gen]), and the small
    member functions every handler calls: [addExpression], [insertLabel],
    [activateBlock], [createNewBlock], [parseIRArg2SSAArg], [replaceArg]
    and [parseMemArgToExpr] (src/main/SSAGen.cpp, lines 42-70, 231-369).
    The cached [activeblock] pointer is not part of the state: every use in
    the sources re-resolves [activeBlockId], which the model does
    directly. *)

From S2P Require Import Prelude Arch SSA ConstEval BlockStore.

(** An entry of the scratch-variable table [tmpdefs]. *)
Record SSATmpDef := mkSSATmpDef { tmp_id : nat; tmp_arg : IRArgument }.

Record SSAGen := mkSSAGen {
  g_rep : SSARepresentation;          (** [function->ssaRep] *)
  g_funcsCalled : list Z;             (** [function->funcsCalled] *)
  g_activeBlockId : nat;
  g_instruction : option Instruction;
  g_arguments : list IRArgument;
  g_tmpdefs : list SSATmpDef;
  g_lastOp : nat;
  g_endOfBlock : bool;
  g_fallthrough : bool
}.

Definition Gen := M SSAGen.

(** ** Field updates *)
Definition set_rep (g : SSAGen) (r : SSARepresentation) : SSAGen :=
  mkSSAGen r (g_funcsCalled g) (g_activeBlockId g) (g_instruction g) (g_arguments g)
    (g_tmpdefs g) (g_lastOp g) (g_endOfBlock g) (g_fallthrough g).
Definition set_funcsCalled (g : SSAGen) (l : list Z) : SSAGen :=
  mkSSAGen (g_rep g) l (g_activeBlockId g) (g_instruction g) (g_arguments g)
    (g_tmpdefs g) (g_lastOp g) (g_endOfBlock g) (g_fallthrough g).
Definition set_activeBlockId (g : SSAGen) (b : nat) : SSAGen :=
  mkSSAGen (g_rep g) (g_funcsCalled g) b (g_instruction g) (g_arguments g)
    (g_tmpdefs g) (g_lastOp g) (g_endOfBlock g) (g_fallthrough g).
Definition set_instruction (g : SSAGen) (i : option Instruction) : SSAGen :=
  mkSSAGen (g_rep g) (g_funcsCalled g) (g_activeBlockId g) i (g_arguments g)
    (g_tmpdefs g) (g_lastOp g) (g_endOfBlock g) (g_fallthrough g).
Definition set_arguments (g : SSAGen) (a : list IRArgument) : SSAGen :=
  mkSSAGen (g_rep g) (g_funcsCalled g) (g_activeBlockId g) (g_instruction g) a
    (g_tmpdefs g) (g_lastOp g) (g_endOfBlock g) (g_fallthrough g).
Definition set_tmpdefs (g : SSAGen) (t : list SSATmpDef) : SSAGen :=
  mkSSAGen (g_rep g) (g_funcsCalled g) (g_activeBlockId g) (g_instruction g) (g_arguments g)
    t (g_lastOp g) (g_endOfBlock g) (g_fallthrough g).
Definition set_lastOp (g : SSAGen) (o : nat) : SSAGen :=
  mkSSAGen (g_rep g) (g_funcsCalled g) (g_activeBlockId g) (g_instruction g) (g_arguments g)
    (g_tmpdefs g) o (g_endOfBlock g) (g_fallthrough g).
Definition set_flags (g : SSAGen) (eob ft : bool) : SSAGen :=
  mkSSAGen (g_rep g) (g_funcsCalled g) (g_activeBlockId g) (g_instruction g) (g_arguments g)
    (g_tmpdefs g) (g_lastOp g) eob ft.

(** [endOfBlock = true;] and [fallthrough = false;] as the handlers write them. *)
Definition setEndOfBlock (b : bool) : Gen unit :=
  modify (fun g => set_flags g b (g_fallthrough g)).
Definition setFallthroughFlag (b : bool) : Gen unit :=
  modify (fun g => set_flags g (g_endOfBlock g) b).

(** The node as [addExpression] stamps it: [expression->instrAddr =
    instruction->addr] when there is a current instruction. *)
Definition stamp (g : SSAGen) (e : SSAExpression) : SSAExpression :=
  match g_instruction g with
  | Some ins => mkSSAExpression (se_id e) (se_type e) (se_opType e) (se_flagType e)
                  (se_returntype e) (se_size e) (se_location e) (se_locref e)
                  (se_subExpressions e) (instr_addr ins)
  | None => e
  end.

Section Primitives.
Context (arch : Architecture).

(** [SSAGen::addExpression]: stamp the node with the current instruction's
    address, append it to the active block (a block that does not exist is
    the null [activeblock] of the sources), remember it when it is an
    operator node. *)
Definition addExpression (e : SSAExpression) : Gen nat :=
  fun g =>
    match getBlock (g_rep g) (g_activeBlockId g) with
    | None => Fatal AssertFailed
    | Some _ =>
        let '(rep', id) := addAtEnd (g_rep g) (stamp g e) (g_activeBlockId g) in
        let g1 := set_rep g rep' in
        Ok (id, if bool_decide (se_type e = eOp) then set_lastOp g1 id else g1)
    end.

(** [SSAGen::insertLabel]: a label node holding the instruction address. *)
Definition insertLabel (address : Z) : Gen nat :=
  addExpression
    (mkSSAExpression 0 eLabel (eOpOther 0) 0 ePc (bitbase arch) eLocNone noRef
       [SAcreateVal address (bitbase arch)] 0).

(** [SSAGen::createNewBlock]. *)
Definition createNewBlockG : Gen nat :=
  fun g => let '(rep', id) := createNewBlock (g_rep g) in Ok (id, set_rep g rep').

(** [SSAGen::activateBlock]. *)
Definition activateBlock (id : nat) : Gen unit := modify (fun g => set_activeBlockId g id).

(** Apply a change to the block store. *)
Definition modifyBBs (f : list SSABB -> list SSABB) : Gen unit :=
  modify (fun g => set_rep g (setBBs (g_rep g) (f (bbs (g_rep g))))).

(** A block that must exist ([getBlock (id)->...] dereferences it). *)
Definition requireBlock (id : nat) : Gen SSABB :=
  fun g => match getBlock (g_rep g) id with
           | Some b => Ok (b, g)
           | None => Fatal AssertFailed
           end.

(** [SSAGen::getActiveBlock]: the block of [activeBlockId].  The cached
    [activeblock] pointer only memoises this lookup, so it is not state. *)
Definition getActiveBlock : Gen SSABB :=
  b <- gets g_activeBlockId ;; requireBlock b.

(** [SSAGen::parseIRArg2SSAArg]. *)
Definition parseIRArg2SSAArg (arg : IRArgument) : Result SSAArgument :=
  match ir_type arg with
  | IR_ARGTYPE_UNKN => Ok SAcreate
  | IR_ARGTYPE_SSAID id => Ok (SAcreateId id (ir_size arg))
  | IR_ARGTYPE_FLOAT v => Ok (SAcreateFVal v (ir_size arg))
  | IR_ARGTYPE_UINT v => Ok (SAcreateVal v (ir_size arg))
  | IR_ARGTYPE_SINT v => Ok (SAcreateSVal v (ir_size arg))
  | IR_ARGTYPE_MEM m => Ok (SAcreateMem m)
  | IR_ARGTYPE_STACK r => Ok (SAcreateStck r (ir_size arg))
  | IR_ARGTYPE_REG r => Ok (SAcreateRegRef r (ir_size arg))
  | _ => Fatal AssertFailed
  end.

Definition toSSA (arg : IRArgument) : Gen SSAArgument :=
  fun g => match parseIRArg2SSAArg arg with
           | Ok a => Ok (a, g)
           | Fatal e => Fatal e
           end.

(** [SSAGen::replaceArg]: follow placeholders through the binding list
    ([arguments[refId - 1]], asserting [0 < refId <= size]).  The C++
    loop does not terminate on a cyclic chain of placeholders; the model
    follows at most [fuel] links. *)
Fixpoint replaceArgF (fuel : nat) (arguments : list IRArgument) (arg : IRArgument)
    : Result IRArgument :=
  match ir_type arg with
  | IR_ARGTYPE_ARG i =>
      match fuel with
      | O => Fatal OutOfFuel
      | S fuel' =>
          match i with
          | O => Fatal UnresolvedPlaceholder
          | S i' => match nth_error arguments i' with
                    | Some a => replaceArgF fuel' arguments a
                    | None => Fatal UnresolvedPlaceholder
                    end
          end
      end
  | _ => Ok arg
  end.

Definition replaceArg (arg : IRArgument) : Gen IRArgument :=
  fun g => match replaceArgF (S (length (g_arguments g))) (g_arguments g) arg with
           | Ok a => Ok (a, g)
           | Fatal e => Fatal e
           end.

(** One component of an effective address: the register, or the literal
    0 when the component is absent (register id 0). *)
Definition memComponent (regId : nat) : Gen SSAArgument :=
  if Nat.eqb regId 0 then ret (SAcreateVal 0 (bitbase arch))
  else r <- of_option AssertFailed (getRegister arch regId) ;; ret (SAcreateReg r).

(** [SSAGen::parseMemArgToExpr]: a 5-operand [eLoadAddr] node
    [segment, base, index, scale, disp].  The scale is an unsigned and the
    displacement a signed literal (their C++ field types). *)
Definition parseMemArgToExpr (mem : MemOperand) : Gen IRArgument :=
  seg <- memComponent (mem_segment mem) ;;
  base <- memComponent (mem_base mem) ;;
  idx <- memComponent (mem_index mem) ;;
  id <- addExpression
          (mkSSAExpression 0 eLoadAddr (eOpOther 0) 0 eUInt (bitbase arch) eLocNone noRef
             [seg; base; idx; SAcreateVal (mem_scale mem) (bitbase arch);
              SAcreateSVal (mem_disp mem) (bitbase arch)] 0) ;;
  ret (IRcreateSSAId id (bitbase arch)).

End Primitives.

(** ** Frame lemmas for [addExpression] *)

(** The active block exists. *)
Definition active_ok (g : SSAGen) : Prop :=
  exists b, getBlock (g_rep g) (g_activeBlockId g) = Some b.

Lemma shape_stamp g e : shape (stamp g e) = shape e.
Proof. unfold stamp. by destruct (g_instruction g). Qed.

Lemma shape_withId id e : shape (withId id e) = shape e.
Proof. done. Qed.

(** What [addExpression] does when the active block exists: the node gets
    the next id and is appended; everything but the store and [lastOp]
    is unchanged, and the active block still exists. *)
Lemma addExpression_ok g e :
  active_ok g ->
  exists g', addExpression e g = Ok (S (expr_gen (g_rep g)), g') /\
    expressions (g_rep g') = expressions (g_rep g) ++ [withId (S (expr_gen (g_rep g))) (stamp g e)] /\
    expr_gen (g_rep g') = S (expr_gen (g_rep g)) /\
    bb_gen (g_rep g') = bb_gen (g_rep g) /\
    map bb_id (bbs (g_rep g')) = map bb_id (bbs (g_rep g)) /\
    g_activeBlockId g' = g_activeBlockId g /\ g_instruction g' = g_instruction g /\
    g_arguments g' = g_arguments g /\ g_tmpdefs g' = g_tmpdefs g /\
    g_funcsCalled g' = g_funcsCalled g /\ active_ok g'.
Proof.
  intros [b Hb]. unfold addExpression. rewrite Hb.
  eexists. split; [reflexivity|].
  assert (Hupd : forall c : SSABB, bb_id (mkSSABB (bb_id c) (bb_fallthroughId c) (bb_startaddr c)
                   (bb_endaddr c) (bb_exprIds c ++ [S (expr_gen (g_rep g))]) (bb_inBlocks c)
                   (bb_outBlocks c)) = bb_id c) by done.
  destruct (bool_decide (se_type e = eOp)); simpl;
    (split; [done|]);
    (do 2 (split; [done|])); (split; [by apply map_bb_id_updateBB|]);
    do 5 (split; [done|]);
    unfold active_ok, getBlock; simpl; eapply getBB_updateBB_exists; eauto.
Qed.

(** ** Steps that only append nodes

    [node_frame g g']: the block structure (ids, fallthroughs, ranges and
    edges, seen through [cfg_view]) and every member of the session but the
    node store are unchanged.  [emits g g' es]: the store of [g'] is that
    of [g] followed by nodes shaped like [es]. *)
Definition cfg_view (b : SSABB) :=
  (bb_id b, bb_fallthroughId b, bb_startaddr b, bb_endaddr b, bb_inBlocks b, bb_outBlocks b).

Definition node_frame (g g' : SSAGen) : Prop :=
  map cfg_view (bbs (g_rep g')) = map cfg_view (bbs (g_rep g)) /\
  bb_gen (g_rep g') = bb_gen (g_rep g) /\
  g_activeBlockId g' = g_activeBlockId g /\ g_instruction g' = g_instruction g /\
  g_arguments g' = g_arguments g /\ g_tmpdefs g' = g_tmpdefs g /\
  g_funcsCalled g' = g_funcsCalled g.

Definition emits (g g' : SSAGen) (es : list SSAExpression) : Prop :=
  exists suffix, expressions (g_rep g') = expressions (g_rep g) ++ suffix /\
    map shape suffix = map shape es.

Lemma node_frame_refl g : node_frame g g.
Proof. repeat split. Qed.

Lemma node_frame_trans g1 g2 g3 : node_frame g1 g2 -> node_frame g2 g3 -> node_frame g1 g3.
Proof. intros (?&?&?&?&?&?&?) (?&?&?&?&?&?&?). repeat split; congruence. Qed.

Lemma emits_nil g : emits g g [].
Proof. exists []. by rewrite app_nil_r. Qed.

Lemma emits_trans g1 g2 g3 es1 es2 :
  emits g1 g2 es1 -> emits g2 g3 es2 -> emits g1 g3 (es1 ++ es2).
Proof.
  intros (s1 & H1 & S1) (s2 & H2 & S2). exists (s1 ++ s2).
  rewrite H2, H1, app_assoc. split; [done|]. by rewrite !map_app, S1, S2.
Qed.

(** The active block survives a step that keeps the block structure. *)
Lemma active_ok_frame g g' : node_frame g g' -> active_ok g -> active_ok g'.
Proof.
  intros (Hv & _ & Ha & _) [b Hb]. unfold active_ok, getBlock in *. rewrite Ha.
  apply (getBB_same_ids (bbs (g_rep g)) _ _ b); [|done].
  apply (f_equal (map (fun v => fst (fst (fst (fst (fst v))))))) in Hv.
  by rewrite !map_map in Hv.
Qed.

Lemma addExpression_step g e id g' :
  active_ok g -> addExpression e g = Ok (id, g') ->
  id = S (expr_gen (g_rep g)) /\ expr_gen (g_rep g') = S (expr_gen (g_rep g)) /\
  node_frame g g' /\ emits g g' [e] /\ active_ok g'.
Proof.
  intros [b Hb] H. unfold addExpression in H. rewrite Hb in H.
  assert (Hview : forall l, map cfg_view (updateBB (g_activeBlockId g)
     (fun c => mkSSABB (bb_id c) (bb_fallthroughId c) (bb_startaddr c) (bb_endaddr c)
                 (bb_exprIds c ++ [S (expr_gen (g_rep g))]) (bb_inBlocks c) (bb_outBlocks c)) l)
     = map cfg_view l).
  { intros l. unfold updateBB. rewrite map_map. apply map_ext. intros c.
    by destruct (Nat.eqb (bb_id c) (g_activeBlockId g)). }
  assert (Hfr : node_frame g g').
  { destruct (bool_decide (se_type e = eOp)); injection H as <- <-;
      repeat split; simpl; by rewrite ?Hview. }
  assert (Hem : emits g g' [e]).
  { exists [withId (S (expr_gen (g_rep g))) (stamp g e)].
    destruct (bool_decide (se_type e = eOp)); injection H as <- <-; split; try done;
      simpl; by rewrite shape_withId, shape_stamp. }
  destruct (bool_decide (se_type e = eOp)); injection H as <- <-;
    (split; [done|]); (split; [done|]); (split; [done|]); (split; [done|]);
    (apply (active_ok_frame g); [done|by exists b]).
Qed.

Lemma addExpression_runs g e :
  active_ok g -> exists g', addExpression e g = Ok (S (expr_gen (g_rep g)), g').
Proof. intros [b Hb]. unfold addExpression. rewrite Hb. eauto. Qed.
