(* ===== verification/GenLogic.v ===== *)
(** * A partial-correctness logic for the state-and-error monad

    [triple P c Q]: every successful run of [c] from a state satisfying
    [P] ends in a state and with a result satisfying [Q]; [inv I c] is the
    special case of an invariant.  Fatal runs are not constrained here:
    they abort the function in the sources.  The rules below, the hint
    database [gen_inv] and the tactic [htac] let the handlers' invariants
    be proved by following the structure of their definitions. *)

From S2P Require Import Prelude Arch SSA ConstEval BlockStore Gen.

Definition triple {S A} (P : S -> Prop) (c : M S A) (Q : A -> S -> Prop) : Prop :=
  forall g a g', P g -> c g = Ok (a, g') -> Q a g'.

Abbreviation inv I c := (triple I c (fun _ => I)).

Create HintDb gen_inv.

Section Rules.
Context {S : Type} (I : S -> Prop).

Lemma triple_ret {A} (a : A) (Q : A -> S -> Prop) :
  (forall g, I g -> Q a g) -> triple I (ret a) Q.
Proof. intros H g x g' Hg Hrun. unfold ret in Hrun. injection Hrun as <- <-. auto. Qed.

Lemma triple_bind_inv {A B} (c : M S A) (f : A -> M S B) Q :
  inv I c -> (forall a, triple I (f a) Q) -> triple I (bind c f) Q.
Proof.
  intros Hc Hf g b g' Hg Hrun. apply bind_Ok in Hrun as (a & g1 & H1 & H2).
  eapply Hf; [eapply Hc; eauto | exact H2].
Qed.

(** A step whose result satisfies [P], used by the continuation. *)
Lemma triple_bind_post {A B} (c : M S A) (f : A -> M S B) (P : A -> Prop) Q :
  triple I c (fun a g => I g /\ P a) -> (forall a, P a -> triple I (f a) Q) -> triple I (bind c f) Q.
Proof.
  intros Hc Hf g b g' Hg Hrun. apply bind_Ok in Hrun as (a & g1 & H1 & H2).
  destruct (Hc _ _ _ Hg H1) as [Hg1 Ha]. eapply Hf; eauto.
Qed.

(** A read of the whole state: the continuation may use that it satisfied
    the invariant (a value cached and restored later, as [IR_EXPR_REC] does). *)
Lemma triple_bind_get {B} (f : S -> M S B) Q :
  (forall g0, I g0 -> triple I (f g0) Q) -> triple I (bind get f) Q.
Proof.
  intros Hf g b g' Hg Hrun. apply bind_Ok in Hrun as (a & g1 & H1 & H2).
  unfold get in H1. injection H1 as <- <-. eapply Hf; eauto.
Qed.

Lemma triple_fail {A} e (Q : A -> S -> Prop) : triple I (fail e) Q.
Proof. intros g a g' _ H. discriminate. Qed.

Lemma triple_bind_fail {A B} e (f : A -> M S B) Q : triple I (bind (fail e) f) Q.
Proof. intros g b g' _ H. discriminate. Qed.

Lemma triple_get (Q : S -> S -> Prop) :
  (forall g, I g -> Q g g) -> triple I get Q.
Proof. intros H g a g' Hg Hrun. unfold get in Hrun. injection Hrun as <- <-. auto. Qed.

Lemma triple_gets {A} (f : S -> A) (Q : A -> S -> Prop) :
  (forall g, I g -> Q (f g) g) -> triple I (gets f) Q.
Proof. intros H g a g' Hg Hrun. unfold gets in Hrun. injection Hrun as <- <-. auto. Qed.

Lemma inv_modify f : (forall g, I g -> I (f g)) -> inv I (modify f).
Proof. intros H g a g' Hg Hrun. unfold modify in Hrun. injection Hrun as <- <-. auto. Qed.

Lemma inv_assertM b e : inv I (assertM (S:=S) b e).
Proof. intros g a g' Hg Hrun. apply assertM_Ok in Hrun as [_ Hrun]. by injection Hrun as _ <-. Qed.

Lemma inv_of_option {A} e (o : option A) : inv I (of_option (S:=S) e o).
Proof. intros g a g' Hg Hrun. apply of_option_Ok in Hrun as (x & _ & Hrun). by injection Hrun as _ <-. Qed.

Lemma inv_mapM {A B} (f : A -> M S B) l : (forall x, inv I (f x)) -> inv I (mapM f l).
Proof.
  intros Hf. induction l as [|x l IH]; simpl.
  - by apply triple_ret.
  - apply triple_bind_inv; [apply Hf|]. intros y. apply triple_bind_inv; [apply IH|].
    intros ys. by apply triple_ret.
Qed.

(** The results of a [mapM] whose steps each return a result satisfying [R]. *)
Lemma triple_mapM_post {A B} (f : A -> M S B) (R : B -> Prop) l :
  (forall x, triple I (f x) (fun r g => I g /\ R r)) ->
  triple I (mapM f l) (fun rs g => I g /\ Forall R rs).
Proof.
  intros Hf. induction l as [|x l IH]; simpl.
  - apply triple_ret. intros g Hg. by split.
  - eapply triple_bind_post; [apply Hf|]. intros y Hy.
    eapply triple_bind_post; [apply IH|]. intros ys Hys.
    apply triple_ret. intros g Hg. split; [done|by constructor].
Qed.

Lemma inv_forM_ {A} (l : list A) (f : A -> M S unit) : (forall x, inv I (f x)) -> inv I (forM_ l f).
Proof.
  intros Hf. induction l as [|x l IH]; simpl.
  - by apply triple_ret.
  - apply triple_bind_inv; [apply Hf|]. intros _. apply IH.
Qed.

(** A lookup that succeeds returns the value present. *)
Lemma triple_of_option_Some {A} e (o : option A) :
  triple I (of_option (S:=S) e o) (fun x g => I g /\ o = Some x).
Proof. intros g a g' Hg Hrun. apply of_option_Ok in Hrun as (x & -> & Hrun). by injection Hrun as -> <-. Qed.

Lemma inv_put s : I s -> inv I (put s).
Proof. intros H g a g' _ Hrun. unfold put in Hrun. by injection Hrun as _ <-. Qed.

(** A loop over a list needs the invariant only for the list's elements. *)
Lemma inv_forM_in {A} (l : list A) (f : A -> M S unit) :
  (forall x, In x l -> inv I (f x)) -> inv I (forM_ l f).
Proof.
  intros Hf. induction l as [|x l IH]; simpl.
  - by apply triple_ret.
  - apply triple_bind_inv; [apply Hf; by left|]. intros _. apply IH. intros y Hy. apply Hf. by right.
Qed.

Lemma triple_weaken {A} (c : M S A) (Q Q' : A -> S -> Prop) :
  triple I c Q -> (forall a g, Q a g -> Q' a g) -> triple I c Q'.
Proof. intros H HQ g a g' Hg Hrun. eauto. Qed.

(** A step that leaves the session unchanged preserves every invariant. *)
Lemma inv_pure {A} (c : M S A) : (forall g a g', c g = Ok (a, g') -> g' = g) -> inv I c.
Proof. intros H g a g' Hg Hrun. by rewrite (H _ _ _ Hrun). Qed.
End Rules.

(** ** The read-only steps of the lowering session *)
Section GenSteps.
Context (I : SSAGen -> Prop).

Lemma inv_toSSA a : inv I (toSSA a).
Proof. intros g x g' Hg Hrun. unfold toSSA in Hrun. destruct (parseIRArg2SSAArg a); [|done]. by injection Hrun as <- <-. Qed.

Lemma inv_replaceArg a : inv I (replaceArg a).
Proof. intros g x g' Hg Hrun. unfold replaceArg in Hrun. destruct (replaceArgF _ _ _); [|done]. by injection Hrun as <- <-. Qed.

Lemma inv_requireBlock b : inv I (requireBlock b).
Proof. intros g x g' Hg Hrun. unfold requireBlock in Hrun. destruct (getBlock _ _); [|done]. by injection Hrun as <- <-. Qed.

End GenSteps.

#[export] Hint Resolve inv_assertM inv_of_option inv_toSSA inv_replaceArg inv_requireBlock : gen_inv.

(** Follow the structure of a monadic program: binds, returns, failures,
    conditionals and matches, closing the primitive steps with the
    [gen_inv] database (and the hypotheses on [rec]). *)
Ltac htac_step :=
  match goal with
  | |- triple _ (let _ := _ in _) _ => cbv zeta
  | |- triple _ (bind (fail _) _) _ => apply triple_bind_fail
  | |- triple _ (bind get _) _ => apply triple_bind_get; intros ?g ?Hg
  | |- triple _ (bind _ _) _ => apply triple_bind_inv; [|intros ?]
  | |- triple _ (ret _) _ => apply triple_ret; intros ?g ?Hg
  | |- triple _ (fail _) _ => apply triple_fail
  | |- triple _ get _ => apply triple_get; intros ?g ?Hg
  | |- triple _ (gets _) _ => apply triple_gets; intros ?g ?Hg
  | |- triple _ (modify _) _ => apply inv_modify; intros ?g ?Hg
  | |- triple _ (put _) _ => apply inv_put
  | |- triple _ (mapM _ _) _ => apply inv_mapM; intros ?
  | |- triple _ (forM_ _ _) _ => apply inv_forM_; intros ?
  | |- triple _ (if ?b then _ else _) _ => destruct b eqn:?
  | |- triple _ (match ?x with _ => _ end) _ => destruct x eqn:?
  | |- triple _ _ _ => solve [eauto with gen_inv]
  end.

Ltac htac := repeat htac_step; try assumption.

(** ** Runs that do not exhaust their fuel

    [safe P c]: from a state satisfying [P], [c] does not end in
    [OutOfFuel] (it may succeed or fail with an error of the sources).
    With the invariant triples above, safety of a composition follows from
    safety of its parts. *)
Definition safe {S A} (P : S -> Prop) (c : M S A) : Prop :=
  forall g, P g -> c g <> Fatal OutOfFuel.

Create HintDb gen_safe.

Section SafeRules.
Context {S : Type} (I : S -> Prop).

Lemma safe_ret {A} (a : A) : safe I (ret a).
Proof. by intros g _. Qed.

Lemma safe_fail {A} e : e <> OutOfFuel -> safe I (fail (A:=A) e).
Proof. intros He g _ H. injection H as ->. done. Qed.

Lemma safe_get : safe I get.
Proof. by intros g _. Qed.

Lemma safe_gets {A} (f : S -> A) : safe I (gets f).
Proof. by intros g _. Qed.

Lemma safe_modify f : safe I (modify f).
Proof. by intros g _. Qed.

Lemma safe_assertM b e : e <> OutOfFuel -> safe I (assertM (S:=S) b e).
Proof. intros He g _. unfold assertM. destruct b; [done|]. intros H. injection H as ->. done. Qed.

Lemma safe_of_option {A} e (o : option A) : e <> OutOfFuel -> safe I (of_option (S:=S) e o).
Proof. intros He g _. unfold of_option. destruct o; [done|]. intros H. injection H as ->. done. Qed.

(** A step whose result satisfies [P], used by the continuation. *)
Lemma safe_bind_post {A B} (c : M S A) (f : A -> M S B) (P : A -> Prop) :
  safe I c -> triple I c (fun a g => I g /\ P a) -> (forall a, P a -> safe I (f a)) ->
  safe I (bind c f).
Proof.
  intros Hs Hc Hf g Hg. unfold bind. destruct (c g) as [[a g1]|e] eqn:E.
  - destruct (Hc _ _ _ Hg E) as [Hg1 Ha]. exact (Hf a Ha g1 Hg1).
  - pose proof (Hs g Hg) as H. rewrite E in H. intros H1. injection H1 as ->. done.
Qed.

Lemma safe_bind {A B} (c : M S A) (f : A -> M S B) :
  safe I c -> inv I c -> (forall a, safe I (f a)) -> safe I (bind c f).
Proof.
  intros Hs Hc Hf. apply (safe_bind_post _ _ (fun _ => True)); [done| |auto].
  eapply triple_weaken; [exact Hc|]. by intros.
Qed.

Lemma safe_bind_ret {A B} (a : A) (f : A -> M S B) : safe I (f a) -> safe I (bind (ret a) f).
Proof. intros H g Hg. exact (H g Hg). Qed.

Lemma safe_bind_fail {A B} e (f : A -> M S B) : e <> OutOfFuel -> safe I (bind (fail e) f).
Proof. intros He g _ H. injection H as ->. done. Qed.

Lemma safe_bind_get {B} (f : S -> M S B) : (forall g0, I g0 -> safe I (f g0)) -> safe I (bind get f).
Proof. intros Hf g Hg. exact (Hf g Hg g Hg). Qed.

Lemma safe_mapM {A B} (f : A -> M S B) l :
  (forall x, In x l -> safe I (f x)) -> (forall x, inv I (f x)) -> safe I (mapM f l).
Proof.
  intros Hs Hi. induction l as [|x l IH]; simpl; [apply safe_ret|].
  apply safe_bind; [apply Hs; by left|apply Hi|]. intros y.
  apply safe_bind; [apply IH; intros z Hz; apply Hs; by right|by apply inv_mapM|]. intros ys.
  apply safe_ret.
Qed.

Lemma safe_forM_ {A} (l : list A) (f : A -> M S unit) :
  (forall x, In x l -> safe I (f x)) -> (forall x, In x l -> inv I (f x)) -> safe I (forM_ l f).
Proof.
  intros Hs Hi. induction l as [|x l IH]; simpl; [apply safe_ret|].
  apply safe_bind; [apply Hs; by left|apply Hi; by left|]. intros _.
  apply IH; intros z Hz; [apply Hs|apply Hi]; by right.
Qed.

(** A step that cannot exhaust fuel from any state. *)
Lemma safe_any {A} (c : M S A) : safe (fun _ => True) c -> safe I c.
Proof. intros H g _. by apply H. Qed.
End SafeRules.

Lemma safe_toSSA (I : SSAGen -> Prop) a : safe I (toSSA a).
Proof. intros g _. unfold toSSA, parseIRArg2SSAArg. by destruct (ir_type a). Qed.

Lemma safe_requireBlock (I : SSAGen -> Prop) b : safe I (requireBlock b).
Proof. intros g _. unfold requireBlock. by destruct (getBlock _ _). Qed.

#[export] Hint Resolve safe_ret safe_get safe_gets safe_modify safe_toSSA safe_requireBlock : gen_safe.
#[export] Hint Extern 1 (safe _ (assertM _ _)) => apply safe_assertM; discriminate : gen_safe.
#[export] Hint Extern 1 (safe _ (of_option _ _)) => apply safe_of_option; discriminate : gen_safe.
#[export] Hint Extern 1 (safe _ (fail _)) => apply safe_fail; discriminate : gen_safe.

(** ** Runs that agree wherever the first does not exhaust its fuel

    [agree c c']: on every state where [c] does not end in [OutOfFuel],
    [c'] gives the same result.  Used to compare a fuelled computation
    with the same computation given more fuel; it is structural, so no
    invariant is needed. *)
Definition agree {S A} (c c' : M S A) : Prop :=
  forall s, c s <> Fatal OutOfFuel -> c' s = c s.

Section AgreeRules.
Context {S : Type}.

Lemma agree_refl {A} (c : M S A) : agree c c.
Proof. by intros s _. Qed.

Lemma agree_fail_fuel {A} (c : M S A) : agree (fail OutOfFuel) c.
Proof. intros s H. by exfalso. Qed.

Lemma agree_bind {A B} (c c' : M S A) (f f' : A -> M S B) :
  agree c c' -> (forall a, agree (f a) (f' a)) -> agree (bind c f) (bind c' f').
Proof.
  intros Hc Hf s H. unfold bind in *. destruct (c s) as [[a s1]|e] eqn:E.
  - rewrite (Hc s); [rewrite E; by apply Hf|by rewrite E].
  - rewrite (Hc s); [by rewrite E|]. rewrite E. intros H'. apply H. injection H' as ->. done.
Qed.

Lemma agree_mapM {A B} (f f' : A -> M S B) l :
  (forall x, In x l -> agree (f x) (f' x)) -> agree (mapM f l) (mapM f' l).
Proof.
  intros H. induction l as [|x l IH]; simpl; [apply agree_refl|].
  apply agree_bind; [apply H; by left|intros y].
  apply agree_bind; [apply IH; intros z Hz; apply H; by right|intros ys]. apply agree_refl.
Qed.

Lemma agree_forM_ {A} (l : list A) (f f' : A -> M S unit) :
  (forall x, In x l -> agree (f x) (f' x)) -> agree (forM_ l f) (forM_ l f').
Proof.
  intros H. induction l as [|x l IH]; simpl; [apply agree_refl|].
  apply agree_bind; [apply H; by left|intros _]. apply IH. intros z Hz. apply H. by right.
Qed.
End AgreeRules.

(** A loop whose invariant records the elements already visited; each
    step may use where its element sits in the list. *)
Lemma triple_forM_acc {S A} (P : list A -> S -> Prop) (l : list A) (f : A -> M S unit) D :
  (forall D' x R, D ++ l = D' ++ x :: R -> triple (P D') (f x) (fun _ => P (D' ++ [x]))) ->
  triple (P D) (forM_ l f) (fun _ => P (D ++ l)).
Proof.
  revert D. induction l as [|x l IH]; intros D Hf; simpl.
  - intros g u g' Hg Hrun. unfold ret in Hrun. injection Hrun as _ <-. by rewrite app_nil_r.
  - intros g u g' Hg Hrun. apply bind_Ok in Hrun as (v & g1 & H1 & H2).
    pose proof (Hf D x l eq_refl g v g1 Hg H1) as Hg1.
    replace (D ++ x :: l) with ((D ++ [x]) ++ l) in * by by rewrite <- app_assoc.
    eapply IH; [|exact Hg1|exact H2]. intros D' y R HR. apply (Hf D' y R).
    rewrite <- HR. by rewrite <- app_assoc.
Qed.
