(* ===== verification/RegUpdate.v ===== *)
(** * The register-update propagator

    [SSAGen::addUpdateRegExpressions] (src/main/SSAGen.cpp, lines
    370-392): after a write of SSA node [ssaId] to register [regId], walk
    the parent chain and emit, for every ancestor, an [eExtend] node (when
    the written register clears its parent on write) or an [eUpdatePart]
    node [(parent, value, offset)], located at the ancestor.  The C++
    [while] loop runs until a register without parent; on a cyclic parent
    chain it would not stop, so the model bounds it by the number of
    registers of the catalog, which is enough for every acyclic chain
    (theorem [addUpdateRegExpressions_spec]). *)

From S2P Require Import Prelude Arch SSA ConstEval BlockStore Gen.

Section RegUpdate.
Context (arch : Architecture).

(** The node emitted for ancestor [reg] of the written register [baseReg]. *)
Definition updateExpr (baseReg reg : Register) (ssaId : nat) : SSAExpression :=
  mkSSAExpression 0
    (if reg_clearParentOnWrite baseReg then eExtend else eUpdatePart)
    (eOpOther 0) 0 eUInt (reg_size reg) eLocReg (mkReference (reg_id reg) 0)
    (if reg_clearParentOnWrite baseReg
     then [SAcreateId ssaId (reg_size baseReg)]
     else [SAcreateReg reg; SAcreateId ssaId (reg_size baseReg);
           SAcreateVal (Z.of_nat (reg_offset baseReg) - Z.of_nat (reg_offset reg)) (bitbase arch)])
    0.

(** The loop [while (reg->directParentRef) { reg = getRegister (...); ... }]. *)
Fixpoint updateLoop (fuel : nat) (baseReg reg : Register) (ssaId : nat) : Gen unit :=
  if Nat.eqb (reg_directParentRef reg) 0 then ret tt
  else match fuel with
       | O => fail OutOfFuel
       | S fuel' =>
           p <- of_option AssertFailed (getRegister arch (reg_directParentRef reg)) ;;
           (if reg_clearParentOnWrite baseReg
            then assertM (Nat.eqb (reg_offset baseReg) 0) AssertFailed else ret tt) ;;;
           _ <- addExpression (updateExpr baseReg p ssaId) ;;
           updateLoop fuel' baseReg p ssaId
       end.

Definition addUpdateRegExpressions (regId ssaId : nat) : Gen unit :=
  baseReg <- of_option AssertFailed (getRegister arch regId) ;;
  updateLoop (length (registers arch)) baseReg baseReg ssaId.

(** The ancestors of a register, nearest first, following parent links
    for at most [fuel] steps. *)
Fixpoint ancestors (fuel : nat) (reg : Register) : option (list Register) :=
  if Nat.eqb (reg_directParentRef reg) 0 then Some []
  else match fuel with
       | O => None
       | S fuel' =>
           match getRegister arch (reg_directParentRef reg) with
           | None => None
           | Some p => match ancestors fuel' p with
                       | Some l => Some (p :: l)
                       | None => None
                       end
           end
       end.

(** The aliasing invariant of the spec: following parent links from any
    register reaches a top-level register.  Stated with a rank that
    decreases along parent links, each parent being in the catalog. *)
Definition parents_ranked (rank : nat -> nat) : Prop :=
  forall r, In r (registers arch) -> reg_directParentRef r <> 0 ->
    exists p, getRegister arch (reg_directParentRef r) = Some p /\ rank (reg_id p) < rank (reg_id r).

End RegUpdate.

Section RegUpdateProofs.
Context (arch : Architecture).

Lemma ancestors_more_fuel f f' reg l :
  ancestors arch f reg = Some l -> length l <= f' -> ancestors arch f' reg = Some l.
Proof.
  revert f' reg l. induction f as [|f IH]; intros f' reg l H Hle;
    destruct f' as [|f']; simpl in *; destruct (reg_directParentRef reg =? 0); try done.
  - destruct (getRegister arch _) as [p|]; [|done].
    destruct (ancestors arch f p); [|done]. injection H as <-. simpl in Hle. lia.
  - destruct (getRegister arch _) as [p|]; [|done].
    destruct (ancestors arch f p) as [l0|] eqn:E; [|done]. injection H as <-.
    simpl in Hle. by rewrite (IH f' p l0 E) by lia.
Qed.

Section Ranked.
Context (rank : nat -> nat) (Hrank : parents_ranked arch rank).

Lemma ancestors_desc f reg l :
  In reg (registers arch) -> ancestors arch f reg = Some l ->
  Forall (fun p => In p (registers arch) /\ rank (reg_id p) < rank (reg_id reg)) l /\ NoDup l.
Proof.
  revert reg l. induction f as [|f IH]; intros reg l Hin H; simpl in H;
    destruct (Nat.eqb_spec (reg_directParentRef reg) 0) as [E|E];
    try (injection H as <-; split; constructor); try done.
  destruct (Hrank reg Hin E) as (p & Hp & Hlt). rewrite Hp in H.
  destruct (ancestors arch f p) as [l0|] eqn:El; [|done]. injection H as <-.
  pose proof (getRegister_in _ _ _ Hp) as HpIn.
  destruct (IH p l0 HpIn El) as [Hall Hnd].
  rewrite List.Forall_forall in Hall. split.
  - constructor; [done|]. apply List.Forall_forall. intros q Hq.
    destruct (Hall q Hq). split; [done|lia].
  - constructor; [|done]. intros Hq. apply list_elem_of_In in Hq.
    destruct (Hall p Hq). lia.
Qed.

Lemma ancestors_total f reg :
  In reg (registers arch) -> rank (reg_id reg) < f -> exists l, ancestors arch f reg = Some l.
Proof.
  revert reg. induction f as [|f IH]; intros reg Hin Hf; [lia|]. simpl.
  destruct (Nat.eqb_spec (reg_directParentRef reg) 0) as [E|E]; [eauto|].
  destruct (Hrank reg Hin E) as (p & Hp & Hlt). rewrite Hp.
  destruct (IH p (getRegister_in _ _ _ Hp)) as [l Hl]; [lia|]. rewrite Hl. eauto.
Qed.

(** The fuel the model gives the loop, the number of registers of the
    catalog, is enough for every register under the aliasing invariant:
    the ancestors are distinct registers of the catalog. *)
Lemma ancestors_enough reg :
  In reg (registers arch) -> exists l, ancestors arch (length (registers arch)) reg = Some l.
Proof.
  intros Hin. destruct (ancestors_total (S (rank (reg_id reg))) reg Hin) as [l Hl]; [lia|].
  exists l. apply (ancestors_more_fuel _ _ _ _ Hl).
  destruct (ancestors_desc _ _ _ Hin Hl) as [Hall Hnd].
  apply NoDup_incl_length; [by apply NoDup_ListNoDup|].
  intros p Hp. rewrite List.Forall_forall in Hall. by destruct (Hall p Hp).
Qed.
End Ranked.

(** The loop emits exactly one node per ancestor, in order. *)
Lemma updateLoop_spec f base reg ssaId l g :
  ancestors arch f reg = Some l ->
  (reg_clearParentOnWrite base = true -> reg_offset base = 0) -> active_ok g ->
  exists g', updateLoop arch f base reg ssaId g = Ok (tt, g') /\ node_frame g g' /\
    emits g g' (map (fun p => updateExpr arch base p ssaId) l) /\ active_ok g'.
Proof.
  revert reg l g. induction f as [|f IH]; intros reg l g H Hoff Hact; simpl in H |- *;
    destruct (reg_directParentRef reg =? 0); try discriminate.
  - injection H as <-. exists g. repeat split; auto using node_frame_refl, emits_nil.
  - injection H as <-. exists g. repeat split; auto using node_frame_refl, emits_nil.
  - destruct (getRegister arch _) as [p|] eqn:Hp; [|done].
    destruct (ancestors arch f p) as [l0|] eqn:El; [|done]. injection H as <-.
    unfold bind, of_option, ret at 1. simpl.
    assert (Hass : (if reg_clearParentOnWrite base
                    then assertM (reg_offset base =? 0) AssertFailed else ret tt) g = Ok (tt, g)).
    { destruct (reg_clearParentOnWrite base) eqn:Ec; [|done].
      rewrite (Hoff eq_refl). done. }
    rewrite Hass.
    destruct (addExpression_runs g (updateExpr arch base p ssaId) Hact) as [g1 Hg1].
    rewrite Hg1.
    destruct (addExpression_step g _ _ _ Hact Hg1) as (_ & _ & Hfr1 & Hem1 & Hact1).
    destruct (IH p l0 g1 El Hoff Hact1) as (g2 & Hrun & Hfr2 & Hem2 & Hact2).
    exists g2. split; [done|]. split; [eapply node_frame_trans; eauto|]. split; [|done].
    exact (emits_trans g g1 g2 [updateExpr arch base p ssaId] _ Hem1 Hem2).
Qed.

(** C27: writing register [regId] with node [ssaId] emits one node per
    ancestor of the register, nearest first: an [eExtend] of the value
    when the register clears its parent on write, an [eUpdatePart]
    (parent, value, offset) otherwise, each located at its ancestor.  The
    walk terminates under the aliasing invariant, and only the node store
    changes. *)
Theorem addUpdateRegExpressions_spec rank regId ssaId base g :
  parents_ranked arch rank -> getRegister arch regId = Some base ->
  (reg_clearParentOnWrite base = true -> reg_offset base = 0) -> active_ok g ->
  exists l g', ancestors arch (length (registers arch)) base = Some l /\
    addUpdateRegExpressions arch regId ssaId g = Ok (tt, g') /\
    node_frame g g' /\ emits g g' (map (fun p => updateExpr arch base p ssaId) l).
Proof.
  intros Hrank Hbase Hoff Hact.
  destruct (ancestors_enough rank Hrank base (getRegister_in _ _ _ Hbase)) as [l Hl].
  destruct (updateLoop_spec _ base base ssaId l g Hl Hoff Hact) as (g' & Hrun & Hfr & Hem & _).
  exists l, g'. split; [done|]. split; [|by split].
  unfold addUpdateRegExpressions, bind, of_option, ret. by rewrite Hbase.
Qed.

(** C33: A register that clears its parent on write but does not sit at offset
    0 of it fails the [assert (baseReg->offset == 0)]. *)
Theorem addUpdateRegExpressions_offset_fatal regId ssaId base p g :
  getRegister arch regId = Some base -> reg_clearParentOnWrite base = true ->
  reg_offset base <> 0 -> reg_directParentRef base <> 0 ->
  getRegister arch (reg_directParentRef base) = Some p ->
  addUpdateRegExpressions arch regId ssaId g = Fatal AssertFailed.
Proof.
  intros Hb Hc Ho Hp Hpar. pose proof (getRegister_in _ _ _ Hb) as Hin.
  unfold addUpdateRegExpressions, bind, of_option, ret. rewrite Hb.
  destruct (registers arch) as [|r rs] eqn:Er; [done|]. simpl.
  apply Nat.eqb_neq in Hp. rewrite Hp, Hpar. simpl. rewrite Hc.
  apply Nat.eqb_neq in Ho. unfold assertM, fail, bind. by rewrite Ho.
Qed.
End RegUpdateProofs.

(** ** The spec's propagation-depth scenario

    R (id 3, 8 bits at offset 8) inside P1 (id 2, 16 bits) inside P2
    (id 1, 32 bits, top-level). *)
Definition exR : Register := mkRegister 3 8 2 8 false.
Definition exP1 : Register := mkRegister 2 16 1 0 false.
Definition exP2 : Register := mkRegister 1 32 0 0 false.
Definition exRegArch : Architecture := mkArchitecture 32 8 [exP2; exP1; exR] [] [] ∅ [] 0.

(** A session with one empty active block. *)
Definition exGen0 : SSAGen :=
  mkSSAGen (mkSSARepresentation [] 0 [mkSSABB 1 0 0 0 [] ∅ ∅] 1) [] 1 None [] [] 0 false true.

Lemma exRegArch_ranked : parents_ranked exRegArch (fun id => id).
Proof.
  intros r Hin Hp. simpl in Hin.
  destruct Hin as [<-|[<-|[<-|[]]]]; simpl in Hp; try lia;
    eexists; (split; [reflexivity|simpl; lia]).
Qed.

(** Writing R emits two partial updates, of P1 and of P2, and both take
    the written value 7 itself (the general form is
    [addUpdateRegExpressions_spec]: every node is [updateExpr base p ssaId]). *)
Example reg_propagation_depth :
  match addUpdateRegExpressions exRegArch 3 7 exGen0 with
  | Ok (_, g') => map (fun e => (se_type e, se_location e, se_locref e, se_subExpressions e))
                    (expressions (g_rep g')) =
                  [(eUpdatePart, eLocReg, mkReference 2 0,
                    [SAcreateReg exP1; SAcreateId 7 8; SAcreateVal 8 32]);
                   (eUpdatePart, eLocReg, mkReference 1 0,
                    [SAcreateReg exP2; SAcreateId 7 8; SAcreateVal 8 32])]
  | Fatal _ => False
  end.
Proof. vm_compute. reflexivity. Qed.

Lemma addUpdateRegExpressions_spec_witness :
  exists l g', ancestors exRegArch (length (registers exRegArch)) exR = Some l /\
    addUpdateRegExpressions exRegArch 3 7 exGen0 = Ok (tt, g') /\
    node_frame exGen0 g' /\ emits exGen0 g' (map (fun p => updateExpr exRegArch exR p 7) l).
Proof.
  apply (addUpdateRegExpressions_spec exRegArch (fun id => id) 3 7 exR exGen0 exRegArch_ranked).
  - reflexivity.
  - discriminate.
  - eexists. reflexivity.
Defined.

Definition exClearR : Register := mkRegister 3 8 2 8 true.
Definition exClearArch : Architecture := mkArchitecture 32 8 [exP2; exP1; exClearR] [] [] ∅ [] 0.

Lemma addUpdateRegExpressions_offset_fatal_witness :
  addUpdateRegExpressions exClearArch 3 7 exGen0 = Fatal AssertFailed.
Proof.
  apply (addUpdateRegExpressions_offset_fatal exClearArch 3 7 exClearR exP1 exGen0);
    first [reflexivity | discriminate].
Defined.
