(* ===== verification/LowerOps.v ===== *)
(** * Lowering handlers: values, assignments, arithmetic, memory, stacks

    One definition per template node kind of [SSAGen::parseExpression]
    (src/main/SSAGen.cpp, lines 418-1066) that does not open blocks.  Every
    handler takes [rec], the recursive call [parseExpression] on a nested
    argument, so that the fuelled interpreter of [Lowering] can compose
    them; the handlers for structured control flow are in [LowerControl].
    The [assert]s of the sources are fatal results, in the order the
    sources evaluate them. *)

From S2P Require Import Prelude Arch SSA ConstEval BlockStore Gen RegUpdate.

Section LowerOps.
Context (arch : Architecture).
Context (rec : IRArgument -> Gen IRArgument).

(** [irExpr->subExpressions[i]]: reading past the end is undefined
    behaviour in C++, fatal here. *)
Definition subAt (e : IRExpression) (i : nat) : Gen IRArgument :=
  of_option AssertFailed (nth_error (ire_subExpressions e) i).

Definition subCount (e : IRExpression) : nat := length (ire_subExpressions e).

(** [parseIRArg2SSAArg (parseExpression (a))]. *)
Definition recSSA (a : IRArgument) : Gen SSAArgument := r <- rec a ;; toSSA r.

(** A node with the defaults of [SSAExpression expression;]. *)
Definition mkExpr (t : SSAExprType) (rt : SSAType) (size : nat) (loc : SSAExprLocation)
    (locref : Reference) (subs : list SSAArgument) : SSAExpression :=
  mkSSAExpression 0 t (eOpOther 0) 0 rt size loc locref subs 0.

(** [return IRArgument::createSSAId (addExpression (&expression), expression.size);] *)
Definition emit (e : SSAExpression) : Gen IRArgument :=
  id <- addExpression e ;; ret (IRcreateSSAId id (se_size e)).

(** A read of every top-level register, as call, return and the resolver
    append them. *)
Definition topRegArgs : list SSAArgument := map SAcreateReg (topRegisters arch).

(** ** Leaves *)

(** [IR_ARGTYPE_MEMOP]: load from the effective address. *)
Definition lowerMemOp (exprId : IRArgument) (mem : MemOperand) : Gen IRArgument :=
  addr <- parseMemArgToExpr arch mem ;;
  a <- toSSA addr ;;
  emit (mkExpr eLoad eUInt (ir_size exprId) eLocMem (mkReference (defaultMemory arch) 0)
          [a; SAcreateVal (Z.of_nat (ir_size exprId)) (bitbase arch)]).

(** [IR_ARGTYPE_TMP]: the scratch table's current value. *)
Definition lowerTmp (t : nat) : Gen IRArgument :=
  assertM (negb (Nat.eqb t 0)) AssertFailed ;;;
  g <- get ;;
  match List.find (fun d => Nat.eqb (tmp_id d) t) (g_tmpdefs g) with
  | Some d => ret (tmp_arg d)
  | None => fail UnresolvedTemporary
  end.

(** [IR_ARGTYPE_IP]: the address after the current instruction. *)
Definition lowerIP : Gen IRArgument :=
  g <- get ;;
  match g_instruction g with
  | Some ins => ret (IRcreateVal (instr_addr ins + instr_size ins) (bitbase arch))
  | None => fail AssertFailed
  end.

(** ** Scratch table *)

(** Update the first entry with id [t], or append one. *)
Fixpoint setTmp (t : nat) (arg : IRArgument) (l : list SSATmpDef) : list SSATmpDef :=
  match l with
  | [] => [mkSSATmpDef t arg]
  | d :: l' => if Nat.eqb (tmp_id d) t then mkSSATmpDef t arg :: l' else d :: setTmp t arg l'
  end.

(** Erase the first entry with id [t]. *)
Fixpoint removeTmp (t : nat) (l : list SSATmpDef) : list SSATmpDef :=
  match l with
  | [] => []
  | d :: l' => if Nat.eqb (tmp_id d) t then l' else d :: removeTmp t l'
  end.

Definition assignTmp (t : nat) (arg : IRArgument) : Gen unit :=
  modify (fun g => set_tmpdefs g (setTmp t arg (g_tmpdefs g))).

(** ** [IR_EXPR_UNDEF] *)
Definition undefOne (sub : IRArgument) : Gen unit :=
  assertM (match ir_type sub with
           | IR_ARGTYPE_ARG _ | IR_ARGTYPE_REG _ | IR_ARGTYPE_STACK _ | IR_ARGTYPE_TMP _ => true
           | _ => false
           end) AssertFailed ;;;
  arg <- replaceArg sub ;;
  match ir_type arg with
  | IR_ARGTYPE_REG r =>
      id <- addExpression (mkExpr eUndef eUInt (ir_size arg) eLocReg r []) ;;
      addUpdateRegExpressions arch (refId r) id
  | IR_ARGTYPE_STACK r =>
      addExpression (mkExpr eUndef eUInt (ir_size arg) eLocStack r []) ;;; ret tt
  | IR_ARGTYPE_TMP t => modify (fun g => set_tmpdefs g (removeTmp t (g_tmpdefs g)))
  | _ => fail AssertFailed
  end.

Definition lowerUndef (e : IRExpression) : Gen IRArgument :=
  forM_ (ire_subExpressions e) undefOne ;;; ret IRcreate.

(** ** [IR_EXPR_ASSIGN] *)

(** A node moved to a register or stack slot. *)
Definition relocate (loc : SSAExprLocation) (r : Reference) (size : nat) (e : SSAExpression)
    : SSAExpression :=
  mkSSAExpression (se_id e) (se_type e) (se_opType e) (se_flagType e) (se_returntype e) size
    loc r (se_subExpressions e) (se_instrAddr e).

Definition modifyNode (id : nat) (f : SSAExpression -> SSAExpression) : Gen unit :=
  modify (fun g => set_rep g (setExprs (g_rep g)
    (map (fun e => if Nat.eqb (se_id e) id then f e else e) (expressions (g_rep g))))).

(** The branch taken when the source is an [IR_ARGTYPE_ID] argument
    (lines 506-544): retarget the node's location, or record it as a
    scratch value.  [inl] is an early [return], [inr] the return type of
    the copy node built afterwards. *)
Definition assignFromNode (sid : nat) (dstArg : IRArgument) : Gen (IRArgument + SSAType) :=
  g <- get ;;
  ssaExpr <- of_option AssertFailed (getExpr (g_rep g) sid) ;;
  let fresh := bool_decide (se_location ssaExpr = eLocNone) && Nat.eqb (se_size ssaExpr) (ir_size dstArg) in
  match ir_type dstArg with
  | IR_ARGTYPE_REG r =>
      if fresh then
        modifyNode sid (relocate eLocReg r (ir_size dstArg)) ;;;
        addUpdateRegExpressions arch (refId r) sid ;;;
        ret (inl (IRcreateSSAId sid (ir_size dstArg)))
      else ret (inr (se_returntype ssaExpr))
  | IR_ARGTYPE_STACK r =>
      if fresh then
        modifyNode sid (relocate eLocStack r (ir_size dstArg)) ;;;
        ret (inl (IRcreateSSAId sid (ir_size dstArg)))
      else ret (inr (se_returntype ssaExpr))
  | IR_ARGTYPE_TMP t => assignTmp t (IRcreateSSAId sid (se_size ssaExpr)) ;;; ret (inl IRcreate)
  | _ => ret (inr (se_returntype ssaExpr))
  end.

(** The copy node for destination [dstArg] (lines 548-600). *)
Definition assignCopy (dstArg srcArg : IRArgument) (rt : SSAType) : Gen IRArgument :=
  src <- toSSA srcArg ;;
  match ir_type dstArg with
  | IR_ARGTYPE_TMP t =>
      id <- addExpression (mkExpr eAssign eUInt (ir_size srcArg) eLocNone noRef [src]) ;;
      assignTmp t (IRcreateSSAId id (ir_size srcArg)) ;;; ret IRcreate
  | IR_ARGTYPE_MEMOP mem =>
      addr <- parseMemArgToExpr arch mem ;;
      a <- toSSA addr ;;
      emit (mkExpr eStore eMemaccess 0 eLocMem (mkReference (defaultMemory arch) 0) [a; src])
  | IR_ARGTYPE_REG r =>
      id <- addExpression (mkExpr eAssign rt (ir_size dstArg) eLocReg r [src]) ;;
      addUpdateRegExpressions arch (refId r) id ;;;
      ret (IRcreateSSAId id (ir_size dstArg))
  | IR_ARGTYPE_STACK r => emit (mkExpr eAssign rt (ir_size dstArg) eLocStack r [src])
  | IR_ARGTYPE_SSAID _ => emit (mkExpr eAssign rt (ir_size srcArg) eLocNone noRef [src])
  | _ => fail InvalidAssignTarget
  end.

Definition lowerAssign (e : IRExpression) : Gen IRArgument :=
  assertM (Nat.eqb (subCount e) 2) AssertFailed ;;;
  sub0 <- subAt e 0 ;; sub1 <- subAt e 1 ;;
  dstArg <- replaceArg sub0 ;;
  srcArg <- rec sub1 ;;
  r <- (match ir_type srcArg with
        | IR_ARGTYPE_ID sid => assignFromNode sid dstArg
        | _ => ret (inr eUInt)
        end) ;;
  match r with
  | inl res => ret res
  | inr rt => assignCopy dstArg srcArg rt
  end.

(** ** Jumps, operators, calls *)

Definition lowerJmp (e : IRExpression) : Gen IRArgument :=
  assertM (Nat.eqb (subCount e) 1) AssertFailed ;;;
  s0 <- subAt e 0 ;; t <- recSSA s0 ;;
  setEndOfBlock true ;;; setFallthroughFlag false ;;;
  emit (mkExpr eJmp ePc (bitbase arch) eLocNone noRef [t]).

Definition lowerCJmp (e : IRExpression) : Gen IRArgument :=
  assertM (Nat.eqb (subCount e) 2) AssertFailed ;;;
  s0 <- subAt e 0 ;; c <- recSSA s0 ;;
  s1 <- subAt e 1 ;; t <- recSSA s1 ;;
  setEndOfBlock true ;;;
  emit (mkExpr eCJmp ePc (bitbase arch) eLocNone noRef [c; t]).

(** The operands of a variadic node, in order. *)
Definition recAll (subs : list IRArgument) : Gen (list SSAArgument) := mapM recSSA subs.

Definition maxSize (args : list SSAArgument) : nat := fold_left (fun m a => Nat.max m (sa_size a)) args 0.
Definition sumSize (args : list SSAArgument) : nat := fold_left (fun m a => m + sa_size a) args 0.

(** [IR_EXPR_OP]: the size is the largest operand size. *)
Definition lowerOp (e : IRExpression) : Gen IRArgument :=
  args <- recAll (ire_subExpressions e) ;;
  emit (mkSSAExpression 0 eOp (ire_opType e) 0 (ire_returntype e) (maxSize args) eLocNone noRef args 0).

(** [IR_EXPR_CALL]: record a static target, read every top-level register,
    then define every top-level register with an output node. *)
Definition outputExpr (callArg : SSAArgument) (r : Register) : SSAExpression :=
  mkExpr eOutput eUInt (reg_size r) eLocReg (mkReference (reg_id r) 0) [callArg].

Definition lowerCall (e : IRExpression) : Gen IRArgument :=
  assertM (Nat.eqb (subCount e) 1) AssertFailed ;;;
  s0 <- subAt e 0 ;; t <- recSSA s0 ;;
  (match sa_type t with
   | eArgUInt v => modify (fun g => set_funcsCalled g (g_funcsCalled g ++ [v]))
   | _ => ret tt
   end) ;;;
  id <- addExpression (mkExpr eCall (ire_returntype e) 0 eLocNone noRef (t :: topRegArgs)) ;;
  let arg := IRcreateSSAId id 0 in
  callArg <- toSSA arg ;;
  forM_ (topRegisters arch) (fun r => addExpression (outputExpr callArg r) ;;; ret tt) ;;;
  ret arg.

Definition lowerReturn (e : IRExpression) : Gen IRArgument :=
  assertM (Nat.eqb (subCount e) 1) AssertFailed ;;;
  s0 <- subAt e 0 ;; v <- recSSA s0 ;;
  setEndOfBlock true ;;; setFallthroughFlag false ;;;
  emit (mkExpr eReturn ePc (bitbase arch) eLocNone noRef (v :: topRegArgs)).

Definition lowerSyscall (e : IRExpression) : Gen IRArgument :=
  args <- recAll (ire_subExpressions e) ;;
  emit (mkExpr eSyscall eUnknownType 0 eLocNone noRef args).

(** [IR_EXPR_TRAP]: the flags are set before the operands are lowered. *)
Definition lowerTrap (e : IRExpression) : Gen IRArgument :=
  setEndOfBlock true ;;; setFallthroughFlag false ;;;
  args <- recAll (ire_subExpressions e) ;;
  emit (mkExpr eTrap eUnknownType 0 eLocNone noRef args).

(** ** Width changes *)

(** [IR_EXPR_EXTEND]: the width must fold to an unsigned literal. *)
Definition lowerExtend (cfuel : nat) (e : IRExpression) : Gen IRArgument :=
  assertM (Nat.eqb (subCount e) 2) AssertFailed ;;;
  s0 <- subAt e 0 ;; v <- recSSA s0 ;;
  s1 <- subAt e 1 ;;
  g <- get ;;
  match parseConstExpression arch (g_instruction g) (g_arguments g) cfuel s1 with
  | Fatal err => fail err
  | Ok w =>
      match ir_type w with
      | IR_ARGTYPE_UINT n => emit (mkExpr eExtend (ire_returntype e) (Z.to_nat n) eLocNone noRef [v])
      | _ => fail NonConstantWidth
      end
  end.

(** [IR_EXPR_SPLIT]: sized by the third operand when it is an unsigned
    literal, 0 otherwise. *)
Definition lowerSplit (e : IRExpression) : Gen IRArgument :=
  args <- recAll (ire_subExpressions e) ;;
  a2 <- of_option AssertFailed (nth_error args 2) ;;
  let size := match sa_type a2 with eArgUInt n => Z.to_nat n | _ => 0 end in
  emit (mkExpr eSplit eUInt size eLocNone noRef args).

Definition lowerAppend (e : IRExpression) : Gen IRArgument :=
  args <- recAll (ire_subExpressions e) ;;
  emit (mkExpr eAppend eUInt (sumSize args) eLocNone noRef args).

(** [expression.size = sizeArg;] converts the (unfolded) size argument to
    an integer; the conversion is declared outside the sources and taken
    here as the literal's value. *)
Definition castWidth (a : IRArgument) : nat :=
  match ir_type a with IR_ARGTYPE_UINT v | IR_ARGTYPE_SINT v => Z.to_nat v | _ => 0 end.

(** [IR_EXPR_CAST]: the width is the placeholder-resolved argument, not a
    folded constant, and [assert (sizeArg.type = IR_ARGTYPE_UINT)]
    assigns instead of comparing, so it never fails. *)
Definition lowerCast (e : IRExpression) : Gen IRArgument :=
  assertM (Nat.eqb (subCount e) 2) AssertFailed ;;;
  s0 <- subAt e 0 ;; v <- recSSA s0 ;;
  s1 <- subAt e 1 ;; sizeArg <- replaceArg s1 ;;
  emit (mkExpr eCast (ire_returntype e) (castWidth sizeArg) eLocNone noRef [v]).

(** ** Memory *)
Definition isMemLoc (a : SSAArgument) : bool := bool_decide (sa_location a = eLocMem).

Definition lowerStore (e : IRExpression) : Gen IRArgument :=
  assertM (Nat.eqb (subCount e) 3) AssertFailed ;;;
  s0 <- subAt e 0 ;; memarg <- recSSA s0 ;;
  assertM (isMemLoc memarg) NotMemoryLocation ;;;
  s1 <- subAt e 1 ;; a1 <- recSSA s1 ;;
  s2 <- subAt e 2 ;; a2 <- recSSA s2 ;;
  emit (mkExpr eStore eMemaccess 0 eLocMem (sa_locref memarg) [a1; a2]).

(** [IR_EXPR_LOAD]: sized by the template's third argument itself. *)
Definition lowerLoad (e : IRExpression) : Gen IRArgument :=
  assertM (Nat.eqb (subCount e) 3) AssertFailed ;;;
  s0 <- subAt e 0 ;; memarg <- recSSA s0 ;;
  assertM (isMemLoc memarg) NotMemoryLocation ;;;
  s1 <- subAt e 1 ;; a1 <- recSSA s1 ;;
  s2 <- subAt e 2 ;; a2 <- recSSA s2 ;;
  emit (mkExpr eLoad eUInt (ir_size s2) eLocMem (sa_locref memarg) [a1; a2]).

(** [IR_EXPR_VALUE]: the address computation of a memory operand. *)
Definition lowerValue (e : IRExpression) : Gen IRArgument :=
  assertM (Nat.eqb (subCount e) 1) AssertFailed ;;;
  s0 <- subAt e 0 ;; arg <- replaceArg s0 ;;
  match ir_type arg with
  | IR_ARGTYPE_MEMOP mem =>
      addr <- parseMemArgToExpr arch mem ;; a <- toSSA addr ;;
      emit (mkExpr eAssign eUInt (bitbase arch) eLocNone noRef [a])
  | _ => fail AssertFailed
  end.

(** ** Stacks *)

(** The stack a push or pop names, its tracking register and memory. *)
Definition stackOf (e : IRExpression) : Gen Stack :=
  s0 <- subAt e 0 ;; sa <- rec s0 ;;
  match ir_type sa with
  | IR_ARGTYPE_STACK r =>
      st <- of_option AssertFailed (getStack arch (refId r)) ;;
      match stack_type st with
      | eRegBacked => fail RegBackedStack
      | eMemory => assertM (Nat.eqb (subCount e) 2) AssertFailed ;;; ret st
      end
  | _ => fail AssertFailed
  end.

(** The pointer adjustment node of a push or pop. *)
Definition adjustExpr (op : SSAOpType) (reg : Register) (amount : SSAArgument) : SSAExpression :=
  mkSSAExpression 0 eOp op 0 eUInt (reg_size reg) eLocReg (mkReference (reg_id reg) 0)
    [SAcreateReg reg; amount] 0.

(** [IR_EXPR_PUSH]: adjust the pointer by the value's size in stack words
    (rounded up), propagate the pointer write, then store the value. *)
Definition lowerPush (e : IRExpression) : Gen IRArgument :=
  st <- stackOf e ;;
  assertM (negb (Nat.eqb (stack_backingMem st) 0)) AssertFailed ;;;
  s1 <- subAt e 1 ;; value <- recSSA s1 ;;
  reg <- of_option AssertFailed (getRegister arch (stack_trackingReg st)) ;;
  mem <- of_option AssertFailed (getMemory arch (stack_backingMem st)) ;;
  assertM (negb (Nat.eqb (reg_id reg) 0)) AssertFailed ;;;
  let words := Nat.div (sa_size value + stack_wordbitsize st - 1) (stack_wordbitsize st) in
  adj <- addExpression (adjustExpr (match stack_policy st with eTop => eAdd | eBottom => eSub end)
                          reg (SAcreateVal (Z.of_nat words) (bitbase arch))) ;;
  addUpdateRegExpressions arch (reg_id reg) adj ;;;
  emit (mkExpr eStore eMemaccess 0 eLocMem (mkReference (mem_id mem) 0) [SAcreateReg reg; value]).

(** [IR_EXPR_POP]: load [wordbitsize * n] bits, then adjust the pointer by
    [n] words and propagate the pointer write. *)
Definition lowerPop (e : IRExpression) : Gen IRArgument :=
  st <- stackOf e ;;
  s1 <- subAt e 1 ;; sizeadjust <- recSSA s1 ;;
  match sa_type sizeadjust with
  | eArgUInt n =>
      reg <- of_option AssertFailed (getRegister arch (stack_trackingReg st)) ;;
      mem <- of_option AssertFailed (getMemory arch (stack_backingMem st)) ;;
      id <- addExpression (mkExpr eLoad eUInt (stack_wordbitsize st * Z.to_nat n) eLocMem
                             (mkReference (mem_id mem) 0)
                             [SAcreateMem (mem_id mem); SAcreateReg reg; sizeadjust]) ;;
      adj <- addExpression (adjustExpr (match stack_policy st with eTop => eSub | eBottom => eAdd end)
                              reg sizeadjust) ;;
      addUpdateRegExpressions arch (reg_id reg) adj ;;;
      ret (IRcreateSSAId id (stack_wordbitsize st * Z.to_nat n))
  | _ => fail AssertFailed
  end.

(** ** Sizes and flags *)

(** [IR_EXPR_SIZE] / [IR_EXPR_BSIZE]: the statically known size of the
    operand, in words or bits, as a literal of the address width. *)
Definition lowerSize (bits : bool) (e : IRExpression) : Gen IRArgument :=
  assertM (Nat.eqb (subCount e) 1) AssertFailed ;;;
  s0 <- subAt e 0 ;; r <- rec s0 ;;
  ret (IRcreateVal (Z.of_nat (if bits then ir_size r else Nat.div (ir_size r) (wordbase arch)))
         (bitbase arch)).

(** [IR_EXPR_FLAG]: a 1-bit node on the last operator node. *)
Definition lowerFlag (e : IRExpression) : Gen IRArgument :=
  g <- get ;;
  op <- of_option AssertFailed (getExpr (g_rep g) (g_lastOp g)) ;;
  emit (mkSSAExpression 0 eFlag (eOpOther 0) (ire_flagType e) eUInt 1 eLocNone noRef
          [SAcreateId (g_lastOp g) (se_size op)] 0).

End LowerOps.
