(* ===== verification/LowerControl.v ===== *)
(** * Lowering handlers that open blocks or re-enter the matcher

    [IR_EXPR_IF] (src/main/SSAGen.cpp, lines 606-646), [IR_EXPR_REP]
    (lines 982-1034), [IR_EXPR_REC] (lines 951-981) and
    [IR_EXPR_SEQUENCE] (lines 1041-1045).  Blocks are created with
    [createNewBlockG] in the order the sources create them, and the edge
    and fallthrough updates are the ones the sources write, on the blocks
    they name ([getBlock] of an id that has no block is fatal). *)

From S2P Require Import Prelude Arch SSA ConstEval BlockStore Gen RegUpdate LowerOps.

Section LowerControl.
Context (arch : Architecture).
Context (rec : IRArgument -> Gen IRArgument).

(** The edge the sources add at the end of a branch, or of a loop part:
    [b->fallthroughId = t; b->outBlocks.insert (t); getBlock (t)->inBlocks.insert (b->id)]. *)
Definition linkFallthrough (b t : nat) : Gen unit :=
  requireBlock b ;;; requireBlock t ;;;
  modifyBBs (fun bs => addEdge b t (setFallthrough b t bs)).

(** [IR_EXPR_IF]: a conditional jump to a fresh true block in the current
    block; the then-branch's last block falls through to the end block;
    the else-branch (when present) is the old block's fallthrough and its
    last block is linked to the end block; without else, the old block is
    linked to the end block.  Lowering resumes in the end block. *)
Definition lowerIf (e : IRExpression) : Gen IRArgument :=
  s0 <- subAt e 0 ;; c <- recSSA rec s0 ;;
  assertM (Nat.leb 2 (subCount e) && Nat.leb (subCount e) 3) AssertFailed ;;;
  oldBlock <- gets g_activeBlockId ;;
  trueId <- createNewBlockG ;;
  falseId <- (if Nat.eqb (subCount e) 3 then createNewBlockG else ret 0) ;;
  endId <- createNewBlockG ;;
  addExpression (mkExpr eCJmp ePc (bitbase arch) eLocNone noRef [c; SAcreateBlock trueId]) ;;;
  activateBlock trueId ;;;
  s1 <- subAt e 1 ;; rec s1 ;;;
  cur <- gets g_activeBlockId ;;
  requireBlock cur ;;; modifyBBs (setFallthrough cur endId) ;;;
  (if negb (Nat.eqb falseId 0) then
     requireBlock oldBlock ;;; modifyBBs (setFallthrough oldBlock falseId) ;;;
     activateBlock falseId ;;;
     s2 <- subAt e 2 ;; rec s2 ;;;
     cur' <- gets g_activeBlockId ;;
     linkFallthrough cur' endId
   else linkFallthrough oldBlock endId) ;;;
  activateBlock endId ;;;
  ret IRcreate.

(** The loop's wiring (lines 1007-1029): the six blocks are looked up
    first, then start -> condition, condition -> exit (fallthrough) and
    condition -> body, body end -> condition (fallthrough). *)
Definition repEdges (startBlock startCondId endCondId startBodyId endBodyId endId : nat) : Gen unit :=
  requireBlock startBlock ;;; requireBlock startCondId ;;; requireBlock endCondId ;;;
  requireBlock startBodyId ;;; requireBlock endBodyId ;;; requireBlock endId ;;;
  modifyBBs (fun bs =>
    addEdge endBodyId startCondId (setFallthrough endBodyId startCondId
      (addEdge endCondId startBodyId
        (addEdge endCondId endId (setFallthrough endCondId endId
          (addEdge startBlock startCondId (setFallthrough startBlock startCondId bs))))))).

(** [IR_EXPR_REP]: entry -> condition block -> (body | exit), body -> condition. *)
Definition lowerRep (e : IRExpression) : Gen IRArgument :=
  startBlock <- gets g_activeBlockId ;;
  startCondId <- createNewBlockG ;;
  startBodyId <- createNewBlockG ;;
  activateBlock startCondId ;;;
  s0 <- subAt e 0 ;; c <- recSSA rec s0 ;;
  addExpression (mkExpr eCJmp ePc (bitbase arch) eLocNone noRef [c; SAcreateBlock startBodyId]) ;;;
  endCondId <- gets g_activeBlockId ;;
  setEndOfBlock false ;;; setFallthroughFlag false ;;;
  activateBlock startBodyId ;;;
  s1 <- subAt e 1 ;; rec s1 ;;;
  endBodyId <- gets g_activeBlockId ;;
  endId <- createNewBlockG ;;
  repEdges startBlock startCondId endCondId startBodyId endBodyId endId ;;;
  activateBlock endId ;;;
  ret IRcreate.

(** The candidate loop of [IR_EXPR_REC]: lower the first candidate body
    whose operand count and guard match; when none does, the sources only
    print a diagnostic. *)
Fixpoint recMatch (cfuel : nat) (irs : list IRRepresentation) : Gen unit :=
  match irs with
  | [] => ret tt
  | r :: irs' =>
      g <- get ;;
      if Nat.eqb (length (g_arguments g)) (irr_argcount r) then
        match parseConstExpression arch (g_instruction g) (g_arguments g) cfuel (irr_condExpr r) with
        | Fatal err => fail err
        | Ok c => if guard_true c then rec (irr_rootExpr r) ;;; ret tt else recMatch cfuel irs'
        end
      else recMatch cfuel irs'
  end.

(** [IR_EXPR_REC]: evaluate the arguments in the current context, then
    lower the referenced instruction's template with those arguments and
    an empty scratch table, restoring both afterwards. *)
Definition lowerRec (cfuel : nat) (e : IRExpression) : Gen IRArgument :=
  args <- mapM rec (ire_subExpressions e) ;;
  g <- get ;;
  let cachedTemps := g_tmpdefs g in
  let cachedArgs := g_arguments g in
  modify (fun g => set_arguments (set_tmpdefs g []) args) ;;;
  instrdef <- of_option AssertFailed (getInstrDef arch (ire_instrId e)) ;;
  recMatch cfuel (instrdef_irs instrdef) ;;;
  modify (fun g => set_tmpdefs (set_arguments g cachedArgs) cachedTemps) ;;;
  ret IRcreate.

Definition lowerSequence (e : IRExpression) : Gen IRArgument :=
  forM_ (ire_subExpressions e) (fun s => rec s ;;; ret tt) ;;;
  ret IRcreate.

End LowerControl.
