(* ===== verification/Lowering.v ===== *)
(** * The SSA lowering engine

    [SSAGen::parseExpression] (src/main/SSAGen.cpp, lines 418-1066) as a
    fuelled interpreter over the template AST: each unit of fuel pays for
    one nested [parseExpression] call (the recursion goes through the
    catalog's expression table and through recursive instantiation, so it
    is not structural); the same fuel bounds the guard evaluations it
    starts.  [parseInstruction] (lines 394-417), [setupForInstr] (lines
    287-294) and [setup] (lines 269-286) complete the per-instruction and
    per-function entry points. *)

From S2P Require Import Prelude Arch SSA ConstEval BlockStore Gen RegUpdate LowerOps LowerControl.

Section Lowering.
Context (arch : Architecture).

(** The [switch (irExpr->type)] of the [IR_ARGTYPE_ID] case. *)
Definition lowerExpr (rec : IRArgument -> Gen IRArgument) (cfuel : nat) (e : IRExpression)
    : Gen IRArgument :=
  match ire_type e with
  | IR_EXPR_INVALID => fail AssertFailed
  | IR_EXPR_UNDEF => lowerUndef arch e
  | IR_EXPR_ASSIGN => lowerAssign arch rec e
  | IR_EXPR_NOP => ret IRcreate
  | IR_EXPR_IF => lowerIf arch rec e
  | IR_EXPR_JMP => lowerJmp arch rec e
  | IR_EXPR_CJMP => lowerCJmp arch rec e
  | IR_EXPR_OP => lowerOp rec e
  | IR_EXPR_CALL => lowerCall arch rec e
  | IR_EXPR_RETURN => lowerReturn arch rec e
  | IR_EXPR_SYSCALL => lowerSyscall rec e
  | IR_EXPR_TRAP => lowerTrap rec e
  | IR_EXPR_BUILTIN => ret IRcreate
  | IR_EXPR_EXTEND => lowerExtend arch rec cfuel e
  | IR_EXPR_SPLIT => lowerSplit rec e
  | IR_EXPR_APPEND => lowerAppend rec e
  | IR_EXPR_CAST => lowerCast rec e
  | IR_EXPR_STORE => lowerStore rec e
  | IR_EXPR_LOAD => lowerLoad rec e
  | IR_EXPR_PUSH => lowerPush arch rec e
  | IR_EXPR_POP => lowerPop arch rec e
  | IR_EXPR_VALUE => lowerValue arch e
  | IR_EXPR_REC => lowerRec arch rec cfuel e
  | IR_EXPR_REP => lowerRep arch rec e
  | IR_EXPR_SIZE => lowerSize arch rec false e
  | IR_EXPR_BSIZE => lowerSize arch rec true e
  | IR_EXPR_SEQUENCE => lowerSequence rec e
  | IR_EXPR_FLAG => lowerFlag e
  end.

Fixpoint parseExpression (fuel : nat) (exprId : IRArgument) : Gen IRArgument :=
  match fuel with
  | O => fail OutOfFuel
  | S fuel' =>
      a <- replaceArg exprId ;;
      match ir_type a with
      | IR_ARGTYPE_ARG _ => fail UnresolvedPlaceholder
      | IR_ARGTYPE_MEMOP mem => lowerMemOp arch a mem
      | IR_ARGTYPE_TMP t => lowerTmp t
      | IR_ARGTYPE_IP => lowerIP arch
      | IR_ARGTYPE_ID id =>
          e <- of_option MissingCatalogEntry (getIrExpr arch id) ;;
          lowerExpr (parseExpression fuel') fuel' e
      | _ => ret a
      end
  end.

(** [SSAGen::setupForInstr]. *)
Definition setupForInstr : Gen unit :=
  modify (fun g => set_tmpdefs (set_arguments (set_instruction (set_flags g false true) None) []) []).

(** [if (getActiveBlock()->startaddr > instruction->addr) getActiveBlock()->startaddr = instruction->addr;] *)
Definition widenBlockStart (addr : Z) : Gen unit :=
  bb <- getActiveBlock ;;
  if Z.gtb (bb_startaddr bb) addr
  then modifyBBs (updateBB (bb_id bb) (fun x => set_startaddr x addr)) else ret tt.

(** [if (getActiveBlock()->endaddr < instruction->addr + instruction->size)
    getActiveBlock()->endaddr = instruction->addr + instruction->size;],
    the sum taken in [uint64_t]. *)
Definition extendBlockEnd (stop : Z) : Gen unit :=
  bb' <- getActiveBlock ;;
  if Z.ltb (bb_endaddr bb') stop
  then modifyBBs (updateBB (bb_id bb') (fun x => set_endaddr x stop)) else ret tt.

(** [SSAGen::parseInstruction]: widen the active block's range to the
    instruction, match its template (the guard sees the generator's
    previous [instruction], which is only reset afterwards), then label and
    lower it. *)
Definition parseInstruction (fuel : nat) (instr : Instruction) : Gen unit :=
  widenBlockStart (instr_addr instr) ;;;
  g <- get ;;
  m <- (match matchIr arch (g_instruction g) fuel instr with
        | Ok m => ret m
        | Fatal err => fail err
        end) ;;
  match m with
  | None => fail NoTemplateMatch
  | Some r =>
      setupForInstr ;;;
      modify (fun g => set_arguments (set_instruction g (Some instr)) (instr_operands instr)) ;;;
      insertLabel arch (instr_addr instr) ;;;
      parseExpression fuel (irr_rootExpr r) ;;;
      extendBlockEnd (u64 (instr_addr instr + instr_size instr))
  end.

(** The input node of a top-level register. *)
Definition inputExpr (r : Register) : SSAExpression :=
  mkExpr eInput eUInt (reg_size r) eLocReg (mkReference (reg_id r) 0) [].

(** [SSAGen::setup]: a first block, one input node per top-level register,
    and the block's end address set to the function's address.  The last
    write goes through the cached [activeblock], which [activateBlock]
    resets to [nullptr] and only [addExpression] sets again: with no
    top-level register it dereferences the null pointer. *)
Definition setup (addr : Z) : Gen unit :=
  id <- createNewBlockG ;;
  activateBlock id ;;;
  forM_ (topRegisters arch) (fun r => addExpression (inputExpr r) ;;; ret tt) ;;;
  assertM (negb (bool_decide (topRegisters arch = []))) AssertFailed ;;;
  cur <- gets g_activeBlockId ;;
  modifyBBs (updateBB cur (fun b => set_endaddr b addr)).

(** The session of a fresh function: an empty store. *)
Definition initGen : SSAGen :=
  mkSSAGen (mkSSARepresentation [] 0 [] 0) [] 0 None [] [] 0 false true.

(** The per-function driver of the spec (it lives outside the sources):
    set up once, then lower the instructions in address order. *)
Definition lowerFunction (fuel : nat) (addr : Z) (instrs : list Instruction) : Gen unit :=
  setup addr ;;; forM_ instrs (parseInstruction fuel).

End Lowering.
