(* ===== verification/Fixtures.v ===== *)
(** * A small architecture and program for the concrete theorems

    Three registers ([ax] is the low half of [eax]), a template table with
    one template per construct the theorems exercise (assignment, an
    operator, a call, a return, an [if] with and without [else], a
    repeat-loop, a recursive instantiation that matches nothing), and
    instructions using them.  The witnesses of the theorems run the
    model on these inputs. *)

From S2P Require Import Prelude Arch SSA Gen Lowering.

Definition eax : Register := mkRegister 1 32 0 0 false.
Definition ax : Register := mkRegister 2 16 1 0 false.
Definition esp : Register := mkRegister 3 32 0 0 false.

Definition regArg (r : Register) : IRArgument :=
  mkIRArgument (IR_ARGTYPE_REG (mkReference (reg_id r) 0)) (reg_size r).
Definition argp (i : nat) : IRArgument := mkIRArgument (IR_ARGTYPE_ARG i) 0.
Definition idp (i : nat) : IRArgument := mkIRArgument (IR_ARGTYPE_ID i) 0.
Definition ulit (v : Z) : IRArgument := mkIRArgument (IR_ARGTYPE_UINT v) 32.
Definition tnode (t : IRExprType) (subs : list IRArgument) : IRExpression :=
  mkIRExpression t subs (eOpOther 0) 0 0 eUInt.

(** The template table. *)
Definition fxExprs : gmap nat IRExpression :=
  <[10 := tnode IR_EXPR_ASSIGN [argp 1; argp 2]]>
  (<[11 := mkIRExpression IR_EXPR_OP [argp 1; argp 2] eAdd 0 0 eUInt]>
  (<[12 := tnode IR_EXPR_ASSIGN [argp 1; idp 11]]>
  (<[20 := tnode IR_EXPR_IF [argp 3; idp 10]]>
  (<[22 := tnode IR_EXPR_IF [argp 3; idp 10; idp 23]]>
  (<[23 := tnode IR_EXPR_ASSIGN [argp 1; ulit 0]]>
  (<[30 := tnode IR_EXPR_CALL [argp 1]]>
  (<[40 := tnode IR_EXPR_RETURN [ulit 0]]>
  (<[50 := tnode IR_EXPR_REP [argp 1; idp 10]]>
  (<[60 := mkIRExpression IR_EXPR_REC [argp 1] (eOpOther 0) 9 0 eUInt]> ∅))))))))).

Definition oneRep (argc root : nat) : list IRRepresentation :=
  [mkIRRepresentation argc IRcreate (idp root)].

Definition movDef := mkInstrDefinition 1 (oneRep 2 10).
Definition addDef := mkInstrDefinition 2 (oneRep 2 12).
Definition callDef := mkInstrDefinition 3 (oneRep 1 30).
Definition cmovDef := mkInstrDefinition 4 (oneRep 3 20).
Definition cselDef := mkInstrDefinition 5 (oneRep 3 22).
Definition retDef := mkInstrDefinition 6 (oneRep 0 40).
Definition repDef := mkInstrDefinition 7 (oneRep 2 50).
Definition recDef := mkInstrDefinition 8 (oneRep 1 60).
(** The target of the recursive instantiation: its only body wants three operands. *)
Definition def9 := mkInstrDefinition 9 (oneRep 3 10).

Definition fxArch : Architecture :=
  mkArchitecture 32 8 [eax; ax; esp] [] [mkMemory 1] fxExprs
    [movDef; addDef; callDef; cmovDef; cselDef; retDef; repDef; recDef; def9] 1.

(** [mov ax, 5; add eax, esp; call 0x1000] at 0x10. *)
Definition movI := mkInstruction 0x10 2 [regArg ax; ulit 5] movDef.
Definition addI := mkInstruction 0x12 2 [regArg eax; regArg esp] addDef.
Definition callI := mkInstruction 0x14 5 [ulit 0x1000] callDef.
Definition fxProg : list Instruction := [movI; addI; callI].

(** [cmov ax, 7 if esp], [csel ax, 7 else 0 if esp], [rep mov ax, 5], [rec], [ret]. *)
Definition cmovI := mkInstruction 0x20 3 [regArg ax; ulit 7; regArg esp] cmovDef.
Definition cselI := mkInstruction 0x20 3 [regArg ax; ulit 7; regArg esp] cselDef.
Definition repI := mkInstruction 0x30 2 [regArg ax; ulit 5] repDef.
Definition recI := mkInstruction 0x40 1 [ulit 1] recDef.
Definition retI := mkInstruction 0x50 1 [] retDef.

(** The session after [setup] at 0x12, with the operands of [add eax, esp] bound. *)
Definition fxReady : SSAGen :=
  match setup fxArch 0x12 initGen with
  | Ok (_, g) => set_arguments g [regArg eax; regArg esp]
  | Fatal _ => initGen
  end.

(** The session after lowering [cmov ax, 7 if esp] at 0x20: block 3 is
    active and has block 1 as predecessor. *)
Definition fxAfterCmov : SSAGen :=
  match lowerFunction fxArch 10 0x20 [cmovI] initGen with
  | Ok (_, g) => g
  | Fatal _ => initGen
  end.

(** A store for the resolver: block 1 [0x10, 0x14) ends in [jmp 0x18],
    block 2 [0x14, 0x18) ends in a conditional jump back to 0x10, block 3
    [0x18, 0x1c) returns. *)
Definition fxNode (id : nat) (t : SSAExprType) (subs : list SSAArgument) : SSAExpression :=
  mkSSAExpression id t (eOpOther 0) 0 ePc 32 eLocNone noRef subs 0.

Definition fxJmpRep : SSARepresentation :=
  mkSSARepresentation
    [fxNode 1 eLabel [SAcreateVal 0x10 32]; fxNode 2 eJmp [SAcreateVal 0x18 32];
     fxNode 3 eCJmp [SAcreateReg esp; SAcreateVal 0x10 32]; fxNode 4 eReturn []]
    4
    [mkSSABB 1 0 0x10 0x14 [1; 2] ∅ ∅; mkSSABB 2 0 0x14 0x18 [3] ∅ ∅;
     mkSSABB 3 0 0x18 0x1c [4] ∅ ∅]
    3.

(** A store for the simplifier: the input of [eax] (1), a copy of it (2),
    a phi of two undefined values (3), a phi of two equal inputs (4), two
    effective-address nodes that fold (5, 6) and a return (7). *)
Definition fxSimpNode (id : nat) (t : SSAExprType) (subs : list SSAArgument) : SSAExpression :=
  mkSSAExpression id t (eOpOther 0) 0 eUInt 32 eLocNone noRef subs 0.

Definition fxSimpRep : SSARepresentation :=
  mkSSARepresentation
    [mkSSAExpression 1 eInput (eOpOther 0) 0 eUInt 32 eLocReg (mkReference 1 0) [] 0;
     fxSimpNode 2 eAssign [SAcreateId 1 32];
     fxSimpNode 3 ePhi [SAcreateUndef eLocNone noRef 32; SAcreateUndef eLocNone noRef 32];
     fxSimpNode 4 ePhi [SAcreateId 1 32; SAcreateId 1 32];
     fxSimpNode 5 eLoadAddr [SAcreateVal 0 32; SAcreateVal 0 32; SAcreateVal 0 32; SAcreateVal 4 32;
                             SAcreateVal 0x100 32];
     fxSimpNode 6 eLoadAddr [SAcreateVal 0 32; SAcreateReg esp; SAcreateVal 0 32; SAcreateVal 4 32;
                             SAcreateVal 0 32];
     fxSimpNode 7 eReturn [SAcreateId 2 32; SAcreateId 4 32; SAcreateReg eax]]
    7
    [mkSSABB 1 0 0x10 0x20 [1; 2; 3; 4; 5; 6; 7] ∅ ∅]
    1.

(** [EXPR_IS_TRANSIENT] taken as "is a copy". *)
Definition fxTransient (t : SSAExprType) : bool := bool_decide (t = eAssign).

(** A rank for the template table: the nodes that nest another node
    (12, 20, 22, 50) and the recursive instantiation 60, whose target's
    body is node 10, sit one above the others. *)
Definition fxRank (id : nat) : nat := if decide (id ∈ [12; 20; 22; 50; 60]) then 1 else 0.

(** [mov ax, 5] in the last two bytes of the 64-bit address space, and the
    session set up there. *)
Definition topI := mkInstruction (2 ^ 64 - 2) 2 [regArg ax; ulit 5] movDef.

Definition fxTop : SSAGen :=
  match setup fxArch (2 ^ 64 - 2) initGen with
  | Ok (_, g) => g
  | Fatal _ => initGen
  end.
