(* ===== verification/LoweringInv.v ===== *)
(** * Invariants of the lowering

    [gen_wf]: the block store is well formed (edges symmetric, edge
    endpoints and block ids within the generator, ids distinct) and the
    scratch table [tmpdefs] holds only [lowered] arguments (no
    [IR_ARGTYPE_ID] template node, no [IR_ARGTYPE_ARG] placeholder).
    [gen_ok Q k V] adds that the predecessor sets of the blocks up to [k]
    are frozen at [V] and that the bound operands satisfy [Q].  Every
    primitive step and every handler of [SSAGen::parseExpression]
    preserves it, and [parseExpression] never returns an unlowered
    argument; so the branch of [IR_EXPR_ASSIGN] that
    handles such a source (src/main/SSAGen.cpp, lines 506-544) never runs. *)

From S2P Require Import Prelude Arch SSA ConstEval BlockStore Gen GenLogic RegUpdate LowerOps LowerControl Lowering Fixtures.

(** ** The invariant *)

Definition wf_blocks (n : nat) (bs : list SSABB) : Prop :=
  edges_symmetric bs /\
  (forall b, In b bs -> forall x, x ∈ bb_inBlocks b ∪ bb_outBlocks b -> 0 < x <= n) /\
  NoDup (map bb_id bs) /\ Forall (fun b => 0 < bb_id b <= n) bs.

(** A lowered argument: neither an unlowered template node
    ([IR_ARGTYPE_ID]) nor an unbound placeholder ([IR_ARGTYPE_ARG]). *)
Definition lowered (a : IRArgument) : Prop :=
  match ir_type a with IR_ARGTYPE_ID _ | IR_ARGTYPE_ARG _ => False | _ => True end.

(** The scratch table: lowered values under distinct ids. *)
Definition tmp_ok (l : list SSATmpDef) : Prop :=
  Forall (fun d => lowered (tmp_arg d)) l /\ NoDup (map tmp_id l).

Definition gen_wf (g : SSAGen) : Prop :=
  wf_blocks (bb_gen (g_rep g)) (bbs (g_rep g)) /\ tmp_ok (g_tmpdefs g).

(** The executable check of [gen_wf]. *)
Definition wf_blocksb (n : nat) (bs : list SSABB) : bool :=
  edges_symmetricb bs &&
  forallb (fun b => bool_decide (set_Forall (fun x => 0 < x <= n) (bb_inBlocks b ∪ bb_outBlocks b))) bs &&
  bool_decide (NoDup (map bb_id bs)) &&
  forallb (fun b => bool_decide (0 < bb_id b <= n)) bs.

Definition loweredb (a : IRArgument) : bool :=
  match ir_type a with IR_ARGTYPE_ID _ | IR_ARGTYPE_ARG _ => false | _ => true end.

Definition gen_wfb (g : SSAGen) : bool :=
  wf_blocksb (bb_gen (g_rep g)) (bbs (g_rep g)) && forallb (fun d => loweredb (tmp_arg d)) (g_tmpdefs g) &&
  bool_decide (NoDup (map tmp_id (g_tmpdefs g))).


(** What [wf_blocks] says in terms of the block-store predicates. *)
Lemma wf_blocks_spec r :
  wf_blocks (bb_gen r) (bbs r) <-> edges_symmetric (bbs r) /\ edges_bounded r /\ bb_ids_ok r.
Proof. unfold wf_blocks, edges_bounded, bb_ids_ok. tauto. Qed.

Lemma loweredb_spec a : loweredb a = true <-> lowered a.
Proof. unfold loweredb, lowered. destruct (ir_type a); simpl; intuition discriminate. Qed.

Lemma wf_blocksb_spec n bs : wf_blocksb n bs = true <-> wf_blocks n bs.
Proof.
  unfold wf_blocksb, wf_blocks.
  rewrite !andb_true_iff, !forallb_forall, edges_symmetricb_spec, !bool_decide_eq_true.
  setoid_rewrite bool_decide_eq_true.
  rewrite !List.Forall_forall. unfold set_Forall. intuition eauto.
Qed.

Lemma gen_wfb_spec g : gen_wfb g = true <-> gen_wf g.
Proof.
  unfold gen_wfb, gen_wf, tmp_ok.
  rewrite !andb_true_iff, wf_blocksb_spec, forallb_forall, List.Forall_forall, bool_decide_eq_true.
  setoid_rewrite loweredb_spec. tauto.
Qed.

(** ** Block lists with the same edges *)

Definition edge_view (b : SSABB) := (bb_id b, bb_inBlocks b, bb_outBlocks b).

Lemma In_map_same {A B} (f : A -> B) l l' x' :
  map f l' = map f l -> In x' l' -> exists x, In x l /\ f x = f x'.
Proof.
  intros Hm Hin. apply (in_map f) in Hin. rewrite Hm in Hin.
  apply in_map_iff in Hin as (x & Hx & Hin). eauto.
Qed.

Lemma wf_blocks_view n bs bs' :
  map edge_view bs' = map edge_view bs -> wf_blocks n bs -> wf_blocks n bs'.
Proof.
  intros Hm (Hs & Hb & Hnd & Hids).
  assert (Hid : map bb_id bs' = map bb_id bs).
  { apply (f_equal (map (fun v => fst (fst v)))) in Hm. by rewrite !map_map in Hm. }
  split; [|split; [|split]].
  - intros b1' b2' H1 H2.
    destruct (In_map_same _ _ _ _ Hm H1) as (b1 & I1 & E1).
    destruct (In_map_same _ _ _ _ Hm H2) as (b2 & I2 & E2).
    injection E1 as Ea _ Ec. injection E2 as Fa Fb _.
    rewrite <- Ea, <- Ec, <- Fa, <- Fb. auto.
  - intros b' Hin. destruct (In_map_same _ _ _ _ Hm Hin) as (b & I & E).
    injection E as _ Eb Ec. rewrite <- Eb, <- Ec. exact (Hb b I).
  - by rewrite Hid.
  - apply List.Forall_forall. intros b' Hin.
    destruct (In_map_same _ _ _ _ Hm Hin) as (b & I & E). injection E as Ea _ _. rewrite <- Ea.
    by apply (proj1 (List.Forall_forall _ _) Hids).
Qed.

Lemma updateBB_view id f bs :
  (forall b, edge_view (f b) = edge_view b) -> map edge_view (updateBB id f bs) = map edge_view bs.
Proof.
  intros Hf. unfold updateBB. rewrite map_map. apply map_ext. intros b.
  destruct (bb_id b =? id); auto.
Qed.

Lemma wf_setFallthrough n a t bs : wf_blocks n bs -> wf_blocks n (setFallthrough a t bs).
Proof. apply wf_blocks_view, updateBB_view. done. Qed.

Lemma wf_addEdge n a t bs :
  In a (map bb_id bs) -> In t (map bb_id bs) -> wf_blocks n bs -> wf_blocks n (addEdge a t bs).
Proof.
  intros Ha Ht (Hs & Hb & Hnd & Hids).
  assert (Hbound : forall x, In x (map bb_id bs) -> 0 < x <= n).
  { intros x Hx. apply in_map_iff in Hx as (b & <- & Hx).
    by apply (proj1 (List.Forall_forall _ _) Hids). }
  assert (Hid : map bb_id (addEdge a t bs) = map bb_id bs).
  { unfold addEdge. by rewrite !map_bb_id_updateBB. }
  split; [by apply addEdge_symmetric|split; [|split]].
  - intros b' Hin x Hx. apply In_addEdge in Hin as (b & Hin & _ & Ho & Hi).
    rewrite Ho, Hi in Hx.
    assert (x = a \/ x = t \/ x ∈ bb_inBlocks b ∪ bb_outBlocks b) as [->|[->|?]]
      by (destruct (bb_id b =? a), (bb_id b =? t); set_solver); eauto.
  - by rewrite Hid.
  - apply List.Forall_forall. intros b' Hin.
    apply In_addEdge in Hin as (b & Hin & -> & _). apply Hbound. by apply in_map.
Qed.

Lemma wf_push n bs b :
  wf_blocks n bs -> bb_inBlocks b = ∅ -> bb_outBlocks b = ∅ -> bb_id b = S n ->
  wf_blocks (S n) (bs ++ [b]).
Proof.
  intros (Hs & Hb & Hnd & Hids) Hi Ho Hid.
  assert (Hfresh : ~ In (S n) (map bb_id bs)).
  { intros Hx. apply in_map_iff in Hx as (b' & E & Hx).
    pose proof (proj1 (List.Forall_forall _ _) Hids b' Hx) as Hr. simpl in Hr. lia. }
  split; [|split; [|split]].
  - intros b1 b2 H1 H2. apply in_app_or in H1, H2.
    destruct H1 as [H1|[<-|[]]], H2 as [H2|[<-|[]]]; rewrite ?Hi, ?Ho, ?Hid; [by apply Hs| | |set_solver].
    + pose proof (Hb b1 H1 (S n)). set_solver by lia.
    + pose proof (Hb b2 H2 (S n)). set_solver by lia.
  - intros b' Hin x Hx. apply in_app_or in Hin as [Hin|[<-|[]]].
    + pose proof (Hb b' Hin x Hx). lia.
    + set_solver.
  - rewrite map_app. apply NoDup_app. split; [done|]. split; [|by constructor; [set_solver|constructor]].
    intros x Hx Hx'. simpl in Hx'. rewrite Hid in Hx'. apply list_elem_of_In in Hx.
    assert (x = S n) by set_solver. subst. auto.
  - apply List.Forall_app. split; [|constructor; [lia|constructor]].
    eapply List.Forall_impl; [|exact Hids]. simpl. intros ? ?. lia.
Qed.

Lemma map_bb_id_setFallthrough a t bs : map bb_id (setFallthrough a t bs) = map bb_id bs.
Proof. by apply map_bb_id_updateBB. Qed.

Lemma map_bb_id_addEdge a t bs : map bb_id (addEdge a t bs) = map bb_id bs.
Proof. unfold addEdge. by rewrite !map_bb_id_updateBB. Qed.

(** A chain of fallthrough updates and edge insertions between existing blocks. *)
Ltac wf_edges :=
  repeat first [apply wf_addEdge | apply wf_setFallthrough];
  repeat (rewrite map_bb_id_addEdge || rewrite map_bb_id_setFallthrough); try assumption.

(** ** Frozen predecessor sets

    [frozen k V bs]: [V] records, for every id up to [k], the predecessor
    set of the block with that id ([None] when there is none); every block
    with id at most [k] has the recorded set, and every recorded block is
    still there.  Lowering only adds predecessors to blocks it has just
    created and never removes a block, so this holds along a run for [k]
    the generator at its start. *)

Definition frozen_blocks (k : nat) (V : nat -> option (gset nat)) (bs : list SSABB) : Prop :=
  (forall b, In b bs -> bb_id b <= k -> V (bb_id b) = Some (bb_inBlocks b)) /\
  (forall x s, x <= k -> V x = Some s -> In x (map bb_id bs)).

(** The predecessor set of block [x] of a session. *)
Definition preds_of (g : SSAGen) (x : nat) : option (gset nat) := bb_inBlocks <$> getBlock (g_rep g) x.

Lemma frozen_view k V bs bs' :
  map edge_view bs' = map edge_view bs -> frozen_blocks k V bs -> frozen_blocks k V bs'.
Proof.
  intros Hm [Hf He]. split.
  - intros b' Hin Hk. destruct (In_map_same _ _ _ _ Hm Hin) as (b & I & E).
    injection E as Ea Eb _. rewrite <- Ea, <- Eb in *. auto.
  - intros x s Hx Hs. apply (f_equal (map (fun v => v.1.1))) in Hm. rewrite !map_map in Hm.
    cbn in Hm. change (map bb_id bs' = map bb_id bs) in Hm. rewrite Hm. eauto.
Qed.

Lemma frozen_push k V bs b :
  frozen_blocks k V bs -> k < bb_id b -> frozen_blocks k V (bs ++ [b]).
Proof.
  intros [Hf He] Hb. split.
  - intros b' Hin Hk. apply in_app_or in Hin as [Hin|[<-|[]]]; [auto|lia].
  - intros x s Hx Hs. rewrite map_app. apply in_or_app. eauto.
Qed.

Lemma frozen_addEdge k V a t bs :
  k < t -> frozen_blocks k V bs -> frozen_blocks k V (addEdge a t bs).
Proof.
  intros Ht [Hf He]. split.
  - intros b' Hin Hk. apply In_addEdge in Hin as (b & Hin & Hid & _ & Hi).
    rewrite Hi, Hid. rewrite Hid in Hk. destruct (Nat.eqb_spec (bb_id b) t); [lia|auto].
  - intros x s Hx Hs. rewrite map_bb_id_addEdge. eauto.
Qed.

Lemma frozen_setFallthrough k V a t bs : frozen_blocks k V bs -> frozen_blocks k V (setFallthrough a t bs).
Proof. apply frozen_view, updateBB_view. done. Qed.

Lemma frozen_mono k k' V bs : k' <= k -> frozen_blocks k V bs -> frozen_blocks k' V bs.
Proof. intros Hk [Hf He]. split; intros; [apply Hf|apply (He _ s)]; auto; lia. Qed.

(** The snapshot of a well-formed store. *)
Lemma frozen_snapshot g :
  wf_blocks (bb_gen (g_rep g)) (bbs (g_rep g)) -> frozen_blocks (bb_gen (g_rep g)) (preds_of g) (bbs (g_rep g)).
Proof.
  intros (_ & _ & Hnd & _). split.
  - intros b Hin _. unfold preds_of, getBlock. by rewrite (getBB_In _ _ Hnd Hin).
  - intros x s _. unfold preds_of, getBlock. destruct (getBB _ x) as [b|] eqn:Hb; [|done].
    intros _. apply getBB_Some in Hb as [Hb <-]. by apply in_map.
Qed.

(** A recorded block has its recorded predecessors. *)
Lemma frozen_preds k V g x s :
  NoDup (map bb_id (bbs (g_rep g))) -> frozen_blocks k V (bbs (g_rep g)) -> x <= k -> V x = Some s ->
  preds_of g x = Some s.
Proof.
  intros Hnd [Hf He] Hx Hs. destruct (in_map_iff bb_id (bbs (g_rep g)) x) as [Hin _].
  destruct (Hin (He x s Hx Hs)) as (b & <- & Hb). unfold preds_of, getBlock.
  rewrite (getBB_In _ _ Hnd Hb). simpl. by rewrite (Hf b Hb Hx) in Hs.
Qed.

(** A chain of fallthrough updates and edge insertions into fresh blocks. *)
Ltac frozen_edges :=
  repeat first [apply frozen_addEdge; [lia|] | apply frozen_setFallthrough]; assumption.

(** ** The invariant of a run: well formed, the predecessors of the
    blocks that existed at its start frozen, and the bound operands
    satisfying [Q] (nothing, for the structural theorems; lowered, for
    termination). *)

Definition gen_ok (Q : list IRArgument -> Prop) (k : nat) (V : nat -> option (gset nat)) (g : SSAGen) : Prop :=
  gen_wf g /\ k <= bb_gen (g_rep g) /\ frozen_blocks k V (bbs (g_rep g)) /\ Q (g_arguments g).

(** A lowering step that keeps the invariant and returns a lowered argument. *)
Abbreviation good Q k V c := (triple (gen_ok Q k V) c (fun r g => gen_ok Q k V g /\ lowered r)).

(** ** Primitive steps *)

Lemma gen_ok_frame Q k V g g' : node_frame g g' -> gen_ok Q k V g -> gen_ok Q k V g'.
Proof.
  intros (Hv & Hgen & _ & _ & Ha & Ht & _) [[Hw Htmp] (Hk & Hf & Hq)].
  assert (Hev : forall l, map edge_view l =
            map (fun v => let '(id, _, _, _, i, o) := v in (id, i, o)) (map cfg_view l))
    by (intros l; rewrite map_map; by apply map_ext).
  assert (Hm : map edge_view (bbs (g_rep g')) = map edge_view (bbs (g_rep g))) by (by rewrite !Hev, Hv).
  unfold gen_ok, gen_wf. rewrite Hgen, Ht, Ha.
  split; [split; [eapply wf_blocks_view; eauto|done]|split; [done|split; [eapply frozen_view; eauto|done]]].
Qed.

Lemma addExpression_inv Q k V e : inv (gen_ok Q k V) (addExpression e).
Proof.
  intros g id g' Hg Hrun.
  assert (Ha : active_ok g).
  { unfold active_ok. unfold addExpression in Hrun. destruct (getBlock _ _); [eauto|discriminate]. }
  destruct (addExpression_step g e id g' Ha Hrun) as (_ & _ & Hf & _). eauto using gen_ok_frame.
Qed.

(** A new block gets an id above every frozen one. *)
Lemma createNewBlockG_fresh Q k V :
  triple (gen_ok Q k V) createNewBlockG (fun id g => gen_ok Q k V g /\ k < id).
Proof.
  intros g id g' [[Hw Ht] (Hk & Hf & Hq)] Hrun. unfold createNewBlockG, createNewBlock, bbs_push_back in Hrun.
  injection Hrun as <- <-. simpl. split; [|lia].
  split; [split; [by apply wf_push|exact Ht]|split; [simpl; lia|split; [|exact Hq]]].
  apply frozen_push; [done|simpl; lia].
Qed.

Lemma createNewBlockG_inv Q k V : inv (gen_ok Q k V) createNewBlockG.
Proof. eapply triple_weaken; [apply createNewBlockG_fresh|]. by intros ? ? [? _]. Qed.

Lemma activateBlock_inv Q k V b : inv (gen_ok Q k V) (activateBlock b).
Proof. apply inv_modify. done. Qed.

Lemma setEndOfBlock_inv Q k V b : inv (gen_ok Q k V) (setEndOfBlock b).
Proof. apply inv_modify. done. Qed.

Lemma setFallthroughFlag_inv Q k V b : inv (gen_ok Q k V) (setFallthroughFlag b).
Proof. apply inv_modify. done. Qed.

Lemma modifyBBs_view_inv Q k V f :
  (forall bs, map edge_view (f bs) = map edge_view bs) -> inv (gen_ok Q k V) (modifyBBs f).
Proof.
  intros Hf. apply inv_modify. intros g [[Hw Ht] (Hk & Hfr & Hq)]. simpl.
  split; [split; [eapply wf_blocks_view; [apply Hf|exact Hw]|exact Ht]|split; [exact Hk|split; [|exact Hq]]].
  eapply frozen_view; [apply Hf|exact Hfr].
Qed.

Lemma modifyBBs_setFallthrough_inv Q k V a t : inv (gen_ok Q k V) (modifyBBs (setFallthrough a t)).
Proof. apply modifyBBs_view_inv. intros. by apply updateBB_view. Qed.

Lemma modifyBBs_setstart_inv Q k V b v :
  inv (gen_ok Q k V) (modifyBBs (updateBB b (fun x => set_startaddr x v))).
Proof. apply modifyBBs_view_inv. intros. by apply updateBB_view. Qed.

Lemma modifyBBs_setend_inv Q k V b v :
  inv (gen_ok Q k V) (modifyBBs (updateBB b (fun x => set_endaddr x v))).
Proof. apply modifyBBs_view_inv. intros. by apply updateBB_view. Qed.

Lemma requireBlock_run b g x g' :
  requireBlock b g = Ok (x, g') -> g' = g /\ In b (map bb_id (bbs (g_rep g))).
Proof.
  unfold requireBlock. destruct (getBlock _ b) eqn:E; [|discriminate]. intros H.
  injection H as <- <-. split; [done|]. apply getBB_Some in E as [Hin <-]. by apply in_map.
Qed.

Lemma modifyBBs_run f g u g' :
  modifyBBs f g = Ok (u, g') -> g' = set_rep g (setBBs (g_rep g) (f (bbs (g_rep g)))).
Proof. unfold modifyBBs, modify. intros H. by injection H as _ <-. Qed.

(** Unfold a successful run of block lookups followed by a block-store update. *)
Ltac run_blocks :=
  repeat match goal with
  | H : bind _ _ _ = Ok _ |- _ => apply bind_Ok in H as (? & ? & ? & ?)
  | H : requireBlock _ _ = Ok _ |- _ => apply requireBlock_run in H as [-> ?]
  | H : modifyBBs _ _ = Ok _ |- _ => apply modifyBBs_run in H as ->
  end.

(** Linking to a block created after the frozen ones. *)
Lemma linkFallthrough_inv Q k V b t : k < t -> inv (gen_ok Q k V) (linkFallthrough b t).
Proof.
  intros Hkt g u g' [[Hw Ht] (Hk & Hf & Hq)] Hrun. unfold linkFallthrough in Hrun. run_blocks.
  simpl. split; [split; [wf_edges|exact Ht]|split; [exact Hk|split; [frozen_edges|exact Hq]]].
Qed.

Lemma modifyNode_inv Q k V id f : inv (gen_ok Q k V) (modifyNode id f).
Proof. apply inv_modify. done. Qed.

Lemma setTmp_Forall (P : SSATmpDef -> Prop) t a l :
  P (mkSSATmpDef t a) -> Forall P l -> Forall P (setTmp t a l).
Proof.
  intros Ha Hl. induction Hl as [|d l Hd Hl IH]; simpl; [by constructor|].
  destruct (tmp_id d =? t); constructor; auto.
Qed.

Lemma removeTmp_Forall (P : SSATmpDef -> Prop) t l : Forall P l -> Forall P (removeTmp t l).
Proof.
  intros Hl. induction Hl as [|d l Hd Hl IH]; simpl; [by constructor|].
  destruct (tmp_id d =? t); [done|]. by constructor.
Qed.

Lemma setTmp_ids t a l x : In x (map tmp_id (setTmp t a l)) -> x = t \/ In x (map tmp_id l).
Proof.
  induction l as [|d l IH]; simpl; [intros [<-|[]]; by left|].
  destruct (tmp_id d =? t) eqn:E; simpl.
  - intros [<-|Hx]; [by left|by right; right].
  - intros [<-|Hx]; [by right; left|]. destruct (IH Hx); [by left|by right; right].
Qed.

Lemma removeTmp_ids t l x : In x (map tmp_id (removeTmp t l)) -> In x (map tmp_id l).
Proof.
  induction l as [|d l IH]; simpl; [done|].
  destruct (tmp_id d =? t); simpl; [by right|]. intros [<-|Hx]; [by left|by right; auto].
Qed.

(** Writing a scratch variable replaces its entry or appends one. *)
Lemma tmp_ok_setTmp t a l : lowered a -> tmp_ok l -> tmp_ok (setTmp t a l).
Proof.
  intros Ha [Hl Hnd]. split; [by apply setTmp_Forall|]. clear Hl.
  induction l as [|d l IH]; simpl; [repeat constructor; set_solver|].
  inversion Hnd as [|? ? Hnotin Hnd']; subst.
  destruct (Nat.eqb_spec (tmp_id d) t) as [E|E]; simpl.
  - rewrite <- E. by constructor.
  - constructor; [|by apply IH]. intros Hin. apply list_elem_of_In, setTmp_ids in Hin as [Hin|Hin];
      [done|apply Hnotin; by apply list_elem_of_In].
Qed.

Lemma tmp_ok_removeTmp t l : tmp_ok l -> tmp_ok (removeTmp t l).
Proof.
  intros [Hl Hnd]. split; [by apply removeTmp_Forall|]. clear Hl.
  induction l as [|d l IH]; simpl; [constructor|].
  inversion Hnd as [|? ? Hnotin Hnd']; subst.
  destruct (tmp_id d =? t); [done|]. simpl. constructor; [|by apply IH].
  intros Hin. apply Hnotin, list_elem_of_In. apply list_elem_of_In, removeTmp_ids in Hin. done.
Qed.

Lemma tmp_ok_nil : tmp_ok [].
Proof. split; constructor. Qed.

Lemma assignTmp_inv Q k V t a : lowered a -> inv (gen_ok Q k V) (assignTmp t a).
Proof.
  intros Ha. apply inv_modify. intros g [[Hw Ht] Hfr]. split; [split; [exact Hw|]|exact Hfr].
  by apply tmp_ok_setTmp.
Qed.

Lemma good_inv {A} Q k V (c : Gen A) (P : A -> Prop) :
  triple (gen_ok Q k V) c (fun r g => gen_ok Q k V g /\ P r) -> inv (gen_ok Q k V) c.
Proof. intros H. eapply triple_weaken; [exact H|]. by intros ? ? [? _]. Qed.

#[export] Hint Resolve addExpression_inv createNewBlockG_inv activateBlock_inv setEndOfBlock_inv
  setFallthroughFlag_inv modifyBBs_setFallthrough_inv modifyBBs_setstart_inv modifyBBs_setend_inv
  linkFallthrough_inv modifyNode_inv assignTmp_inv : gen_inv.
#[export] Hint Extern 1 (lowered _) => exact I : gen_inv.
#[export] Hint Extern 1 (_ < _) => assumption : gen_inv.

(** [htac], remembering that new blocks are fresh, then close the returns
    of lowered arguments. *)
Ltac gstep :=
  match goal with
  | |- triple _ (bind createNewBlockG _) _ =>
      eapply triple_bind_post; [apply createNewBlockG_fresh|intros ?id ?Hfresh]
  | _ => htac_step
  end.

Ltac gtac := repeat gstep; try assumption; try (split; [assumption|first [exact I|assumption]]).

Lemma emit_good Q k V e : good Q k V (emit e).
Proof. unfold emit. gtac. Qed.

Lemma insertLabel_inv Q k V arch a : inv (gen_ok Q k V) (insertLabel arch a).
Proof. apply addExpression_inv. Qed.

Lemma memComponent_inv Q k V arch r : inv (gen_ok Q k V) (memComponent arch r).
Proof. unfold memComponent. gtac. Qed.

#[export] Hint Resolve emit_good insertLabel_inv memComponent_inv : gen_inv.

Lemma parseMemArgToExpr_good Q k V arch mem : good Q k V (parseMemArgToExpr arch mem).
Proof. unfold parseMemArgToExpr. gtac. Qed.

Lemma updateLoop_inv Q k V arch f base reg id : inv (gen_ok Q k V) (updateLoop arch f base reg id).
Proof. revert reg. induction f; intros reg; simpl; gtac. Qed.

Lemma addUpdateRegExpressions_inv Q k V arch r id : inv (gen_ok Q k V) (addUpdateRegExpressions arch r id).
Proof. unfold addUpdateRegExpressions. gtac. apply updateLoop_inv. Qed.

#[export] Hint Resolve parseMemArgToExpr_good addUpdateRegExpressions_inv : gen_inv.
#[export] Hint Extern 2 (triple (gen_ok _ _ _) _ (fun _ => gen_ok _ _ _)) =>
  eapply good_inv; solve [eauto with gen_inv] : gen_inv.

Lemma repEdges_inv Q k V a b c d e f :
  k < b -> k < d -> k < f -> inv (gen_ok Q k V) (repEdges a b c d e f).
Proof.
  intros Hb Hd Hf' g u g' [[Hw Ht] (Hk & Hf & Hq)] Hrun. unfold repEdges in Hrun. run_blocks.
  simpl. split; [split; [wf_edges|exact Ht]|split; [exact Hk|split; [frozen_edges|exact Hq]]].
Qed.

Lemma lowerTmp_good Q k V t : good Q k V (lowerTmp t).
Proof.
  unfold lowerTmp. gtac. split; [assumption|].
  match goal with H : List.find _ _ = Some ?d |- _ => apply find_some in H as [Hin _] end.
  destruct Hg as [[_ [Ht _]] _]. exact (proj1 (List.Forall_forall _ _) Ht _ Hin).
Qed.

Lemma lowerIP_good Q k V arch : good Q k V (lowerIP arch).
Proof. unfold lowerIP. gtac. Qed.

Lemma undefOne_inv Q k V arch sub : inv (gen_ok Q k V) (undefOne arch sub).
Proof.
  unfold undefOne. gtac. destruct Hg as [[Hw Ht] Hfr]. split; [split; [exact Hw|]|exact Hfr].
  by apply tmp_ok_removeTmp.
Qed.

#[export] Hint Resolve repEdges_inv lowerTmp_good lowerIP_good undefOne_inv : gen_inv.

(** Entering and leaving a recursive instantiation: bind the operands and
    empty the scratch table; restore both from a cached session. *)
Lemma enterRec_inv Q k V args :
  Q args -> inv (gen_ok Q k V) (modify (fun g => set_arguments (set_tmpdefs g []) args)).
Proof.
  intros Hq. apply inv_modify. intros g [[Hw _] (Hk & Hfr & _)].
  split; [split; [exact Hw|apply tmp_ok_nil]|split; [exact Hk|split; [exact Hfr|exact Hq]]].
Qed.

Lemma leaveRec_inv Q k V g0 :
  gen_ok Q k V g0 ->
  inv (gen_ok Q k V) (modify (fun g => set_tmpdefs (set_arguments g (g_arguments g0)) (g_tmpdefs g0))).
Proof.
  intros [[_ Ht] (_ & _ & Hq)]. apply inv_modify. intros g [[Hw _] (Hk & Hfr & _)].
  split; [split; [exact Hw|exact Ht]|split; [exact Hk|split; [exact Hfr|exact Hq]]].
Qed.

(** ** The handlers, for any recursion that is itself [good] *)

Section Handlers.
Context (arch : Architecture) (rec : IRArgument -> Gen IRArgument).
Context (Q : list IRArgument -> Prop) (k : nat) (V : nat -> option (gset nat)).
Hypothesis HQ : forall l, Forall lowered l -> Q l.
Hypothesis Hrec : forall a, good Q k V (rec a).

Lemma recSSA_inv a : inv (gen_ok Q k V) (recSSA rec a).
Proof. unfold recSSA. gtac. Qed.

#[local] Hint Resolve recSSA_inv : gen_inv.

Lemma recAll_inv l : inv (gen_ok Q k V) (recAll rec l).
Proof. unfold recAll. gtac. Qed.

Lemma stackOf_inv e : inv (gen_ok Q k V) (stackOf arch rec e).
Proof. unfold stackOf. gtac. Qed.

Lemma assignFromNode_good sid dst :
  triple (gen_ok Q k V) (assignFromNode arch sid dst)
    (fun r g => gen_ok Q k V g /\ match r with inl a => lowered a | inr _ => True end).
Proof. unfold assignFromNode. gtac. Qed.

Lemma assignCopy_good dst src rt : good Q k V (assignCopy arch dst src rt).
Proof. unfold assignCopy. gtac. Qed.

#[local] Hint Resolve recAll_inv stackOf_inv assignFromNode_good assignCopy_good : gen_inv.

(** [IR_EXPR_ASSIGN]: an early [return] of the ID branch is a lowered argument too. *)
Lemma lowerAssign_good e : good Q k V (lowerAssign arch rec e).
Proof.
  unfold lowerAssign. do 5 (apply triple_bind_inv; [solve [eauto with gen_inv]|intros ?]).
  apply (triple_bind_post _ _ _ (fun r => match r with inl a => lowered a | inr _ => True end)).
  - destruct (ir_type _); first [apply assignFromNode_good | apply triple_ret; by split].
  - intros [res|rt] Hr; gtac.
Qed.

Lemma recMatch_inv cfuel irs : inv (gen_ok Q k V) (recMatch arch rec cfuel irs).
Proof. induction irs; simpl; gtac. Qed.

#[local] Hint Resolve recMatch_inv : gen_inv.

(** [IR_EXPR_REC]: the operands are bound to the lowered arguments and the
    scratch table emptied, then the cached ones restored. *)
Lemma lowerRec_good cfuel e : good Q k V (lowerRec arch rec cfuel e).
Proof.
  unfold lowerRec. eapply triple_bind_post; [apply triple_mapM_post, Hrec|]. intros args Hargs.
  apply triple_bind_get. intros g0 Hg0. cbv zeta.
  apply triple_bind_inv; [apply enterRec_inv; by apply HQ|intros _].
  do 2 (apply triple_bind_inv; [solve [eauto with gen_inv]|intros ?]).
  apply triple_bind_inv; [by apply leaveRec_inv|intros _]. gtac.
Qed.

#[local] Hint Resolve lowerAssign_good lowerRec_good : gen_inv.

(** Every handler of the [switch] keeps the invariant and returns a lowered argument. *)
Lemma lowerExpr_good cfuel e : good Q k V (lowerExpr arch rec cfuel e).
Proof.
  unfold lowerExpr. destruct (ire_type e);
    unfold lowerUndef, lowerIf, lowerJmp, lowerCJmp, lowerOp, lowerCall, lowerReturn, lowerSyscall,
      lowerTrap, lowerExtend, lowerSplit, lowerAppend, lowerCast, lowerStore, lowerLoad, lowerPush,
      lowerPop, lowerValue, lowerRep, lowerSize, lowerSequence, lowerFlag; gtac.
Qed.

End Handlers.

#[export] Hint Resolve lowerExpr_good : gen_inv.

(** ** The lowering engine *)

Lemma lowered_of_type a t : ir_type a = t -> match t with IR_ARGTYPE_ID _ | IR_ARGTYPE_ARG _ => False | _ => True end -> lowered a.
Proof. unfold lowered. by intros ->. Qed.

Lemma lowerMemOp_good Q k V arch a mem : good Q k V (lowerMemOp arch a mem).
Proof. unfold lowerMemOp. gtac. Qed.

#[export] Hint Resolve lowerMemOp_good : gen_inv.

Lemma parseExpression_good Q k V arch fuel a :
  (forall l, Forall lowered l -> Q l) -> good Q k V (parseExpression arch fuel a).
Proof.
  intros HQ. revert a. induction fuel as [|fuel IH]; intros a; simpl; gtac.
  all: split; [assumption|eapply lowered_of_type; [eassumption|exact I]].
Qed.

#[export] Hint Resolve parseExpression_good : gen_inv.

Lemma setupForInstr_inv Q k V : Q [] -> inv (gen_ok Q k V) setupForInstr.
Proof.
  intros HQ. apply inv_modify. intros g [[Hw _] (Hk & Hfr & _)].
  split; [split; [exact Hw|apply tmp_ok_nil]|split; [exact Hk|split; [exact Hfr|exact HQ]]].
Qed.

#[export] Hint Resolve setupForInstr_inv : gen_inv.

Lemma widenBlockStart_inv Q k V a : inv (gen_ok Q k V) (widenBlockStart a).
Proof. unfold widenBlockStart, getActiveBlock. gtac. Qed.

Lemma extendBlockEnd_inv Q k V a : inv (gen_ok Q k V) (extendBlockEnd a).
Proof. unfold extendBlockEnd, getActiveBlock. gtac. Qed.

#[export] Hint Resolve widenBlockStart_inv extendBlockEnd_inv : gen_inv.

(** Binding an instruction's operands. *)
Lemma bindOperands_inv Q k V instr :
  Q (instr_operands instr) ->
  inv (gen_ok Q k V) (modify (fun g => set_arguments (set_instruction g (Some instr)) (instr_operands instr))).
Proof. intros Hops. apply inv_modify. intros g [Hw (Hk & Hfr & _)]. by split; [|split; [|split]]. Qed.

(** The operands an instruction binds must satisfy [Q]. *)
Lemma parseInstruction_inv Q k V arch fuel instr :
  (forall l, Forall lowered l -> Q l) -> Q (instr_operands instr) ->
  inv (gen_ok Q k V) (parseInstruction arch fuel instr).
Proof.
  intros HQ Hops. unfold parseInstruction.
  apply triple_bind_inv; [solve [gtac]|intros _]. apply triple_bind_get. intros g Hg.
  apply triple_bind_inv; [solve [gtac]|intros [r|]]; [|gtac].
  apply triple_bind_inv; [apply setupForInstr_inv; by apply HQ|intros _].
  apply triple_bind_inv; [by apply bindOperands_inv|intros _]. gtac.
Qed.

Lemma setup_inv Q k V arch addr : inv (gen_ok Q k V) (setup arch addr).
Proof. unfold setup. gtac. Qed.

#[export] Hint Resolve parseInstruction_inv setup_inv : gen_inv.

Lemma lowerFunction_inv Q k V arch fuel addr instrs :
  (forall l, Forall lowered l -> Q l) -> Forall (fun i => Q (instr_operands i)) instrs ->
  inv (gen_ok Q k V) (lowerFunction arch fuel addr instrs).
Proof.
  intros HQ Hops. unfold lowerFunction. apply triple_bind_inv; [apply setup_inv|intros _].
  apply inv_forM_in. intros i Hi. apply parseInstruction_inv; [done|].
  exact (proj1 (List.Forall_forall _ _) Hops i Hi).
Qed.

(** The structural theorems constrain no operand. *)
Definition any_args (l : list IRArgument) : Prop := True.

Lemma any_args_lowered l : Forall lowered l -> any_args l.
Proof. done. Qed.

Lemma any_args_ops (instrs : list Instruction) : Forall (fun i => any_args (instr_operands i)) instrs.
Proof. apply List.Forall_forall. done. Qed.

(** Every well-formed session satisfies the invariant with nothing frozen. *)
Lemma gen_ok_0_args (Q : list IRArgument -> Prop) g :
  gen_wf g -> Q (g_arguments g) -> gen_ok Q 0 (fun _ => None) g.
Proof.
  intros Hg Hq. split; [done|split; [lia|split; [split|done]]]; [|done]. intros b Hin Hb. exfalso.
  destruct Hg as [(_ & _ & _ & Hids) _].
  pose proof (proj1 (List.Forall_forall _ _) Hids b Hin) as Hr. simpl in Hr. lia.
Qed.

Lemma gen_ok_0 g : gen_wf g -> gen_ok any_args 0 (fun _ => None) g.
Proof. intros Hg. by apply gen_ok_0_args. Qed.

Lemma initGen_wf : gen_wf initGen.
Proof.
  split; [|apply tmp_ok_nil]. split; [intros b1 b2 []|split; [intros b []|split; constructor]].
Qed.

(** Steps that read but do not change the session. *)
Lemma assertM_pure b e (g : SSAGen) : forall a g', assertM b e g = Ok (a, g') -> g' = g.
Proof. intros a g' H. apply assertM_Ok in H as [_ H]. by injection H. Qed.

Lemma of_option_pure {A} e (o : option A) (g : SSAGen) : forall a g', of_option e o g = Ok (a, g') -> g' = g.
Proof. intros a g' H. apply of_option_Ok in H as (x & _ & H). by injection H. Qed.

Lemma replaceArg_pure x g : forall a g', replaceArg x g = Ok (a, g') -> g' = g.
Proof. intros a g' H. unfold replaceArg in H. destruct (replaceArgF _ _ _); [by injection H|done]. Qed.

(** ** Properties *)

(** C1: Every successful lowering of a function from the empty session
    leaves a block store whose edges are symmetric (b is a successor of a
    exactly when a is a predecessor of b), whose edge endpoints and block
    ids lie in 1..bb_gen, and whose block ids are distinct; and its
    scratch table holds only lowered arguments (no [IR_ARGTYPE_ID]
    template node, no [IR_ARGTYPE_ARG] placeholder) under distinct ids. *)
Theorem lowerFunction_cfg_wf arch fuel addr instrs u g :
  lowerFunction arch fuel addr instrs initGen = Ok (u, g) ->
  edges_symmetric (bbs (g_rep g)) /\ edges_bounded (g_rep g) /\ bb_ids_ok (g_rep g) /\
  tmp_ok (g_tmpdefs g).
Proof.
  intros H.
  destruct (lowerFunction_inv any_args 0 (fun _ => None) arch fuel addr instrs any_args_lowered (any_args_ops _)
                initGen u g (gen_ok_0 _ initGen_wf) H)
    as [[Hw Ht] _].
  destruct (proj1 (wf_blocks_spec (g_rep g)) Hw) as (? & ? & ?). done.
Qed.

Lemma lowerFunction_cfg_wf_witness :
  exists g, lowerFunction fxArch 10 0x20 [cmovI; repI] initGen = Ok (tt, g) /\
    edges_symmetric (bbs (g_rep g)) /\ edges_bounded (g_rep g) /\ bb_ids_ok (g_rep g) /\
    tmp_ok (g_tmpdefs g).
Proof.
  eexists. split; [vm_compute; reflexivity|].
  apply (lowerFunction_cfg_wf fxArch 10 0x20 [cmovI; repI] tt). vm_compute. reflexivity.
Defined.

(** C13: [parseExpression] never returns an unlowered argument (neither
    an [IR_ARGTYPE_ID] template node nor an [IR_ARGTYPE_ARG] placeholder)
    and preserves the invariant. *)
Theorem parseExpression_lowered arch fuel a g r g' :
  gen_wf g -> parseExpression arch fuel a g = Ok (r, g') -> lowered r /\ gen_wf g'.
Proof.
  intros Hg H. destruct (parseExpression_good any_args 0 (fun _ => None) arch fuel a any_args_lowered g r g' (gen_ok_0 _ Hg) H)
    as [[Hw _] Hr].
  auto.
Qed.

Lemma parseExpression_lowered_witness :
  exists r g', parseExpression fxArch 10 (idp 12) fxReady = Ok (r, g') /\ lowered r /\ gen_wf g'.
Proof.
  do 2 eexists. split; [vm_compute; reflexivity|].
  apply (parseExpression_lowered fxArch 10 (idp 12) fxReady).
  - apply gen_wfb_spec. vm_compute. reflexivity.
  - vm_compute. reflexivity.
Defined.

(** C12: With the real recursion, the [IR_EXPR_ASSIGN] handler behaves
    exactly like its copy-only path: the branch for a source of type
    [IR_ARGTYPE_ID] (retargeting the source node, or recording it as a
    scratch value) never runs, and the copy node's return type is always
    [eUInt]. *)
Theorem lowerAssign_no_retarget arch fuel e g :
  gen_wf g ->
  lowerAssign arch (parseExpression arch fuel) e g =
  (assertM (Nat.eqb (subCount e) 2) AssertFailed ;;;
   sub0 <- subAt e 0 ;; sub1 <- subAt e 1 ;;
   dstArg <- replaceArg sub0 ;; srcArg <- parseExpression arch fuel sub1 ;;
   assignCopy arch dstArg srcArg eUInt) g.
Proof.
  intros Hg. unfold lowerAssign.
  do 4 (apply bind_ext_pure; [first [apply assertM_pure|apply of_option_pure|apply replaceArg_pure]|intros ?]).
  apply bind_ext_run. intros src g1 Hrun.
  destruct (parseExpression_good any_args 0 (fun _ => None) _ _ _ any_args_lowered _ _ _ (gen_ok_0 _ Hg) Hrun) as [_ Hsrc].
  unfold lowered in Hsrc. destruct (ir_type src); done.
Qed.

Lemma lowerAssign_no_retarget_witness :
  lowerAssign fxArch (parseExpression fxArch 10) (tnode IR_EXPR_ASSIGN [argp 1; idp 11]) fxReady =
  (assertM (Nat.eqb (subCount (tnode IR_EXPR_ASSIGN [argp 1; idp 11])) 2) AssertFailed ;;;
   sub0 <- subAt (tnode IR_EXPR_ASSIGN [argp 1; idp 11]) 0 ;;
   sub1 <- subAt (tnode IR_EXPR_ASSIGN [argp 1; idp 11]) 1 ;;
   dstArg <- replaceArg sub0 ;; srcArg <- parseExpression fxArch 10 sub1 ;;
   assignCopy fxArch dstArg srcArg eUInt) fxReady.
Proof.
  apply lowerAssign_no_retarget. apply gen_wfb_spec. vm_compute. reflexivity.
Defined.

(** C8: Lowering an instruction never adds a predecessor to a block that
    existed before it: every such block has the same predecessor set
    afterwards.  Edges are only added into blocks the instruction creates,
    and the true block of an [IR_EXPR_IF], created before its body is
    lowered, never receives one. *)
Theorem parseInstruction_preds_frozen arch fuel instr g u g' id b b' :
  gen_wf g -> parseInstruction arch fuel instr g = Ok (u, g') ->
  getBlock (g_rep g) id = Some b -> getBlock (g_rep g') id = Some b' ->
  bb_inBlocks b' = bb_inBlocks b.
Proof.
  intros Hg Hrun Hb Hb'.
  assert (H0 : gen_ok any_args (bb_gen (g_rep g)) (preds_of g) g)
    by (split; [done|split; [lia|split; [apply frozen_snapshot, Hg|done]]]).
  destruct (parseInstruction_inv _ _ _ arch fuel instr any_args_lowered I g u g' H0 Hrun)
    as ([[_ (_ & Hnd & _)] _] & _ & Hf & _).
  assert (Hle : id <= bb_gen (g_rep g)).
  { destruct Hg as [(_ & _ & _ & Hids) _]. apply getBB_Some in Hb as [Hin <-].
    pose proof (proj1 (List.Forall_forall _ _) Hids b Hin) as Hr. simpl in Hr. lia. }
  pose proof (frozen_preds _ _ g' id (bb_inBlocks b) Hnd Hf Hle) as Hp.
  unfold preds_of in Hp. rewrite Hb' in Hp. unfold preds_of in Hp. rewrite Hb in Hp.
  injection (Hp eq_refl) as ->. done.
Qed.

Lemma parseInstruction_preds_frozen_witness :
  exists g' b b', parseInstruction fxArch 10 repI fxAfterCmov = Ok (tt, g') /\
    getBlock (g_rep fxAfterCmov) 3 = Some b /\ getBlock (g_rep g') 3 = Some b' /\
    bb_inBlocks b' = bb_inBlocks b.
Proof.
  do 3 eexists. split; [vm_compute; reflexivity|]. split; [vm_compute; reflexivity|].
  split; [vm_compute; reflexivity|].
  eapply (parseInstruction_preds_frozen fxArch 10 repI fxAfterCmov tt _ 3).
  - apply gen_wfb_spec. vm_compute. reflexivity.
  - vm_compute. reflexivity.
  - vm_compute. reflexivity.
  - vm_compute. reflexivity.
Defined.
