(* ===== verification/ScratchTable.v ===== *)
(** * The scratch-variable table

    Templates name scratch variables with [IR_ARGTYPE_TMP] arguments: an
    assignment to one writes the table [tmpdefs] (src/main/SSAGen.cpp,
    lines 548-560, [assignTmp] here), a read looks the first entry with
    that id up (lines 436-447, [lowerTmp]) and [IR_EXPR_UNDEF] erases it
    (lines 480-494, [undefOne]).  The invariant [tmp_ok] of [LoweringInv]
    keeps the ids distinct; with it, a read returns the last value
    written and a read after an undefine fails. *)

From S2P Require Import Prelude Arch SSA ConstEval BlockStore Gen GenLogic RegUpdate LowerOps LowerControl Lowering Fixtures LoweringInv.

(** A scratch-variable argument. *)
Definition tmpArg (t : nat) : IRArgument := mkIRArgument (IR_ARGTYPE_TMP t) 0.

Lemma find_setTmp t a l :
  List.find (fun d => Nat.eqb (tmp_id d) t) (setTmp t a l) = Some (mkSSATmpDef t a).
Proof.
  induction l as [|d l IH]; simpl; [by rewrite Nat.eqb_refl|].
  destruct (tmp_id d =? t) eqn:E; simpl; [by rewrite Nat.eqb_refl|by rewrite E].
Qed.

Lemma find_tmp_absent t l :
  ~ In t (map tmp_id l) -> List.find (fun d => Nat.eqb (tmp_id d) t) l = None.
Proof.
  induction l as [|d l IH]; simpl; [done|]. intros Hn.
  destruct (Nat.eqb_spec (tmp_id d) t); [tauto|auto].
Qed.

(** With distinct ids, erasing an id leaves no entry with it. *)
Lemma find_removeTmp t l :
  NoDup (map tmp_id l) -> List.find (fun d => Nat.eqb (tmp_id d) t) (removeTmp t l) = None.
Proof.
  induction l as [|d l IH]; simpl; intros Hnd; [done|].
  inversion Hnd as [|? ? Hnotin Hnd']; subst.
  destruct (Nat.eqb_spec (tmp_id d) t) as [<-|E]; simpl.
  - apply find_tmp_absent. intros Hin. apply Hnotin. by apply list_elem_of_In.
  - apply Nat.eqb_neq in E. rewrite E. auto.
Qed.

(** ** Properties *)

(** C17: A scratch variable reads back the value last written to it: an
    assignment to [IR_ARGTYPE_TMP t] followed by a read of it returns the
    written argument, with the table holding the one updated entry. *)
Theorem scratch_write_read t a g :
  t <> 0 ->
  (assignTmp t a ;;; lowerTmp t) g = Ok (a, set_tmpdefs g (setTmp t a (g_tmpdefs g))).
Proof.
  intros Ht. unfold assignTmp, lowerTmp, modify, bind, assertM, get, ret. simpl.
  apply Nat.eqb_neq in Ht. rewrite Ht. simpl. by rewrite find_setTmp.
Qed.

Lemma scratch_write_read_witness :
  (assignTmp 2 (ulit 7) ;;; lowerTmp 2) fxReady =
  Ok (ulit 7, set_tmpdefs fxReady (setTmp 2 (ulit 7) (g_tmpdefs fxReady))).
Proof. apply scratch_write_read. lia. Defined.

(** C18: Reading a scratch variable after [IR_EXPR_UNDEF] erased it fails
    with an unresolved temporary, in every session satisfying the
    invariant (which keeps the ids distinct, so no older entry with the
    same id survives). *)
Theorem scratch_undef_read arch t g :
  t <> 0 -> gen_wf g ->
  (undefOne arch (tmpArg t) ;;; lowerTmp t) g = Fatal UnresolvedTemporary.
Proof.
  intros Ht [_ [_ Hnd]]. apply Nat.eqb_neq in Ht.
  unfold undefOne, lowerTmp, replaceArg, modify, bind, assertM, get, ret. simpl.
  rewrite Ht. simpl. by rewrite find_removeTmp.
Qed.

Lemma scratch_undef_read_witness :
  (undefOne fxArch (tmpArg 2) ;;; lowerTmp 2) (set_tmpdefs fxReady [mkSSATmpDef 2 (ulit 7)]) =
  Fatal UnresolvedTemporary.
Proof.
  apply scratch_undef_read; [lia|]. apply gen_wfb_spec. vm_compute. reflexivity.
Defined.
