(* ===== verification/LoweringTotal.v ===== *)
(** * Termination of the lowering engine

    [SSAGen::parseExpression] recurses through the catalog's expression
    table and, for [IR_EXPR_REC], through the bodies of another
    instruction definition; [replaceArg] follows placeholder chains and
    [addUpdateRegExpressions] follows register parent links.  None of
    these is structural, so the model gives [parseExpression] fuel.  This
    file shows that the fuel is only a device of the model: on a template
    table ranked so that every nested expression (and every body a
    recursive instantiation lowers) has a smaller rank, with register
    parents ranked as well and operands that are already lowered, fuel
    above the ranks never runs out ([OutOfFuel] is never the result),
    for [parseExpression], [parseInstruction] and the whole
    [lowerFunction]. *)

From S2P Require Import Prelude Arch SSA ConstEval BlockStore Gen GenLogic RegUpdate LowerOps LowerControl Lowering Fixtures LoweringInv.

(** ** Ranked templates *)

(** Every body a recursive instantiation [e] may lower has its guard and
    its root at rank at most [n]. *)
Definition rec_bodies_below (arch : Architecture) (rank : nat -> nat) (n : nat) (e : IRExpression) : Prop :=
  ire_type e = IR_EXPR_REC -> forall d, getInstrDef arch (ire_instrId e) = Some d ->
    Forall (fun r => arg_rank rank (irr_condExpr r) <= n /\ arg_rank rank (irr_rootExpr r) <= n)
      (instrdef_irs d).

Definition expr_below (arch : Architecture) (rank : nat -> nat) (n : nat) (e : IRExpression) : Prop :=
  Forall (fun s => arg_rank rank s <= n) (ire_subExpressions e) /\ rec_bodies_below arch rank n e.

(** The template table is acyclic, recursive instantiation included. *)
Definition lower_ranked (arch : Architecture) (rank : nat -> nat) : Prop :=
  forall id e, getIrExpr arch id = Some e -> expr_below arch rank (rank id) e.

(** An instruction the lowering can start: lowered operands (registers,
    literals, memory operands) and every candidate's guard and root below
    the fuel. *)
Definition instr_fits (rank : nat -> nat) (fuel : nat) (i : Instruction) : Prop :=
  Forall lowered (instr_operands i) /\
  Forall (fun r => arg_rank rank (irr_condExpr r) < fuel /\ arg_rank rank (irr_rootExpr r) < fuel)
    (instrdef_irs (instr_def i)).

(** The executable checks. *)
Definition expr_belowb (arch : Architecture) (rank : nat -> nat) (n : nat) (e : IRExpression) : bool :=
  forallb (fun s => arg_rank rank s <=? n) (ire_subExpressions e) &&
  match ire_type e, getInstrDef arch (ire_instrId e) with
  | IR_EXPR_REC, Some d =>
      forallb (fun r => (arg_rank rank (irr_condExpr r) <=? n) && (arg_rank rank (irr_rootExpr r) <=? n))
        (instrdef_irs d)
  | _, _ => true
  end.

Definition lower_rankedb (arch : Architecture) (rank : nat -> nat) : bool :=
  forallb (fun '(id, e) => expr_belowb arch rank (rank id) e) (map_to_list (irExprs arch)).

Definition instr_fitsb (rank : nat -> nat) (fuel : nat) (i : Instruction) : bool :=
  forallb loweredb (instr_operands i) &&
  forallb (fun r => (arg_rank rank (irr_condExpr r) <? fuel) && (arg_rank rank (irr_rootExpr r) <? fuel))
    (instrdef_irs (instr_def i)).

Definition parents_rankedb (arch : Architecture) (rank : nat -> nat) : bool :=
  forallb (fun r => (reg_directParentRef r =? 0) ||
             match getRegister arch (reg_directParentRef r) with
             | Some p => rank (reg_id p) <? rank (reg_id r)
             | None => false
             end) (registers arch).

Lemma expr_belowb_spec arch rank n e : expr_belowb arch rank n e = true -> expr_below arch rank n e.
Proof.
  unfold expr_belowb, expr_below, rec_bodies_below. rewrite andb_true_iff, forallb_forall.
  intros [Hs Hr]. split.
  - apply List.Forall_forall. intros s Hin. apply Nat.leb_le. auto.
  - intros Ht d Hd. rewrite Ht, Hd in Hr. apply List.Forall_forall. intros r Hin.
    rewrite forallb_forall in Hr. apply Hr, andb_true_iff in Hin as [H1 H2].
    by apply Nat.leb_le in H1, H2.
Qed.

Lemma lower_rankedb_spec arch rank : lower_rankedb arch rank = true -> lower_ranked arch rank.
Proof.
  unfold lower_rankedb, lower_ranked, getIrExpr. rewrite forallb_forall. intros H id e He.
  apply expr_belowb_spec. apply (H (id, e)). apply list_elem_of_In. by apply elem_of_map_to_list.
Qed.

Lemma instr_fitsb_spec rank fuel i : instr_fitsb rank fuel i = true -> instr_fits rank fuel i.
Proof.
  unfold instr_fitsb, instr_fits. rewrite andb_true_iff, !forallb_forall. intros [Ho Hr]. split.
  - apply List.Forall_forall. intros a Hin. apply loweredb_spec. auto.
  - apply List.Forall_forall. intros r Hin. apply Hr, andb_true_iff in Hin as [H1 H2].
    by apply Nat.ltb_lt in H1, H2.
Qed.

Lemma parents_rankedb_spec arch rank : parents_rankedb arch rank = true -> parents_ranked arch rank.
Proof.
  unfold parents_rankedb. rewrite forallb_forall. intros H r Hin Hp.
  specialize (H r Hin). apply orb_true_iff in H as [H|H]; [by apply Nat.eqb_eq in H|].
  destruct (getRegister arch _) as [p|]; [|done]. apply Nat.ltb_lt in H. eauto.
Qed.

(** A ranked table is ranked for the guard evaluator. *)
Lemma lower_ranked_ranked arch rank : lower_ranked arch rank -> ranked arch rank.
Proof. intros H id e He. apply (H id e He). Qed.

(** ** Steps that never exhaust fuel *)

Lemma inv_true {S A} (c : M S A) : inv (fun _ => True) c.
Proof. done. Qed.

Lemma lowered_rank rank a : lowered a -> arg_rank rank a = 0.
Proof. unfold lowered, arg_rank. by destruct (ir_type a). Qed.

Section Prims.
Context (I : SSAGen -> Prop).

Lemma safe_addExpression e : safe I (addExpression e).
Proof. intros g _. unfold addExpression. destruct (getBlock _ _); [|done]. by destruct (addAtEnd _ _ _). Qed.

Lemma safe_createNewBlockG : safe I createNewBlockG.
Proof. intros g _. unfold createNewBlockG. by destruct (createNewBlock _). Qed.

Lemma safe_activateBlock b : safe I (activateBlock b).
Proof. apply safe_modify. Qed.

Lemma safe_setEndOfBlock b : safe I (setEndOfBlock b).
Proof. apply safe_modify. Qed.

Lemma safe_setFallthroughFlag b : safe I (setFallthroughFlag b).
Proof. apply safe_modify. Qed.

Lemma safe_modifyBBs f : safe I (modifyBBs f).
Proof. apply safe_modify. Qed.

Lemma safe_modifyNode id f : safe I (modifyNode id f).
Proof. apply safe_modify. Qed.

Lemma safe_assignTmp t a : safe I (assignTmp t a).
Proof. apply safe_modify. Qed.
End Prims.

#[export] Hint Resolve safe_addExpression safe_createNewBlockG safe_activateBlock safe_setEndOfBlock
  safe_setFallthroughFlag safe_modifyBBs safe_modifyNode safe_assignTmp : gen_safe.

(** The parent walk never runs out of fuel on a register whose ancestors
    the fuel covers. *)
Lemma updateLoop_safe arch f base reg id l :
  ancestors arch f reg = Some l -> safe (fun _ => True) (updateLoop arch f base reg id).
Proof.
  revert reg l. induction f as [|f IH]; intros reg l H; simpl in H |- *;
    destruct (reg_directParentRef reg =? 0); try discriminate; try apply safe_ret.
  destruct (getRegister arch _) as [p|] eqn:Hp; [|done].
  destruct (ancestors arch f p) as [l'|] eqn:El; [|done].
  eapply safe_bind_post; [apply safe_of_option; discriminate|apply triple_of_option_Some|].
  intros p' Hp'. injection Hp' as <-.
  apply safe_bind; [destruct (reg_clearParentOnWrite base); eauto with gen_safe|apply inv_true|intros _].
  apply safe_bind; [apply safe_addExpression|apply inv_true|intros _]. eauto.
Qed.

(** With the register parents ranked, writing any register terminates. *)
Lemma safe_addUpdateRegExpressions (I : SSAGen -> Prop) arch prank regId id :
  parents_ranked arch prank -> safe I (addUpdateRegExpressions arch regId id).
Proof.
  intros Hp. apply safe_any. unfold addUpdateRegExpressions.
  eapply safe_bind_post; [apply safe_of_option; discriminate|apply triple_of_option_Some|].
  intros base Hb. destruct (ancestors_enough arch prank Hp base (getRegister_in _ _ _ Hb)) as [l Hl].
  eapply updateLoop_safe, Hl.
Qed.

(** Placeholders bound to lowered operands resolve in one step. *)
Lemma replaceArgF_lowered n args a :
  Forall lowered args ->
  replaceArgF (S n) args a <> Fatal OutOfFuel /\
  (forall r, replaceArgF (S n) args a = Ok r -> r = a \/ lowered r).
Proof.
  intros Hargs. simpl.
  destruct (ir_type a) as [| | | |i| | | | | | | |] eqn:Ht;
    try (split; [done|intros r H; injection H as <-; by left]).
  destruct i as [|i]; simpl; [split; [done|intros ? ?; discriminate]|].
  destruct (nth_error args i) as [a'|] eqn:En; [|split; [done|intros ? ?; discriminate]].
  assert (Ha' : lowered a').
  { eapply List.Forall_forall; [exact Hargs|]. eapply nth_error_In; eauto. }
  assert (Hr : replaceArgF n args a' = Ok a').
  { unfold lowered in Ha'. destruct n; simpl; destruct (ir_type a'); done. }
  rewrite Hr. split; [done|intros r H; injection H as <-; by right].
Qed.

(** The invariant of the termination proof: the structural one, with
    lowered operands bound. *)
Abbreviation lok k V := (gen_ok (Forall lowered) k V).

Lemma safe_replaceArg k V a : safe (lok k V) (replaceArg a).
Proof.
  intros g (_ & _ & _ & Hq). unfold replaceArg.
  destruct (replaceArgF_lowered (length (g_arguments g)) _ a Hq) as [Hs _].
  destruct (replaceArgF _ _ _); [done|]. exact (fatal_not_fuel _ Hs).
Qed.

(** Resolving a placeholder never raises the rank. *)
Lemma replaceArg_rank k V rank a :
  triple (lok k V) (replaceArg a) (fun r g => lok k V g /\ arg_rank rank r <= arg_rank rank a).
Proof.
  intros g r g' Hg Hrun. unfold replaceArg in Hrun. destruct Hg as (Hw & Hk & Hf & Hq).
  destruct (replaceArgF_lowered (length (g_arguments g)) _ a Hq) as [_ Hr].
  destruct (replaceArgF _ _ _) as [x|] eqn:E; [|done]. injection Hrun as <- <-.
  split; [done|]. destruct (Hr x eq_refl) as [->|Hl]; [done|]. rewrite (lowered_rank _ _ Hl). lia.
Qed.

Lemma subAt_In (I : SSAGen -> Prop) e i :
  triple I (subAt e i) (fun s g => I g /\ In s (ire_subExpressions e)).
Proof.
  eapply triple_weaken; [apply triple_of_option_Some|]. intros s g [Hg Hs]. split; [done|].
  eapply nth_error_In. eauto.
Qed.

#[export] Hint Resolve safe_replaceArg safe_addUpdateRegExpressions : gen_safe.

(** Follow the structure of a handler as [gtac] does, discharging the
    invariant of each prefix with [gtac] and remembering that the operands
    read with [subAt] are operands of the node and that new blocks are fresh. *)
Ltac sstep :=
  match goal with
  | |- safe _ (let _ := _ in _) => cbv zeta
  | |- safe _ (bind get _) => apply safe_bind_get; intros ?g ?Hg
  | |- safe _ (bind (subAt _ _) _) =>
      eapply safe_bind_post; [apply safe_of_option; discriminate|apply subAt_In|intros ?s ?Hs]
  | |- safe _ (bind createNewBlockG _) =>
      eapply safe_bind_post; [apply safe_createNewBlockG|apply createNewBlockG_fresh|intros ?id ?Hfresh]
  | |- safe _ (bind _ _) => apply safe_bind; [|solve [gtac]|intros ?]
  | |- safe _ (mapM _ _) => apply safe_mapM; [intros ?x ?Hx|intros ?x; solve [gtac]]
  | |- safe _ (forM_ _ _) => apply safe_forM_; [intros ?x ?Hx|intros ?x ?Hx; solve [gtac]]
  | |- safe _ (if ?b then _ else _) => destruct b eqn:?
  | |- safe _ (match ?x with _ => _ end) => destruct x eqn:?
  | |- safe _ _ => solve [eauto with gen_safe]
  end.

Ltac stac := repeat sstep.

Lemma safe_emit k V e : safe (lok k V) (emit e).
Proof. unfold emit. stac. Qed.

Lemma safe_insertLabel k V arch a : safe (lok k V) (insertLabel arch a).
Proof. apply safe_addExpression. Qed.

Lemma safe_memComponent k V arch r : safe (lok k V) (memComponent arch r).
Proof. unfold memComponent. stac. Qed.

#[export] Hint Resolve safe_emit safe_insertLabel safe_memComponent : gen_safe.

Lemma safe_parseMemArgToExpr k V arch mem : safe (lok k V) (parseMemArgToExpr arch mem).
Proof. unfold parseMemArgToExpr. stac. Qed.

Lemma safe_lowerTmp k V t : safe (lok k V) (lowerTmp t).
Proof. unfold lowerTmp. stac. Qed.

Lemma safe_lowerIP k V arch : safe (lok k V) (lowerIP arch).
Proof. unfold lowerIP. stac. Qed.

#[export] Hint Resolve safe_parseMemArgToExpr safe_lowerTmp safe_lowerIP : gen_safe.

Lemma safe_lowerMemOp k V arch a mem : safe (lok k V) (lowerMemOp arch a mem).
Proof. unfold lowerMemOp. stac. Qed.

Lemma safe_linkFallthrough k V b t : safe (lok k V) (linkFallthrough b t).
Proof. unfold linkFallthrough. stac. Qed.

Lemma safe_repEdges k V a b c d e f : safe (lok k V) (repEdges a b c d e f).
Proof. unfold repEdges. stac. Qed.

Lemma safe_widenBlockStart k V a : safe (lok k V) (widenBlockStart a).
Proof. unfold widenBlockStart, getActiveBlock. stac. Qed.

Lemma safe_extendBlockEnd k V a : safe (lok k V) (extendBlockEnd a).
Proof. unfold extendBlockEnd, getActiveBlock. stac. Qed.

#[export] Hint Resolve safe_lowerMemOp safe_linkFallthrough safe_repEdges safe_widenBlockStart
  safe_extendBlockEnd : gen_safe.

(** ** The handlers, for a recursion that terminates below [cfuel] *)

Section Handlers.
Context (arch : Architecture) (rank prank : nat -> nat) (k : nat) (V : nat -> option (gset nat)).
Context (rec : IRArgument -> Gen IRArgument) (cfuel : nat).
Hypothesis Hranked : lower_ranked arch rank.
Hypothesis Hparents : parents_ranked arch prank.
Hypothesis Hrec : forall a, good (Forall lowered) k V (rec a).
Hypothesis Hrec_safe : forall a, arg_rank rank a < cfuel -> safe (lok k V) (rec a).

#[local] Hint Resolve recSSA_inv recAll_inv stackOf_inv assignFromNode_good assignCopy_good
  lowerAssign_good recMatch_inv lowerRec_good : gen_inv.
#[local] Hint Resolve Hrec_safe : gen_safe.
#[local] Hint Extern 1 (arg_rank _ _ < _) =>
  match goal with H : forall s, In s _ -> arg_rank _ s < _ |- _ => apply H; assumption end : gen_safe.

(** A guard evaluated with [cfuel] on an operand below it does not run out. *)
Ltac guard_fuel :=
  apply safe_fail; intros ->;
  match goal with H : parseConstExpression _ _ _ _ ?s = Fatal OutOfFuel |- _ =>
    eapply (parseConstExpression_fueled arch _ _ rank cfuel s);
    [by apply lower_ranked_ranked|eauto with gen_safe|exact H]
  end.

Lemma safe_recSSA a : arg_rank rank a < cfuel -> safe (lok k V) (recSSA rec a).
Proof. intros Ha. unfold recSSA. stac. Qed.

#[local] Hint Resolve safe_recSSA : gen_safe.

(** The candidate loop of a recursive instantiation, on bodies below the fuel. *)
Lemma safe_recMatch irs :
  Forall (fun r => arg_rank rank (irr_condExpr r) < cfuel /\ arg_rank rank (irr_rootExpr r) < cfuel) irs ->
  safe (lok k V) (recMatch arch rec cfuel irs).
Proof.
  induction 1 as [|r irs [Hc Hr] _ IH]; simpl; stac.
  all: try apply IH.
  all: try (apply Hrec_safe; exact Hr).
  guard_fuel.
Qed.

Section Node.
Context (e : IRExpression).
Hypothesis Hsub : forall s, In s (ire_subExpressions e) -> arg_rank rank s < cfuel.

Lemma safe_recAll : safe (lok k V) (recAll rec (ire_subExpressions e)).
Proof. unfold recAll. stac. Qed.

Lemma safe_stackOf : safe (lok k V) (stackOf arch rec e).
Proof. unfold stackOf. stac. Qed.

#[local] Hint Resolve safe_recAll safe_stackOf : gen_safe.

Lemma safe_lowerAssign : safe (lok k V) (lowerAssign arch rec e).
Proof. unfold lowerAssign, assignFromNode, assignCopy. stac. Qed.

Lemma safe_lowerExtend : safe (lok k V) (lowerExtend arch rec cfuel e).
Proof. unfold lowerExtend. stac. guard_fuel. Qed.

Hypothesis Hbody : ire_type e = IR_EXPR_REC -> forall d, getInstrDef arch (ire_instrId e) = Some d ->
  Forall (fun r => arg_rank rank (irr_condExpr r) < cfuel /\ arg_rank rank (irr_rootExpr r) < cfuel)
    (instrdef_irs d).

Lemma safe_undefOne sub : safe (lok k V) (undefOne arch sub).
Proof. unfold undefOne. stac. Qed.

#[local] Hint Resolve safe_undefOne : gen_safe.

(** [IR_EXPR_REC]: the arguments are lowered, so the bodies see lowered operands. *)
Lemma safe_lowerRec : ire_type e = IR_EXPR_REC -> safe (lok k V) (lowerRec arch rec cfuel e).
Proof.
  intros Ht. unfold lowerRec.
  eapply safe_bind_post; [|apply triple_mapM_post, Hrec|intros args Hargs]; [stac|].
  apply safe_bind_get. intros g0 Hg0. cbv zeta.
  apply safe_bind; [apply safe_modify|by apply enterRec_inv|intros _].
  eapply safe_bind_post; [apply safe_of_option; discriminate|apply triple_of_option_Some|intros d Hd].
  apply safe_bind; [apply safe_recMatch, (Hbody Ht d Hd)|solve [gtac]|intros _].
  apply safe_bind; [apply safe_modify|by apply leaveRec_inv|intros _]. apply safe_ret.
Qed.

(** Every handler of the [switch] terminates. *)
Lemma safe_lowerExpr : safe (lok k V) (lowerExpr arch rec cfuel e).
Proof.
  pose proof safe_lowerRec as HR. unfold lowerExpr. destruct (ire_type e);
    try (apply HR; reflexivity);
    try apply safe_lowerAssign; try apply safe_lowerExtend;
    unfold lowerUndef, lowerIf, lowerJmp, lowerCJmp, lowerOp, lowerCall, lowerReturn,
      lowerSyscall, lowerTrap, lowerSplit, lowerAppend, lowerCast, lowerStore, lowerLoad, lowerPush,
      lowerPop, lowerValue, lowerRep, lowerSize, lowerSequence, lowerFlag; stac.
Qed.

End Node.
End Handlers.

(** ** The engine *)

(** The nested expressions of a ranked node lie below the fuel left. *)
Lemma ranked_node arch rank id e f :
  lower_ranked arch rank -> getIrExpr arch id = Some e -> rank id < f ->
  (forall s, In s (ire_subExpressions e) -> arg_rank rank s < f) /\
  (ire_type e = IR_EXPR_REC -> forall d, getInstrDef arch (ire_instrId e) = Some d ->
     Forall (fun r => arg_rank rank (irr_condExpr r) < f /\ arg_rank rank (irr_rootExpr r) < f)
       (instrdef_irs d)).
Proof.
  intros Hr He Hf. destruct (Hr id e He) as [Hs Hb]. split.
  - intros s Hin. pose proof (proj1 (List.Forall_forall _ _) Hs s Hin) as H. simpl in H. lia.
  - intros Ht d Hd. eapply List.Forall_impl; [|exact (Hb Ht d Hd)]. simpl. lia.
Qed.

Lemma safe_parseExpression arch rank prank k V fuel a :
  lower_ranked arch rank -> parents_ranked arch prank -> arg_rank rank a < fuel ->
  safe (lok k V) (parseExpression arch fuel a).
Proof.
  intros Hr Hp. revert a. induction fuel as [|f IH]; intros a Ha; [lia|]. simpl.
  eapply safe_bind_post; [apply safe_replaceArg|apply (replaceArg_rank _ _ rank)|intros a' Ha'].
  destruct (ir_type a') as [| | | | |id| | | | | | |] eqn:Ht; try solve [stac].
  eapply safe_bind_post; [apply safe_of_option; discriminate|apply triple_of_option_Some|intros e He].
  assert (Hid : rank id < f).
  { cbv beta in Ha'. assert (arg_rank rank a' = S (rank id)) by (unfold arg_rank; by rewrite Ht). lia. }
  destruct (ranked_node arch rank id e f Hr He Hid) as [Hs Hb].
  apply (safe_lowerExpr arch rank prank k V (parseExpression arch f) f); auto.
  intros x. apply parseExpression_good. done.
Qed.

#[local] Hint Resolve safe_parseExpression : gen_safe.
#[local] Hint Constructors Forall : gen_inv.

(** An instruction whose candidates lie below the fuel and whose operands
    are lowered. *)
Lemma safe_parseInstruction arch rank prank k V fuel instr :
  lower_ranked arch rank -> parents_ranked arch prank -> instr_fits rank fuel instr ->
  safe (lok k V) (parseInstruction arch fuel instr).
Proof.
  intros Hr Hp [Hops Hirs]. unfold parseInstruction.
  apply safe_bind; [apply safe_widenBlockStart|solve [gtac]|intros ?].
  apply safe_bind_get. intros g Hg.
  destruct (matchIr arch (g_instruction g) fuel instr) as [m|err] eqn:Hm.
  2: { apply safe_bind_fail. intros ->. eapply matchIrs_fueled; [by apply lower_ranked_ranked| |exact Hm].
       eapply List.Forall_impl; [|exact Hirs]. simpl. tauto. }
  apply safe_bind_ret. destruct m as [r|]; [|stac]. apply matchIrs_In in Hm.
  apply safe_bind; [apply safe_modify|apply setupForInstr_inv; constructor|intros _].
  apply safe_bind; [apply safe_modify|by apply bindOperands_inv|intros _].
  apply safe_bind; [apply safe_insertLabel|solve [gtac]|intros _].
  apply safe_bind; [|solve [gtac]|intros _]; [|stac].
  apply (safe_parseExpression arch rank prank); [done|done|].
  exact (proj2 (proj1 (List.Forall_forall _ _) Hirs _ Hm)).
Qed.

Lemma safe_lowerFunction arch rank prank k V fuel addr instrs :
  lower_ranked arch rank -> parents_ranked arch prank -> Forall (instr_fits rank fuel) instrs ->
  safe (lok k V) (lowerFunction arch fuel addr instrs).
Proof.
  intros Hr Hp Hi. unfold lowerFunction.
  apply safe_bind; [unfold setup; stac|solve [gtac]|intros _]. apply safe_forM_; intros x Hx.
  - eapply safe_parseInstruction; eauto. exact (proj1 (List.Forall_forall _ _) Hi _ Hx).
  - apply parseInstruction_inv; [done|]. exact (proj1 (proj1 (List.Forall_forall _ _) Hi _ Hx)).
Qed.

(** ** Properties *)

(** C2: Lowering a function terminates.  On a template table without
    cycles (every nested node, and every body a recursive instantiation
    lowers, has a smaller rank), with acyclic register parents, from a
    well-formed session whose bound operands are lowered, [lowerFunction]
    with fuel above the ranks of every instruction's candidates and with
    lowered operands never ends for lack of fuel: the recursion of
    [parseExpression], the placeholder walk of [replaceArg], the parent
    walk of [addUpdateRegExpressions] and the guard evaluations all
    terminate, so every result is a lowered function or an error the
    sources raise. *)
Theorem lowerFunction_total arch rank prank fuel addr instrs g :
  lower_ranked arch rank -> parents_ranked arch prank -> Forall (instr_fits rank fuel) instrs ->
  gen_wf g -> Forall lowered (g_arguments g) ->
  lowerFunction arch fuel addr instrs g <> Fatal OutOfFuel.
Proof.
  intros Hr Hp Hi Hg Ha.
  exact (safe_lowerFunction arch rank prank 0 (fun _ => None) fuel addr instrs Hr Hp Hi g (gen_ok_0_args _ g Hg Ha)).
Qed.

Lemma lowerFunction_total_witness :
  lowerFunction fxArch 10 0x20 [cmovI; repI; recI; retI] initGen <> Fatal OutOfFuel.
Proof.
  apply (lowerFunction_total fxArch fxRank (fun id => id)).
  - apply lower_rankedb_spec. vm_compute. reflexivity.
  - apply parents_rankedb_spec. vm_compute. reflexivity.
  - repeat constructor; apply instr_fitsb_spec; vm_compute; reflexivity.
  - apply gen_wfb_spec. vm_compute. reflexivity.
  - vm_compute. constructor.
Defined.
