(* ===== verification/LoweringFuel.v ===== *)
(** * The fuel of the lowering engine is only a bound

    The model's [parseExpression] takes fuel where the C++ recursion has
    none.  This file shows that fuel never changes a result: a run with
    more fuel gives the same result as one with less, wherever the latter
    did not stop with [OutOfFuel] (so every result the model returns is
    the result of the unbounded recursion), for the handlers, for
    [parseExpression], [parseInstruction] and [lowerFunction].  With the
    termination theorem of [LoweringTotal], any two fuels above the
    template ranks give the same result. *)

From S2P Require Import Prelude Arch SSA ConstEval BlockStore Gen GenLogic RegUpdate LowerOps LowerControl Lowering Fixtures LoweringInv LoweringTotal.

(** ** Guards and matching with more fuel *)

Lemma guard_agree arch cur args fuel fuel' s :
  fuel <= fuel' ->
  parseConstExpression arch cur args fuel s = Fatal OutOfFuel \/
  parseConstExpression arch cur args fuel' s = parseConstExpression arch cur args fuel s.
Proof.
  intros Hle. case_eq (parseConstExpression arch cur args fuel s); [intros a E|intros e E].
  - right. rewrite <- E. apply parseConstExpression_mono; [done|by rewrite E].
  - destruct e; try (right; rewrite <- E; apply parseConstExpression_mono; [done|by rewrite E]).
    by left.
Qed.

Lemma matchIrs_mono arch cur fuel fuel' ops irs :
  fuel <= fuel' -> fueled (matchIrs arch cur fuel ops irs) ->
  matchIrs arch cur fuel' ops irs = matchIrs arch cur fuel ops irs.
Proof.
  intros Hle. induction irs as [|r irs IH]; simpl; [done|].
  destruct (_ =? _); [|done].
  destruct (guard_agree arch cur ops fuel fuel' (irr_condExpr r) Hle) as [E|E]; rewrite E; [done|].
  destruct (parseConstExpression _ _ _ fuel _); [|done]. by destruct (guard_true _).
Qed.

Lemma matchIr_agree arch cur fuel fuel' instr :
  fuel <= fuel' ->
  matchIr arch cur fuel instr = Fatal OutOfFuel \/ matchIr arch cur fuel' instr = matchIr arch cur fuel instr.
Proof.
  intros Hle. unfold matchIr.
  destruct (matchIrs arch cur fuel _ _) as [m|[]] eqn:E; try (right; rewrite <- E; apply matchIrs_mono;
    [done|by rewrite E]).
  by left.
Qed.

(** Compare two runs of the same handler, pairing [rec] with [rec'],
    guards with their two fuels and matcher calls with theirs. *)
Ltac astep rec rec' cfuel cfuel' Hrec Hle :=
  match goal with
  | |- agree ?c ?c => apply agree_refl
  | |- agree (let _ := _ in _) _ => cbv zeta
  | |- agree (bind _ _) (bind _ _) => apply agree_bind; [|intros ?]
  | |- agree (mapM _ _) (mapM _ _) => apply agree_mapM; intros ? ?
  | |- agree (forM_ _ _) (forM_ _ _) => apply agree_forM_; intros ? ?
  | |- agree (rec _) (rec' _) => apply Hrec
  | |- agree (match ?x with _ => _ end) (match ?x with _ => _ end) => destruct x
  | |- agree (match ?x with _ => _ end) _ =>
      lazymatch x with
      | parseConstExpression ?a ?c ?l cfuel ?s =>
          let E := fresh "E" in
          destruct (guard_agree a c l cfuel cfuel' s Hle) as [E|E]; rewrite E; [apply agree_fail_fuel|]
      | matchIr ?a ?c cfuel ?i =>
          let E := fresh "E" in
          destruct (matchIr_agree a c cfuel cfuel' i Hle) as [E|E]; rewrite E; [apply agree_fail_fuel|]
      | _ => destruct x
      end
  | |- agree (if ?b then _ else _) _ => destruct b
  end.

(** ** The handlers, for two recursions that agree *)

Section Handlers.
Context (arch : Architecture) (rec rec' : IRArgument -> Gen IRArgument) (cfuel cfuel' : nat).
Hypothesis Hrec : forall a, agree (rec a) (rec' a).
Hypothesis Hle : cfuel <= cfuel'.

Lemma recMatch_agree irs : agree (recMatch arch rec cfuel irs) (recMatch arch rec' cfuel' irs).
Proof. induction irs as [|r irs IH]; simpl; repeat astep rec rec' cfuel cfuel' Hrec Hle; exact IH. Qed.

Lemma lowerExpr_agree e : agree (lowerExpr arch rec cfuel e) (lowerExpr arch rec' cfuel' e).
Proof.
  unfold lowerExpr. destruct (ire_type e);
    unfold lowerUndef, lowerAssign, lowerIf, lowerJmp, lowerCJmp, lowerOp, lowerCall, lowerReturn,
      lowerSyscall, lowerTrap, lowerExtend, lowerSplit, lowerAppend, lowerCast, lowerStore, lowerLoad,
      lowerPush, lowerPop, lowerValue, lowerRec, lowerRep, lowerSize, lowerSequence, lowerFlag,
      recSSA, recAll, stackOf;
    repeat first [astep rec rec' cfuel cfuel' Hrec Hle|apply recMatch_agree|progress unfold recSSA].
Qed.
End Handlers.

(** ** The engine *)

Lemma parseExpression_agree arch f f' a :
  f <= f' -> agree (parseExpression arch f a) (parseExpression arch f' a).
Proof.
  revert f' a. induction f as [|f IH]; intros f' a Hle; [apply agree_fail_fuel|].
  destruct f' as [|f']; [lia|]. simpl. apply agree_bind; [apply agree_refl|intros a'].
  destruct (ir_type a'); try apply agree_refl.
  apply agree_bind; [apply agree_refl|intros e]. apply lowerExpr_agree; [intros x; apply IH|]; lia.
Qed.

Lemma parseInstruction_agree arch fuel fuel' instr :
  fuel <= fuel' -> agree (parseInstruction arch fuel instr) (parseInstruction arch fuel' instr).
Proof.
  intros Hle. pose proof (fun a => parseExpression_agree arch fuel fuel' a Hle) as Hrec.
  unfold parseInstruction. repeat astep (parseExpression arch fuel) (parseExpression arch fuel') fuel fuel' Hrec Hle.
Qed.

Lemma lowerFunction_agree arch fuel fuel' addr instrs :
  fuel <= fuel' -> agree (lowerFunction arch fuel addr instrs) (lowerFunction arch fuel' addr instrs).
Proof.
  intros Hle. unfold lowerFunction. apply agree_bind; [apply agree_refl|intros _].
  apply agree_forM_. intros i _. by apply parseInstruction_agree.
Qed.

(** ** Fuel adequacy *)

(** Fuel only bounds the lowering.  On any catalog (cyclic templates
    included), lowering a function with more fuel gives exactly the
    result of a run with less fuel, whenever that run did not stop for
    lack of fuel: every result the model computes, success or error of
    the sources, is the result of the unbounded recursion. *)
Theorem lowerFunction_fuel_mono arch fuel fuel' addr instrs g :
  fuel <= fuel' -> lowerFunction arch fuel addr instrs g <> Fatal OutOfFuel ->
  lowerFunction arch fuel' addr instrs g = lowerFunction arch fuel addr instrs g.
Proof. intros Hle H. exact (lowerFunction_agree arch fuel fuel' addr instrs Hle g H). Qed.

(** On a ranked template table, any two fuels above the ranks of a
    function's instructions lower it to the same result: the model
    defines one function of the catalog, the instructions and the
    session, independent of the fuel chosen. *)
Theorem lowerFunction_fuel_irrelevant arch rank prank fuel1 fuel2 addr instrs g :
  lower_ranked arch rank -> parents_ranked arch prank ->
  Forall (instr_fits rank fuel1) instrs -> Forall (instr_fits rank fuel2) instrs ->
  gen_wf g -> Forall lowered (g_arguments g) ->
  lowerFunction arch fuel1 addr instrs g = lowerFunction arch fuel2 addr instrs g.
Proof.
  intros Hr Hp H1 H2 Hg Ha.
  assert (Hs : forall f, Forall (instr_fits rank f) instrs ->
                 lowerFunction arch f addr instrs g <> Fatal OutOfFuel).
  { intros f Hf. exact (safe_lowerFunction arch rank prank 0 (fun _ => None) f addr instrs Hr Hp Hf g
                          (gen_ok_0_args _ g Hg Ha)). }
  destruct (Nat.le_ge_cases fuel1 fuel2) as [Hle|Hle].
  - symmetry. exact (lowerFunction_agree arch _ _ addr instrs Hle g (Hs _ H1)).
  - exact (lowerFunction_agree arch _ _ addr instrs Hle g (Hs _ H2)).
Qed.

