(* ===== verification/LoweringScenarios.v ===== *)
(** * The structured-control lowering on concrete instructions

    Runs of [lowerFunction] on the instructions of [Fixtures], observed
    through the block structure (id, fallthrough, predecessors,
    successors) and the node kinds they produce.  They show how
    [IR_EXPR_IF], [IR_EXPR_REP], [IR_EXPR_REC] and [IR_EXPR_CALL] shape
    the graph (src/main/SSAGen.cpp, lines 606-646, 982-1034, 951-981,
    688-723).  The general theorems on [IR_EXPR_IF] are in [ControlBlocks];
    the one on an unmatched [IR_EXPR_REC] is here: when no candidate body
    matches, the handler lowers nothing and is not an error. *)

From S2P Require Import Prelude Arch SSA ConstEval Gen LowerOps LowerControl Lowering Fixtures.

(** The block structure of a finished run. *)
Definition cfg_of (r : Result (unit * SSAGen)) : option (list (nat * nat * list nat * list nat)) :=
  match r with
  | Ok (_, g) => Some (map (fun b => (bb_id b, bb_fallthroughId b,
                                      elements (bb_inBlocks b), elements (bb_outBlocks b)))
                         (bbs (g_rep g)))
  | Fatal _ => None
  end.

(** The node kinds of a finished run, and the recorded call targets. *)
Definition nodes_of (r : Result (unit * SSAGen)) : option (list SSAExprType * list Z) :=
  match r with
  | Ok (_, g) => Some (map se_type (expressions (g_rep g)), g_funcsCalled g)
  | Fatal _ => None
  end.

(** An [if] without [else] ([cmov ax, 7 if esp]) creates the true
    block 2 and the end block 3; the entry block 1 holds the conditional
    jump to block 2 but gets no edge to it, and block 2 falls through to
    block 3 without an edge: block 2 has no predecessor and block 3 only
    has block 1. *)
Example lowerIf_noelse_run :
  cfg_of (lowerFunction fxArch 10 0x20 [cmovI] initGen) =
  Some [(1, 3, [], [3]); (2, 3, [], []); (3, 0, [1], [])].
Proof. vm_compute. reflexivity. Qed.

(** An [if] with [else] creates blocks 2 (true), 3 (false) and 4
    (end), in that order; the entry block falls through to the false
    block but gets no edge to either branch, the true block falls
    through to the end block without an edge, and only the false
    branch's block is linked to the end block. *)
Example lowerIf_else_run :
  cfg_of (lowerFunction fxArch 10 0x20 [cselI] initGen) =
  Some [(1, 3, [], []); (2, 4, [], []); (3, 4, [], [4]); (4, 0, [3], [])].
Proof. vm_compute. reflexivity. Qed.

(** A repeat-loop lowers into the four-block diamond: entry 1 falls
    through to the condition block 2, which branches to the body block 3
    and falls through to the exit block 4; the body falls through back
    to the condition; every one of these links is an edge recorded on
    both sides. *)
Example lowerRep_cfg :
  cfg_of (lowerFunction fxArch 10 0x30 [repI] initGen) =
  Some [(1, 2, [], [2]); (2, 4, [3; 1], [4; 3]); (3, 2, [2], [2]); (4, 0, [2], [])].
Proof. vm_compute. reflexivity. Qed.

(** The candidate loop of [IR_EXPR_REC] when no candidate matches:
    nothing runs and the session is unchanged. *)
Lemma recMatch_none arch rec cfuel irs g :
  Forall (fun r => length (g_arguments g) <> irr_argcount r \/
            exists v, parseConstExpression arch (g_instruction g) (g_arguments g) cfuel (irr_condExpr r) = Ok v /\
                      guard_true v = false) irs ->
  recMatch arch rec cfuel irs g = Ok (tt, g).
Proof.
  induction 1 as [|r irs Hr _ IH]; [done|]. simpl. unfold bind, get.
  destruct (Nat.eqb_spec (length (g_arguments g)) (irr_argcount r)) as [E|E]; [|exact IH].
  destruct Hr as [Hne|(v & -> & Hv)]; [done|]. by rewrite Hv.
Qed.

(** C34: A recursive instantiation whose target has no candidate body
    that matches (for each, the operand count differs from the number of
    evaluated arguments, or the guard evaluates without error to a value
    that is not true) lowers nothing and is not an error: the session is
    the one the argument evaluation left, with its operands and scratch
    table restored, where the spec asks for a fatal error. *)
Theorem lowerRec_nomatch_silent arch fuel cfuel e g args g1 d :
  mapM (parseExpression arch fuel) (ire_subExpressions e) g = Ok (args, g1) ->
  getInstrDef arch (ire_instrId e) = Some d ->
  Forall (fun r => length args <> irr_argcount r \/
            exists v, parseConstExpression arch (g_instruction g1) args cfuel (irr_condExpr r) = Ok v /\
                      guard_true v = false) (instrdef_irs d) ->
  lowerRec arch (parseExpression arch fuel) cfuel e g = Ok (IRcreate, g1).
Proof.
  intros Hargs Hd Hno. unfold lowerRec. rewrite (bind_step _ _ _ _ _ Hargs). cbn.
  rewrite Hd. cbn. rewrite (bind_step _ _ _ _ _ (recMatch_none _ _ _ _ (set_arguments (set_tmpdefs g1 []) args) Hno)).
  by destruct g1.
Qed.

(** The instantiation of definition 9 with one argument: its only body
    wants three. *)
Lemma lowerRec_nomatch_silent_witness :
  exists args g1, mapM (parseExpression fxArch 10) [argp 1] (set_arguments fxReady [ulit 1]) = Ok (args, g1) /\
    lowerRec fxArch (parseExpression fxArch 10) 10 (mkIRExpression IR_EXPR_REC [argp 1] (eOpOther 0) 9 0 eUInt)
      (set_arguments fxReady [ulit 1]) = Ok (IRcreate, g1).
Proof.
  do 2 eexists. split; [vm_compute; reflexivity|].
  eapply (lowerRec_nomatch_silent fxArch 10 10 _ _ _ _ def9).
  - vm_compute. reflexivity.
  - reflexivity.
  - cbn. constructor; [left; vm_compute; lia|constructor].
Defined.

(** The same on a whole function: the run goes on with the next instruction. *)
Example lowerRec_nomatch_run :
  nodes_of (lowerFunction fxArch 10 0x40 [recI; retI] initGen) =
  Some ([eInput; eInput; eLabel; eLabel; eReturn], []).
Proof. vm_compute. reflexivity. Qed.

(** A call to a literal target records the target, emits the call
    node reading every top-level register, then one output node per
    top-level register; the assignment through a partial register emits
    the located copy and one update of its parent. *)
Example lowerCall_scenario :
  nodes_of (lowerFunction fxArch 10 0x10 fxProg initGen) =
  Some ([eInput; eInput; eLabel; eAssign; eUpdatePart; eLabel; eOp; eAssign; eLabel; eCall;
         eOutput; eOutput], [0x1000%Z]).
Proof. vm_compute. reflexivity. Qed.
