(* ===== verification/InstrRange.v ===== *)
(** * Address ranges of lowered instructions

    [SSAGen::parseInstruction] (src/main/SSAGen.cpp, lines 394-417)
    widens the active block's range to the instruction before lowering it
    and extends the range of the block active after lowering to the
    instruction's end, [instruction->addr + instruction->size], computed
    in [uint64_t].  The end of the range is therefore the sum modulo
    [2^64]: for an instruction that ends at the top of the address space
    the sum wraps to a small value and the block's end is not advanced.
    [SSAGen::setup] gives the first block its end address through the
    cached [activeblock] pointer, which is null on an architecture without
    top-level registers. *)

From S2P Require Import Prelude Arch SSA ConstEval BlockStore Gen GenLogic RegUpdate LowerOps LowerControl Lowering Fixtures LoweringInv LoweringScenarios.

(** [extendBlockEnd stop] leaves the active block ending at [stop] or later. *)
Lemma extendBlockEnd_end Q k V stop :
  triple (gen_ok Q k V) (extendBlockEnd stop)
    (fun _ g' => gen_ok Q k V g' /\
       exists bb, getBlock (g_rep g') (g_activeBlockId g') = Some bb /\ (stop <= bb_endaddr bb)%Z).
Proof.
  intros g u g' Hg Hrun. split; [eapply extendBlockEnd_inv; eauto|].
  unfold extendBlockEnd, getActiveBlock, bind, gets, requireBlock in Hrun. simpl in Hrun.
  destruct (getBlock _ _) as [bb|] eqn:Hb; [|done]. destruct (getBB_Some _ _ _ Hb) as [_ Hid].
  destruct (Z.ltb_spec (bb_endaddr bb) stop).
  - apply modifyBBs_run in Hrun as ->. simpl. eexists. split.
    + unfold getBlock. simpl. rewrite Hid. apply getBB_updateBB_same; [done|exact Hb].
    + simpl. lia.
  - unfold ret in Hrun. injection Hrun as _ <-. eauto.
Qed.

(** The whole instruction, from any session satisfying the invariant. *)
Lemma parseInstruction_end Q k V arch fuel instr :
  (forall l, Forall lowered l -> Q l) -> Q (instr_operands instr) ->
  triple (gen_ok Q k V) (parseInstruction arch fuel instr)
    (fun _ g' => gen_ok Q k V g' /\
       exists bb, getBlock (g_rep g') (g_activeBlockId g') = Some bb /\
         (u64 (instr_addr instr + instr_size instr) <= bb_endaddr bb)%Z).
Proof.
  intros HQ Hops. unfold parseInstruction.
  apply triple_bind_inv; [solve [gtac]|intros _]. apply triple_bind_get. intros g Hg.
  apply triple_bind_inv; [solve [gtac]|intros [r|]]; [|gtac].
  apply triple_bind_inv; [apply setupForInstr_inv; by apply HQ|intros _].
  apply triple_bind_inv; [by apply bindOperands_inv|intros _].
  do 2 (apply triple_bind_inv; [solve [gtac]|intros _]).
  apply extendBlockEnd_end.
Qed.

(** The address range of every block of a lowered function. *)
Definition ranges_of (r : Result (unit * SSAGen)) : option (list (nat * Z * Z)) :=
  match r with
  | Ok (_, g) => Some (map (fun b => (bb_id b, bb_startaddr b, bb_endaddr b)) (bbs (g_rep g)))
  | Fatal _ => None
  end.

(** ** Properties *)

(** C19: After lowering an instruction, the active block exists and ends
    at or after [(addr + size) mod 2^64], the instruction's end as the
    sources compute it in [uint64_t]. *)
Theorem parseInstruction_end_bound arch fuel instr g g' :
  gen_wf g -> parseInstruction arch fuel instr g = Ok (tt, g') ->
  exists bb, getBlock (g_rep g') (g_activeBlockId g') = Some bb /\
    (u64 (instr_addr instr + instr_size instr) <= bb_endaddr bb)%Z.
Proof.
  intros Hg H.
  exact (proj2 (parseInstruction_end any_args 0 (fun _ => None) arch fuel instr any_args_lowered I
                  g tt g' (gen_ok_0 _ Hg) H)).
Qed.

Lemma parseInstruction_end_bound_witness :
  exists g', parseInstruction fxArch 10 movI fxReady = Ok (tt, g') /\
    exists bb, getBlock (g_rep g') (g_activeBlockId g') = Some bb /\
    (u64 (instr_addr movI + instr_size movI) <= bb_endaddr bb)%Z.
Proof.
  eexists. split; [vm_compute; reflexivity|].
  eapply (parseInstruction_end_bound fxArch 10 movI fxReady).
  - apply gen_wfb_spec. vm_compute. reflexivity.
  - vm_compute. reflexivity.
Defined.

(** An instruction in the last bytes of the address space wraps:
    [mov ax, 5] at [2^64 - 2] with size 2 ends at [0] in [uint64_t], so
    its block keeps the empty range [[2^64 - 2, 2^64 - 2)] although it
    holds the instruction, where at 0x10 the block is [[0x10, 0x12)]. *)
Example lowerFunction_top_range :
  ranges_of (lowerFunction fxArch 10 (2 ^ 64 - 2) [topI] initGen) =
    Some [(1%nat, 2 ^ 64 - 2, 2 ^ 64 - 2)]%Z /\
  ranges_of (lowerFunction fxArch 10 0x10 [movI] initGen) = Some [(1%nat, 0x10, 0x12)]%Z.
Proof. split; vm_compute; reflexivity. Qed.

(** An architecture without top-level registers. *)
Definition bareArch : Architecture := mkArchitecture 32 8 [] [] [] ∅ [] 0.

(** C32: [SSAGen::setup] writes the function's address as the end of the
    first block through the cached [activeblock], which only
    [addExpression] sets after [activateBlock] cleared it: on an
    architecture without top-level registers no input node is added, the
    pointer is still null, and lowering any function fails. *)
Theorem lowerFunction_no_registers_fatal arch fuel addr instrs g :
  topRegisters arch = [] -> lowerFunction arch fuel addr instrs g = Fatal AssertFailed.
Proof.
  intros H. unfold lowerFunction, setup. rewrite H.
  unfold bind, createNewBlockG, activateBlock, modify, assertM, ret, fail. simpl.
  by destruct (createNewBlock (g_rep g)).
Qed.

Lemma lowerFunction_no_registers_fatal_witness :
  lowerFunction bareArch 10 0x10 [] initGen = Fatal AssertFailed.
Proof. apply lowerFunction_no_registers_fatal. reflexivity. Defined.
