(* ===== verification/Resolver.v ===== *)
(** * The address-to-block resolver

    [SSAAddressToBlockTransformer] (src/main/SSAAddressToBlockTransformer.cpp):
    [parseExpression] rewrites the literal target of a jump, of a
    conditional jump and of each target of a multi-way branch into a
    reference to the block starting at that address, recording the edge
    on both blocks; a jump or conditional jump whose target is not a
    literal gets a read of every top-level register appended.
    [parseBlock] links a block without fallthrough, unless its last node
    is a return, to the first block starting at its end address.  The
    state is the function's SSA store; the per-function driver (its base
    class is not in the sources) visits the blocks in order, the nodes of
    each block in order, then the block itself. *)

From S2P Require Import Prelude Arch SSA BlockStore Gen GenLogic LowerOps Lowering Fixtures LoweringInv.

Section Resolver.
Context (arch : Architecture).

Definition RM := M SSARepresentation.

(** [for (SSABB& bb : bbs) if (bb.startaddr == addr) { ...; break; }] *)
Definition blockAt (bs : list SSABB) (addr : Z) : option SSABB :=
  List.find (fun b => Z.eqb (bb_startaddr b) addr) bs.

(** Write back the operands of node [id]. *)
Definition setSubs (id : nat) (subs : list SSAArgument) : RM unit :=
  modify (fun rep => setExprs rep
    (map (fun e => if Nat.eqb (se_id e) id then set_subs e subs else e) (expressions rep))).

(** A literal target operand of a branch in block [src]: the block
    starting there, with the edge [src -> block]; unchanged when no block
    starts there or the operand is not a literal. *)
Definition resolveTarget (src : nat) (a : SSAArgument) : RM SSAArgument :=
  match sa_type a with
  | eArgUInt v =>
      rep <- get ;;
      match blockAt (bbs rep) v with
      | Some bb => put (setBBs rep (addEdge src (bb_id bb) (bbs rep))) ;;; ret (SAcreateBlock (bb_id bb))
      | None => ret a
      end
  | _ => ret a
  end.

(** The target operand [i] of a jump ([i = 0]) or conditional jump
    ([i = 1]): resolved when it is a literal, otherwise every top-level
    register is appended as a read. *)
Definition resolveBranch (src id : nat) (e : SSAExpression) (i : nat) : RM unit :=
  a <- of_option AssertFailed (nth_error (se_subExpressions e) i) ;;
  match sa_type a with
  | eArgUInt _ => a' <- resolveTarget src a ;; setSubs id (<[i := a']> (se_subExpressions e))
  | _ => setSubs id (se_subExpressions e ++ topRegArgs arch)
  end.

(** [SSAAddressToBlockTransformer::parseExpression] on node [id] of block [src]. *)
Definition resolveExpr (src id : nat) : RM unit :=
  rep <- get ;;
  e <- of_option AssertFailed (getExpr rep id) ;;
  match se_type e with
  | eJmp => resolveBranch src id e 0
  | eCJmp => resolveBranch src id e 1
  | eMultiBranch =>
      match se_subExpressions e with
      | [] => fail AssertFailed
      | a0 :: rest => rest' <- mapM (resolveTarget src) rest ;; setSubs id (a0 :: rest')
      end
  | _ => ret tt
  end.

(** Whether the block's last node is a return. *)
Definition endsInReturn (rep : SSARepresentation) (b : SSABB) : Result bool :=
  match last (bb_exprIds b) with
  | None => Ok false
  | Some x => match getExpr rep x with
              | Some e => Ok (bool_decide (se_type e = eReturn))
              | None => Fatal AssertFailed
              end
  end.

(** [SSAAddressToBlockTransformer::parseBlock] on block [bid]. *)
Definition resolveBlock (bid : nat) : RM unit :=
  rep <- get ;;
  b <- of_option AssertFailed (getBB (bbs rep) bid) ;;
  match endsInReturn rep b with
  | Fatal err => fail err
  | Ok true => ret tt
  | Ok false =>
      if Nat.eqb (bb_fallthroughId b) 0 then
        match blockAt (bbs rep) (bb_endaddr b) with
        | Some bb => put (setBBs rep (addEdge bid (bb_id bb) (setFallthrough bid (bb_id bb) (bbs rep))))
        | None => ret tt
        end
      else ret tt
  end.

(** The driver: every block in order, its nodes in order, then the block. *)
Definition resolveBlockExprs (bid : nat) : RM unit :=
  rep <- get ;;
  b <- of_option AssertFailed (getBB (bbs rep) bid) ;;
  forM_ (bb_exprIds b) (resolveExpr bid).

Definition resolveFunction : RM unit :=
  rep <- get ;;
  forM_ (map bb_id (bbs rep)) (fun bid => resolveBlockExprs bid ;;; resolveBlock bid).

End Resolver.

(** ** Invariant: the block store stays well formed, with the same ids *)

Definition res_ok (L : list nat) (rep : SSARepresentation) : Prop :=
  wf_blocks (bb_gen rep) (bbs rep) /\ map bb_id (bbs rep) = L.

(** Total number of operands over the node store. *)
Definition operandCount (rep : SSARepresentation) : nat :=
  sum_list_with (fun e => length (se_subExpressions e)) (expressions rep).

(** [n] runs of the resolver. *)
Fixpoint resolveTimes (arch : Architecture) (n : nat) (rep : SSARepresentation) : Result SSARepresentation :=
  match n with
  | O => Ok rep
  | S n' => match resolveFunction arch rep with
            | Ok (_, rep') => resolveTimes arch n' rep'
            | Fatal e => Fatal e
            end
  end.

(** The operand list of node [id] after [n] runs. *)
Definition operandsAfter (arch : Architecture) (n : nat) (rep : SSARepresentation) (id : nat)
    : option (list SSAArgType) :=
  match resolveTimes arch n rep with
  | Ok r => option_map (fun e => map sa_type (se_subExpressions e)) (getExpr r id)
  | Fatal _ => None
  end.

(** The block structure after a run. *)
Definition resolved_cfg (arch : Architecture) (rep : SSARepresentation)
    : option (list (nat * nat * list nat * list nat)) :=
  match resolveFunction arch rep with
  | Ok (_, r) => Some (map (fun b => (bb_id b, bb_fallthroughId b,
                                      elements (bb_inBlocks b), elements (bb_outBlocks b))) (bbs r))
  | Fatal _ => None
  end.

Lemma blockAt_In bs a b : blockAt bs a = Some b -> In b bs /\ bb_startaddr b = a.
Proof. unfold blockAt. intros H. apply find_some in H as [H1 H2]. split; [done|]. by apply Z.eqb_eq. Qed.

Lemma blockAt_id bs a b : blockAt bs a = Some b -> In (bb_id b) (map bb_id bs).
Proof. intros H. apply in_map. by apply (blockAt_In _ a). Qed.

Lemma res_ok_addEdge L rep a t :
  In a L -> In t (map bb_id (bbs rep)) -> res_ok L rep -> res_ok L (setBBs rep (addEdge a t (bbs rep))).
Proof.
  intros Ha Ht [Hw Hids]. split; simpl; [|by rewrite map_bb_id_addEdge].
  apply wf_addEdge; [by rewrite Hids|done|done].
Qed.

Lemma res_ok_link L rep a t :
  In a L -> In t (map bb_id (bbs rep)) -> res_ok L rep ->
  res_ok L (setBBs rep (addEdge a t (setFallthrough a t (bbs rep)))).
Proof.
  intros Ha Ht [Hw Hids]. split; simpl; [|by rewrite map_bb_id_addEdge, map_bb_id_setFallthrough].
  apply wf_addEdge; rewrite ?map_bb_id_setFallthrough, ?Hids; [done|by rewrite <- Hids|].
  by apply wf_setFallthrough.
Qed.

Lemma setSubs_inv L id subs : inv (res_ok L) (setSubs id subs).
Proof. apply inv_modify. done. Qed.

#[local] Hint Resolve setSubs_inv : gen_inv.

Lemma resolveTarget_inv L src a : In src L -> inv (res_ok L) (resolveTarget src a).
Proof.
  intros Hs. unfold resolveTarget. htac. eapply res_ok_addEdge; eauto using blockAt_id.
Qed.

#[local] Hint Resolve resolveTarget_inv : gen_inv.

Lemma resolveExpr_inv arch L src id : In src L -> inv (res_ok L) (resolveExpr arch src id).
Proof. intros Hs. unfold resolveExpr, resolveBranch. htac. Qed.

#[local] Hint Resolve resolveExpr_inv : gen_inv.

(** A block found by id is one of the listed ids. *)
Lemma getBB_res_ok L rep bid b : res_ok L rep -> getBB (bbs rep) bid = Some b -> In bid L.
Proof. intros [_ <-] H. apply getBB_Some in H as [Hin <-]. by apply in_map. Qed.

Lemma resolveBlockExprs_inv arch L bid : inv (res_ok L) (resolveBlockExprs arch bid).
Proof.
  unfold resolveBlockExprs. apply triple_bind_get. intros rep Hg.
  destruct (getBB (bbs rep) bid) eqn:E; cbn [of_option]; [|htac].
  pose proof (getBB_res_ok L rep bid _ Hg E). htac.
Qed.

Lemma resolveBlock_inv L bid : inv (res_ok L) (resolveBlock bid).
Proof.
  unfold resolveBlock. apply triple_bind_get. intros rep Hg.
  destruct (getBB (bbs rep) bid) eqn:E; cbn [of_option]; [|htac].
  pose proof (getBB_res_ok L rep bid _ Hg E). htac.
  eapply res_ok_link; eauto using blockAt_id.
Qed.

Lemma resolveFunction_res_ok arch rep u rep' :
  wf_blocks (bb_gen rep) (bbs rep) -> resolveFunction arch rep = Ok (u, rep') ->
  res_ok (map bb_id (bbs rep)) rep'.
Proof.
  intros Hw H. unfold resolveFunction in H. apply bind_Ok in H as (r0 & rep1 & Hget & Hrun).
  unfold get in Hget. injection Hget as <- <-.
  refine (inv_forM_ (res_ok (map bb_id (bbs rep))) _ _ _ rep u rep' (conj Hw eq_refl) Hrun).
  intros bid. apply triple_bind_inv; [apply resolveBlockExprs_inv|intros _; apply resolveBlock_inv].
Qed.

(** ** Properties *)

(** C25: The resolver keeps the block store well formed: edges stay
    symmetric, endpoints and ids within the generator and distinct, and
    no block is added or removed. *)
Theorem resolveFunction_wf arch rep u rep' :
  wf_blocks (bb_gen rep) (bbs rep) -> resolveFunction arch rep = Ok (u, rep') ->
  wf_blocks (bb_gen rep') (bbs rep') /\ map bb_id (bbs rep') = map bb_id (bbs rep).
Proof. intros Hw H. exact (resolveFunction_res_ok arch rep u rep' Hw H). Qed.

Lemma resolveFunction_wf_witness :
  exists rep', resolveFunction fxArch fxJmpRep = Ok (tt, rep') /\
    wf_blocks (bb_gen rep') (bbs rep') /\ map bb_id (bbs rep') = map bb_id (bbs fxJmpRep).
Proof.
  eexists. split; [vm_compute; reflexivity|].
  apply (resolveFunction_wf fxArch fxJmpRep tt).
  - apply wf_blocksb_spec. vm_compute. reflexivity.
  - vm_compute. reflexivity.
Defined.

(** Lowering a function and then resolving its branch targets
    gives a block store whose edges are symmetric, whose edge endpoints
    and ids lie in 1..bb_gen and whose ids are distinct. *)
Theorem lower_then_resolve_wf arch fuel addr instrs u g v rep' :
  lowerFunction arch fuel addr instrs initGen = Ok (u, g) ->
  resolveFunction arch (g_rep g) = Ok (v, rep') ->
  edges_symmetric (bbs rep') /\ edges_bounded rep' /\ bb_ids_ok rep'.
Proof.
  intros Hl Hr.
  destruct (lowerFunction_inv any_args 0 (fun _ => None) arch fuel addr instrs any_args_lowered (any_args_ops _)
                initGen u g (gen_ok_0 _ initGen_wf) Hl)
    as [[Hw _] _].
  destruct (resolveFunction_res_ok arch (g_rep g) v rep' Hw Hr) as [Hw' _].
  by apply wf_blocks_spec.
Qed.

Lemma lower_then_resolve_wf_witness :
  exists g rep', lowerFunction fxArch 10 0x20 [cmovI; repI] initGen = Ok (tt, g) /\
    resolveFunction fxArch (g_rep g) = Ok (tt, rep') /\
    edges_symmetric (bbs rep') /\ edges_bounded rep' /\ bb_ids_ok rep'.
Proof.
  do 2 eexists. split; [vm_compute; reflexivity|]. split; [vm_compute; reflexivity|].
  eapply (lower_then_resolve_wf fxArch 10 0x20 [cmovI; repI] tt); vm_compute; reflexivity.
Defined.

(** C29: A jump or conditional jump whose target operand is not a
    literal (a register, or a block reference the resolver or the [if]
    lowering already put there) gets every top-level register appended
    as an extra operand, and no edge is recorded. *)
Theorem resolveExpr_nonliteral arch src id rep e i a :
  getExpr rep id = Some e ->
  (se_type e = eJmp /\ i = 0 \/ se_type e = eCJmp /\ i = 1) ->
  nth_error (se_subExpressions e) i = Some a -> (forall v, sa_type a <> eArgUInt v) ->
  resolveExpr arch src id rep =
  Ok (tt, setExprs rep (map (fun x => if Nat.eqb (se_id x) id
                                      then set_subs x (se_subExpressions e ++ topRegArgs arch) else x)
                          (expressions rep))).
Proof.
  intros He Hty Ha Hnot. unfold resolveExpr, resolveBranch, bind, get, of_option, ret. rewrite He.
  destruct Hty as [[-> ->]|[-> ->]]; rewrite Ha;
    destruct (sa_type a) eqn:Ea; try reflexivity; exfalso; by apply (Hnot uval).
Qed.

Lemma resolveExpr_nonliteral_witness :
  resolveExpr fxArch 1 4 (g_rep fxAfterCmov) =
  Ok (tt, setExprs (g_rep fxAfterCmov)
            (map (fun x => if Nat.eqb (se_id x) 4
                           then set_subs x ([SAcreateReg esp; SAcreateBlock 2] ++ topRegArgs fxArch) else x)
               (expressions (g_rep fxAfterCmov)))).
Proof.
  apply (resolveExpr_nonliteral fxArch 1 4 (g_rep fxAfterCmov)
           (mkSSAExpression 4 eCJmp (eOpOther 0) 0 ePc 32 eLocNone noRef
              [SAcreateReg esp; SAcreateBlock 2] 0x20) 1 (SAcreateBlock 2)).
  - vm_compute. reflexivity.
  - right. split; reflexivity.
  - vm_compute. reflexivity.
  - intros v. discriminate.
Defined.

(** The resolver is not idempotent: on the function lowered from
    [cmov ax, 7 if esp], the conditional jump of the [if] (whose target is
    the true block) gains the two top-level register reads on every run. *)
Example resolve_not_idempotent_run :
  map (fun n => option_map (@length _) (operandsAfter fxArch n (g_rep fxAfterCmov) 4)) [0; 1; 2; 3] =
  [Some 2; Some 4; Some 6; Some 8].
Proof. vm_compute. reflexivity. Qed.

(** C16: A block whose last node is not a return (in particular one
    that ends in an unconditional jump or a trap) and that has no
    fallthrough is linked, by fallthrough and by an edge recorded on both
    blocks, to the first block starting at its end address, although the
    spec ends a jump or trap block without fallthrough. *)
Theorem resolveBlock_links_after_jump rep bid b x e c :
  getBB (bbs rep) bid = Some b -> last (bb_exprIds b) = Some x -> getExpr rep x = Some e ->
  se_type e <> eReturn -> bb_fallthroughId b = 0 -> blockAt (bbs rep) (bb_endaddr b) = Some c ->
  resolveBlock bid rep = Ok (tt, setBBs rep (addEdge bid (bb_id c) (setFallthrough bid (bb_id c) (bbs rep)))).
Proof.
  intros Hb Hx He Ht Hf Hc. unfold resolveBlock, endsInReturn, bind, get, of_option, ret.
  rewrite Hb, Hx, He, bool_decide_false by done. by rewrite Hf, Hc.
Qed.

(** Block 1 of [fxJmpRep] ends in [jmp 0x18] and is linked to block 2,
    which starts at its end address 0x14. *)
Lemma resolveBlock_links_after_jump_witness :
  exists c, resolveBlock 1 fxJmpRep =
    Ok (tt, setBBs fxJmpRep (addEdge 1 (bb_id c) (setFallthrough 1 (bb_id c) (bbs fxJmpRep)))) /\
    blockAt (bbs fxJmpRep) 0x14 = Some c.
Proof.
  eexists. split; [|vm_compute; reflexivity].
  eapply (resolveBlock_links_after_jump fxJmpRep 1 _ 2).
  - vm_compute. reflexivity.
  - vm_compute. reflexivity.
  - vm_compute. reflexivity.
  - vm_compute. discriminate.
  - vm_compute. reflexivity.
  - vm_compute. reflexivity.
Defined.

(** The same on the whole store: block 1 of [fxJmpRep] jumps to 0x18
    (block 3) and also gets block 2 as fallthrough and successor; the
    conditional jump of block 2 resolves to block 1, and block 3, which
    returns, is left alone. *)
Example resolve_fallthrough_after_jmp :
  resolved_cfg fxArch fxJmpRep =
  Some [(1, 2, [2], [2; 3]); (2, 3, [1], [3; 1]); (3, 0, [2; 1], [])].
Proof. vm_compute. reflexivity. Qed.
