(* ===== verification/ResolverSpec.v ===== *)
(** * The resolver's edge specification

    Section 4.7 of the spec describes the resolver by the edges it adds:
    for each branch whose target operand is a literal address, an edge
    from the branch's block to the block starting there (when one does);
    for each block without an explicit fallthrough, an edge to the block
    starting at its end address (the code also skips a block whose last
    node is a return, and the description here keeps that guard).  This
    file states that description as an abstract function of the store
    before the pass, [resolved_edges], over the out-edge relation
    [edge_set] of the block store, with the views of a block the pass
    reads ([pos_view], [blk_view]) and their lemmas.  [ResolverSim]
    proves that [resolveFunction] implements it. *)

From S2P Require Import Prelude Arch SSA BlockStore Gen GenLogic LowerOps Lowering Fixtures LoweringInv Resolver.

(** ** The abstraction: the out-edge relation *)

Definition out_view (b : SSABB) : nat * gset nat := (bb_id b, bb_outBlocks b).

Definition edges_of (v : list (nat * gset nat)) : gset (nat * nat) :=
  ⋃ (map (fun p => set_map (pair p.1) p.2) v).

Definition edge_set (bs : list SSABB) : gset (nat * nat) := edges_of (map out_view bs).

(** The block fields the resolver reads but never writes. *)
Definition pos_view (b : SSABB) := (bb_id b, bb_startaddr b, bb_endaddr b, bb_exprIds b).

(** ** The specification: the edges the spec asks for *)

(** The branch-target operands of a node of type [t] with operands
    [subs]: the first of a jump, the second of a conditional jump, all but
    the first of a multi-way branch. *)
Definition targets (t : SSAExprType) (subs : list SSAArgument) : list SSAArgument :=
  match t with
  | eJmp => option_list (nth_error subs 0)
  | eCJmp => option_list (nth_error subs 1)
  | eMultiBranch => tail subs
  | _ => []
  end.

Section Spec.
Context (rep0 : SSARepresentation).

(** The block a literal target names. *)
Definition literal_target (a : SSAArgument) : option nat :=
  match sa_type a with
  | eArgUInt v => bb_id <$> blockAt (bbs rep0) v
  | _ => None
  end.

(** The node rewrite the pass performs, node by node: a literal target
    becomes a reference to the block starting there (when one does); a
    jump or conditional jump whose target is not a literal gets a read of
    every top-level register appended. *)
Definition resolve_arg (a : SSAArgument) : SSAArgument :=
  match sa_type a with
  | eArgUInt v => from_option (fun bb => SAcreateBlock (bb_id bb)) a (blockAt (bbs rep0) v)
  | _ => a
  end.

Definition resolve_branch (arch : Architecture) (i : nat) (subs : list SSAArgument) : list SSAArgument :=
  match nth_error subs i with
  | Some a => match sa_type a with eArgUInt _ => <[i := resolve_arg a]> subs | _ => subs ++ topRegArgs arch end
  | None => subs
  end.

Definition resolve_node (arch : Architecture) (e : SSAExpression) : SSAExpression :=
  match se_type e with
  | eJmp => set_subs e (resolve_branch arch 0 (se_subExpressions e))
  | eCJmp => set_subs e (resolve_branch arch 1 (se_subExpressions e))
  | eMultiBranch =>
      match se_subExpressions e with a0 :: rest => set_subs e (a0 :: map resolve_arg rest) | [] => e end
  | _ => e
  end.

Definition tgt_set (src : nat) (a : SSAArgument) : gset (nat * nat) :=
  match literal_target a with Some t => {[(src, t)]} | None => ∅ end.

(** The edges of branch node [id] in block [src]. *)
Definition node_edges (src id : nat) : gset (nat * nat) :=
  match getExpr rep0 id with
  | Some e => ⋃ (map (tgt_set src) (targets (se_type e) (se_subExpressions e)))
  | None => ∅
  end.

Definition exprs_of (bid : nat) : list nat := from_option bb_exprIds [] (getBB (bbs rep0) bid).

(** The fallthrough edge of block [bid]. *)
Definition ft_edges (bid : nat) : gset (nat * nat) :=
  match getBB (bbs rep0) bid with
  | Some b =>
      match endsInReturn rep0 b with
      | Ok false =>
          if Nat.eqb (bb_fallthroughId b) 0 then
            match blockAt (bbs rep0) (bb_endaddr b) with
            | Some c => {[(bid, bb_id c)]}
            | None => ∅
            end
          else ∅
      | _ => ∅
      end
  | None => ∅
  end.

Definition block_edges (bid : nat) : gset (nat * nat) :=
  ⋃ (map (node_edges bid) (exprs_of bid)) ∪ ft_edges bid.

(** The out-edge relation the spec describes after the pass. *)
Definition resolved_edges : gset (nat * nat) :=
  edge_set (bbs rep0) ∪ ⋃ (map block_edges (map bb_id (bbs rep0))).
End Spec.

(** ** Lemmas on the views *)

Lemma edges_of_app v w : edges_of (v ++ w) = edges_of v ∪ edges_of w.
Proof. unfold edges_of. rewrite map_app, union_list_app_L. done. Qed.

Lemma add_out_edges a t v :
  In a (map fst v) ->
  edges_of (map (fun p => (p.1, if Nat.eqb p.1 a then {[t]} ∪ p.2 else p.2)) v) = {[(a, t)]} ∪ edges_of v.
Proof.
  induction v as [|[i o] v IH]; simpl; [done|]. intros Hin. unfold edges_of in *. simpl.
  destruct (Nat.eqb_spec i a) as [->|E].
  - rewrite set_map_union_L, set_map_singleton_L.
    destruct (in_dec Nat.eq_dec a (map fst v)) as [Ha|Ha]; [rewrite IH by done; set_solver|].
    assert (Hv : map (fun p => (p.1, if Nat.eqb p.1 a then {[t]} ∪ p.2 else p.2)) v = v).
    { clear IH Hin. induction v as [|[j q] v IHv]; simpl in *; [done|].
      destruct (Nat.eqb_spec j a); [tauto|]. f_equal. apply IHv. tauto. }
    rewrite Hv. set_solver.
  - destruct Hin as [->|Hin]; [done|]. rewrite IH by done. set_solver.
Qed.

Lemma out_view_addEdge a t bs :
  map out_view (addEdge a t bs) =
  map (fun p => (p.1, if Nat.eqb p.1 a then {[t]} ∪ p.2 else p.2)) (map out_view bs).
Proof.
  unfold addEdge, updateBB. rewrite !map_map. apply map_ext. intros b.
  unfold out_view. cbn. destruct (bb_id b =? a); cbn; destruct (bb_id b =? t); done.
Qed.

(** Adding an edge from an existing block adds exactly that pair. *)
Lemma edge_set_addEdge a t bs :
  In a (map bb_id bs) -> edge_set (addEdge a t bs) = {[(a, t)]} ∪ edge_set bs.
Proof.
  intros Ha. unfold edge_set. rewrite out_view_addEdge. apply add_out_edges.
  by rewrite map_map.
Qed.

Lemma edge_set_setFallthrough a t bs : edge_set (setFallthrough a t bs) = edge_set bs.
Proof.
  unfold edge_set, setFallthrough, updateBB. rewrite map_map. f_equal. apply map_ext.
  intros b. unfold out_view, set_fallthrough. by destruct (bb_id b =? a).
Qed.

Lemma pos_view_addEdge a t bs : map pos_view (addEdge a t bs) = map pos_view bs.
Proof.
  unfold addEdge, updateBB. rewrite !map_map. apply map_ext. intros b.
  unfold pos_view. cbn. destruct (bb_id b =? a); cbn; destruct (bb_id b =? t); done.
Qed.

Lemma pos_view_setFallthrough a t bs : map pos_view (setFallthrough a t bs) = map pos_view bs.
Proof.
  unfold setFallthrough, updateBB. rewrite map_map. apply map_ext. intros b.
  unfold pos_view, set_fallthrough. by destruct (bb_id b =? a).
Qed.

(** A search by a property of the view finds blocks with the same view. *)
Lemma find_view {B} (v : SSABB -> B) (p : SSABB -> bool) (q : B -> bool) l l' :
  (forall b, p b = q (v b)) -> map v l = map v l' -> v <$> List.find p l = v <$> List.find p l'.
Proof.
  intros Hp. revert l'. induction l as [|b l IH]; intros [|b' l'] Hv; simpl in *; try done.
  injection Hv as Hb Hv. rewrite !Hp, Hb. destruct (q (v b')); simpl; [by rewrite Hb|auto].
Qed.

Lemma blockAt_view bs bs' a :
  map pos_view bs = map pos_view bs' -> pos_view <$> blockAt bs a = pos_view <$> blockAt bs' a.
Proof. apply (find_view pos_view _ (fun v => Z.eqb v.1.1.2 a)). done. Qed.

Lemma getBB_view bs bs' id :
  map pos_view bs = map pos_view bs' -> pos_view <$> getBB bs id = pos_view <$> getBB bs' id.
Proof. apply (find_view pos_view _ (fun v => Nat.eqb v.1.1.1 id)). done. Qed.

(** The block fields the pass reads, with the fallthrough it writes once. *)
Definition blk_view (b : SSABB) := (pos_view b, bb_fallthroughId b).

Lemma blk_view_addEdge a t bs : map blk_view (addEdge a t bs) = map blk_view bs.
Proof.
  unfold addEdge, updateBB. rewrite !map_map. apply map_ext. intros b.
  unfold blk_view, pos_view. cbn. destruct (bb_id b =? a); cbn; destruct (bb_id b =? t); done.
Qed.

Lemma getBB_blk_view bs bs' id :
  map blk_view bs = map blk_view bs' -> blk_view <$> getBB bs id = blk_view <$> getBB bs' id.
Proof. apply (find_view blk_view _ (fun v => Nat.eqb v.1.1.1.1 id)). done. Qed.

Lemma ids_of_pos bs bs' : map pos_view bs = map pos_view bs' -> map bb_id bs = map bb_id bs'.
Proof.
  intros H. apply (f_equal (map (fun v => v.1.1.1))) in H. by rewrite !map_map in H.
Qed.

Lemma blockAt_ids bs bs' a : map pos_view bs = map pos_view bs' -> bb_id <$> blockAt bs a = bb_id <$> blockAt bs' a.
Proof.
  intros H. apply (blockAt_view _ _ a) in H. unfold pos_view in H.
  destruct (blockAt bs a), (blockAt bs' a); simpl in *; congruence.
Qed.

(** Updating the blocks with another id leaves the search for [x] alone. *)
Lemma getBB_updateBB_other id f bs x :
  (forall b, bb_id (f b) = bb_id b) -> id <> x -> getBB (updateBB id f bs) x = getBB bs x.
Proof.
  intros Hf Hx. unfold getBB, updateBB. induction bs as [|b bs IH]; simpl; [done|].
  destruct (Nat.eqb_spec (bb_id b) id) as [E|E]; simpl; rewrite ?Hf, ?IH; [|done].
  destruct (Nat.eqb_spec (bb_id b) x); [congruence|done].
Qed.

Lemma getExpr_setSubs rep id subs x :
  getExpr (setExprs rep (map (fun e => if Nat.eqb (se_id e) id then set_subs e subs else e)
                          (expressions rep))) x =
  if Nat.eqb x id then (fun e => set_subs e subs) <$> getExpr rep x else getExpr rep x.
Proof. unfold getExpr. simpl. apply find_map_upd. done. Qed.

(** Whether a block ends in a return depends on its node list and the
    types of the nodes only. *)
Lemma endsInReturn_view rep rep' b b' :
  (forall id, se_type <$> getExpr rep id = se_type <$> getExpr rep' id) ->
  bb_exprIds b = bb_exprIds b' -> endsInReturn rep b = endsInReturn rep' b'.
Proof.
  intros Ht Hx. unfold endsInReturn. rewrite Hx. destruct (last (bb_exprIds b')) as [x|]; [|done].
  specialize (Ht x). destruct (getExpr rep x), (getExpr rep' x); simpl in Ht; try done.
  injection Ht as ->. done.
Qed.

Lemma NoDup_mid {A} (D R N : list A) x : NoDup ((D ++ x :: R) ++ N) -> x ∉ D ++ N.
Proof. rewrite <- app_assoc, NoDup_app. simpl. rewrite NoDup_cons. set_solver. Qed.

(** Successful runs of the monad, taken apart. *)
Ltac rinv :=
  repeat match goal with
  | H : bind _ _ _ = Ok _ |- _ => monad_inv H
  | H : get _ = Ok _ |- _ => unfold get in H; injection H as <- <-
  | H : put _ _ = Ok _ |- _ => unfold put in H; injection H as <- <-
  | H : modify _ _ = Ok _ |- _ => unfold modify in H; injection H as <- <-
  | H : ret _ _ = Ok _ |- _ => unfold ret in H; injection H as <- <-
  | H : of_option _ _ _ = Ok _ |- _ => monad_inv H
  | H : fail _ _ = Ok _ |- _ => discriminate H
  end.

