(* ===== verification/ResolverSim.v ===== *)
(** * The resolver against its specification

    A simulation of [resolveFunction] (file [Resolver]) by the
    specification of [ResolverSpec], along the driver's loops: the
    invariant [rs N B E rep] relates the store [rep] reached after
    visiting the nodes [N] and the blocks [B] to the store [rep0] the pass
    started from: every visited node is the per-node rewrite
    [resolve_node] of its first state, every other node is unchanged,
    every visited block's fallthrough edge is recorded (and it has a
    fallthrough when one is due), the out-edge relation is [E].  It
    yields the refinement theorems (the out-edges after the pass are
    [resolved_edges rep0], the nodes are [resolve_node] of theirs), the
    normal form a run leaves (no literal target names a block, every
    linkable block is linked, so a second run adds no edge), and the
    operand growth of non-literal jumps over repeated runs. *)

From S2P Require Import Prelude Arch SSA BlockStore Gen GenLogic LowerOps Lowering Fixtures LoweringInv Resolver ResolverSpec.

(** ** Congruences of the specification *)

Lemma literal_target_pos r r' a :
  map pos_view (bbs r) = map pos_view (bbs r') -> literal_target r a = literal_target r' a.
Proof. intros H. unfold literal_target. destruct (sa_type a); try done. by apply blockAt_ids. Qed.

Lemma tgt_set_pos r r' src a :
  map pos_view (bbs r) = map pos_view (bbs r') -> tgt_set r src a = tgt_set r' src a.
Proof. intros H. unfold tgt_set. by rewrite (literal_target_pos r r'). Qed.

(** Targets that name no block add no edge. *)
Lemma tgt_sets_none r src l :
  Forall (fun a => literal_target r a = None) l -> ⋃ (map (tgt_set r src) l) = ∅.
Proof.
  induction 1 as [|a l Ha _ IH]; simpl; [done|]. unfold tgt_set at 1. rewrite Ha, IH. set_solver.
Qed.

Lemma ft_edges_congr r r' bid :
  blk_view <$> getBB (bbs r) bid = blk_view <$> getBB (bbs r') bid ->
  map pos_view (bbs r) = map pos_view (bbs r') ->
  (forall id, se_type <$> getExpr r id = se_type <$> getExpr r' id) ->
  ft_edges r bid = ft_edges r' bid.
Proof.
  intros Hb Hp Ht. unfold ft_edges.
  destruct (getBB (bbs r) bid) as [b|], (getBB (bbs r') bid) as [b'|]; simpl in Hb; try done.
  unfold blk_view, pos_view in Hb.
  rewrite (endsInReturn_view r r' b b' Ht) by congruence.
  destruct (endsInReturn r' b') as [[|]|]; try done.
  replace (bb_fallthroughId b) with (bb_fallthroughId b') by congruence.
  destruct (_ =? 0); [|done]. replace (bb_endaddr b) with (bb_endaddr b') by congruence.
  pose proof (blockAt_ids _ _ (bb_endaddr b') Hp) as Hc.
  destruct (blockAt (bbs r) _), (blockAt (bbs r') _); simpl in Hc; congruence.
Qed.

(** The fallthrough edge of a block names the block starting at its end. *)
Lemma ft_edges_sub r bid b t :
  getBB (bbs r) bid = Some b -> bb_id <$> blockAt (bbs r) (bb_endaddr b) = Some t ->
  ft_edges r bid ⊆ {[(bid, t)]}.
Proof.
  intros Hb Ht. unfold ft_edges. rewrite Hb.
  destruct (endsInReturn r b) as [[|]|]; try set_solver. destruct (_ =? 0); [|set_solver].
  destruct (blockAt _ _); simpl in Ht; [injection Ht as <-|]; set_solver.
Qed.

(** A block with a fallthrough has no fallthrough edge left to record. *)
Lemma ft_edges_fall r bid b :
  getBB (bbs r) bid = Some b -> bb_fallthroughId b <> 0 -> ft_edges r bid = ∅.
Proof.
  intros Hb Hf. unfold ft_edges. rewrite Hb. apply Nat.eqb_neq in Hf. rewrite Hf.
  by destruct (endsInReturn r b) as [[|]|].
Qed.

(** A fallthrough edge ends at a block of the store. *)
Lemma ft_edges_target r bid s t : (s, t) ∈ ft_edges r bid -> t ∈ map bb_id (bbs r).
Proof.
  unfold ft_edges. destruct (getBB _ _) as [b|]; [|set_solver].
  destruct (endsInReturn r b) as [[|]|]; try set_solver. destruct (_ =? 0); [|set_solver].
  destruct (blockAt _ _) as [c|] eqn:Hc; [|set_solver].
  intros H%elem_of_singleton. injection H as -> ->. apply list_elem_of_In. by apply (blockAt_id _ (bb_endaddr b)).
Qed.

Lemma getBB_pos bs bs' bid b :
  map pos_view bs = map pos_view bs' -> getBB bs bid = Some b ->
  exists b', getBB bs' bid = Some b' /\ pos_view b' = pos_view b.
Proof.
  intros Hp Hb. pose proof (getBB_view _ _ bid Hp) as H. rewrite Hb in H.
  destruct (getBB bs' bid) as [b'|]; [|done]. exists b'. split; [done|]. simpl in H. congruence.
Qed.

(** Writing the operands of a node keeps every node's type. *)
Lemma types_setSubs rep id subs x :
  se_type <$> getExpr (setExprs rep (map (fun e => if Nat.eqb (se_id e) id then set_subs e subs else e)
                                       (expressions rep))) x = se_type <$> getExpr rep x.
Proof. rewrite getExpr_setSubs. destruct (x =? id); [|done]. by destruct (getExpr rep x). Qed.

(** A branch whose targets name no block in [rep0]. *)
Definition settled (rep0 : SSARepresentation) (e : SSAExpression) : Prop :=
  Forall (fun a => literal_target rep0 a = None) (targets (se_type e) (se_subExpressions e)).

(** What the node rewrite leaves names no block. *)
Lemma resolve_arg_settled rep0 a : literal_target rep0 (resolve_arg rep0 a) = None.
Proof.
  unfold resolve_arg. destruct (sa_type a) eqn:Ta; try (unfold literal_target; by rewrite Ta).
  destruct (blockAt (bbs rep0) _) eqn:Hb; simpl; [done|]. unfold literal_target. by rewrite Ta, Hb.
Qed.

Lemma resolve_branch_settled rep0 arch i subs :
  Forall (fun a => literal_target rep0 a = None) (option_list (nth_error (resolve_branch rep0 arch i subs) i)).
Proof.
  unfold resolve_branch. destruct (nth_error subs i) as [a|] eqn:Ha; [|by rewrite Ha].
  assert (i < length subs) by (apply nth_error_Some; by rewrite Ha).
  destruct (sa_type a) eqn:Ta;
    try (rewrite nth_error_app1 by done; rewrite Ha; constructor; [unfold literal_target; by rewrite Ta|done]).
  rewrite nth_error_lookup, list_lookup_insert, decide_True by lia. constructor; [apply resolve_arg_settled|done].
Qed.

Lemma resolve_node_settled rep0 arch e : settled rep0 (resolve_node rep0 arch e).
Proof.
  unfold settled, resolve_node. destruct (se_type e) eqn:Te; cbn; rewrite ?Te; try done;
    try apply resolve_branch_settled.
  destruct (se_subExpressions e) as [|a0 rest] eqn:Hs; cbn; rewrite ?Te, ?Hs; [done|].
  apply List.Forall_forall. intros x Hx. apply in_map_iff in Hx as (y & <- & _). apply resolve_arg_settled.
Qed.

Lemma set_subs_id e : set_subs e (se_subExpressions e) = e.
Proof. by destruct e. Qed.

(** A node with no branch target is left as it is. *)
Lemma resolve_node_no_targets rep0 arch e :
  targets (se_type e) (se_subExpressions e) = [] -> resolve_node rep0 arch e = e.
Proof.
  unfold resolve_node, resolve_branch, targets. destruct (se_type e); try done; intros H.
  1,2: destruct (nth_error _ _); [discriminate|apply set_subs_id].
  destruct (se_subExpressions e) as [|a0 [|]] eqn:Hs; [done| |discriminate].
  simpl. rewrite <- Hs. apply set_subs_id.
Qed.

(** ** The simulation invariant

    [rs N B E rep]: the positional fields of the blocks are those of
    [rep0], so is the fallthrough of every block not yet visited, the type
    of every node and the whole of every node not yet visited; every
    visited node is settled and every visited block's fallthrough edge is
    in the store; the out-edge relation is [E]. *)

Section Sim.
Context (arch : Architecture) (rep0 : SSARepresentation).

Record rs (N B : list nat) (E : gset (nat * nat)) (rep : SSARepresentation) : Prop := {
  rs_pos : map pos_view (bbs rep) = map pos_view (bbs rep0);
  rs_blk : forall bid, bid ∉ B -> blk_view <$> getBB (bbs rep) bid = blk_view <$> getBB (bbs rep0) bid;
  rs_type : forall id, se_type <$> getExpr rep id = se_type <$> getExpr rep0 id;
  rs_expr : forall id, id ∉ N -> getExpr rep id = getExpr rep0 id;
  rs_node : forall id, id ∈ N -> getExpr rep id = resolve_node rep0 arch <$> getExpr rep0 id;
  rs_linked : forall bid, bid ∈ B -> ft_edges rep bid ⊆ edge_set (bbs rep) ∩ {[(bid, 0)]};
  rs_edges : edge_set (bbs rep) = E }.

Lemma rs_init : rs [] [] (edge_set (bbs rep0)) rep0.
Proof. split; set_solver. Qed.

(** Every visited node is settled. *)
Lemma rs_settled N B E rep :
  rs N B E rep -> forall id e, id ∈ N -> getExpr rep id = Some e -> settled rep0 e.
Proof.
  intros Hrs id e Hid He. rewrite (rs_node _ _ _ _ Hrs id Hid) in He.
  destruct (getExpr rep0 id); [|done]. injection He as <-. apply resolve_node_settled.
Qed.

(** The visited sets only matter as sets. *)
Lemma rs_equiv N B E rep N' B' E' :
  rs N B E rep -> N ⊆ N' -> N' ⊆ N -> B ⊆ B' -> B' ⊆ B -> E = E' -> rs N' B' E' rep.
Proof.
  intros [Hp Hb Ht He Hs Hl Hd] ? ? ? ? <-. split; [done| |done| | | |done].
  - intros bid ?. apply Hb. set_solver.
  - intros id ?. apply He. set_solver.
  - intros id ?. apply Hs. set_solver.
  - intros bid ?. apply Hl. set_solver.
Qed.

(** A node that is not a branch is visited without a change. *)
Lemma rs_skip_node N B E rep id e :
  rs N B E rep -> id ∉ N -> getExpr rep id = Some e -> targets (se_type e) (se_subExpressions e) = [] ->
  rs (id :: N) B E rep.
Proof.
  intros [Hp Hb Ht He Hs Hl Hd] HidN Hid Hnil. split; try done.
  - intros x Hx. apply He. set_solver.
  - intros x Hx. destruct (decide (x = id)) as [->|Hne].
    + rewrite <- (He id HidN), Hid. simpl. by rewrite resolve_node_no_targets.
    + apply Hs. set_solver.
Qed.

(** A block whose spec gives no fallthrough edge is visited without a change. *)
Lemma rs_skip_block N B E rep bid :
  rs N B E rep -> ft_edges rep bid = ∅ -> rs N (bid :: B) E rep.
Proof.
  intros [Hp Hb Ht He Hs Hl Hd] Hft. split; try done.
  - intros x Hx. apply Hb. set_solver.
  - intros x Hx. destruct (decide (x = bid)) as [->|Hne]; [set_solver|]. apply Hl. set_solver.
Qed.

Lemma rs_addEdge N B E rep a t :
  a ∈ map bb_id (bbs rep0) -> rs N B E rep ->
  rs N B ({[(a, t)]} ∪ E) (setBBs rep (addEdge a t (bbs rep))).
Proof.
  intros Ha [Hp Hb Ht He Hs Hl Hd].
  assert (Hv : forall bid, blk_view <$> getBB (addEdge a t (bbs rep)) bid = blk_view <$> getBB (bbs rep) bid)
    by (intros; apply getBB_blk_view, blk_view_addEdge).
  assert (Hedge : edge_set (addEdge a t (bbs rep)) = {[(a, t)]} ∪ edge_set (bbs rep)).
  { apply edge_set_addEdge. rewrite (ids_of_pos _ _ Hp). by apply list_elem_of_In. }
  split; simpl; [by rewrite pos_view_addEdge| |exact Ht|exact He|exact Hs| |by rewrite Hedge, Hd].
  - intros bid Hbid. rewrite Hv. auto.
  - intros bid Hbid. rewrite Hedge, (ft_edges_congr _ rep); [set_solver|apply Hv|apply pos_view_addEdge|done].
Qed.

(** Linking block [a] (not yet visited) to the block [t] starting at its end. *)
Lemma rs_link N B E rep a b t :
  a ∈ map bb_id (bbs rep0) -> a ∉ B -> getBB (bbs rep) a = Some b ->
  bb_id <$> blockAt (bbs rep) (bb_endaddr b) = Some t -> rs N B E rep ->
  rs N (a :: B) ({[(a, t)]} ∪ E) (setBBs rep (addEdge a t (setFallthrough a t (bbs rep)))).
Proof.
  intros Ha HaB Hb Ht [Hp Hbk Hty He Hs Hl Hd].
  set (bs1 := setFallthrough a t (bbs rep)).
  assert (Hp1 : map pos_view (addEdge a t bs1) = map pos_view (bbs rep))
    by (rewrite pos_view_addEdge; unfold bs1; by rewrite pos_view_setFallthrough).
  assert (Hv : forall bid, bid <> a ->
            blk_view <$> getBB (addEdge a t bs1) bid = blk_view <$> getBB (bbs rep) bid).
  { intros bid Hne. rewrite (getBB_blk_view _ bs1) by apply blk_view_addEdge.
    unfold bs1, setFallthrough. by rewrite getBB_updateBB_other. }
  assert (Hedge : edge_set (addEdge a t bs1) = {[(a, t)]} ∪ edge_set (bbs rep)).
  { rewrite edge_set_addEdge; [unfold bs1; by rewrite edge_set_setFallthrough|].
    unfold bs1, setFallthrough. rewrite map_bb_id_updateBB by done.
    rewrite (ids_of_pos _ _ Hp). by apply list_elem_of_In. }
  split; simpl; [by rewrite Hp1| |exact Hty|exact He|exact Hs| |by rewrite Hedge, Hd].
  - intros bid Hbid. rewrite Hv by set_solver. apply Hbk. set_solver.
  - intros bid Hbid. rewrite Hedge. destruct (decide (bid = a)) as [->|Hne].
    + destruct (getBB_pos _ _ a b (eq_sym Hp1) Hb) as (b' & Hb' & Hpb). unfold pos_view in Hpb.
      assert (Hsub : ft_edges (setBBs rep (addEdge a t bs1)) a ⊆ {[(a, t)]}).
      { apply (ft_edges_sub (setBBs rep (addEdge a t bs1)) a b' t Hb'). simpl. rewrite (blockAt_ids _ (bbs rep)) by done.
        by replace (bb_endaddr b') with (bb_endaddr b) by congruence. }
      destruct (decide (t = 0)) as [->|Ht0]; [set_solver|].
      rewrite (ft_edges_fall (setBBs rep (addEdge a t bs1)) a b' Hb'); [set_solver|].
      pose proof (getBB_blk_view _ bs1 a (blk_view_addEdge a t bs1)) as Hf.
      rewrite Hb' in Hf. unfold bs1, setFallthrough in Hf. rewrite (getBB_updateBB_same _ _ _ b) in Hf by done.
      unfold blk_view, set_fallthrough in Hf. simpl in Hf. injection Hf as _ Hf. congruence.
    + rewrite (ft_edges_congr _ rep); [|by apply Hv|done|done]. pose proof (Hl bid). set_solver.
Qed.

Lemma setSubs_rs N B E id e subs :
  triple (fun r => rs N B E r /\ getExpr r id = Some e /\
                   resolve_node rep0 arch <$> getExpr rep0 id = Some (set_subs e subs))
    (setSubs id subs) (fun _ => rs (id :: N) B E).
Proof.
  intros rep u rep' ([Hp Hb Ht He Hs Hl Hd] & Hid & Hset) Hrun. unfold setSubs in Hrun. rinv.
  split; [done|done| | | | |done].
  - intros x. rewrite types_setSubs. apply Ht.
  - intros x Hx. rewrite getExpr_setSubs. destruct (Nat.eqb_spec x id); [set_solver|]. apply He. set_solver.
  - intros x Hx. rewrite getExpr_setSubs. destruct (Nat.eqb_spec x id) as [->|Hne]; [by rewrite Hid, Hset|].
    apply Hs. set_solver.
  - intros bid Hbid. rewrite (ft_edges_congr _ rep); [by apply Hl|done|done|]. intros x. apply types_setSubs.
Qed.

(** A block not yet visited is found with the fields it had. *)
Lemma rs_getBB N B E rep bid b :
  rs N B E rep -> bid ∉ B -> getBB (bbs rep) bid = Some b ->
  exists b0, getBB (bbs rep0) bid = Some b0 /\ blk_view b = blk_view b0.
Proof.
  intros Hrs Hbid Hb. pose proof (rs_blk _ _ _ _ Hrs bid Hbid) as H. rewrite Hb in H.
  destruct (getBB (bbs rep0) bid) as [b0|]; [|done]. exists b0. split; [done|]. simpl in H. congruence.
Qed.

(** ** The steps of the pass *)

Section Steps.
Context (src : nat) (Hsrc : src ∈ map bb_id (bbs rep0)).

(** A target operand: its edge is added and it is rewritten as the spec says. *)
Lemma resolveTarget_rs N B E a :
  triple (rs N B E) (resolveTarget src a)
    (fun a' r => rs N B (tgt_set rep0 src a ∪ E) r /\ a' = resolve_arg rep0 a).
Proof.
  intros rep a' rep' Hrs Hrun. unfold tgt_set, literal_target, resolve_arg. unfold resolveTarget in Hrun.
  destruct (sa_type a) as [| | | | | |v| | |] eqn:Ta; rinv; rewrite ?union_empty_l_L, ?Ta; try done.
  pose proof (blockAt_ids _ _ v (rs_pos _ _ _ _ Hrs)) as Hv.
  destruct (blockAt (bbs rep) v) as [bb|], (blockAt (bbs rep0) v) as [bb0|] eqn:E0;
    simpl in *; try discriminate; rinv; rewrite ?union_empty_l_L, ?Ta, ?E0; [|done].
  injection Hv as <-. split; [by apply rs_addEdge|done].
Qed.

Lemma resolveTargets_rs N B E l :
  triple (rs N B E) (mapM (resolveTarget src) l)
    (fun l' r => rs N B (⋃ (map (tgt_set rep0 src) l) ∪ E) r /\ l' = map (resolve_arg rep0) l).
Proof.
  revert E. induction l as [|a l IH]; intros E rep r rep' Hrs Hrun; simpl in Hrun; rinv.
  - split; [|done]. eapply rs_equiv; [exact Hrs|done|done|done|done|]. simpl. by rewrite union_empty_l_L.
  - eapply resolveTarget_rs in Hc as [Hc Ha]; [|exact Hrs]. eapply IH in Hc0 as [Hc0 Hl]; [|exact Hc].
    split; [|by subst]. eapply rs_equiv; [exact Hc0|done|done|done|done|]. simpl. set_solver.
Qed.

(** The target operand [i] of a jump or conditional jump. *)
Lemma resolveBranch_rs N B E id e i :
  id ∉ N -> getExpr rep0 id = Some e -> (se_type e = eJmp /\ i = 0 \/ se_type e = eCJmp /\ i = 1) ->
  triple (rs N B E) (resolveBranch arch src id e i)
    (fun _ => rs (id :: N) B (⋃ (map (tgt_set rep0 src) (option_list (nth_error (se_subExpressions e) i))) ∪ E)).
Proof.
  intros Hid He Hty rep u rep' Hrs Hrun. unfold resolveBranch in Hrun. rinv. rewrite Ho. simpl.
  assert (Hn : resolve_node rep0 arch <$> getExpr rep0 id =
               Some (set_subs e (resolve_branch rep0 arch i (se_subExpressions e))))
    by (rewrite He; simpl; unfold resolve_node; by destruct Hty as [[-> ->]|[-> ->]]).
  unfold resolve_branch in Hn. rewrite Ho in Hn.
  destruct (sa_type a) eqn:Ta; rinv.
  all: try (eapply rs_equiv; [eapply setSubs_rs; [split; [exact Hrs|split] |exact Hrun]|done|done|done|done|];
    [by rewrite (rs_expr _ _ _ _ Hrs id Hid)|exact Hn|unfold tgt_set, literal_target; rewrite Ta; set_solver]).
  eapply resolveTarget_rs in Hc as [Hc ->]; [|exact Hrs].
  eapply rs_equiv; [eapply setSubs_rs; [split; [exact Hc|split] |exact Hrun]|done|done|done|done|set_solver].
  - by rewrite (rs_expr _ _ _ _ Hc id Hid).
  - exact Hn.
Qed.

(** One node: its edges are added, it is settled and marked visited. *)
Lemma resolveExpr_rs N B E id :
  id ∉ N -> triple (rs N B E) (resolveExpr arch src id) (fun _ => rs (id :: N) B (node_edges rep0 src id ∪ E)).
Proof.
  intros Hid rep u rep' Hrs Hrun. unfold resolveExpr in Hrun. rinv.
  match type of Ho with _ = Some ?x => rename x into a end.
  match type of Hrs with rs _ _ _ ?r => rename r into rep end.
  pose proof Ho as Ho0. rewrite (rs_expr _ _ _ _ Hrs id Hid) in Ho0.
  unfold node_edges. rewrite Ho0.
  destruct (se_type a) eqn:Te; rinv;
    try (cbn [targets map union_list foldr]; rewrite union_empty_l_L;
         eapply rs_skip_node; [exact Hrs|exact Hid|exact Ho|by rewrite Te]);
    try (eapply resolveBranch_rs; [done|done|rewrite Te; auto|exact Hrs|exact Hrun]).
  destruct (se_subExpressions a) as [|a0 rest] eqn:Hs; [unfold fail in Hrun; discriminate|]. rinv.
  eapply resolveTargets_rs in Hc as [Hc ->]; [|exact Hrs].
  eapply setSubs_rs; [|exact Hrun]. split; [exact Hc|split].
  - by rewrite (rs_expr _ _ _ _ Hc id Hid).
  - rewrite Ho0. simpl. unfold resolve_node. by rewrite Te, Hs.
Qed.

End Steps.

(** The nodes of one block, in order. *)
Lemma resolveBlockExprs_rs N B E bid :
  bid ∈ map bb_id (bbs rep0) -> bid ∉ B -> NoDup (exprs_of rep0 bid ++ N) ->
  triple (rs N B E) (resolveBlockExprs arch bid)
    (fun _ => rs (exprs_of rep0 bid ++ N) B (⋃ (map (node_edges rep0 bid) (exprs_of rep0 bid)) ∪ E)).
Proof.
  intros Hin Hbid Hnd rep u rep' Hrs Hrun. unfold resolveBlockExprs in Hrun. rinv.
  match type of Ho with _ = Some ?x => rename x into a0 end.
  match type of Hrs with rs _ _ _ ?r => rename r into rep end.
  destruct (rs_getBB _ _ _ _ _ _ Hrs Hbid Ho) as (b0 & Hb0 & Hv).
  assert (Hx : exprs_of rep0 bid = bb_exprIds a0).
  { unfold exprs_of. rewrite Hb0. unfold blk_view, pos_view in Hv. simpl. congruence. }
  rewrite Hx in *. rewrite <- (app_nil_l (bb_exprIds a0)) in Hrun.
  set (P := fun D r => rs (D ++ N) B (⋃ (map (node_edges rep0 bid) D) ∪ E) r).
  refine (triple_forM_acc P _ _ [] _ rep u rep' _ Hrun); [|subst P; simpl; by rewrite union_empty_l_L].
  intros D x R HR. simpl in HR. subst P. simpl. intros r v r' Hr Hstep.
  rewrite HR in Hnd. apply NoDup_mid in Hnd.
  eapply rs_equiv; [eapply resolveExpr_rs; [done|set_solver|exact Hr|exact Hstep]|set_solver..|].
  rewrite map_app, union_list_app_L. simpl. set_solver.
Qed.

(** The block itself: its fallthrough edge is added and it is marked visited. *)
Lemma resolveBlock_rs N B E bid :
  bid ∈ map bb_id (bbs rep0) -> bid ∉ B ->
  triple (rs N B E) (resolveBlock bid) (fun _ => rs N (bid :: B) (ft_edges rep0 bid ∪ E)).
Proof.
  intros Hin Hbid rep u rep' Hrs Hrun. unfold resolveBlock in Hrun. rinv.
  match type of Ho with _ = Some ?x => rename x into a0 end.
  match type of Hrs with rs _ _ _ ?r => rename r into rep end.
  destruct (rs_getBB _ _ _ _ _ _ Hrs Hbid Ho) as (b0 & Hb0 & Hv).
  unfold blk_view, pos_view in Hv.
  assert (Hft : ft_edges rep bid = ∅ -> rs N (bid :: B) (ft_edges rep0 bid ∪ E) rep).
  { intros H0. rewrite <- (ft_edges_congr rep); [by rewrite H0, union_empty_l_L; apply rs_skip_block| |apply Hrs..].
    rewrite Ho, Hb0. simpl. unfold blk_view, pos_view. congruence. }
  destruct (endsInReturn rep a0) as [[|]|err] eqn:Er; rinv; [apply Hft; unfold ft_edges; by rewrite Ho, Er|].
  - destruct (bb_fallthroughId a0 =? 0) eqn:Ef; rinv; [|apply Hft; unfold ft_edges; by rewrite Ho, Er, Ef].
    destruct (blockAt (bbs rep) (bb_endaddr a0)) as [c|] eqn:Ec; rinv;
      [|apply Hft; unfold ft_edges; by rewrite Ho, Er, Ef, Ec].
    assert (Hsub : ft_edges rep0 bid ⊆ {[(bid, bb_id c)]}).
    { apply (ft_edges_sub _ bid b0); [done|]. replace (bb_endaddr b0) with (bb_endaddr a0) by congruence.
      rewrite <- (blockAt_ids _ _ _ (rs_pos _ _ _ _ Hrs)), Ec. done. }
    eapply rs_equiv; [eapply (rs_link _ _ _ _ _ a0); [done|done|done|by rewrite Ec|exact Hrs]|set_solver..|].
    assert (Hin0 : (bid, bb_id c) ∈ ft_edges rep0 bid); [|set_solver].
    unfold ft_edges. rewrite Hb0, <- (endsInReturn_view rep rep0 a0 b0), Er by (apply Hrs || congruence).
    replace (bb_fallthroughId b0) with (bb_fallthroughId a0) by congruence. rewrite Ef.
    replace (bb_endaddr b0) with (bb_endaddr a0) by congruence.
    pose proof (blockAt_ids _ _ (bb_endaddr a0) (rs_pos _ _ _ _ Hrs)) as Hc. rewrite Ec in Hc.
    destruct (blockAt (bbs rep0) _); simpl in Hc; [|done]. injection Hc as ->. set_solver.
Qed.

End Sim.

(** With distinct block ids, the spec's node lists are the blocks'. *)
Lemma exprs_of_ids rep0 :
  NoDup (map bb_id (bbs rep0)) -> map (exprs_of rep0) (map bb_id (bbs rep0)) = map bb_exprIds (bbs rep0).
Proof.
  intros Hnd. rewrite map_map. apply map_ext_in. intros b Hb. unfold exprs_of. by rewrite getBB_In.
Qed.

Lemma NoDup_swap_mid {A} (P X C : list A) : NoDup (P ++ X ++ C) -> NoDup (X ++ P).
Proof.
  intros H. apply NoDup_app in H as (HP & HPX & H). apply NoDup_app in H as (HX & _ & _).
  apply NoDup_app. split; [done|split; [|done]]. intros y Hy HyP. apply (HPX y HyP). set_solver.
Qed.

(** ** The driver *)

(** After the blocks [D], their nodes and themselves are visited and
    their edges added; a whole run visits everything. *)
Lemma resolveFunction_rs arch rep0 u rep' :
  NoDup (map bb_id (bbs rep0)) -> NoDup (concat (map bb_exprIds (bbs rep0))) ->
  resolveFunction arch rep0 = Ok (u, rep') ->
  rs arch rep0 (concat (map bb_exprIds (bbs rep0))) (map bb_id (bbs rep0))
     (⋃ (map (block_edges rep0) (map bb_id (bbs rep0))) ∪ edge_set (bbs rep0)) rep'.
Proof.
  intros Hids Hnx Hrun. unfold resolveFunction in Hrun. rinv.
  rewrite <- (exprs_of_ids _ Hids) in Hnx |- *.
  set (ids := map bb_id (bbs rep0)) in *.
  set (P := fun D r => rs arch rep0 (concat (map (exprs_of rep0) D)) D
                         (⋃ (map (block_edges rep0) D) ∪ edge_set (bbs rep0)) r).
  refine (triple_forM_acc P ids _ [] _ rep0 u rep' _ Hrun);
    [|subst P; simpl; rewrite union_empty_l_L; apply rs_init].
  intros D x R HR. simpl in HR. subst P. simpl. intros r v r' Hr Hstep. rinv.
  assert (Hx : x ∈ ids) by (rewrite HR; set_solver).
  assert (HxD : x ∉ D) by (rewrite <- (app_nil_r D); apply (NoDup_mid D R []); by rewrite app_nil_r, <- HR).
  rewrite HR, map_app, concat_app in Hnx. simpl in Hnx. apply NoDup_swap_mid in Hnx.
  eapply resolveBlockExprs_rs in Hc; [|done|done|done|exact Hr].
  eapply resolveBlock_rs in Hstep; [|done|done|exact Hc].
  rewrite map_app, concat_app, map_app, union_list_app_L. simpl. rewrite app_nil_r.
  eapply rs_equiv; [exact Hstep|set_solver..|]. unfold block_edges. set_solver.
Qed.

(** The node lists of a store are determined by the positional view. *)
Lemma exprIds_pos bs bs' :
  map pos_view bs = map pos_view bs' -> map bb_exprIds bs = map bb_exprIds bs'.
Proof. intros H. apply (f_equal (map (fun v => v.2))) in H. by rewrite !map_map in H. Qed.

Lemma exprs_of_in r bid id : id ∈ exprs_of r bid -> id ∈ concat (map bb_exprIds (bbs r)).
Proof.
  unfold exprs_of. destruct (getBB (bbs r) bid) as [b|] eqn:Hb; simpl; [|set_solver].
  apply getBB_Some in Hb as [Hb _]. intros Hid. apply list_elem_of_In, in_concat.
  exists (bb_exprIds b). split; [by apply in_map|by apply list_elem_of_In].
Qed.

Lemma union_map_subseteq {A} (f : A -> gset (nat * nat)) l S :
  (forall x, x ∈ l -> f x ⊆ S) -> ⋃ (map f l) ⊆ S.
Proof. induction l as [|x l IH]; simpl; intros H; [set_solver|]. apply union_least; set_solver. Qed.

(** After a whole run, the spec asks for no edge the store does not have. *)
Lemma resolved_edges_after arch rep0 rep1 E :
  rs arch rep0 (concat (map bb_exprIds (bbs rep0))) (map bb_id (bbs rep0)) E rep1 ->
  resolved_edges rep1 = edge_set (bbs rep1).
Proof.
  intros Hrs. unfold resolved_edges. apply (anti_symm (⊆)); [|set_solver].
  apply union_least; [done|]. apply union_map_subseteq. intros bid Hbid.
  rewrite (ids_of_pos _ _ (rs_pos _ _ _ _ _ _ Hrs)) in Hbid. unfold block_edges.
  apply union_least; [|pose proof (rs_linked _ _ _ _ _ _ Hrs bid Hbid); set_solver].
  apply union_map_subseteq. intros id Hid. unfold node_edges.
  destruct (getExpr rep1 id) as [e|] eqn:He; [|set_solver].
  pose proof (rs_settled _ _ _ _ _ _ Hrs id e) as Hs.
  rewrite <- (exprIds_pos _ _ (rs_pos _ _ _ _ _ _ Hrs)) in Hs.
  specialize (Hs (exprs_of_in _ _ _ Hid) He).
  rewrite (map_ext _ (tgt_set rep0 bid)) by (intros; apply tgt_set_pos, Hrs).
  rewrite tgt_sets_none by done. set_solver.
Qed.

(** ** Properties *)

(** C3: The resolver refines the spec's description of it: when block
    ids are distinct and no node is listed in two block positions, a
    successful run leaves exactly the out-edges of the store before it
    together with, for every block, the edges to the blocks its literal
    branch targets start and, unless it has a fallthrough or ends in a
    return, to the block starting at its end address; the ids, address
    ranges and node lists of the blocks are unchanged. *)
Theorem resolveFunction_refines arch rep0 u rep' :
  NoDup (map bb_id (bbs rep0)) -> NoDup (concat (map bb_exprIds (bbs rep0))) ->
  resolveFunction arch rep0 = Ok (u, rep') ->
  edge_set (bbs rep') = resolved_edges rep0 /\ map pos_view (bbs rep') = map pos_view (bbs rep0).
Proof.
  intros Hids Hnx Hrun. destruct (resolveFunction_rs arch rep0 u rep' Hids Hnx Hrun) as [Hp _ _ _ _ _ Hd].
  split; [|done]. rewrite Hd. unfold resolved_edges. by rewrite union_comm_L.
Qed.

Lemma resolveFunction_refines_witness :
  exists rep', resolveFunction fxArch fxJmpRep = Ok (tt, rep') /\
    edge_set (bbs rep') = resolved_edges fxJmpRep /\ map pos_view (bbs rep') = map pos_view (bbs fxJmpRep).
Proof.
  eexists. split; [vm_compute; reflexivity|].
  apply (resolveFunction_refines fxArch fxJmpRep tt).
  - apply (bool_decide_unpack _). vm_compute. exact I.
  - apply (bool_decide_unpack _). vm_compute. exact I.
  - vm_compute. reflexivity.
Defined.

(** C5: After a successful run of the resolver, when block ids are
    distinct and non-zero and no node is listed in two block positions,
    the store is in resolved form: no branch target of a node listed in a
    block is a literal that names a block (each was rewritten to a block
    reference), every block that does not end in a return and has a block
    starting at its end address has a fallthrough, and so the spec asks a
    second run for no edge the store does not already have. *)
Theorem resolveFunction_normal_form arch rep0 u rep1 :
  NoDup (map bb_id (bbs rep0)) -> NoDup (concat (map bb_exprIds (bbs rep0))) -> 0 ∉ map bb_id (bbs rep0) ->
  resolveFunction arch rep0 = Ok (u, rep1) ->
  (forall id e, id ∈ concat (map bb_exprIds (bbs rep1)) -> getExpr rep1 id = Some e ->
     Forall (fun a => literal_target rep1 a = None) (targets (se_type e) (se_subExpressions e))) /\
  (forall bid, ft_edges rep1 bid = ∅) /\ resolved_edges rep1 = edge_set (bbs rep1).
Proof.
  intros Hids Hnx H0 Hrun. pose proof (resolveFunction_rs arch rep0 u rep1 Hids Hnx Hrun) as Hrs.
  pose proof (rs_pos _ _ _ _ _ _ Hrs) as Hp.
  split; [|split; [|exact (resolved_edges_after _ _ _ _ Hrs)]].
  - intros id e Hid He. rewrite (exprIds_pos _ _ Hp) in Hid.
    eapply Forall_impl; [exact (rs_settled _ _ _ _ _ _ Hrs id e Hid He)|].
    intros a Ha. by rewrite (literal_target_pos rep1 rep0).
  - intros bid. destruct (getBB (bbs rep1) bid) as [b|] eqn:Hb; [|unfold ft_edges; by rewrite Hb].
    assert (Hbid : bid ∈ map bb_id (bbs rep0)).
    { rewrite <- (ids_of_pos _ _ Hp). apply getBB_Some in Hb as [Hb <-].
      apply list_elem_of_In. by apply in_map. }
    pose proof (rs_linked _ _ _ _ _ _ Hrs bid Hbid) as Hl.
    apply set_eq. intros [s t]. split; [|set_solver]. intros Hst.
    assert (t = 0) as -> by set_solver. contradict H0.
    rewrite <- (ids_of_pos _ _ Hp). by apply (ft_edges_target _ bid s).
Qed.

Lemma resolveFunction_normal_form_witness :
  exists rep1, resolveFunction fxArch fxJmpRep = Ok (tt, rep1) /\
    (forall id e, id ∈ concat (map bb_exprIds (bbs rep1)) -> getExpr rep1 id = Some e ->
       Forall (fun a => literal_target rep1 a = None) (targets (se_type e) (se_subExpressions e))) /\
    (forall bid, ft_edges rep1 bid = ∅) /\ resolved_edges rep1 = edge_set (bbs rep1).
Proof.
  eexists. split; [vm_compute; reflexivity|].
  apply (resolveFunction_normal_form fxArch fxJmpRep tt).
  - apply (bool_decide_unpack _). vm_compute. exact I.
  - apply (bool_decide_unpack _). vm_compute. exact I.
  - apply (bool_decide_unpack _). vm_compute. exact I.
  - vm_compute. reflexivity.
Defined.

(** C4: The resolver refines, node by node, the spec's per-node rewrite:
    when block ids are distinct and no node is listed in two block
    positions, a successful run leaves every node listed in a block
    rewritten by [resolve_node] from its state before the pass (a
    literal target naming a block becomes a block reference, a jump or
    conditional jump with any other target gets every top-level register
    appended), and every other node as it was; the order in which the
    driver visits the blocks does not matter. *)
Theorem resolveFunction_nodes arch rep0 u rep1 id :
  NoDup (map bb_id (bbs rep0)) -> NoDup (concat (map bb_exprIds (bbs rep0))) ->
  resolveFunction arch rep0 = Ok (u, rep1) ->
  getExpr rep1 id = if bool_decide (id ∈ concat (map bb_exprIds (bbs rep0)))
                    then resolve_node rep0 arch <$> getExpr rep0 id else getExpr rep0 id.
Proof.
  intros Hids Hnx Hrun. pose proof (resolveFunction_rs arch rep0 u rep1 Hids Hnx Hrun) as Hrs.
  case_bool_decide; [exact (rs_node _ _ _ _ _ _ Hrs id H)|exact (rs_expr _ _ _ _ _ _ Hrs id H)].
Qed.

Lemma resolveFunction_nodes_witness :
  exists rep1, resolveFunction fxArch fxJmpRep = Ok (tt, rep1) /\
    getExpr rep1 3 = if bool_decide (3 ∈ concat (map bb_exprIds (bbs fxJmpRep)))
                     then resolve_node fxJmpRep fxArch <$> getExpr fxJmpRep 3 else getExpr fxJmpRep 3.
Proof.
  eexists. split; [vm_compute; reflexivity|].
  apply (resolveFunction_nodes fxArch fxJmpRep tt).
  - apply (bool_decide_unpack _). vm_compute. exact I.
  - apply (bool_decide_unpack _). vm_compute. exact I.
  - vm_compute. reflexivity.
Defined.

Lemma set_subs_set_subs e l l' : set_subs (set_subs e l) l' = set_subs e l'.
Proof. by destruct e. Qed.

(** C15: The resolver is not idempotent: when block ids are distinct and
    no node is listed twice, a jump or conditional jump listed in a block
    whose target operand is not a literal (a register, or the block
    reference of an [if] or of an earlier run) gets the top-level register
    reads appended once more on every run: after [n] successful runs its
    operands are the original ones followed by [n] copies of them. *)
Theorem resolve_not_idempotent arch n rep r id e i a :
  NoDup (map bb_id (bbs rep)) -> NoDup (concat (map bb_exprIds (bbs rep))) ->
  id ∈ concat (map bb_exprIds (bbs rep)) -> getExpr rep id = Some e ->
  (se_type e = eJmp /\ i = 0 \/ se_type e = eCJmp /\ i = 1) ->
  nth_error (se_subExpressions e) i = Some a -> (forall v, sa_type a <> eArgUInt v) ->
  resolveTimes arch n rep = Ok r ->
  getExpr r id = Some (set_subs e (se_subExpressions e ++ concat (repeat (topRegArgs arch) n))).
Proof.
  revert rep e. induction n as [|n IH]; intros rep e Hids Hnx Hin He Hty Ha Hnot Hrun.
  - injection Hrun as <-. rewrite He. simpl. by rewrite app_nil_r, set_subs_id.
  - simpl in Hrun. destruct (resolveFunction arch rep) as [[u rep1]|err] eqn:Hr; [|done].
    pose proof (resolveFunction_rs arch rep u rep1 Hids Hnx Hr) as Hrs. pose proof (rs_pos _ _ _ _ _ _ Hrs) as Hp.
    assert (He1 : getExpr rep1 id = Some (set_subs e (se_subExpressions e ++ topRegArgs arch))).
    { rewrite (rs_node _ _ _ _ _ _ Hrs id Hin), He. simpl. unfold resolve_node, resolve_branch.
      destruct Hty as [[-> ->]|[-> ->]]; rewrite Ha;
        destruct (sa_type a) eqn:Ta; try done; exfalso; by apply (Hnot uval). }
    assert (Hlen : i < length (se_subExpressions e)) by (apply nth_error_Some; by rewrite Ha).
    rewrite (IH rep1 _ ltac:(by rewrite (ids_of_pos _ _ Hp)) ltac:(by rewrite (exprIds_pos _ _ Hp))
               ltac:(by rewrite (exprIds_pos _ _ Hp)) He1) by (simpl; rewrite ?nth_error_app1; done).
    simpl. by rewrite set_subs_set_subs, app_assoc.
Qed.

(** The conditional jump of [cmov ax, 7 if esp] targets the true block
    and gains the two top-level register reads on each of three runs. *)
Lemma resolve_not_idempotent_witness :
  exists e r, getExpr (g_rep fxAfterCmov) 4 = Some e /\ resolveTimes fxArch 3 (g_rep fxAfterCmov) = Ok r /\
    getExpr r 4 = Some (set_subs e (se_subExpressions e ++ concat (repeat (topRegArgs fxArch) 3))).
Proof.
  do 2 eexists. split; [vm_compute; reflexivity|]. split; [vm_compute; reflexivity|].
  eapply (resolve_not_idempotent fxArch 3 (g_rep fxAfterCmov) _ 4 _ 1 (SAcreateBlock 2)).
  - apply (bool_decide_unpack _). vm_compute. exact I.
  - apply (bool_decide_unpack _). vm_compute. exact I.
  - apply (bool_decide_unpack _). vm_compute. exact I.
  - vm_compute. reflexivity.
  - right. split; reflexivity.
  - vm_compute. reflexivity.
  - intros v. discriminate.
  - vm_compute. reflexivity.
Defined.
