(* ===== verification/Simplifier.v ===== *)
(** * The assignment simplifier

    [SSAAssignmentSimplifier::doTransformation]
    (src/main/SSAAssignmentSimplifier.cpp): each pass scans the node
    store in order and collects a replacement argument for every
    assignment (its source, taking the assignment's location when the
    source has none), undefine and label node, for a phi whose inputs are
    all undefined or all equal, for a split or partial update of an
    undefined value, and for an effective-address node whose segment and
    base or index term are literal zeros; a return node's operands are
    followed through transient producers and those that reach a function
    input are dropped, the others rewritten in place.  A pass without
    replacements ends the loop; otherwise the replacements are applied
    and the store compacted ([replaceNodes], [compress] of SSA.h, modelled
    from the spec: every use of a replaced node takes its replacement,
    and the replaced nodes are removed).  [EXPR_IS_TRANSIENT] (SSA.h) is
    a parameter [isTransient] of the whole development of this file. *)

From S2P Require Import Prelude Arch SSA BlockStore Gen GenLogic Lowering Fixtures.
From stdpp Require Import relations.

(** The replacement map ([HMap<HId, SSAArgument>], an ordered map whose
    [insert] keeps an existing entry). *)
Definition Repl := gmap nat SSAArgument.

Definition addRepl (id : nat) (a : SSAArgument) (m : Repl) : Repl :=
  match m !! id with Some _ => m | None => <[id := a]> m end.

(** The state of a pass: the replacements so far and the store, whose
    return nodes the pass rewrites. *)
Definition SM := M (Repl * SSARepresentation).

Section Simplifier.
Context (isTransient : SSAExprType -> bool).

(** [eAssign]: the source, located at the assignment when it has no
    location of its own. *)
Definition assignRepl (e : SSAExpression) : Result SSAArgument :=
  match se_subExpressions e with
  | [] => Fatal AssertFailed
  | arg :: _ =>
      Ok (if bool_decide (sa_location arg = eLocNone) && negb (bool_decide (se_location e = eLocNone))
          then mkSSAArgument (sa_type arg) (sa_size arg) (se_location e) (se_locref e)
          else arg)
  end.

Definition undefOf (e : SSAExpression) : SSAArgument :=
  SAcreateUndef (se_location e) (se_locref e) (se_size e).

(** [ePhi]: undefined when every input is, the first input when all are equal. *)
Definition phiRepl (e : SSAExpression) : Result (option SSAArgument) :=
  match se_subExpressions e with
  | [] => Fatal AssertFailed
  | first :: _ =>
      let undef := forallb (fun a => bool_decide (sa_type a = eArgUndef)) (se_subExpressions e) in
      let same := forallb (fun a => bool_decide (a = first)) (se_subExpressions e) in
      Ok (if undef then Some (undefOf e) else if same then Some first else None)
  end.

(** [eSplit] / [eUpdatePart] of an undefined value. *)
Definition splitRepl (e : SSAExpression) : Result (option SSAArgument) :=
  match se_subExpressions e with
  | [] => Fatal AssertFailed
  | a0 :: _ => Ok (if bool_decide (sa_type a0 = eArgUndef) then Some (undefOf e) else None)
  end.

(** [eLoadAddr] with operands [segment, base, index, scale, disp]. *)
Definition loadAddrRepl (e : SSAExpression) : option SSAArgument :=
  match se_subExpressions e with
  | [a0; a1; a2; a3; a4] =>
      if isValue a0 0 then
        if isValue a1 0 then
          (if isValue a2 0 then Some a4 else if isValue a3 0 then Some a4 else None)
        else if isValue a4 0 then
          (if isValue a2 0 then Some a1 else if isValue a3 0 then Some a1 else None)
        else None
      else None
  | _ => None
  end.

(** The return operand's walk [while (arg.type == eId && arg.ssaId &&
    EXPR_IS_TRANSIENT (type)) arg = expressions[arg.ssaId].subExpressions[0];].
    The C++ loop does not end on a cycle of transient nodes; the model
    takes at most [fuel] steps. *)
Fixpoint followChain (fuel : nat) (rep : SSARepresentation) (arg : SSAArgument) : Result SSAArgument :=
  match sa_type arg with
  | eArgId x =>
      if Nat.eqb x 0 then Ok arg else
      match getExpr rep x with
      | None => Fatal AssertFailed
      | Some e =>
          if isTransient (se_type e) then
            match fuel with
            | O => Fatal OutOfFuel
            | S f => match se_subExpressions e with
                     | [] => Fatal AssertFailed
                     | a :: _ => followChain f rep a
                     end
            end
          else Ok arg
      end
  | _ => Ok arg
  end.

(** The end of a walk names a function input node. *)
Definition isInputRef (rep : SSARepresentation) (a : SSAArgument) : bool :=
  match sa_type a with
  | eArgId x => negb (Nat.eqb x 0) &&
                match getExpr rep x with Some e => bool_decide (se_type e = eInput) | None => false end
  | _ => false
  end.

(** The operands of a return after the pass: each rewritten to the end of
    its walk, and dropped when that is a function input. *)
Fixpoint returnOperands (rep : SSARepresentation) (subs : list SSAArgument) : Result (list SSAArgument) :=
  match subs with
  | [] => Ok []
  | a :: rest =>
      match followChain (length (expressions rep)) rep a, returnOperands rep rest with
      | Ok a', Ok rest' => Ok (if isInputRef rep a' then rest' else a' :: rest')
      | Fatal err, _ => Fatal err
      | _, Fatal err => Fatal err
      end
  end.

Definition setNodeSubs (id : nat) (subs : list SSAArgument) (rep : SSARepresentation) : SSARepresentation :=
  setExprs rep (map (fun e => if Nat.eqb (se_id e) id then set_subs e subs else e) (expressions rep)).

Definition of_result {A} (r : Result A) : SM A :=
  match r with Ok a => ret a | Fatal e => fail e end.

Definition record (id : nat) (a : SSAArgument) : SM unit :=
  modify (fun st => (addRepl id a (fst st), snd st)).

Definition recordOpt (id : nat) (o : option SSAArgument) : SM unit :=
  match o with Some a => record id a | None => ret tt end.

(** The body of the scan for one node (lines 20-91). *)
Definition scanExpr (e : SSAExpression) : SM unit :=
  if Nat.eqb (se_id e) 0 then ret tt else
  match se_type e with
  | eAssign => a <- of_result (assignRepl e) ;; record (se_id e) a
  | eUndef => record (se_id e) (undefOf e)
  | eLabel => record (se_id e) SAcreate
  | ePhi => o <- of_result (phiRepl e) ;; recordOpt (se_id e) o
  | eSplit | eUpdatePart => o <- of_result (splitRepl e) ;; recordOpt (se_id e) o
  | eLoadAddr => recordOpt (se_id e) (loadAddrRepl e)
  | eReturn =>
      st <- get ;;
      subs <- of_result (returnOperands (snd st) (se_subExpressions e)) ;;
      modify (fun st => (fst st, setNodeSubs (se_id e) subs (snd st)))
  | _ => ret tt
  end.

(** One pass: the replacements and the store with its returns rewritten. *)
Definition collect (rep : SSARepresentation) : Result (Repl * SSARepresentation) :=
  match forM_ (expressions rep) scanExpr (∅, rep) with
  | Ok (_, st) => Ok st
  | Fatal e => Fatal e
  end.

End Simplifier.

(** [SSARepresentation::replaceNodes] (spec-modelled): every operand
    naming a replaced node takes its replacement; the replaced nodes are
    marked removed (id 0). *)
Definition substArg (m : Repl) (a : SSAArgument) : SSAArgument :=
  match sa_type a with
  | eArgId x => match m !! x with Some r => r | None => a end
  | _ => a
  end.

Definition replaceNodes (m : Repl) (rep : SSARepresentation) : SSARepresentation :=
  setExprs rep (map (fun e => if bool_decide (is_Some (m !! se_id e)) then withId 0 e
                              else set_subs e (map (substArg m) (se_subExpressions e)))
                  (expressions rep)).

Definition set_exprIds (b : SSABB) (l : list nat) : SSABB :=
  mkSSABB (bb_id b) (bb_fallthroughId b) (bb_startaddr b) (bb_endaddr b) l (bb_inBlocks b) (bb_outBlocks b).

(** [SSARepresentation::compress] (spec-modelled): removed nodes leave the
    store and the blocks. *)
Definition compress (rep : SSARepresentation) : SSARepresentation :=
  let live := List.filter (fun e => negb (Nat.eqb (se_id e) 0)) (expressions rep) in
  mkSSARepresentation live (expr_gen rep)
    (map (fun b => set_exprIds b (List.filter (fun i => existsb (fun e => Nat.eqb (se_id e) i) live)
                                    (bb_exprIds b))) (bbs rep))
    (bb_gen rep).

(** The number of live nodes. *)
Definition liveCount (rep : SSARepresentation) : nat :=
  length (List.filter (fun e => negb (Nat.eqb (se_id e) 0)) (expressions rep)).

Section Loop.
Context (isTransient : SSAExprType -> bool).

(** The [while (true)] loop, one unit of fuel per pass. *)
Fixpoint simplifyLoop (fuel : nat) (rep : SSARepresentation) : Result SSARepresentation :=
  match fuel with
  | O => Fatal OutOfFuel
  | S f =>
      match collect isTransient rep with
      | Fatal e => Fatal e
      | Ok (m, rep') => if decide (m = ∅) then Ok rep' else simplifyLoop f (compress (replaceNodes m rep'))
      end
  end.

(** [doTransformation]: one pass per live node, and one more, is enough. *)
Definition doTransformation (rep : SSARepresentation) : Result SSARepresentation :=
  simplifyLoop (S (liveCount rep)) rep.
End Loop.

(** One iteration of [while (true)] that does not [break]: a pass with
    replacements, which are then applied and the store compressed.  The
    loop is a run of this state machine on stores. *)
Inductive pass_step (isTransient : SSAExprType -> bool) : SSARepresentation -> SSARepresentation -> Prop :=
| PassStep rep m rep' :
    collect isTransient rep = Ok (m, rep') -> m <> ∅ ->
    pass_step isTransient rep (compress (replaceNodes m rep')).

(** The value of an effective address [segment::[base + index*scale + disp]]
    under a valuation of its operands; the segment contributes nothing
    (the spec's "segment * 0"). *)
Definition addrValue (val : SSAArgument -> Z) (subs : list SSAArgument) : option Z :=
  match subs with
  | [_; b; i; sc; d] => Some (val b + val i * val sc + val d)%Z
  | _ => None
  end.

(** The node kinds and operand kinds of a simplified store. *)
Definition simplified_nodes (isT : SSAExprType -> bool) (rep : SSARepresentation)
    : option (list (nat * SSAExprType * list SSAArgType)) :=
  match doTransformation isT rep with
  | Ok r => Some (map (fun e => (se_id e, se_type e, map sa_type (se_subExpressions e))) (expressions r))
  | Fatal _ => None
  end.

(** ** The state of a pass *)

(** What a pass keeps: the blocks and the node ids of the store it
    started from, and replacement keys that are live node ids of it. *)
Definition pass_ok (rep0 : SSARepresentation) (st : Repl * SSARepresentation) : Prop :=
  bbs (snd st) = bbs rep0 /\ bb_gen (snd st) = bb_gen rep0 /\
  map se_id (expressions (snd st)) = map se_id (expressions rep0) /\
  forall k a, fst st !! k = Some a -> k <> 0 /\ In k (map se_id (expressions rep0)).

Lemma map_se_id_setNodeSubs id subs rep :
  map se_id (expressions (setNodeSubs id subs rep)) = map se_id (expressions rep).
Proof. unfold setNodeSubs. simpl. rewrite map_map. apply map_ext. intros e. by destruct (se_id e =? id). Qed.

Lemma record_inv rep0 id a :
  id <> 0 -> In id (map se_id (expressions rep0)) -> inv (pass_ok rep0) (record id a).
Proof.
  intros H0 Hin. apply inv_modify. intros [m r] (Hb & Hg & Hids & Hk). simpl.
  split; [done|split; [done|split; [done|]]]. intros k b. simpl. unfold addRepl.
  destruct (m !! id) eqn:E; [apply Hk|]. intros Hl.
  apply lookup_insert_Some in Hl as [[<- _]|[_ Hkb]]; [done|by apply (Hk k b)].
Qed.

Lemma of_result_inv {A} (I : Repl * SSARepresentation -> Prop) (r : Result A) : inv I (of_result r).
Proof. destruct r; simpl; [by apply triple_ret|apply triple_fail]. Qed.

#[local] Hint Resolve record_inv of_result_inv : gen_inv.

Lemma scanExpr_inv isT rep0 e :
  In e (expressions rep0) -> inv (pass_ok rep0) (scanExpr isT e).
Proof.
  intros Hin. assert (Hid : In (se_id e) (map se_id (expressions rep0))) by (by apply in_map).
  unfold scanExpr. destruct (Nat.eqb_spec (se_id e) 0) as [|Hne]; [by apply triple_ret|].
  unfold recordOpt. htac.
  match goal with H : pass_ok rep0 _ |- pass_ok rep0 _ => destruct H as (Hb & Hg' & Hids & Hk) end.
  split; [done|split; [done|split; [cbn [snd]; by rewrite map_se_id_setNodeSubs|done]]].
Qed.

Lemma collect_ok isT rep m rep' :
  collect isT rep = Ok (m, rep') -> pass_ok rep (m, rep').
Proof.
  unfold collect. destruct (forM_ _ _ _) as [[u st]|] eqn:E; [|done]. intros H. injection H as ->.
  refine (inv_forM_in (pass_ok rep) _ _ _ (∅, rep) u _ _ E).
  - intros e He. by apply scanExpr_inv.
  - split; [done|split; [done|split; [done|]]]. intros k a H. exfalso. cbn [fst] in H. unfold Repl in H. by rewrite lookup_empty in H.
Qed.

(** ** Live nodes *)

Lemma liveCount_ids rep : liveCount rep = length (List.filter (fun i => negb (Nat.eqb i 0)) (map se_id (expressions rep))).
Proof.
  unfold liveCount. induction (expressions rep) as [|e l IH]; simpl; [done|].
  destruct (se_id e =? 0); simpl; by rewrite IH.
Qed.

Lemma filter_length_lt {A} (p q : A -> bool) l :
  (forall x, q x = true -> p x = true) -> (exists x, In x l /\ p x = true /\ q x = false) ->
  length (List.filter q l) < length (List.filter p l).
Proof.
  intros Hqp (x & Hx & Hp & Hq). induction l as [|y l IH]; [done|]. simpl.
  pose proof (List.filter_length_le). destruct Hx as [<-|Hx].
  - rewrite Hp, Hq. simpl.
    assert (forall l', length (List.filter q l') <= length (List.filter p l')) as Hle.
    { intros l'. induction l' as [|z l' IH']; [done|]. simpl.
      destruct (q z) eqn:Ez; [rewrite (Hqp z Ez); simpl; lia|destruct (p z); simpl; lia]. }
    specialize (Hle l). lia.
  - specialize (IH Hx). destruct (q y) eqn:Ey; [rewrite (Hqp y Ey); simpl; lia|destruct (p y); simpl; lia].
Qed.

Lemma filter_idem {A} (p : A -> bool) l : List.filter p (List.filter p l) = List.filter p l.
Proof. induction l as [|x l IH]; simpl; [done|]. destruct (p x) eqn:E; simpl; [rewrite E|]; by rewrite IH. Qed.

Lemma length_filter_map {A B} (p : B -> bool) (g : A -> B) l :
  length (List.filter p (map g l)) = length (List.filter (fun x => p (g x)) l).
Proof. induction l as [|x l IH]; simpl; [done|]. destruct (p (g x)); simpl; by rewrite IH. Qed.

(** A pass with replacements removes at least one live node. *)
Lemma compress_replace_lt m rep :
  m <> ∅ -> (forall k a, m !! k = Some a -> k <> 0 /\ In k (map se_id (expressions rep))) ->
  liveCount (compress (replaceNodes m rep)) < liveCount rep.
Proof.
  intros Hm Hk. destruct (map_choose m Hm) as (k & a & Hka).
  destruct (Hk k a Hka) as [Hk0 Hin]. apply in_map_iff in Hin as (e & Hek & Hin).
  unfold liveCount, compress, replaceNodes. cbn [expressions setExprs]. rewrite filter_idem.
  rewrite length_filter_map. apply filter_length_lt.
  - intros x. case_bool_decide; simpl; [discriminate|done].
  - exists e. split; [done|]. rewrite Hek. split; [by apply negb_true_iff, Nat.eqb_neq|].
    case_bool_decide as Hs; [done|]. exfalso. apply Hs. by exists a.
Qed.

Lemma collect_liveCount isT rep m rep' : collect isT rep = Ok (m, rep') -> liveCount rep' = liveCount rep.
Proof.
  intros H. destruct (collect_ok _ _ _ _ H) as (_ & _ & Hids & _). cbn [snd] in Hids.
  by rewrite !liveCount_ids, Hids.
Qed.

(** The pass after a non-empty one starts from fewer live nodes. *)
Lemma next_pass_lt isT rep m rep' :
  collect isT rep = Ok (m, rep') -> m <> ∅ -> liveCount (compress (replaceNodes m rep')) < liveCount rep.
Proof.
  intros H Hm. rewrite <- (collect_liveCount _ _ _ _ H).
  destruct (collect_ok _ _ _ _ H) as (_ & _ & Hids & Hk). cbn [snd fst] in Hids, Hk.
  apply compress_replace_lt; [done|]. intros k a Hka. rewrite Hids. exact (Hk k a Hka).
Qed.

Lemma simplifyLoop_fuel_eq isT f1 f2 rep :
  S (liveCount rep) <= f1 -> S (liveCount rep) <= f2 -> simplifyLoop isT f1 rep = simplifyLoop isT f2 rep.
Proof.
  revert f2 rep. induction f1 as [|f1 IH]; intros f2 rep H1 H2; [lia|].
  destruct f2 as [|f2]; [lia|]. simpl.
  destruct (collect isT rep) as [[m rep']|e] eqn:Ec; [|done].
  destruct (decide (m = ∅)) as [|Hm]; [done|].
  pose proof (next_pass_lt _ _ _ _ Ec Hm). apply IH; lia.
Qed.

Lemma compress_cfg m rep : map cfg_view (bbs (compress (replaceNodes m rep))) = map cfg_view (bbs rep).
Proof. unfold compress. simpl. rewrite map_map. by apply map_ext. Qed.

(** Every run of the loop keeps the blocks' graph view and the block-id
    generator. *)
Lemma simplifyLoop_blocks isT f rep rep' :
  simplifyLoop isT f rep = Ok rep' ->
  map cfg_view (bbs rep') = map cfg_view (bbs rep) /\ bb_gen rep' = bb_gen rep.
Proof.
  revert rep. induction f as [|f IH]; intros rep H; [done|]. simpl in H.
  destruct (collect isT rep) as [[m r]|e] eqn:Ec; [|done].
  destruct (collect_ok _ _ _ _ Ec) as (Hb & Hg & _). cbn [snd] in Hb, Hg.
  destruct (decide (m = ∅)); [injection H as <-; by rewrite Hb, Hg|].
  destruct (IH _ H) as [Hc Hg']. rewrite Hc, compress_cfg, Hg'. simpl. by rewrite Hb, Hg.
Qed.

(** The run of the loop with enough fuel: a sequence of non-empty passes
    to a store whose pass is empty (the result) or fails (the error). *)
Lemma simplifyLoop_run isT f rep :
  S (liveCount rep) <= f ->
  exists r0, rtc (pass_step isT) rep r0 /\
    match collect isT r0 with
    | Ok (m, r') => m = ∅ /\ simplifyLoop isT f rep = Ok r'
    | Fatal e => simplifyLoop isT f rep = Fatal e
    end.
Proof.
  revert rep. induction f as [|f IH]; intros rep Hf; [lia|]. simpl.
  destruct (collect isT rep) as [[m r]|e] eqn:Ec; [|exists rep; by rewrite Ec].
  destruct (decide (m = ∅)) as [->|Hm]; [exists rep; by rewrite Ec|].
  pose proof (next_pass_lt _ _ _ _ Ec Hm) as Hlt.
  destruct (IH (compress (replaceNodes m r))) as (r0 & Hr & H); [lia|].
  exists r0. split; [|exact H]. eapply rtc_l; [by constructor|exact Hr].
Qed.

(** ** Properties *)

(** C7: The fixpoint loop always reaches the end of its run: from every
    store, [doTransformation] performs a finite sequence of passes with
    replacements and then either meets a pass with no replacements,
    whose store it returns, or a pass that fails, whose error it
    returns; it never stops for lack of passes. *)
Theorem doTransformation_reaches_fixpoint isT rep :
  exists r0, rtc (pass_step isT) rep r0 /\
    match collect isT r0 with
    | Ok (m, r') => m = ∅ /\ doTransformation isT rep = Ok r'
    | Fatal e => doTransformation isT rep = Fatal e
    end.
Proof. apply simplifyLoop_run. lia. Qed.

(** C26: Folding an effective-address node is sound: when the node
    [segment::[base + index*scale + disp]] is replaced by an operand, that
    operand has the node's value under every valuation that gives literal
    zeros the value 0. *)
Theorem loadAddrRepl_sound (val : SSAArgument -> Z) e r :
  (forall a, isValue a 0 = true -> val a = 0%Z) ->
  loadAddrRepl e = Some r -> addrValue val (se_subExpressions e) = Some (val r).
Proof.
  intros Hz. unfold loadAddrRepl, addrValue.
  destruct (se_subExpressions e) as [|a0 [|a1 [|a2 [|a3 [|a4 [|]]]]]]; try discriminate.
  destruct (isValue a0 0) eqn:E0; [|discriminate].
  destruct (isValue a1 0) eqn:E1; [|destruct (isValue a4 0) eqn:E4; [|discriminate]];
    (destruct (isValue a2 0) eqn:E2; [|destruct (isValue a3 0) eqn:E3; [|discriminate]]);
    intros [= <-]; f_equal; rewrite ?(Hz _ E1), ?(Hz _ E2), ?(Hz _ E3), ?(Hz _ E4); lia.
Qed.

Lemma loadAddrRepl_sound_witness :
  addrValue (fun a => match sa_type a with eArgUInt v | eArgSInt v => v | _ => 7%Z end)
    [SAcreateVal 0 32; SAcreateReg esp; SAcreateVal 0 32; SAcreateVal 4 32; SAcreateVal 0 32] = Some 7%Z.
Proof.
  apply (loadAddrRepl_sound (fun a => match sa_type a with eArgUInt v | eArgSInt v => v | _ => 7%Z end)
           (fxSimpNode 6 eLoadAddr [SAcreateVal 0 32; SAcreateReg esp; SAcreateVal 0 32; SAcreateVal 4 32;
                                    SAcreateVal 0 32]) (SAcreateReg esp)).
  - intros a. unfold isValue. destruct (sa_type a); try discriminate; intros H; by apply bool_decide_eq_true in H.
  - vm_compute. reflexivity.
Defined.

(** C30: A phi is replaced only when all its inputs are undefined (by an
    undefined value at the phi's location) or all are equal to the
    replacement. *)
Theorem phiRepl_spec e r :
  phiRepl e = Ok (Some r) ->
  (Forall (fun a => sa_type a = eArgUndef) (se_subExpressions e) /\ r = undefOf e) \/
  Forall (fun a => a = r) (se_subExpressions e).
Proof.
  unfold phiRepl. destruct (se_subExpressions e) as [|first rest] eqn:Es; [done|]. cbv zeta.
  destruct (forallb (fun a => bool_decide (sa_type a = eArgUndef)) _) eqn:Eu;
    [intros H; injection H as <-; left
    |destruct (forallb (fun a => bool_decide (a = first)) _) eqn:Ea; [intros H; injection H as <-; right|done]].
  - split; [|done]. apply List.Forall_forall. intros a Ha. rewrite forallb_forall in Eu.
    specialize (Eu a Ha). by case_bool_decide.
  - apply List.Forall_forall. intros a Ha. rewrite forallb_forall in Ea.
    specialize (Ea a Ha). by case_bool_decide.
Qed.

Lemma phiRepl_spec_witness :
  (Forall (fun a => sa_type a = eArgUndef) [SAcreateId 1 32; SAcreateId 1 32] /\
     SAcreateId 1 32 = undefOf (fxSimpNode 4 ePhi [SAcreateId 1 32; SAcreateId 1 32])) \/
  Forall (fun a => a = SAcreateId 1 32) [SAcreateId 1 32; SAcreateId 1 32].
Proof. apply (phiRepl_spec (fxSimpNode 4 ePhi [SAcreateId 1 32; SAcreateId 1 32])). vm_compute. reflexivity. Defined.

(** On [fxSimpRep] the loop takes two passes: the first replaces the
    copy, the two phis, the two effective addresses and drops the returned
    copy of the input of [eax]; the second drops the returned phi (now the
    input itself); the store keeps the input and the return, which reads
    [eax] only. *)
Example simplify_scenario :
  simplified_nodes fxTransient fxSimpRep =
  Some [(1, eInput, []); (7, eReturn, [eArgReg (mkReference 1 0)])].
Proof. vm_compute. reflexivity. Qed.
