(* ===== verification/SimplifierTotal.v ===== *)
(** * The transient walk of the simplifier terminates on acyclic chains

    A return operand is followed through transient producers
    ([followChain], src/main/SSAAssignmentSimplifier.cpp, lines 80-84);
    the C++ loop has no bound, the model gives it as many steps as the
    store has nodes.  This file shows that this is enough whenever the
    chains are acyclic, witnessed by a rank [rk] on node ids that
    decreases from every transient node to the node its first operand
    names and stays below the number of nodes: then a pass never stops
    for lack of fuel.  With [Simplifier.simplifyLoop_run], the whole loop
    then never does either. *)

From S2P Require Import Prelude Arch SSA BlockStore Gen GenLogic Lowering Fixtures Simplifier.
From stdpp Require Import relations.

Section Chains.
Context (isT : SSAExprType -> bool) (rk : nat -> nat).

(** The rank condition at one node of a store with [n] nodes. *)
Definition chain_step_ok (n : nat) (e : SSAExpression) : bool :=
  negb (isT (se_type e)) ||
  (Nat.ltb (rk (se_id e)) n &&
   match se_subExpressions e with
   | a :: _ => match sa_type a with
               | eArgId y => Nat.eqb y 0 || Nat.ltb (rk y) (rk (se_id e))
               | _ => true
               end
   | [] => true
   end).

(** Every transient node of the store is ranked. *)
Definition chain_ranked (rep : SSARepresentation) : bool :=
  forallb (chain_step_ok (length (expressions rep))) (expressions rep).

(** The argument's walk has fuel above the rank of the node it names. *)
Definition walk_fits (rep : SSARepresentation) (fuel : nat) (a : SSAArgument) : Prop :=
  forall x e, sa_type a = eArgId x -> x <> 0 -> getExpr rep x = Some e -> isT (se_type e) = true ->
  rk x < fuel.

Lemma getExpr_ranked rep x e :
  chain_ranked rep = true -> getExpr rep x = Some e -> chain_step_ok (length (expressions rep)) e = true /\ se_id e = x.
Proof.
  intros Hr He. unfold getExpr in He. apply find_some in He as [Hin Hx].
  unfold chain_ranked in Hr. rewrite forallb_forall in Hr. split; [by apply Hr|]. by apply Nat.eqb_eq.
Qed.

Lemma followChain_fits rep fuel a :
  chain_ranked rep = true -> walk_fits rep fuel a -> followChain isT fuel rep a <> Fatal OutOfFuel.
Proof.
  intros Hr. revert a. induction fuel as [|f IH]; intros a Hf; simpl.
  all: destruct (sa_type a) as [|x| | | | | | | |] eqn:Ta; try done.
  all: destruct (Nat.eqb_spec x 0); [done|]; destruct (getExpr rep x) as [e|] eqn:He; [|done].
  all: destruct (isT (se_type e)) eqn:Ht; [|done].
  - pose proof (Hf x e Ta n He Ht). lia.
  - destruct (se_subExpressions e) as [|b rest] eqn:Hs; [done|]. apply IH.
    intros y e' Hy Hy0 He' Ht'. pose proof (Hf x e Ta n He Ht) as Hx.
    destruct (getExpr_ranked _ _ _ Hr He) as [Hok <-]. unfold chain_step_ok in Hok.
    rewrite Ht, Hs, Hy in Hok. simpl in Hok.
    apply andb_prop in Hok as [_ Hok]. apply orb_prop in Hok as [H0|Hlt];
      [apply Nat.eqb_eq in H0; done|apply Nat.ltb_lt in Hlt; lia].
Qed.

(** The walk from a return operand has enough fuel on a ranked store. *)
Lemma followChain_total rep a :
  chain_ranked rep = true -> followChain isT (length (expressions rep)) rep a <> Fatal OutOfFuel.
Proof.
  intros Hr. apply followChain_fits; [done|]. intros x e _ _ He Ht.
  destruct (getExpr_ranked _ _ _ Hr He) as [Hok <-]. unfold chain_step_ok in Hok.
  rewrite Ht in Hok. simpl in Hok. apply andb_prop in Hok as [Hlt _]. by apply Nat.ltb_lt.
Qed.

Lemma returnOperands_total rep subs :
  chain_ranked rep = true -> returnOperands isT rep subs <> Fatal OutOfFuel.
Proof.
  intros Hr. induction subs as [|a subs IH]; simpl; [done|].
  pose proof (followChain_total rep a Hr) as Ha.
  destruct (followChain isT _ rep a), (returnOperands isT rep subs); congruence.
Qed.


(** ** A pass on a ranked store *)

Definition id_types (rep : SSARepresentation) : list (nat * SSAExprType) :=
  map (fun e => (se_id e, se_type e)) (expressions rep).

(** The state of a pass: its store is ranked and has the node ids and
    types of the store the pass started from. *)
Definition pass_ranked (rep0 : SSARepresentation) (st : Repl * SSARepresentation) : Prop :=
  chain_ranked (snd st) = true /\ id_types (snd st) = id_types rep0.

Lemma id_types_setNodeSubs id subs r : id_types (setNodeSubs id subs r) = id_types r.
Proof. unfold id_types, setNodeSubs. simpl. rewrite map_map. apply map_ext. intros e. by destruct (se_id e =? id). Qed.

(** Rewriting the operands of non-transient nodes keeps the ranks. *)
Lemma chain_ranked_setNodeSubs id subs r :
  chain_ranked r = true -> (forall e, In e (expressions r) -> se_id e = id -> isT (se_type e) = false) ->
  chain_ranked (setNodeSubs id subs r) = true.
Proof.
  unfold chain_ranked, setNodeSubs. simpl. rewrite length_map, !forallb_forall. intros Hr Hid x Hx.
  apply in_map_iff in Hx as (e & <- & He). destruct (Nat.eqb_spec (se_id e) id) as [E|]; [|by apply Hr].
  unfold chain_step_ok. cbn. by rewrite (Hid e He E).
Qed.

(** With distinct ids, a node of the current store with the id of a node
    [e] of the original one has [e]'s type. *)
Lemma same_id_type rep0 r e e' :
  NoDup (map se_id (expressions rep0)) -> id_types r = id_types rep0 ->
  In e (expressions rep0) -> In e' (expressions r) -> se_id e' = se_id e -> se_type e' = se_type e.
Proof.
  intros Hnd Hit He He' Hid.
  assert (H : In (se_id e', se_type e') (id_types rep0)) by (rewrite <- Hit; by apply (in_map (fun e => (se_id e, se_type e)))).
  apply in_map_iff in H as (e'' & Heq & He''). injection Heq as Hi Ht.
  assert (E : e'' = e) by (apply (NoDup_map_In_inj se_id (expressions rep0)); [done|done|done|congruence]).
  subst. congruence.
Qed.

Section Pass.
Context (rep0 : SSARepresentation) (Hnd : NoDup (map se_id (expressions rep0)))
        (Hret : isT eReturn = false).

Lemma record_ranked id a : inv (pass_ranked rep0) (record id a).
Proof. apply inv_modify. by intros [m r]. Qed.

#[local] Hint Resolve record_ranked of_result_inv : gen_inv.

Lemma scanExpr_ranked e : In e (expressions rep0) -> inv (pass_ranked rep0) (scanExpr isT e).
Proof.
  intros He. unfold scanExpr, recordOpt. htac. destruct Hg0 as [Hr Hit]. split; simpl.
  - apply chain_ranked_setNodeSubs; [done|]. intros e' He' Hid.
    by rewrite (same_id_type rep0 (snd g0) e e'), Heqs.
  - by rewrite id_types_setNodeSubs.
Qed.

Lemma scanExpr_safe e : safe (pass_ranked rep0) (scanExpr isT e).
Proof.
  intros st [Hr _]. unfold scanExpr, recordOpt, record, of_result, bind, modify, get, ret, fail.
  destruct (se_id e =? 0); [done|].
  pose proof (returnOperands_total (snd st) (se_subExpressions e) Hr) as H.
  assert (Ha : assignRepl e <> Fatal OutOfFuel) by (unfold assignRepl; by destruct (se_subExpressions e)).
  assert (Hp : phiRepl e <> Fatal OutOfFuel) by (unfold phiRepl; by destruct (se_subExpressions e)).
  assert (Hs : splitRepl e <> Fatal OutOfFuel) by (unfold splitRepl; by destruct (se_subExpressions e)).
  destruct (se_type e); try done.
  all: match goal with
       | |- context [returnOperands isT ?r ?l] =>
           destruct (returnOperands isT r l); [done|exact (fatal_not_fuel _ H)]
       | |- context [assignRepl ?x] => destruct (assignRepl x); [done|exact (fatal_not_fuel _ Ha)]
       | |- context [phiRepl ?x] => destruct (phiRepl x) as [[?|]|?]; [done|done|exact (fatal_not_fuel _ Hp)]
       | |- context [splitRepl ?x] => destruct (splitRepl x) as [[?|]|?]; [done|done|exact (fatal_not_fuel _ Hs)]
       | |- context [loadAddrRepl ?x] => by destruct (loadAddrRepl x)
       end.
Qed.

End Pass.

End Chains.

Lemma collect_fueled isT rk rep :
  isT eReturn = false -> NoDup (map se_id (expressions rep)) -> chain_ranked isT rk rep = true ->
  collect isT rep <> Fatal OutOfFuel.
Proof.
  intros Hret Hnd Hr. unfold collect.
  pose proof (safe_forM_ (pass_ranked isT rk rep) (expressions rep) (scanExpr isT)
                (fun e _ => scanExpr_safe isT rk rep e) (scanExpr_ranked isT rk rep Hnd Hret)
                (∅, rep) (conj Hr eq_refl)) as H.
  destruct (forM_ _ _ _) as [[u st]|e]; [done|exact (fatal_not_fuel _ H)].
Qed.

(** The whole loop: when every store it reaches has distinct node ids and
    ranked transient chains, [doTransformation] never stops for lack of
    fuel (it returns the fixpoint or an error of the sources). *)
Lemma doTransformation_fueled isT rep :
  isT eReturn = false ->
  (forall r, rtc (pass_step isT) rep r ->
     NoDup (map se_id (expressions r)) /\ exists rk, chain_ranked isT rk r = true) ->
  doTransformation isT rep <> Fatal OutOfFuel.
Proof.
  intros Hret H. unfold doTransformation.
  destruct (simplifyLoop_run isT (S (liveCount rep)) rep) as (r0 & Hr0 & Hc); [lia|].
  destruct (H r0 Hr0) as [Hnd [rk Hrk]]. pose proof (collect_fueled isT rk r0 Hret Hnd Hrk) as Hf.
  destruct (collect isT r0) as [[m r']|e]; [by destruct Hc as [_ ->]|rewrite Hc; exact (fatal_not_fuel _ Hf)].
Qed.

(** ** Properties *)

(** C28: The walk through transient producers terminates within the
    model's bound on acyclic chains: on a store with distinct node ids
    whose transient nodes are ranked (each names, by its first operand, a
    node of lower rank, and every rank is below the number of nodes), and
    where returns are not transient, a pass of the simplifier never stops
    for lack of fuel. *)
Theorem collect_total isT rk rep :
  isT eReturn = false -> NoDup (map se_id (expressions rep)) -> chain_ranked isT rk rep = true ->
  collect isT rep <> Fatal OutOfFuel.
Proof. exact (collect_fueled isT rk rep). Qed.

Lemma collect_total_witness :
  collect fxTransient fxSimpRep <> Fatal OutOfFuel.
Proof.
  apply (collect_total fxTransient (fun x => x) fxSimpRep).
  - vm_compute. reflexivity.
  - apply (bool_decide_unpack _). vm_compute. exact I.
  - vm_compute. reflexivity.
Defined.
