(* ===== verification/Pipeline.v ===== *)
(** * The per-function pipeline

    Section 2 of the spec: per function, the lowering runs over the
    instructions in address order, then the resolver runs once, then the
    simplifier to its fixpoint.  The driver that sequences them lies
    outside the sources and is modelled from the spec.  As in a compiler
    pipeline, each phase after the lowering is a function from the SSA
    store to a result ([phase]); phases compose with [compose_phases], and
    a property that every phase keeps ([phase_keeps]) holds of the
    pipeline's output. *)

From S2P Require Import Prelude Arch SSA BlockStore Gen GenLogic Lowering Fixtures LoweringInv Resolver Simplifier.

Definition phase := SSARepresentation -> Result SSARepresentation.

(** Run [p1], then [p2] on its output; an error of [p1] stops the pipeline. *)
Definition compose_phases (p1 p2 : phase) : phase :=
  fun r => match p1 r with Ok r' => p2 r' | Fatal e => Fatal e end.

(** Every successful run of [p] from a store satisfying [V] ends in one. *)
Definition phase_keeps (V : SSARepresentation -> Prop) (p : phase) : Prop :=
  forall r r', V r -> p r = Ok r' -> V r'.

(** The lowering, from the empty session. *)
Definition lowerPhase (arch : Architecture) (fuel : nat) (addr : Z) (instrs : list Instruction)
    : Result SSARepresentation :=
  match lowerFunction arch fuel addr instrs initGen with Ok (_, g) => Ok (g_rep g) | Fatal e => Fatal e end.

(** [SSAAddressToBlockTransformer] run once. *)
Definition resolvePhase (arch : Architecture) : phase :=
  fun r => match resolveFunction arch r with Ok (_, r') => Ok r' | Fatal e => Fatal e end.

(** [SSAAssignmentSimplifier::doTransformation]. *)
Definition simplifyPhase (isT : SSAExprType -> bool) : phase := doTransformation isT.

(** lower, then resolve, then simplify. *)
Definition pipeline (arch : Architecture) (isT : SSAExprType -> bool) (fuel : nat) (addr : Z)
    (instrs : list Instruction) : Result SSARepresentation :=
  match lowerPhase arch fuel addr instrs with
  | Ok r => compose_phases (resolvePhase arch) (simplifyPhase isT) r
  | Fatal e => Fatal e
  end.

(** ** Lemmas *)

Lemma compose_phases_keeps V p1 p2 :
  phase_keeps V p1 -> phase_keeps V p2 -> phase_keeps V (compose_phases p1 p2).
Proof.
  intros H1 H2 r r' Hr. unfold compose_phases.
  destruct (p1 r) as [r1|e] eqn:E; [|done]. intros H. eapply H2; [eapply H1|]; eauto.
Qed.

(** The block store's well-formedness depends on the graph view only. *)
Definition wf_store (r : SSARepresentation) : Prop := wf_blocks (bb_gen r) (bbs r).

Lemma In_cfg_view bs bs' b' :
  map cfg_view bs = map cfg_view bs' -> In b' bs' -> exists b, In b bs /\ cfg_view b = cfg_view b'.
Proof.
  intros H Hb. assert (Hv : In (cfg_view b') (map cfg_view bs)) by (rewrite H; by apply in_map).
  apply in_map_iff in Hv as (b & Hv & Hb0). eauto.
Qed.

Lemma cfg_view_fields b c :
  cfg_view b = cfg_view c ->
  bb_id b = bb_id c /\ bb_inBlocks b = bb_inBlocks c /\ bb_outBlocks b = bb_outBlocks c.
Proof. unfold cfg_view. intros H. simplify_eq. auto. Qed.

Lemma wf_blocks_cfg n bs bs' :
  map cfg_view bs = map cfg_view bs' -> wf_blocks n bs -> wf_blocks n bs'.
Proof.
  intros H (Hsym & Hbd & Hnd & Hid).
  assert (Hids : map bb_id bs' = map bb_id bs).
  { apply (f_equal (map (fun v => v.1.1.1.1.1))) in H. by rewrite !map_map in H. }
  split; [|split; [|split]].
  - intros b1 b2 H1 H2. destruct (In_cfg_view _ _ _ H H1) as (c1 & Hc1 & (I1 & _ & O1)%cfg_view_fields).
    destruct (In_cfg_view _ _ _ H H2) as (c2 & Hc2 & (I2 & N2 & _)%cfg_view_fields).
    rewrite <- I1, <- O1, <- I2, <- N2. by apply Hsym.
  - intros b Hb. destruct (In_cfg_view _ _ _ H Hb) as (c & Hc & (_ & N & O)%cfg_view_fields).
    rewrite <- N, <- O. by apply Hbd.
  - by rewrite Hids.
  - apply Forall_forall. intros b Hb%list_elem_of_In. destruct (In_cfg_view _ _ _ H Hb) as (c & Hc & (I & _ & _)%cfg_view_fields).
    rewrite <- I. rewrite Forall_forall in Hid. apply Hid. by apply list_elem_of_In.
Qed.

Lemma lowerPhase_wf arch fuel addr instrs r : lowerPhase arch fuel addr instrs = Ok r -> wf_store r.
Proof.
  unfold lowerPhase. destruct (lowerFunction arch fuel addr instrs initGen) as [[u g]|] eqn:E; [|done].
  intros H. injection H as <-.
  destruct (lowerFunction_inv any_args 0 (fun _ => None) arch fuel addr instrs any_args_lowered (any_args_ops _)
                initGen u g (gen_ok_0 _ initGen_wf) E) as [[Hw _] _].
  exact Hw.
Qed.

Lemma resolvePhase_keeps arch : phase_keeps wf_store (resolvePhase arch).
Proof.
  intros r r' Hw. unfold resolvePhase. destruct (resolveFunction arch r) as [[u r1]|] eqn:E; [|done].
  intros H. injection H as <-. exact (proj1 (resolveFunction_res_ok arch r u r1 Hw E)).
Qed.

Lemma simplifyPhase_keeps isT : phase_keeps wf_store (simplifyPhase isT).
Proof.
  intros r r' Hw H. destruct (simplifyLoop_blocks _ _ _ _ H) as [Hc Hg].
  unfold wf_store. rewrite Hg. exact (wf_blocks_cfg _ _ _ (eq_sym Hc) Hw).
Qed.

(** ** Properties *)

(** C6: The whole pipeline of a function (lowering from the empty
    session, one resolver run, the simplifier to its fixpoint) yields,
    when it succeeds, a block store whose edges are symmetric, whose edge
    endpoints and ids lie in 1..bb_gen and whose ids are distinct. *)
Theorem pipeline_wf arch isT fuel addr instrs r :
  pipeline arch isT fuel addr instrs = Ok r ->
  edges_symmetric (bbs r) /\ edges_bounded r /\ bb_ids_ok r.
Proof.
  unfold pipeline. destruct (lowerPhase arch fuel addr instrs) as [r0|e] eqn:E; [|done]. intros H.
  apply wf_blocks_spec.
  exact (compose_phases_keeps _ _ _ (resolvePhase_keeps arch) (simplifyPhase_keeps isT) r0 r
           (lowerPhase_wf _ _ _ _ _ E) H).
Qed.

Lemma pipeline_wf_witness :
  exists r, pipeline fxArch fxTransient 10 0x20 [cmovI; repI] = Ok r /\
    edges_symmetric (bbs r) /\ edges_bounded r /\ bb_ids_ok r.
Proof.
  eexists. split; [vm_compute; reflexivity|].
  apply (pipeline_wf fxArch fxTransient 10 0x20 [cmovI; repI]). vm_compute. reflexivity.
Defined.
